(** * Strong/weak reference-counted handles (shared.h, weak.h)

    A shallow embedding of the control blocks, [SharedPtr], [WeakPtr],
    [MakeShared] and [EnableSharedFromThis], followed by the properties of
    the subsystem: payload and block lifetimes, the counter invariant,
    promotion and locking, the self-reference capability, equality.

    Memory is modelled by three finite maps (live control blocks, live
    payload objects, live handle variables) and an allocation counter.
    Pointers are addresses in [N], [0] is [nullptr].  The [size_t] counters
    are integers wrapped modulo [2^64].  Every member function is a
    computation in a state-and-outcome monad whose third outcome,
    [Undefined], stands for undefined behaviour of the C++ program (a call
    through a dangling block pointer, a null dereference, a double delete).

    Of a payload only what the library puts into it is modelled, the
    [weak_this_] member of [EnableSharedFromThis]; its teardown destroys
    that member and nothing else.  The theorems on reachable states are
    stated for programs short enough not to overflow a 64-bit counter
    ([4 * length ops + 8 < 2^64]).

    Two further parts follow the same plan, each in a module of its own:
    [Intrusive] for the intrusive counter and [IntrusivePtr] (intrusive.h),
    [Unique] for [CompressedPair] and [UniquePtr] (compressed_pair.h).
    Their proofs are in [IntrusiveFacts] and [UniqueFacts]. *)

From stdpp Require Import gmap list fin_maps.
From Stdlib Require Import ZArith NArith Lia.

Open Scope Z_scope.

(** ** Data model *)

Abbreviation addr := N (only parsing).
Definition nullptr : addr := 0%N.

(** [size_t] arithmetic: [++c] and [--c] wrap modulo [2^64]. *)
Definition wrap64 (z : Z) : Z := z mod 2 ^ 64.
Definition incr (c : Z) : Z := wrap64 (c + 1).
Definition decr (c : Z) : Z := wrap64 (c - 1).
Arguments wrap64 : simpl never.
Arguments incr : simpl never.
Arguments decr : simpl never.

(** The two concrete control blocks.  [ControlBlockWithPtr] keeps [ptr_], the
    address of a payload allocated elsewhere; [ControlBlockOwning] keeps the
    payload in its own [buffer_], whose address is recorded here. *)
Inductive BlockKind :=
| ControlBlockWithPtr (ptr_ : addr)
| ControlBlockOwning (buffer_ : addr).

Record ControlBlock := mkBlock {
  storage : BlockKind;
  ref_counter_ : Z;
  weak_ref_counter_ : Z
}.

Record SharedPtr := mkShared { s_block_ : addr; s_observer_ : addr }.
Record WeakPtr := mkWeak { w_block_ : addr; w_observer_ : addr }.

(** A payload object.  Only the part the library defines is kept: the
    [weak_this_] member of [EnableSharedFromThis], present ([Some]) exactly
    when the payload type derives from it. *)
Record Payload := mkPayload { weak_this_ : option WeakPtr }.

(** History of the lifetime events of the control blocks, newest first. *)
Inductive Event :=
| NewBlock (b : addr)
| DeletePayload (b : addr)
| DeleteBlock (b : addr).

Global Instance Event_eq_dec : EqDecision Event.
Proof. solve_decision. Defined.

(** The memory: the allocated control blocks and the live payload objects,
    by address; the live handle variables of the client, by name; the next
    address [new] hands out (it never fails and never reuses an address);
    the history. *)
Record State := mkState {
  blocks : gmap N ControlBlock;
  objects : gmap N Payload;
  shared : gmap N SharedPtr;
  weak : gmap N WeakPtr;
  next_ : addr;
  log : list Event
}.

Definition init_state : State :=
  {| blocks := ∅; objects := ∅; shared := ∅; weak := ∅; next_ := 1%N; log := [] |}.

Definition upd_blocks (f : gmap N ControlBlock → gmap N ControlBlock) (st : State) : State :=
  {| blocks := f (blocks st); objects := objects st; shared := shared st;
     weak := weak st; next_ := next_ st; log := log st |}.
Definition upd_objects (f : gmap N Payload → gmap N Payload) (st : State) : State :=
  {| blocks := blocks st; objects := f (objects st); shared := shared st;
     weak := weak st; next_ := next_ st; log := log st |}.
Definition upd_shared (f : gmap N SharedPtr → gmap N SharedPtr) (st : State) : State :=
  {| blocks := blocks st; objects := objects st; shared := f (shared st);
     weak := weak st; next_ := next_ st; log := log st |}.
Definition upd_weak (f : gmap N WeakPtr → gmap N WeakPtr) (st : State) : State :=
  {| blocks := blocks st; objects := objects st; shared := shared st;
     weak := f (weak st); next_ := next_ st; log := log st |}.
Definition upd_next (f : addr → addr) (st : State) : State :=
  {| blocks := blocks st; objects := objects st; shared := shared st;
     weak := weak st; next_ := f (next_ st); log := log st |}.
Definition emit (e : Event) (st : State) : State :=
  {| blocks := blocks st; objects := objects st; shared := shared st;
     weak := weak st; next_ := next_ st; log := e :: log st |}.

(** ** The outcome monad *)

(** A computation returns a value and a state, throws [BadWeakPtr] (the
    state is the one at the throw), or has undefined behaviour. *)
Inductive Outcome (A : Type) :=
| Ok (a : A) (st : State)
| Throw (st : State)
| Undefined.
Arguments Ok {A} a st.
Arguments Throw {A} st.
Arguments Undefined {A}.

Definition M (A : Type) := State → Outcome A.

Definition ret {A} (a : A) : M A := λ st, Ok a st.
Definition bind {A B} (m : M A) (k : A → M B) : M B :=
  λ st, match m st with
        | Ok a st' => k a st'
        | Throw st' => Throw st'
        | Undefined => Undefined
        end.
Definition throw {A} : M A := λ st, Throw st.
Definition undefined {A} : M A := λ _, Undefined.
Definition modify (f : State → State) : M unit := λ st, Ok tt (f st).
Definition when (c : bool) (m : M unit) : M unit := if c then m else ret tt.

Notation "'do' x <- m ; k" := (bind m (λ x, k))
  (at level 10, x name, m at level 100, k at level 200, only parsing).

(** ** Control blocks (class ControlBlockBase and its two implementations) *)

(** A virtual call through [b]: the block must still be allocated. *)
Definition get_block (b : addr) : M ControlBlock :=
  λ st, match blocks st !! b with
        | Some blk => Ok blk st
        | None => Undefined
        end.

Definition modify_block (f : ControlBlock → ControlBlock) (b : addr) : M unit :=
  do blk <- get_block b;
  modify (upd_blocks (insert b (f blk))).

Definition incr_ref (blk : ControlBlock) : ControlBlock :=
  mkBlock (storage blk) (incr (ref_counter_ blk)) (weak_ref_counter_ blk).
Definition decr_ref (blk : ControlBlock) : ControlBlock :=
  mkBlock (storage blk) (decr (ref_counter_ blk)) (weak_ref_counter_ blk).
Definition incr_weak (blk : ControlBlock) : ControlBlock :=
  mkBlock (storage blk) (ref_counter_ blk) (incr (weak_ref_counter_ blk)).
Definition decr_weak (blk : ControlBlock) : ControlBlock :=
  mkBlock (storage blk) (ref_counter_ blk) (decr (weak_ref_counter_ blk)).

(** [delete this]: both destructors are trivial, the block is released. *)
Definition delete_this (b : addr) : M unit :=
  do _ <- get_block b;
  modify (λ st, emit (DeleteBlock b) (upd_blocks (delete b) st)).

Definition IncrementRefCounter (b : addr) : M unit :=
  do _ <- modify_block incr_ref b;
  modify_block incr_weak b.

Definition IncrementWeakRefCounter (b : addr) : M unit :=
  modify_block incr_weak b.

Definition DecrementWeakRefCounter (b : addr) : M unit :=
  do _ <- modify_block decr_weak b;
  do blk <- get_block b;
  when (weak_ref_counter_ blk =? 0) (delete_this b).

Definition GetRefCount (b : addr) : M Z :=
  do blk <- get_block b;
  ret (ref_counter_ blk).

(** [~WeakPtr()], needed here already: the payload's teardown destroys its
    [weak_this_] member. *)
Definition WeakPtr_dtor (this : WeakPtr) : M unit :=
  when (negb (w_block_ this =? nullptr)%N) (DecrementWeakRefCounter (w_block_ this)).

(** Access to the payload object at [p]; undefined when no live object is
    there.  [take_object] removes it from the map of live objects,
    [put_object] places an object at a free address. *)
Definition take_object (p : addr) : M Payload :=
  λ st, match objects st !! p with
        | Some obj => Ok obj (upd_objects (delete p) st)
        | None => Undefined
        end.
Definition put_object (p : addr) (obj : Payload) : M unit :=
  λ st, match objects st !! p with
        | None => Ok tt (upd_objects (insert p obj) st)
        | Some _ => Undefined
        end.

(** The teardown [~Y()] of the payload object at [p]: its lifetime ends and
    its members (here [weak_this_], when the type has it) are destroyed. *)
Definition destroy_payload (p : addr) : M unit :=
  do obj <- take_object p;
  match weak_this_ obj with
  | Some w => WeakPtr_dtor w
  | None => ret tt
  end.

(** [delete ptr_] (a no-op on [nullptr]) for the external block, and
    [reinterpret_cast<Y*>(&buffer_)->~Y()] for the inline one.  The event is
    recorded when the statement has completed. *)
Definition delete_payload (b : addr) : M unit :=
  do blk <- get_block b;
  do _ <- match storage blk with
     | ControlBlockWithPtr p => when (negb (p =? nullptr)%N) (destroy_payload p)
     | ControlBlockOwning buf => destroy_payload buf
     end;
  modify (emit (DeletePayload b)).

Definition DecrementRefCounter (b : addr) : M unit :=
  do _ <- modify_block decr_ref b;
  do _ <- modify_block decr_weak b;
  do blk <- get_block b;
  do _ <- when (ref_counter_ blk =? 0)
       (do _ <- modify_block incr_weak b;
        do _ <- delete_payload b;
        modify_block decr_weak b);
  do blk' <- get_block b;
  when (weak_ref_counter_ blk' =? 0) (delete_this b).

(** ** Allocation *)

Definition alloc : M addr :=
  λ st, Ok (next_ st) (upd_next N.succ st).

Definition create_block (b : addr) (k : BlockKind) : M unit :=
  modify (λ st, emit (NewBlock b) (upd_blocks (insert b (mkBlock k 0 0)) st)).

(** [new ControlBlockWithPtr(ptr)]: both counters start at zero. *)
Definition new_ControlBlockWithPtr (ptr : addr) : M addr :=
  do b <- alloc;
  do _ <- create_block b (ControlBlockWithPtr ptr);
  ret b.

(** The payload as its constructor leaves it: a default-constructed
    [weak_this_] when the type derives from [EnableSharedFromThis]. *)
Definition WeakPtr_default : WeakPtr := mkWeak nullptr nullptr.
Definition fresh_payload (esft : bool) : Payload :=
  mkPayload (if esft then Some WeakPtr_default else None).

(** [new ControlBlockOwning<T>(args...)]: one allocation holding the block
    and, next to it, [buffer_], in which the payload is constructed.
    Returns the address of the block and the address of [buffer_]. *)
Definition new_ControlBlockOwning (esft : bool) : M (addr * addr) :=
  do b <- alloc;
  do buf <- alloc;
  do _ <- create_block b (ControlBlockOwning buf);
  do _ <- put_object buf (fresh_payload esft);
  ret (b, buf).

(** ** WeakPtr (weak.h) *)

Definition WeakPtr_copy (other : WeakPtr) : M WeakPtr :=
  let this := mkWeak (w_block_ other) (w_observer_ other) in
  do _ <- when (negb (w_block_ this =? nullptr)%N)
               (IncrementWeakRefCounter (w_block_ this));
  ret this.

(** Move construction: the new handle and what is left in [other]. *)
Definition WeakPtr_move (other : WeakPtr) : WeakPtr * WeakPtr :=
  (mkWeak (w_block_ other) (w_observer_ other), mkWeak nullptr nullptr).

(** Demote a [SharedPtr]. *)
Definition WeakPtr_from_shared (other : SharedPtr) : M WeakPtr :=
  let this := mkWeak (s_block_ other) (s_observer_ other) in
  do _ <- when (negb (w_block_ this =? nullptr)%N)
               (IncrementWeakRefCounter (w_block_ this));
  ret this.

(** [operator=(WeakPtr other)]: the body only; the by-value parameter is
    built and destroyed by the caller.  Returns the new value of [*this]. *)
Definition WeakPtr_assign (this other : WeakPtr) : M WeakPtr :=
  do _ <- when (negb (w_block_ this =? nullptr)%N)
               (DecrementWeakRefCounter (w_block_ this));
  let this' := mkWeak (w_block_ other) (w_observer_ other) in
  do _ <- when (negb (w_block_ this' =? nullptr)%N)
               (IncrementWeakRefCounter (w_block_ this'));
  ret this'.

(** [Reset()] is [*this = WeakPtr<T>()]. *)
Definition WeakPtr_Reset (this : WeakPtr) : M WeakPtr :=
  let other := WeakPtr_default in
  do this' <- WeakPtr_assign this other;
  do _ <- WeakPtr_dtor other;
  ret this'.

Definition WeakPtr_Swap (this other : WeakPtr) : WeakPtr * WeakPtr :=
  (mkWeak (w_block_ other) (w_observer_ other),
   mkWeak (w_block_ this) (w_observer_ this)).

Definition WeakPtr_UseCount (this : WeakPtr) : M Z :=
  if negb (w_block_ this =? nullptr)%N then GetRefCount (w_block_ this) else ret 0.

Definition WeakPtr_Expired (this : WeakPtr) : M bool :=
  do c <- WeakPtr_UseCount this;
  ret (c =? 0).

(** ** SharedPtr (shared.h) *)

(** [SharedPtr()] and [SharedPtr(std::nullptr_t)]. *)
Definition SharedPtr_default : SharedPtr := mkShared nullptr nullptr.

(** [ptr->weak_this_ = WeakPtr(sp)]: the temporary is built, assigned to the
    member of the object at [ptr] and destroyed. *)
Definition install_weak_this (ptr : addr) (sp : SharedPtr) : M unit :=
  do tmp <- WeakPtr_from_shared sp;
  do obj <- take_object ptr;
  match weak_this_ obj with
  | None => undefined
  | Some wt =>
      do wt' <- WeakPtr_assign wt tmp;
      do _ <- put_object ptr (mkPayload (Some wt'));
      WeakPtr_dtor tmp
  end.

(** [SharedPtr(Y* ptr)]; [esft] is [std::is_convertible_v<Y*, ESFTBase*>]. *)
Definition SharedPtr_from_raw (ptr : addr) (esft : bool) : M SharedPtr :=
  do b <- new_ControlBlockWithPtr ptr;
  let this := mkShared b ptr in
  do _ <- when (negb (s_block_ this =? nullptr)%N)
               (do _ <- IncrementRefCounter (s_block_ this);
                when esft (install_weak_this ptr this));
  ret this.

(** Copy construction (also from [SharedPtr<U>]). *)
Definition SharedPtr_copy (other : SharedPtr) : M SharedPtr :=
  let this := mkShared (s_block_ other) (s_observer_ other) in
  do _ <- when (negb (s_block_ this =? nullptr)%N)
               (IncrementRefCounter (s_block_ this));
  ret this.

(** Move construction: the new handle and what is left in [other]. *)
Definition SharedPtr_move (other : SharedPtr) : SharedPtr * SharedPtr :=
  (mkShared (s_block_ other) (s_observer_ other), mkShared nullptr nullptr).

(** Aliasing constructor [SharedPtr(const SharedPtr<Y>& other, T* ptr)]. *)
Definition SharedPtr_alias (other : SharedPtr) (ptr : addr) : M SharedPtr :=
  let this := mkShared (s_block_ other) ptr in
  do _ <- when (negb (s_block_ this =? nullptr)%N)
               (IncrementRefCounter (s_block_ this));
  ret this.

(** Promotion [SharedPtr(const WeakPtr<T>& other)]. *)
Definition SharedPtr_from_weak (other : WeakPtr) : M SharedPtr :=
  do e <- WeakPtr_Expired other;
  if e : bool then throw
  else
    let this := mkShared (w_block_ other) (w_observer_ other) in
    do _ <- when (negb (s_block_ this =? nullptr)%N)
                 (IncrementRefCounter (s_block_ this));
    ret this.

(** [operator=(SharedPtr other)]: the body only; the by-value parameter is
    built and destroyed by the caller.  Returns the new value of [*this]. *)
Definition SharedPtr_assign (this other : SharedPtr) : M SharedPtr :=
  do _ <- when (negb (s_block_ this =? nullptr)%N)
               (DecrementRefCounter (s_block_ this));
  let this' := mkShared (s_block_ other) (s_observer_ other) in
  do _ <- when (negb (s_block_ this' =? nullptr)%N)
               (IncrementRefCounter (s_block_ this'));
  ret this'.

Definition SharedPtr_dtor (this : SharedPtr) : M unit :=
  when (negb (s_block_ this =? nullptr)%N) (DecrementRefCounter (s_block_ this)).

(** [Reset()] is [*this = SharedPtr<T>(nullptr)]. *)
Definition SharedPtr_Reset (this : SharedPtr) : M SharedPtr :=
  let other := SharedPtr_default in
  do this' <- SharedPtr_assign this other;
  do _ <- SharedPtr_dtor other;
  ret this'.

(** [Reset(Y* ptr)] is [*this = SharedPtr<T>(ptr)]. *)
Definition SharedPtr_Reset_ptr (this : SharedPtr) (ptr : addr) (esft : bool) : M SharedPtr :=
  do other <- SharedPtr_from_raw ptr esft;
  do this' <- SharedPtr_assign this other;
  do _ <- SharedPtr_dtor other;
  ret this'.

Definition SharedPtr_Swap (this other : SharedPtr) : SharedPtr * SharedPtr :=
  (mkShared (s_block_ other) (s_observer_ other),
   mkShared (s_block_ this) (s_observer_ this)).

Definition SharedPtr_Get (this : SharedPtr) : addr := s_observer_ this.

Definition SharedPtr_UseCount (this : SharedPtr) : M Z :=
  if negb (s_block_ this =? nullptr)%N then GetRefCount (s_block_ this) else ret 0.

(** [explicit operator bool()]. *)
Definition SharedPtr_bool (this : SharedPtr) : bool :=
  negb (s_observer_ this =? nullptr)%N.

(** [operator==]. *)
Definition SharedPtr_eq (left right : SharedPtr) : bool :=
  (SharedPtr_Get left =? SharedPtr_Get right)%N.

Definition WeakPtr_Lock (this : WeakPtr) : M SharedPtr :=
  do e <- WeakPtr_Expired this;
  if e : bool then ret SharedPtr_default else SharedPtr_from_weak this.

(** [MakeShared<T>(args...)]; [esft] is [std::is_convertible_v<T*, ESFTBase*>]. *)
Definition MakeShared (esft : bool) : M SharedPtr :=
  do cb <- new_ControlBlockOwning esft;
  let result := mkShared (fst cb) (snd cb) in
  do _ <- IncrementRefCounter (s_block_ result);
  do _ <- when esft (install_weak_this (s_observer_ result) result);
  ret result.

(** ** EnableSharedFromThis *)

Definition get_weak_this (p : addr) : M WeakPtr :=
  λ st, match objects st !! p with
        | Some (mkPayload (Some w)) => Ok w st
        | _ => Undefined
        end.

Definition SharedFromThis (p : addr) : M SharedPtr :=
  do w <- get_weak_this p;
  SharedPtr_from_weak w.

Definition WeakFromThis (p : addr) : M WeakPtr :=
  do w <- get_weak_this p;
  WeakPtr_copy w.

(** ** Programs: sequences of operations on named handles

    A client program is a sequence of operations on handle variables, named
    by numbers.  A handle under construction gets a name that is not in use;
    the handle a member function runs on is taken out of the table of idle
    handles for the duration of the call and put back with its new value.
    Naming a variable that is not live is undefined. *)

Definition get_shared (x : N) : M SharedPtr :=
  λ st, match shared st !! x with Some h => Ok h st | None => Undefined end.
Definition take_shared (x : N) : M SharedPtr :=
  λ st, match shared st !! x with
        | Some h => Ok h (upd_shared (delete x) st)
        | None => Undefined
        end.
Definition put_shared (x : N) (h : SharedPtr) : M unit :=
  λ st, match shared st !! x with
        | None => Ok tt (upd_shared (insert x h) st)
        | Some _ => Undefined
        end.
Definition get_weak (w : N) : M WeakPtr :=
  λ st, match weak st !! w with Some h => Ok h st | None => Undefined end.
Definition take_weak (w : N) : M WeakPtr :=
  λ st, match weak st !! w with
        | Some h => Ok h (upd_weak (delete w) st)
        | None => Undefined
        end.
Definition put_weak (w : N) (h : WeakPtr) : M unit :=
  λ st, match weak st !! w with
        | None => Ok tt (upd_weak (insert w h) st)
        | Some _ => Undefined
        end.

Inductive Op :=
| NewPayload (esft : bool)                    (* new Y(...), by the client *)
| SDefault (x : N)                            (* SharedPtr<T> x; *)
| SFromRaw (x : N) (p : addr) (esft : bool)   (* SharedPtr<T> x(p); *)
| SMakeShared (x : N) (esft : bool)           (* auto x = MakeShared<T>(...); *)
| SCopy (x y : N)                             (* SharedPtr<T> x(y); *)
| SMove (x y : N)                             (* SharedPtr<T> x(std::move(y)); *)
| SAlias (x y : N) (p : addr)                 (* SharedPtr<T> x(y, p); *)
| SPromote (x w : N)                          (* SharedPtr<T> x(w); *)
| SAssign (x y : N)                           (* x = y; *)
| SMoveAssign (x y : N)                       (* x = std::move(y); *)
| SReset (x : N)                              (* x.Reset(); *)
| SResetPtr (x : N) (p : addr) (esft : bool)  (* x.Reset(p); *)
| SSwap (x y : N)                             (* x.Swap(y); *)
| SDestroy (x : N)                            (* x goes out of scope *)
| SSharedFromThis (x : N) (p : addr)          (* auto x = p->SharedFromThis(); *)
| WDefault (w : N)                            (* WeakPtr<T> w; *)
| WCopy (w v : N)                             (* WeakPtr<T> w(v); *)
| WMove (w v : N)                             (* WeakPtr<T> w(std::move(v)); *)
| WDemote (w x : N)                           (* WeakPtr<T> w(x); *)
| WAssign (w v : N)                           (* w = v; *)
| WMoveAssign (w v : N)                       (* w = std::move(v); *)
| WAssignShared (w x : N)                     (* w = x; with x a SharedPtr *)
| WReset (w : N)                              (* w.Reset(); *)
| WSwap (w v : N)                             (* w.Swap(v); *)
| WDestroy (w : N)                            (* w goes out of scope *)
| WLock (x w : N)                             (* auto x = w.Lock(); *)
| WWeakFromThis (w : N) (p : addr).           (* auto w = p->WeakFromThis(); *)

Definition step (op : Op) : M unit :=
  match op with
  | NewPayload esft =>
      do p <- alloc;
      put_object p (fresh_payload esft)
  | SDefault x => put_shared x SharedPtr_default
  | SFromRaw x p esft =>
      do h <- SharedPtr_from_raw p esft;
      put_shared x h
  | SMakeShared x esft =>
      do h <- MakeShared esft;
      put_shared x h
  | SCopy x y =>
      do other <- get_shared y;
      do h <- SharedPtr_copy other;
      put_shared x h
  | SMove x y =>
      do other <- take_shared y;
      do _ <- put_shared y (snd (SharedPtr_move other));
      put_shared x (fst (SharedPtr_move other))
  | SAlias x y p =>
      do other <- get_shared y;
      do h <- SharedPtr_alias other p;
      put_shared x h
  | SPromote x w =>
      do other <- get_weak w;
      do h <- SharedPtr_from_weak other;
      put_shared x h
  | SAssign x y =>
      do hy <- get_shared y;
      do other <- SharedPtr_copy hy;
      do this <- take_shared x;
      do this' <- SharedPtr_assign this other;
      do _ <- put_shared x this';
      SharedPtr_dtor other
  | SMoveAssign x y =>
      do hy <- take_shared y;
      do _ <- put_shared y (snd (SharedPtr_move hy));
      let other := fst (SharedPtr_move hy) in
      do this <- take_shared x;
      do this' <- SharedPtr_assign this other;
      do _ <- put_shared x this';
      SharedPtr_dtor other
  | SReset x =>
      do this <- take_shared x;
      do this' <- SharedPtr_Reset this;
      put_shared x this'
  | SResetPtr x p esft =>
      do this <- take_shared x;
      do this' <- SharedPtr_Reset_ptr this p esft;
      put_shared x this'
  | SSwap x y =>
      if (x =? y)%N then
        do _ <- get_shared x; ret tt
      else
        do this <- take_shared x;
        do other <- take_shared y;
        do _ <- put_shared x (fst (SharedPtr_Swap this other));
        put_shared y (snd (SharedPtr_Swap this other))
  | SDestroy x =>
      do this <- take_shared x;
      SharedPtr_dtor this
  | SSharedFromThis x p =>
      do h <- SharedFromThis p;
      put_shared x h
  | WDefault w => put_weak w WeakPtr_default
  | WCopy w v =>
      do other <- get_weak v;
      do h <- WeakPtr_copy other;
      put_weak w h
  | WMove w v =>
      do other <- take_weak v;
      do _ <- put_weak v (snd (WeakPtr_move other));
      put_weak w (fst (WeakPtr_move other))
  | WDemote w x =>
      do other <- get_shared x;
      do h <- WeakPtr_from_shared other;
      put_weak w h
  | WAssign w v =>
      do hv <- get_weak v;
      do other <- WeakPtr_copy hv;
      do this <- take_weak w;
      do this' <- WeakPtr_assign this other;
      do _ <- put_weak w this';
      WeakPtr_dtor other
  | WMoveAssign w v =>
      do hv <- take_weak v;
      do _ <- put_weak v (snd (WeakPtr_move hv));
      let other := fst (WeakPtr_move hv) in
      do this <- take_weak w;
      do this' <- WeakPtr_assign this other;
      do _ <- put_weak w this';
      WeakPtr_dtor other
  | WAssignShared w x =>
      do hx <- get_shared x;
      do other <- WeakPtr_from_shared hx;
      do this <- take_weak w;
      do this' <- WeakPtr_assign this other;
      do _ <- put_weak w this';
      WeakPtr_dtor other
  | WReset w =>
      do this <- take_weak w;
      do this' <- WeakPtr_Reset this;
      put_weak w this'
  | WSwap w v =>
      if (w =? v)%N then
        do _ <- get_weak w; ret tt
      else
        do this <- take_weak w;
        do other <- take_weak v;
        do _ <- put_weak w (fst (WeakPtr_Swap this other));
        put_weak v (snd (WeakPtr_Swap this other))
  | WDestroy w =>
      do this <- take_weak w;
      WeakPtr_dtor this
  | WLock x w =>
      do this <- get_weak w;
      do h <- WeakPtr_Lock this;
      put_shared x h
  | WWeakFromThis w p =>
      do h <- WeakFromThis p;
      put_weak w h
  end.

(** Running a program.  An operation that throws is caught by the client,
    which goes on from the state at the throw. *)
Fixpoint run (ops : list Op) (st : State) : Outcome unit :=
  match ops with
  | [] => Ok tt st
  | op :: rest =>
      match step op st with
      | Ok _ st' => run rest st'
      | Throw st' => run rest st'
      | Undefined => Undefined
      end
  end.

(** The state a program ends in, for use on concrete programs. *)
Definition final (ops : list Op) : State :=
  match run ops init_state with
  | Ok _ st => st
  | _ => init_state
  end.

(** ** Counting the handles that reference a block *)

(** Number of entries of the table [m] whose block pointer, read with [f],
    is [b]. *)
Definition refs_on {A : Type} (f : A → addr) (b : addr) (m : gmap N A) : nat :=
  size (filter (λ kv : N * A, f kv.2 = b) m).

(** ** The invariant

    [InvG k es ew dy st] relates the counters of every block to the handles
    that exist in [st].  During an operation some references exist that are
    not in the tables: temporaries and handles taken out of a table ([es]
    for strong ones, [ew] for weak ones, each listed by its block), and the
    extra weak count held while a payload is torn down ([dy], the block whose
    payload is being destroyed).  Between operations all three are empty.
    [k] is the room left below [2^64]. *)

(** The block the [weak_this_] member of a payload references, [nullptr]
    when the payload has no such member. *)
Definition emb_block (obj : Payload) : addr :=
  match weak_this_ obj with
  | Some w => w_block_ w
  | None => nullptr
  end.

(** Occurrences of [b] in a list of blocks. *)
Fixpoint occ (b : addr) (l : list addr) : nat :=
  match l with
  | [] => 0
  | a :: l' => (if decide (a = b) then 1 else 0) + occ b l'
  end%nat.

(** The extra weak count held on the block whose payload is being torn
    down. *)
Definition guard (dy : option addr) (b : addr) : nat :=
  if decide (dy = Some b) then 1%nat else 0%nat.

(** Live strong handles on [b], and live weak handles on [b] (the weak
    handle variables and the [weak_this_] members of live payloads). *)
Definition strong_refs (st : State) (b : addr) : nat :=
  refs_on s_block_ b (shared st).
Definition weak_refs (st : State) (b : addr) : nat :=
  (refs_on w_block_ b (weak st) + refs_on emb_block b (objects st))%nat.

(** All strong, and all weak, references on [b]: those in the tables and
    those in flight. *)
Definition S_ (es : list addr) (st : State) (b : addr) : nat :=
  (strong_refs st b + occ b es)%nat.
Definition W_ (ew : list addr) (dy : option addr) (st : State) (b : addr) : nat :=
  (weak_refs st b + occ b ew + guard dy b)%nat.

(** A well-formed history: a block is created once, its payload is destroyed
    once and after the creation, the block is destroyed once and after its
    payload. *)
Fixpoint wf_log (l : list Event) : Prop :=
  match l with
  | [] => True
  | NewBlock b :: l' => ¬ In (NewBlock b) l' ∧ wf_log l'
  | DeletePayload b :: l' =>
      In (NewBlock b) l' ∧ ¬ In (DeletePayload b) l' ∧ wf_log l'
  | DeleteBlock b :: l' =>
      In (DeletePayload b) l' ∧ ¬ In (DeleteBlock b) l' ∧ wf_log l'
  end.

Record InvG (k : nat) (es ew : list addr) (dy : option addr) (st : State) : Prop := {
  inv_next_pos : next_ st ≠ nullptr;
  inv_next : ∀ a, (next_ st ≤ a)%N →
             blocks st !! a = None ∧ objects st !! a = None;
  inv_log : wf_log (log st);
  inv_log_addr : ∀ b, In (NewBlock b) (log st) → b ≠ nullptr ∧ (b < next_ st)%N;
  inv_live : ∀ b, is_Some (blocks st !! b) ↔
                  In (NewBlock b) (log st) ∧ ¬ In (DeleteBlock b) (log st);
  inv_counts : ∀ b, b ≠ nullptr →
      match blocks st !! b with
      | Some blk =>
          ref_counter_ blk = Z.of_nat (S_ es st b) ∧
          weak_ref_counter_ blk = Z.of_nat (S_ es st b + W_ ew dy st b) ∧
          (0 < S_ es st b + W_ ew dy st b)%nat
      | None => S_ es st b = 0%nat ∧ W_ ew dy st b = 0%nat
      end;
  inv_bound : ∀ b, b ≠ nullptr →
      Z.of_nat (S_ es st b + W_ ew dy st b) + Z.of_nat k < 2 ^ 64;
  inv_payload : ∀ b, In (NewBlock b) (log st) →
      (In (DeletePayload b) (log st) ↔ S_ es st b = 0%nat ∧ dy ≠ Some b);
  inv_dying : ∀ d, dy = Some d → d ≠ nullptr ∧ S_ es st d = 0%nat
}.

(** The invariant between operations. *)
Definition Inv (k : nat) (st : State) : Prop := InvG k [] [] None st.

(** ** Vocabulary of the proofs *)

(** [quiet m]: the computation [m] never throws, leaves the tables of handle
    variables as they are and only adds events to the history. *)
Definition frame (st st' : State) : Prop :=
  shared st' = shared st ∧ weak st' = weak st ∧ ∃ new, log st' = new ++ log st.

Definition quiet {A} (m : M A) : Prop :=
  ∀ st, match m st with
        | Ok _ st' => frame st st'
        | Throw _ => False
        | Undefined => True
        end.

(** [calm m]: [m] never throws and only adds events to the history; it may
    change the tables of handle variables. *)
Definition log_ext (st st' : State) : Prop := ∃ new, log st' = new ++ log st.

Definition calm {A} (m : M A) : Prop :=
  ∀ st, match m st with
        | Ok _ st' => log_ext st st'
        | Throw _ => False
        | Undefined => True
        end.

(** The operations that go through the promoting constructor. *)
Definition promotes (op : Op) : bool :=
  match op with
  | SPromote _ _ | SSharedFromThis _ _ => true
  | _ => false
  end.

(** The weak counter operations leave the tables and the allocator alone. *)
Definition same_tables (st st' : State) : Prop :=
  objects st' = objects st ∧ shared st' = shared st ∧
  weak st' = weak st ∧ next_ st' = next_ st.

(** The address of the payload a block destroys. *)
Definition payload_of (k : BlockKind) : addr :=
  match k with
  | ControlBlockWithPtr p => p
  | ControlBlockOwning buf => buf
  end.

(** The state right after [new ControlBlockWithPtr(ptr)] and the first
    [IncrementRefCounter]. *)
Definition after_new_WithPtr (ptr : addr) (st : State) : State :=
  upd_blocks (insert (next_ st) (mkBlock (ControlBlockWithPtr ptr) 1 1))
    (emit (NewBlock (next_ st))
       (upd_blocks (insert (next_ st) (mkBlock (ControlBlockWithPtr ptr) 0 0))
          (upd_next N.succ st))).

(** The state right after [new ControlBlockOwning<T>(...)] and the first
    [IncrementRefCounter]. *)
Definition after_new_Owning (esft : bool) (st : State) : State :=
  upd_blocks (insert (next_ st) (mkBlock (ControlBlockOwning (N.succ (next_ st))) 1 1))
    (upd_objects (insert (N.succ (next_ st)) (fresh_payload esft))
       (emit (NewBlock (next_ st))
          (upd_blocks (insert (next_ st)
                         (mkBlock (ControlBlockOwning (N.succ (next_ st))) 0 0))
             (upd_next N.succ (upd_next N.succ st))))).

(** The handle invariant of the strong handle: no block, no pointer. *)
Definition handle_ok (h : SharedPtr) : Prop :=
  s_block_ h = nullptr → s_observer_ h = nullptr.

Definition handles_ok (m : gmap N SharedPtr) : Prop :=
  ∀ x h, m !! x = Some h → handle_ok h.

(** [keeps_shared m]: [m] does not touch the table of strong handles. *)
Definition keeps_shared {A} (m : M A) : Prop :=
  ∀ st a st', m st = Ok a st' → shared st' = shared st.

(** The aliasing constructor applied to a handle without a block is given a
    null pointer. *)
Definition alias_guarded (st : State) (op : Op) : bool :=
  match op with
  | SAlias _ y p =>
      match shared st !! y with
      | Some h => negb (s_block_ h =? nullptr)%N || (p =? nullptr)%N
      | None => true
      end
  | _ => true
  end.

(** The same along a program. *)
Fixpoint aliases_guarded (ops : list Op) (st : State) : bool :=
  match ops with
  | [] => true
  | op :: rest =>
      alias_guarded st op &&
      match step op st with
      | Ok _ st' => aliases_guarded rest st'
      | Throw st' => aliases_guarded rest st'
      | Undefined => true
      end
  end.

(** ** Some programs, used to instantiate the theorems *)

Definition prog_shared : list Op :=
  [NewPayload true; SFromRaw 1 1 true; SCopy 2 1; WDemote 1 2]%N.

Definition prog_last : list Op :=
  [NewPayload false; SFromRaw 1 1 false; SCopy 2 1; WDemote 1 2; SDestroy 1]%N.

Definition prog_self : list Op := [NewPayload true; SFromRaw 1 1 true]%N.

Definition prog_expired : list Op := prog_last ++ [SDestroy 2%N].

Definition prog_payload : list Op := [NewPayload true].

Definition prog_one : list Op := [NewPayload false; SFromRaw 1 1 false]%N.

Definition prog_alias_empty : list Op := [SDefault 1; SAlias 2 1 5]%N.
Definition prog_alias : list Op :=
  [NewPayload false; SFromRaw 1 1 false; SAlias 2 1 7; SMove 3 1; SReset 2]%N.

Definition prog_two_views : list Op :=
  [NewPayload false; SFromRaw 1 1 false; SAlias 2 1 7]%N.

(** ** Operations on weak handles only *)

(** The operations of a program that name weak handle variables only
    (and [WeakFromThis], which reads a payload's [weak_this_]). *)
Definition weak_only (op : Op) : bool :=
  match op with
  | WDefault _ | WCopy _ _ | WMove _ _ | WDemote _ _ | WAssign _ _
  | WMoveAssign _ _ | WAssignShared _ _ | WReset _ | WSwap _ _ | WDestroy _
  | WWeakFromThis _ _ => true
  | _ => false
  end.

(** A computation that, when it returns, has left the strong handles and
    the payload objects alone and has deleted control blocks at most. *)
Definition spares_payloads {A} (m : M A) : Prop :=
  ∀ st a st', m st = Ok a st' →
    shared st' = shared st ∧ objects st' = objects st ∧
    ∃ new, log st' = new ++ log st ∧ ∀ e, In e new → ∃ b, e = DeleteBlock b.

(** * Intrusive reference counting (intrusive.h)

    The counter lives in the object itself.  Memory is the map of the live
    reference-counted objects and the map of the live [IntrusivePtr]
    variables; the history lists the objects that [DefaultDelete::Destroy]
    has deleted, newest first.  The only outcomes are a result and undefined
    behaviour: nothing in this file throws. *)

Module Intrusive.

(** [SimpleCounter].  [IncRef] and [DecRef] return the new value of
    [count_] and the counter they leave. *)
Record SimpleCounter := mkCounter { count_ : Z }.

Definition SimpleCounter_IncRef (c : SimpleCounter) : Z * SimpleCounter :=
  (incr (count_ c), mkCounter (incr (count_ c))).
Definition SimpleCounter_DecRef (c : SimpleCounter) : Z * SimpleCounter :=
  (decr (count_ c), mkCounter (decr (count_ c))).
Definition SimpleCounter_RefCount (c : SimpleCounter) : Z := count_ c.

(** The [RefCounted<Derived, SimpleCounter, DefaultDelete>] part of an
    object: its [counter_]. *)
Record RefCounted := mkRefCounted { counter_ : SimpleCounter }.

(** The constructors leave [counter_] default-initialised, also the copy and
    move constructors; both assignment operators return [*this] as it is. *)
Definition RefCounted_ctor : RefCounted := mkRefCounted (mkCounter 0).
Definition RefCounted_copy (other : RefCounted) : RefCounted :=
  mkRefCounted (mkCounter 0).
Definition RefCounted_assign (this other : RefCounted) : RefCounted := this.

Record IntrusivePtr := mkIntrusive { observer_ : addr }.

Record State := mkState {
  heap : gmap N RefCounted;
  vars : gmap N IntrusivePtr;
  next_ : addr;
  log : list addr
}.

Definition init_state : State :=
  {| heap := ∅; vars := ∅; next_ := 1%N; log := [] |}.

Definition upd_heap (f : gmap N RefCounted → gmap N RefCounted) (st : State) : State :=
  {| heap := f (heap st); vars := vars st; next_ := next_ st; log := log st |}.
Definition upd_vars (f : gmap N IntrusivePtr → gmap N IntrusivePtr) (st : State) : State :=
  {| heap := heap st; vars := f (vars st); next_ := next_ st; log := log st |}.
Definition upd_next (f : addr → addr) (st : State) : State :=
  {| heap := heap st; vars := vars st; next_ := f (next_ st); log := log st |}.
Definition emit (p : addr) (st : State) : State :=
  {| heap := heap st; vars := vars st; next_ := next_ st; log := p :: log st |}.

Inductive Outcome (A : Type) :=
| Ok (a : A) (st : State)
| Undefined.
Arguments Ok {A} a st.
Arguments Undefined {A}.

Definition M (A : Type) := State → Outcome A.

Definition ret {A} (a : A) : M A := λ st, Ok a st.
Definition bind {A B} (m : M A) (k : A → M B) : M B :=
  λ st, match m st with
        | Ok a st' => k a st'
        | Undefined => Undefined
        end.
Definition modify (f : State → State) : M unit := λ st, Ok tt (f st).
Definition when (c : bool) (m : M unit) : M unit := if c then m else ret tt.

#[local, warnings="-notation-overridden"] Notation "'do' x <- m ; k" := (bind m (λ x, k))
  (at level 10, x name, m at level 100, k at level 200, only parsing).

(** A member function call through [p]: an object must be alive there. *)
Definition get_object (p : addr) : M RefCounted :=
  λ st, match heap st !! p with
        | Some o => Ok o st
        | None => Undefined
        end.
Definition set_object (p : addr) (o : RefCounted) : M unit :=
  modify (upd_heap (insert p o)).

(** [new T(...)], with the [RefCounted] part as given. *)
Definition new_object (o : RefCounted) : M addr :=
  λ st, match heap st !! next_ st with
        | None => Ok (next_ st) (upd_next N.succ (upd_heap (insert (next_ st) o) st))
        | Some _ => Undefined
        end.

(** [DefaultDelete::Destroy(object)]: [delete object]. *)
Definition DefaultDelete_Destroy (object : addr) : M unit :=
  if (object =? nullptr)%N then ret tt
  else
    do _ <- get_object object;
    modify (λ st, emit object (upd_heap (delete object) st)).

Definition RefCounted_IncRef (this : addr) : M unit :=
  do o <- get_object this;
  set_object this (mkRefCounted (snd (SimpleCounter_IncRef (counter_ o)))).

Definition RefCounted_DecRef (this : addr) : M unit :=
  do o <- get_object this;
  let r := SimpleCounter_DecRef (counter_ o) in
  do _ <- set_object this (mkRefCounted (snd r));
  when (fst r =? 0) (DefaultDelete_Destroy this).

Definition RefCounted_RefCount (this : addr) : M Z :=
  do o <- get_object this;
  ret (SimpleCounter_RefCount (counter_ o)).

(** [IntrusivePtr()] and [IntrusivePtr(std::nullptr_t)]. *)
Definition IntrusivePtr_default : IntrusivePtr := mkIntrusive nullptr.

(** [IntrusivePtr(T* ptr)]. *)
Definition IntrusivePtr_from_raw (ptr : addr) : M IntrusivePtr :=
  let this := mkIntrusive ptr in
  do _ <- when (negb (observer_ this =? nullptr)%N) (RefCounted_IncRef (observer_ this));
  ret this.

Definition IntrusivePtr_copy (other : IntrusivePtr) : M IntrusivePtr :=
  let this := mkIntrusive (observer_ other) in
  do _ <- when (negb (observer_ this =? nullptr)%N) (RefCounted_IncRef (observer_ this));
  ret this.

(** Move construction: the new handle and what is left in [other]. *)
Definition IntrusivePtr_move (other : IntrusivePtr) : IntrusivePtr * IntrusivePtr :=
  (mkIntrusive (observer_ other), mkIntrusive nullptr).

Definition IntrusivePtr_Swap (this other : IntrusivePtr) : IntrusivePtr * IntrusivePtr :=
  (mkIntrusive (observer_ other), mkIntrusive (observer_ this)).

(** [operator=(IntrusivePtr other)]: the body only, [this->Swap(other)]; the
    by-value parameter is built and destroyed by the caller.  Returns the
    new values of [*this] and of the parameter. *)
Definition IntrusivePtr_assign (this other : IntrusivePtr) : IntrusivePtr * IntrusivePtr :=
  IntrusivePtr_Swap this other.

Definition IntrusivePtr_dtor (this : IntrusivePtr) : M unit :=
  when (negb (observer_ this =? nullptr)%N) (RefCounted_DecRef (observer_ this)).

Definition IntrusivePtr_Reset (this : IntrusivePtr) : M IntrusivePtr :=
  do _ <- when (negb (observer_ this =? nullptr)%N) (RefCounted_DecRef (observer_ this));
  ret (mkIntrusive nullptr).

Definition IntrusivePtr_Reset_ptr (this : IntrusivePtr) (ptr : addr) : M IntrusivePtr :=
  do _ <- when (negb (observer_ this =? nullptr)%N) (RefCounted_DecRef (observer_ this));
  let this' := mkIntrusive ptr in
  do _ <- when (negb (observer_ this' =? nullptr)%N) (RefCounted_IncRef (observer_ this'));
  ret this'.

Definition IntrusivePtr_Get (this : IntrusivePtr) : addr := observer_ this.

Definition IntrusivePtr_UseCount (this : IntrusivePtr) : M Z :=
  if negb (observer_ this =? nullptr)%N then RefCounted_RefCount (observer_ this)
  else ret 0.

Definition IntrusivePtr_bool (this : IntrusivePtr) : bool :=
  negb (observer_ this =? nullptr)%N.

Definition MakeIntrusive : M IntrusivePtr :=
  do obj <- new_object RefCounted_ctor;
  IntrusivePtr_from_raw obj.

(** Programs over named [IntrusivePtr] variables; naming a variable that is
    not live, or constructing one under a name in use, is undefined. *)
Definition get_var (x : N) : M IntrusivePtr :=
  λ st, match vars st !! x with Some h => Ok h st | None => Undefined end.
Definition take_var (x : N) : M IntrusivePtr :=
  λ st, match vars st !! x with
        | Some h => Ok h (upd_vars (delete x) st)
        | None => Undefined
        end.
Definition put_var (x : N) (h : IntrusivePtr) : M unit :=
  λ st, match vars st !! x with
        | None => Ok tt (upd_vars (insert x h) st)
        | Some _ => Undefined
        end.

Inductive Op :=
| NewObject                       (* T* p = new T(...); by the client *)
| CopyObject (q : addr)           (* T* p = new T( *q ); *)
| AssignObject (p q : addr)       (* *p = *q; *)
| IDefault (x : N)                (* IntrusivePtr<T> x; *)
| IFromRaw (x : N) (p : addr)     (* IntrusivePtr<T> x(p); *)
| IMake (x : N)                   (* auto x = MakeIntrusive<T>(...); *)
| ICopy (x y : N)                 (* IntrusivePtr<T> x(y); *)
| IMove (x y : N)                 (* IntrusivePtr<T> x(std::move(y)); *)
| IAssign (x y : N)               (* x = y; *)
| IMoveAssign (x y : N)           (* x = std::move(y); *)
| IAssignRaw (x : N) (p : addr)   (* x = p; through the converting constructor *)
| IReset (x : N)                  (* x.Reset(); *)
| IResetPtr (x : N) (p : addr)    (* x.Reset(p); *)
| ISwap (x y : N)                 (* x.Swap(y); *)
| IDestroy (x : N).               (* x goes out of scope *)

Definition step (op : Op) : M unit :=
  match op with
  | NewObject =>
      do _ <- new_object RefCounted_ctor; ret tt
  | CopyObject q =>
      do o <- get_object q;
      do _ <- new_object (RefCounted_copy o); ret tt
  | AssignObject p q =>
      do this <- get_object p;
      do other <- get_object q;
      set_object p (RefCounted_assign this other)
  | IDefault x => put_var x IntrusivePtr_default
  | IFromRaw x p =>
      do h <- IntrusivePtr_from_raw p;
      put_var x h
  | IMake x =>
      do h <- MakeIntrusive;
      put_var x h
  | ICopy x y =>
      do other <- get_var y;
      do h <- IntrusivePtr_copy other;
      put_var x h
  | IMove x y =>
      do other <- take_var y;
      do _ <- put_var y (snd (IntrusivePtr_move other));
      put_var x (fst (IntrusivePtr_move other))
  | IAssign x y =>
      do hy <- get_var y;
      do other <- IntrusivePtr_copy hy;
      do this <- take_var x;
      do _ <- put_var x (fst (IntrusivePtr_assign this other));
      IntrusivePtr_dtor (snd (IntrusivePtr_assign this other))
  | IMoveAssign x y =>
      do hy <- take_var y;
      do _ <- put_var y (snd (IntrusivePtr_move hy));
      let other := fst (IntrusivePtr_move hy) in
      do this <- take_var x;
      do _ <- put_var x (fst (IntrusivePtr_assign this other));
      IntrusivePtr_dtor (snd (IntrusivePtr_assign this other))
  | IAssignRaw x p =>
      do other <- IntrusivePtr_from_raw p;
      do this <- take_var x;
      do _ <- put_var x (fst (IntrusivePtr_assign this other));
      IntrusivePtr_dtor (snd (IntrusivePtr_assign this other))
  | IReset x =>
      do this <- take_var x;
      do this' <- IntrusivePtr_Reset this;
      put_var x this'
  | IResetPtr x p =>
      do this <- take_var x;
      do this' <- IntrusivePtr_Reset_ptr this p;
      put_var x this'
  | ISwap x y =>
      if (x =? y)%N then
        do _ <- get_var x; ret tt
      else
        do this <- take_var x;
        do other <- take_var y;
        do _ <- put_var x (fst (IntrusivePtr_Swap this other));
        put_var y (snd (IntrusivePtr_Swap this other))
  | IDestroy x =>
      do this <- take_var x;
      IntrusivePtr_dtor this
  end.

Fixpoint run (ops : list Op) (st : State) : Outcome unit :=
  match ops with
  | [] => Ok tt st
  | op :: rest =>
      match step op st with
      | Ok _ st' => run rest st'
      | Undefined => Undefined
      end
  end.

Definition final (ops : list Op) : State :=
  match run ops init_state with
  | Ok _ st => st
  | Undefined => init_state
  end.

(** [m] run [n] times. *)
Fixpoint times (n : nat) (m : M unit) : M unit :=
  match n with
  | O => ret tt
  | S n' => do _ <- m; times n' m
  end.

(** Number of [IntrusivePtr] variables that point to [p]. *)
Definition handles (st : State) (p : addr) : nat :=
  refs_on observer_ p (vars st).

(** The invariant.  [es] lists the pointers held by handles that are not in
    the table (temporaries, and handles a member function is running on);
    [k] is the room left below [2^64]; [st0] is the state the current
    operation started in, to which the last five clauses relate [st]. *)
Record InvG (st0 : State) (k : nat) (es : list addr) (st : State) : Prop := {
  inv_next_pos : next_ st ≠ nullptr;
  inv_next : ∀ a, (next_ st ≤ a)%N → heap st !! a = None;
  inv_null : heap st !! nullptr = None;
  inv_counts : ∀ p, p ≠ nullptr →
      match heap st !! p with
      | Some o => count_ (counter_ o) = Z.of_nat (handles st p + occ p es)
      | None => (handles st p + occ p es = 0)%nat
      end;
  inv_bound : ∀ p, p ≠ nullptr →
      Z.of_nat (handles st p + occ p es) + Z.of_nat k < 2 ^ 64;
  inv_log : NoDup (log st);
  inv_dead : ∀ p, p ∈ log st ↔
                  p ≠ nullptr ∧ (p < next_ st)%N ∧ heap st !! p = None;
  rel_next : (next_ st0 ≤ next_ st)%N;
  rel_fresh : ∀ a, (next_ st0 ≤ a)%N → handles st0 a = 0%nat;
  rel_log : ∃ new, log st = new ++ log st0;
  rel_zero : ∀ p, is_Some (heap st !! p) →
                  (handles st p + occ p es = 0)%nat → handles st0 p = 0%nat;
  rel_destroyed : ∀ p, p ∈ log st →
                       p ∈ log st0 ∨ (0 < handles st0 p)%nat
}.

(** The invariant between operations. *)
Definition Inv (k : nat) (st : State) : Prop := InvG st k [] st.

Definition prog_two : list Op := [NewObject; IFromRaw 1 1; IFromRaw 2 1]%N.
Definition prog_one : list Op := [IMake 1%N].
Definition prog_pair : list Op := [IMake 1; IMake 2]%N.

End Intrusive.

(** * Exclusive ownership (compressed_pair.h, with [UniquePtr])

    [UniquePtr<T, Deleter>] keeps a pointer and a deleter in a
    [CompressedPair].  The deleter is a template parameter: the model takes
    its type, the effect of a call [d(ptr)] on the heap of objects ([None]
    when the call has undefined behaviour) and the value a move leaves
    behind as parameters, and gives the instance for [MyDefaultDelete].
    The history records every call of a deleter and every pointer handed
    back to the client by [Release]. *)

Module Unique.

(** [CompressedPairElement<T, I>] and [CompressedPair<F, S>]. *)
Record CompressedPairElement (T : Type) := mkElement { value_ : T }.
Arguments mkElement {T} value_.
Arguments value_ {T} _.

Definition GetValue {T} (e : CompressedPairElement T) : T := value_ e.

Record CompressedPair (F S : Type) := mkPair {
  FirstBase : CompressedPairElement F;
  SecondBase : CompressedPairElement S
}.
Arguments mkPair {F S} FirstBase SecondBase.
Arguments FirstBase {F S} _.
Arguments SecondBase {F S} _.

(** [CompressedPair(first, second)]. *)
Definition CompressedPair_ctor {F S} (first : F) (second : S) : CompressedPair F S :=
  mkPair (mkElement first) (mkElement second).

Definition GetFirst {F S} (cp : CompressedPair F S) : F := GetValue (FirstBase cp).
Definition GetSecond {F S} (cp : CompressedPair F S) : S := GetValue (SecondBase cp).

(** Assignment through the references [GetFirst()] and [GetSecond()]. *)
Definition SetFirst {F S} (v : F) (cp : CompressedPair F S) : CompressedPair F S :=
  mkPair (mkElement v) (SecondBase cp).
Definition SetSecond {F S} (v : S) (cp : CompressedPair F S) : CompressedPair F S :=
  mkPair (FirstBase cp) (mkElement v).

(** [MyDefaultDelete<T>::operator()]: [delete ptr], which does nothing on
    [nullptr] and is undefined on a pointer to no live object;
    [MyDefaultDelete<T[]>] is the same with [delete[]]. *)
Inductive MyDefaultDelete := mkDefaultDelete.

Definition MyDefaultDelete_call (d : MyDefaultDelete) (ptr : addr) (h : gset N)
  : option (gset N) :=
  if (ptr =? nullptr)%N then Some h
  else if decide (ptr ∈ h) then Some (h ∖ {[ptr]})
  else None.

Definition MyDefaultDelete_moved (d : MyDefaultDelete) : MyDefaultDelete := d.

Section model.
Context {Deleter : Type}.
Context (call : Deleter → addr → gset N → option (gset N)).
Context (moved_from : Deleter → Deleter).
(** [array] tells the specialisation [UniquePtr<T[], Deleter>] from the
    primary template. *)
Context (array : bool).

Record UniquePtr := mkUnique { ptr_cp_ : CompressedPair addr Deleter }.

Inductive Event :=
| Invoked (d : Deleter) (p : addr)
| Released (p : addr).

Record State := mkState {
  heap : gset N;
  vars : gmap N UniquePtr;
  next_ : addr;
  log : list Event
}.

Definition init_state : State :=
  {| heap := ∅; vars := ∅; next_ := 1%N; log := [] |}.

Definition upd_heap (f : gset N → gset N) (st : State) : State :=
  {| heap := f (heap st); vars := vars st; next_ := next_ st; log := log st |}.
Definition upd_vars (f : gmap N UniquePtr → gmap N UniquePtr) (st : State) : State :=
  {| heap := heap st; vars := f (vars st); next_ := next_ st; log := log st |}.
Definition upd_next (f : addr → addr) (st : State) : State :=
  {| heap := heap st; vars := vars st; next_ := f (next_ st); log := log st |}.
Definition emit (e : Event) (st : State) : State :=
  {| heap := heap st; vars := vars st; next_ := next_ st; log := e :: log st |}.

Inductive Outcome (A : Type) :=
| Ok (a : A) (st : State)
| Undefined.
Arguments Ok {A} a st.
Arguments Undefined {A}.

Definition M (A : Type) := State → Outcome A.

Definition ret {A} (a : A) : M A := λ st, Ok a st.
Definition bind {A B} (m : M A) (k : A → M B) : M B :=
  λ st, match m st with
        | Ok a st' => k a st'
        | Undefined => Undefined
        end.
Definition modify (f : State → State) : M unit := λ st, Ok tt (f st).

#[local, warnings="-notation-overridden"] Notation "'do' x <- m ; k" := (bind m (λ x, k))
  (at level 10, x name, m at level 100, k at level 200, only parsing).

(** The call [d(ptr)]. *)
Definition invoke (d : Deleter) (ptr : addr) : M unit :=
  λ st, match call d ptr (heap st) with
        | Some h => Ok tt (emit (Invoked d ptr) (upd_heap (λ _, h) st))
        | None => Undefined
        end.

(** [new T(...)] by the client. *)
Definition new_object : M addr :=
  λ st, Ok (next_ st) (upd_next N.succ (upd_heap (union {[next_ st]}) st)).

(** [UniquePtr(T* ptr, deleter)]; [UniquePtr(T* ptr = nullptr)] is the same
    with a default-constructed deleter. *)
Definition UniquePtr_ctor (ptr : addr) (deleter : Deleter) : UniquePtr :=
  mkUnique (CompressedPair_ctor ptr deleter).

Definition Get (this : UniquePtr) : addr := GetFirst (ptr_cp_ this).
Definition GetDeleter (this : UniquePtr) : Deleter := GetSecond (ptr_cp_ this).
Definition UniquePtr_bool (this : UniquePtr) : bool :=
  negb (GetFirst (ptr_cp_ this) =? nullptr)%N.

(** Move construction: the new handle and what is left in [other]. *)
Definition UniquePtr_move (other : UniquePtr) : UniquePtr * UniquePtr :=
  let this := mkUnique (CompressedPair_ctor (GetFirst (ptr_cp_ other))
                          (GetSecond (ptr_cp_ other))) in
  let other1 := mkUnique (SetSecond (moved_from (GetSecond (ptr_cp_ other)))
                            (ptr_cp_ other)) in
  (this, mkUnique (SetFirst nullptr (ptr_cp_ other1))).

(** [operator=(UniquePtr&& other)] on two distinct objects; returns the new
    values of [*this] and of [other].  The primary template returns at once
    when both hold the same pointer; the array specialisation tests
    [&other == this], which is false here. *)
Definition UniquePtr_move_assign (this other : UniquePtr) : M (UniquePtr * UniquePtr) :=
  if negb array && (GetFirst (ptr_cp_ other) =? GetFirst (ptr_cp_ this))%N then
    ret (this, other)
  else
    do _ <- invoke (GetSecond (ptr_cp_ this)) (GetFirst (ptr_cp_ this));
    let this1 := mkUnique (SetFirst (GetFirst (ptr_cp_ other)) (ptr_cp_ this)) in
    let this2 := mkUnique (SetSecond (GetSecond (ptr_cp_ other)) (ptr_cp_ this1)) in
    let other1 := mkUnique (SetSecond (moved_from (GetSecond (ptr_cp_ other)))
                              (ptr_cp_ other)) in
    let other2 := mkUnique (SetFirst nullptr (ptr_cp_ other1)) in
    ret (this2, other2).

(** [operator=(std::nullptr_t)]. *)
Definition UniquePtr_assign_null (this : UniquePtr) : M UniquePtr :=
  do _ <- invoke (GetSecond (ptr_cp_ this)) (GetFirst (ptr_cp_ this));
  ret (mkUnique (SetFirst nullptr (ptr_cp_ this))).

Definition UniquePtr_dtor (this : UniquePtr) : M unit :=
  invoke (GetSecond (ptr_cp_ this)) (GetFirst (ptr_cp_ this)).

(** [Release()]: the pointer returned and the handle left. *)
Definition UniquePtr_Release (this : UniquePtr) : addr * UniquePtr :=
  let result := GetFirst (ptr_cp_ this) in
  (result, mkUnique (SetFirst nullptr (ptr_cp_ this))).

(** [Reset(T* ptr = nullptr)]. *)
Definition UniquePtr_Reset (this : UniquePtr) (ptr : addr) : M UniquePtr :=
  let what_to_delete := GetFirst (ptr_cp_ this) in
  let this1 := mkUnique (SetFirst ptr (ptr_cp_ this)) in
  do _ <- invoke (GetSecond (ptr_cp_ this1)) what_to_delete;
  ret this1.

Definition UniquePtr_Swap (this other : UniquePtr) : UniquePtr * UniquePtr :=
  (mkUnique (ptr_cp_ other), mkUnique (ptr_cp_ this)).

(** Programs over named [UniquePtr] variables. *)
Definition get_var (x : N) : M UniquePtr :=
  λ st, match vars st !! x with Some h => Ok h st | None => Undefined end.
Definition take_var (x : N) : M UniquePtr :=
  λ st, match vars st !! x with
        | Some h => Ok h (upd_vars (delete x) st)
        | None => Undefined
        end.
Definition put_var (x : N) (h : UniquePtr) : M unit :=
  λ st, match vars st !! x with
        | None => Ok tt (upd_vars (insert x h) st)
        | Some _ => Undefined
        end.

Inductive Op :=
| UNew (x : N) (d : Deleter)                (* UniquePtr<T, D> x(new T(...), d); *)
| UFromRaw (x : N) (p : addr) (d : Deleter) (* UniquePtr<T, D> x(p, d); *)
| UMove (x y : N)                           (* UniquePtr<T, D> x(std::move(y)); *)
| UMoveAssign (x y : N)                     (* x = std::move(y); *)
| UAssignNull (x : N)                       (* x = nullptr; *)
| URelease (x : N)                          (* x.Release(); the client keeps the result *)
| UReset (x : N)                            (* x.Reset(); *)
| UResetPtr (x : N) (p : addr)              (* x.Reset(p); *)
| UResetNew (x : N)                         (* x.Reset(new T(...)); *)
| USwap (x y : N)                           (* x.Swap(y); *)
| UDestroy (x : N).                         (* x goes out of scope *)

Definition step (op : Op) : M unit :=
  match op with
  | UNew x d =>
      do p <- new_object;
      put_var x (UniquePtr_ctor p d)
  | UFromRaw x p d => put_var x (UniquePtr_ctor p d)
  | UMove x y =>
      do other <- take_var y;
      do _ <- put_var y (snd (UniquePtr_move other));
      put_var x (fst (UniquePtr_move other))
  | UMoveAssign x y =>
      if (x =? y)%N then
        do _ <- get_var x; ret tt
      else
        do other <- take_var y;
        do this <- take_var x;
        do r <- UniquePtr_move_assign this other;
        do _ <- put_var x (fst r);
        put_var y (snd r)
  | UAssignNull x =>
      do this <- take_var x;
      do this' <- UniquePtr_assign_null this;
      put_var x this'
  | URelease x =>
      do this <- take_var x;
      do _ <- put_var x (snd (UniquePtr_Release this));
      modify (emit (Released (fst (UniquePtr_Release this))))
  | UReset x =>
      do this <- take_var x;
      do this' <- UniquePtr_Reset this nullptr;
      put_var x this'
  | UResetPtr x p =>
      do this <- take_var x;
      do this' <- UniquePtr_Reset this p;
      put_var x this'
  | UResetNew x =>
      do p <- new_object;
      do this <- take_var x;
      do this' <- UniquePtr_Reset this p;
      put_var x this'
  | USwap x y =>
      if (x =? y)%N then
        do _ <- get_var x; ret tt
      else
        do this <- take_var x;
        do other <- take_var y;
        do _ <- put_var x (fst (UniquePtr_Swap this other));
        put_var y (snd (UniquePtr_Swap this other))
  | UDestroy x =>
      do this <- take_var x;
      UniquePtr_dtor this
  end.

Fixpoint run (ops : list Op) (st : State) : Outcome unit :=
  match ops with
  | [] => Ok tt st
  | op :: rest =>
      match step op st with
      | Ok _ st' => run rest st'
      | Undefined => Undefined
      end
  end.

Definition final (ops : list Op) : State :=
  match run ops init_state with
  | Ok _ st => st
  | Undefined => init_state
  end.

(** The operations through which a [UniquePtr] takes a pointer it is given
    by the client receive [nullptr]. *)
Definition owning (op : Op) : bool :=
  match op with
  | UFromRaw _ p _ | UResetPtr _ p => (p =? nullptr)%N
  | _ => true
  end.

(** Number of [UniquePtr] variables that hold [p]. *)
Definition holders (st : State) (p : addr) : nat :=
  refs_on Get p (vars st).

(** Number of times [p] has left the handles: passed to a deleter or
    released to the client. *)
Definition event_ptr (e : Event) : addr :=
  match e with Invoked _ p => p | Released p => p end.

Fixpoint disposed (p : addr) (l : list Event) : nat :=
  match l with
  | [] => 0
  | e :: l' => (if decide (event_ptr e = p) then 1 else 0) + disposed p l'
  end%nat.

Definition is_invoked (e : Event) : bool :=
  match e with Invoked _ _ => true | Released _ => false end.

(** Number of times [p] has been passed to a deleter. *)
Fixpoint invoked (p : addr) (l : list Event) : nat :=
  match l with
  | [] => 0
  | e :: l' =>
      (if is_invoked e && bool_decide (event_ptr e = p) then 1 else 0) + invoked p l'
  end%nat.

(** The ownership invariant: an address handed out by [new] is held by
    exactly one [UniquePtr], or has left the handles exactly once.  During
    an operation [es] lists the pointers of the handles that are not in the
    table. *)
Definition OwnedG (es : list addr) (st : State) : Prop :=
  next_ st ≠ nullptr ∧
  ∀ p, p ≠ nullptr →
       (holders st p + occ p es + disposed p (log st) =
        if decide (p < next_ st)%N then 1 else 0)%nat.

Definition Owned (st : State) : Prop := OwnedG [] st.

(** With [delete] as the deleter: the live objects are the addresses handed
    out that no deleter was called on. *)
Definition Heap_ok (st : State) : Prop :=
  ∀ p, p ∈ heap st ↔ p ≠ nullptr ∧ (p < next_ st)%N ∧ invoked p (log st) = 0%nat.

End model.

Arguments Ok {Deleter A} a st.
Arguments Undefined {Deleter A}.
Arguments mkUnique {Deleter} ptr_cp_.
Arguments Invoked {Deleter} d p.
Arguments Released {Deleter} p.
Arguments UNew {Deleter} x d.
Arguments UFromRaw {Deleter} x p d.
Arguments UMove {Deleter} x y.
Arguments UMoveAssign {Deleter} x y.
Arguments UAssignNull {Deleter} x.
Arguments URelease {Deleter} x.
Arguments UReset {Deleter} x.
Arguments UResetPtr {Deleter} x p.
Arguments UResetNew {Deleter} x.
Arguments USwap {Deleter} x y.
Arguments UDestroy {Deleter} x.

(** The instance for [MyDefaultDelete]. *)
Definition default_step (array : bool) : Op (Deleter := MyDefaultDelete) → M unit :=
  step MyDefaultDelete_call MyDefaultDelete_moved array.
Definition default_run (array : bool) :=
  run MyDefaultDelete_call MyDefaultDelete_moved array.
Definition default_final (array : bool) :=
  final MyDefaultDelete_call MyDefaultDelete_moved array.

Definition prog_two : list (Op (Deleter := MyDefaultDelete)) :=
  [UNew 1%N mkDefaultDelete; UNew 2%N mkDefaultDelete].
Definition prog_empty : list (Op (Deleter := MyDefaultDelete)) :=
  [UFromRaw 1%N nullptr mkDefaultDelete; UFromRaw 2%N nullptr mkDefaultDelete].
Definition prog_moved : list (Op (Deleter := MyDefaultDelete)) :=
  [UNew 1%N mkDefaultDelete; UMove 2%N 1%N; UFromRaw 3%N nullptr mkDefaultDelete].

End Unique.

(** * Proofs *)

(** ** Counting lemmas *)

Section refs_on.
Context {A : Type} (f : A → addr).

Lemma refs_on_empty b : refs_on f b ∅ = 0%nat.
Proof. unfold refs_on. by rewrite map_filter_empty, map_size_empty. Qed.

Lemma refs_on_insert b k h (m : gmap N A) :
  m !! k = None →
  refs_on f b (<[k:=h]> m) = ((if decide (f h = b) then 1 else 0) + refs_on f b m)%nat.
Proof.
  intros Hk. unfold refs_on. case_decide as Hf.
  - rewrite map_filter_insert_True by done.
    rewrite map_size_insert_None; [done|].
    apply map_lookup_filter_None. by left.
  - rewrite map_filter_insert_not'; [done|done|].
    intros y Hy. congruence.
Qed.

Lemma refs_on_delete b k h (m : gmap N A) :
  m !! k = Some h →
  refs_on f b m = ((if decide (f h = b) then 1 else 0) + refs_on f b (delete k m))%nat.
Proof.
  intros Hk.
  rewrite <- (insert_id m k h) at 1 by done.
  rewrite <- insert_delete_eq.
  apply refs_on_insert, lookup_delete_eq.
Qed.

Lemma refs_on_pos b k h (m : gmap N A) :
  m !! k = Some h → f h = b → (0 < refs_on f b m)%nat.
Proof.
  intros Hk Hf. rewrite (refs_on_delete b k h m Hk).
  rewrite decide_True by done. lia.
Qed.
End refs_on.

(** ** Reasoning about computations *)

Lemma bind_Ok {A B} (m : M A) (k : A → M B) st b st' :
  bind m k st = Ok b st' → ∃ a st1, m st = Ok a st1 ∧ k a st1 = Ok b st'.
Proof.
  unfold bind. destruct (m st) as [a st1| |]; [|discriminate..].
  intros H. by exists a, st1.
Qed.

Lemma when_Ok c (m : M unit) st u st' :
  when c m st = Ok u st' →
  (c = true ∧ m st = Ok u st') ∨ (c = false ∧ st' = st).
Proof.
  destruct c; simpl; [by left|]. unfold ret. intros [= <- <-]. by right.
Qed.

Lemma get_block_Ok b st blk st' :
  get_block b st = Ok blk st' → st' = st ∧ blocks st !! b = Some blk.
Proof.
  unfold get_block. destruct (blocks st !! b); [|discriminate].
  by intros [= <- <-].
Qed.

Lemma modify_block_Ok f b st u st' :
  modify_block f b st = Ok u st' →
  ∃ blk, blocks st !! b = Some blk ∧ st' = upd_blocks (insert b (f blk)) st.
Proof.
  unfold modify_block. intros (blk & st1 & H1 & H2)%bind_Ok.
  apply get_block_Ok in H1 as [-> H1]. exists blk. split; [done|].
  unfold modify in H2. by injection H2 as <-.
Qed.

Lemma delete_this_Ok b st u st' :
  delete_this b st = Ok u st' →
  is_Some (blocks st !! b) ∧ st' = emit (DeleteBlock b) (upd_blocks (delete b) st).
Proof.
  unfold delete_this. intros (blk & st1 & H1 & H2)%bind_Ok.
  apply get_block_Ok in H1 as [-> H1]. split; [by eexists|].
  unfold modify in H2. by injection H2 as <-.
Qed.

Ltac simpl_st :=
  cbn [blocks objects shared weak next_ log
       upd_blocks upd_objects upd_shared upd_weak upd_next emit] in *.

Lemma incr_small c : 0 ≤ c → c + 1 < 2 ^ 64 → incr c = c + 1.
Proof. intros. unfold incr, wrap64. apply Z.mod_small. lia. Qed.

Lemma decr_small c : 1 ≤ c → c < 2 ^ 64 → decr c = c - 1.
Proof. intros. unfold decr, wrap64. apply Z.mod_small. lia. Qed.

Lemma occ_cons b a l :
  occ b (a :: l) = ((if decide (a = b) then 1 else 0) + occ b l)%nat.
Proof. reflexivity. Qed.

(** *** Structural lemmas on the invariant *)

Lemma InvG_weaken k k' es ew dy st :
  (k' ≤ k)%nat → InvG k es ew dy st → InvG k' es ew dy st.
Proof.
  intros Hk [Hn0 Hn Hl Ha Hv Hc Hb Hp Hd]. split; try done.
  intros b Hb0. specialize (Hb b Hb0). lia.
Qed.

(** The invariant sees a state only through its blocks, its allocation
    counter, its history and the tallies of references. *)
Lemma InvG_transfer k es ew dy st es' ew' st' :
  InvG k es ew dy st →
  blocks st' = blocks st → next_ st' = next_ st → log st' = log st →
  (∀ a, (next_ st ≤ a)%N → objects st' !! a = None) →
  (∀ b, b ≠ nullptr → S_ es' st' b = S_ es st b) →
  (∀ b, b ≠ nullptr → W_ ew' dy st' b = W_ ew dy st b) →
  InvG k es' ew' dy st'.
Proof.
  intros [Hn0 Hn Hl Ha Hv Hc Hb Hp Hd] Eb En El Ho ES EW.
  split; rewrite ?Eb, ?En, ?El.
  - done.
  - intros a Hge. split; [by apply Hn | by apply Ho].
  - done.
  - done.
  - done.
  - intros b Hb0. rewrite ES, EW by done. by apply Hc.
  - intros b Hb0. rewrite ES, EW by done. by apply Hb.
  - intros b Hin. rewrite ES by (by apply Ha). by apply Hp.
  - intros d Hdy. destruct (Hd d Hdy) as [Hd0 HS]. by rewrite ES.
Qed.

Ltac tally :=
  unfold S_, W_, strong_refs, weak_refs, guard in *; simpl occ in *;
  repeat case_decide; simplify_eq; try lia; try congruence.

Lemma InvG_ext k es ew dy st es' ew' :
  InvG k es ew dy st →
  (∀ b, b ≠ nullptr → occ b es' = occ b es) →
  (∀ b, b ≠ nullptr → occ b ew' = occ b ew) →
  InvG k es' ew' dy st.
Proof.
  intros H Es Ew. apply (InvG_transfer k es ew dy st); try done.
  - intros a Ha. by apply (inv_next _ _ _ _ _ H).
  - intros b Hb. unfold S_. by rewrite Es.
  - intros b Hb. unfold W_. by rewrite Ew.
Qed.

Lemma InvG_live_lt k es ew dy st b blk :
  InvG k es ew dy st → blocks st !! b = Some blk → (b < next_ st)%N ∧ b ≠ nullptr.
Proof.
  intros H Hb.
  assert (Hin : In (NewBlock b) (log st)).
  { apply (inv_live _ _ _ _ _ H). by eexists. }
  destruct (inv_log_addr _ _ _ _ _ H b Hin). done.
Qed.

(** A counter update on a live block. *)
Lemma InvG_update k k' es ew dy es' ew' dy' st st' b blk blk' :
  InvG k es ew dy st →
  blocks st !! b = Some blk →
  blocks st' = <[b:=blk']> (blocks st) →
  objects st' = objects st → shared st' = shared st → weak st' = weak st →
  next_ st' = next_ st → log st' = log st →
  (k' ≤ k)%nat →
  ref_counter_ blk' = Z.of_nat (S_ es' st b) →
  weak_ref_counter_ blk' = Z.of_nat (S_ es' st b + W_ ew' dy' st b) →
  (0 < S_ es' st b + W_ ew' dy' st b)%nat →
  Z.of_nat (S_ es' st b + W_ ew' dy' st b) + Z.of_nat k' < 2 ^ 64 →
  (∀ b', b' ≠ b → occ b' es' = occ b' es ∧ occ b' ew' = occ b' ew ∧
                  (dy' = Some b' ↔ dy = Some b')) →
  (In (DeletePayload b) (log st) ↔ S_ es' st b = 0%nat ∧ dy' ≠ Some b) →
  (dy' = Some b → S_ es' st b = 0%nat) →
  InvG k' es' ew' dy' st'.
Proof.
  intros H Hblk Eb Eo Es Ew En El Hk Hr Hw Hpos Hbd Hoth Hpay Hdy.
  destruct (InvG_live_lt _ _ _ _ _ _ _ H Hblk) as [Hlt Hb0].
  destruct H as [Hn0 Hn Hl Ha Hv Hc Hb Hp Hd].
  assert (ES : ∀ b', S_ es' st' b' = S_ es' st b').
  { intros b'. unfold S_, strong_refs. by rewrite Es. }
  assert (EW : ∀ b', W_ ew' dy' st' b' = W_ ew' dy' st b').
  { intros b'. unfold W_, weak_refs. by rewrite Ew, Eo. }
  assert (OS : ∀ b', b' ≠ b → S_ es' st b' = S_ es st b').
  { intros b' Hne. destruct (Hoth b' Hne) as (E1 & _ & _). unfold S_. by rewrite E1. }
  assert (OW : ∀ b', b' ≠ b → W_ ew' dy' st b' = W_ ew dy st b').
  { intros b' Hne. destruct (Hoth b' Hne) as (_ & E2 & E3). unfold W_, guard.
    rewrite E2. repeat case_decide; try done; tauto. }
  split; rewrite ?En, ?El.
  - done.
  - intros a Hge. rewrite Eb, Eo. split; [|by apply Hn].
    rewrite lookup_insert_ne by lia. by apply Hn.
  - done.
  - done.
  - intros b'. rewrite Eb, <- Hv. destruct (decide (b' = b)) as [->|Hne].
    + rewrite lookup_insert_eq, Hblk. split; by eexists.
    + by rewrite lookup_insert_ne.
  - intros b' Hb'. rewrite ES, EW, Eb. destruct (decide (b' = b)) as [->|Hne].
    + rewrite lookup_insert_eq. done.
    + rewrite lookup_insert_ne, OS, OW by done. by apply Hc.
  - intros b' Hb'. rewrite ES, EW. destruct (decide (b' = b)) as [->|Hne]; [done|].
    rewrite OS, OW by done. specialize (Hb b' Hb'). lia.
  - intros b' Hin. rewrite ES. destruct (decide (b' = b)) as [->|Hne]; [done|].
    rewrite OS by done. rewrite (Hp b' Hin).
    destruct (Hoth b' Hne) as (_ & _ & E3). tauto.
  - intros d Hdy'. rewrite ES. destruct (decide (d = b)) as [->|Hne]; [by auto|].
    destruct (Hoth d Hne) as (_ & _ & E3). rewrite OS by done.
    apply Hd. tauto.
Qed.

(** The release of a block nothing references any more. *)
Lemma InvG_delete k es ew dy ew' st st' b :
  InvG k es ew dy st →
  is_Some (blocks st !! b) →
  blocks st' = delete b (blocks st) →
  objects st' = objects st → shared st' = shared st → weak st' = weak st →
  next_ st' = next_ st → log st' = DeleteBlock b :: log st →
  S_ es st b = 0%nat → W_ ew' dy st b = 0%nat →
  (∀ b', b' ≠ b → occ b' ew' = occ b' ew) →
  InvG k es ew' dy st'.
Proof.
  intros H [blk Hblk] Eb Eo Es Ew En El HS HW Hoth.
  destruct (InvG_live_lt _ _ _ _ _ _ _ H Hblk) as [Hlt Hb0].
  destruct H as [Hn0 Hn Hl Ha Hv Hc Hb Hp Hd].
  assert (ES : ∀ b', S_ es st' b' = S_ es st b').
  { intros b'. unfold S_, strong_refs. by rewrite Es. }
  assert (EW : ∀ b', W_ ew' dy st' b' = W_ ew' dy st b').
  { intros b'. unfold W_, weak_refs. by rewrite Ew, Eo. }
  assert (OW : ∀ b', b' ≠ b → W_ ew' dy st b' = W_ ew dy st b').
  { intros b' Hne. unfold W_. by rewrite (Hoth b' Hne). }
  assert (Hnew : In (NewBlock b) (log st) ∧ ¬ In (DeleteBlock b) (log st)).
  { apply Hv. by eexists. }
  assert (Hg : dy ≠ Some b).
  { intros ->. unfold W_, guard in HW. rewrite decide_True in HW by done. lia. }
  split; rewrite ?En, ?El.
  - done.
  - intros a Hge. rewrite Eb, Eo. split; [|by apply Hn].
    rewrite lookup_delete_ne by lia. by apply Hn.
  - simpl. split; [|split]; [|tauto|done].
    apply Hp; tauto.
  - intros b' [Hin|Hin]; [done|]. by apply Ha.
  - intros b'. rewrite Eb. destruct (decide (b' = b)) as [->|Hne].
    + rewrite lookup_delete_eq. simpl. split; [by intros []|]. tauto.
    + rewrite lookup_delete_ne, Hv by done. simpl.
      assert (DeleteBlock b ≠ NewBlock b') by done.
      assert (DeleteBlock b ≠ DeleteBlock b') by congruence.
      tauto.
  - intros b' Hb'. rewrite ES, EW, Eb. destruct (decide (b' = b)) as [->|Hne].
    + by rewrite lookup_delete_eq.
    + rewrite lookup_delete_ne, OW by done. by apply Hc.
  - intros b' Hb'. rewrite ES, EW. destruct (decide (b' = b)) as [->|Hne].
    + rewrite HS, HW. specialize (Hb b Hb'). lia.
    + rewrite OW by done. by apply Hb.
  - intros b' [Hin|Hin]; [done|]. rewrite ES, <- (Hp b' Hin). simpl.
    split; [by intros [|]|]. by right.
  - intros d Hdy. rewrite ES. by apply Hd.
Qed.

Lemma wf_log_payload l b :
  wf_log l → In (DeletePayload b) l → In (NewBlock b) l.
Proof.
  induction l as [|e l IH]; [done|].
  destruct e; simpl; intros Hw [Heq|Hin]; try discriminate;
    try (right; apply IH; tauto).
  injection Heq as ->. right. tauto.
Qed.

Lemma wf_log_block l b :
  wf_log l → In (DeleteBlock b) l → In (DeletePayload b) l.
Proof.
  induction l as [|e l IH]; [done|].
  destruct e; simpl; intros Hw [Heq|Hin]; try discriminate;
    try (right; apply IH; tauto).
  injection Heq as ->. right. tauto.
Qed.

(** A block created at the next free address with both counters at one:
    what [new ControlBlock...] followed by [IncrementRefCounter] leaves. *)
Lemma InvG_new k es ew dy st st' kind :
  InvG (S k) es ew dy st →
  blocks st' = <[next_ st := mkBlock kind 1 1]> (blocks st) →
  objects st' = objects st → shared st' = shared st → weak st' = weak st →
  (next_ st < next_ st')%N → log st' = NewBlock (next_ st) :: log st →
  InvG k (next_ st :: es) ew dy st'.
Proof.
  intros H Eb Eo Es Ew En El.
  destruct H as [Hn0 Hn Hl Ha Hv Hc Hb Hp Hd].
  set (b := next_ st) in *.
  assert (Hfb : blocks st !! b = None) by (apply Hn; lia).
  assert (Hnin : ¬ In (NewBlock b) (log st)).
  { intros Hin. destruct (Ha b Hin). lia. }
  assert (Hnp : ¬ In (DeletePayload b) (log st)).
  { intros Hin. by apply Hnin, wf_log_payload. }
  assert (Hnd : ¬ In (DeleteBlock b) (log st)).
  { intros Hin. by apply Hnp, wf_log_block. }
  assert (H0 : S_ es st b = 0%nat ∧ W_ ew dy st b = 0%nat).
  { specialize (Hc b Hn0). by rewrite Hfb in Hc. }
  assert (ES : ∀ b', S_ (b :: es) st' b' =
                     ((if decide (b = b') then 1 else 0) + S_ es st b')%nat).
  { intros b'. unfold S_, strong_refs. rewrite Es. simpl. lia. }
  assert (EW : ∀ b', W_ ew dy st' b' = W_ ew dy st b').
  { intros b'. unfold W_, weak_refs. by rewrite Ew, Eo. }
  split; rewrite ?El.
  - unfold nullptr in *. lia.
  - intros a Hge. rewrite Eb, Eo. split; [|apply Hn; lia].
    rewrite lookup_insert_ne by lia. apply Hn; lia.
  - simpl. done.
  - intros b' [[= <-]|Hin]; [split; [done|lia]|].
    destruct (Ha b' Hin). split; [done|lia].
  - intros b'. rewrite Eb. destruct (decide (b' = b)) as [->|Hne].
    + rewrite lookup_insert_eq. simpl. split; [intros _|by eexists].
      split; [by left|]. by intros [[=]|Hin].
    + rewrite lookup_insert_ne, Hv by done. simpl.
      assert (NewBlock b ≠ NewBlock b') by congruence.
      assert (NewBlock b ≠ DeleteBlock b') by done. tauto.
  - intros b' Hb'. rewrite ES, EW, Eb. destruct (decide (b' = b)) as [->|Hne].
    + rewrite lookup_insert_eq, decide_True by done. simpl.
      destruct H0 as [-> ->]. lia.
    + rewrite lookup_insert_ne, decide_False by done. by apply Hc.
  - intros b' Hb'. rewrite ES, EW. specialize (Hb b' Hb'). case_decide; lia.
  - intros b' Hin. rewrite ES. simpl. destruct (decide (b = b')) as [<-|Hne].
    + split; [|lia]. by intros [[=]|Hin'].
    + destruct Hin as [[=]|Hin]; [done|]. rewrite <- (Hp b' Hin).
      split; [by intros [[=]|]|by right].
  - intros d Hdy. rewrite ES. destruct (Hd d Hdy) as [Hd0 HS]. split; [done|].
    rewrite decide_False; [done|]. intros <-.
    destruct H0 as [_ HW]. unfold W_, guard in HW.
    rewrite decide_True in HW by done. lia.
Qed.

(** The payload's teardown is over: the event is recorded; the extra weak
    count is still held. *)
Lemma InvG_emit_payload k es ew st b :
  InvG k es ew (Some b) st →
  InvG k es (b :: ew) None (emit (DeletePayload b) st).
Proof.
  intros [Hn0 Hn Hl Ha Hv Hc Hb Hp Hd].
  destruct (Hd b eq_refl) as [Hb0 HS].
  assert (Hin : In (NewBlock b) (log st)).
  { apply Hv. specialize (Hc b Hb0). destruct (blocks st !! b); [by eexists|].
    destruct Hc as [_ HW]. unfold W_, guard in HW.
    rewrite decide_True in HW by done. lia. }
  assert (Hnp : ¬ In (DeletePayload b) (log st)).
  { rewrite (Hp b Hin). tauto. }
  assert (EW : ∀ b', W_ (b :: ew) None (emit (DeletePayload b) st) b' =
                     W_ ew (Some b) st b').
  { intros b'. unfold W_, weak_refs, guard. simpl. repeat case_decide; simplify_eq; lia. }
  split; simpl_st.
  - done.
  - done.
  - simpl. done.
  - intros b' [[=]|Hin']. by apply Ha.
  - intros b'. rewrite Hv. simpl.
    assert (DeletePayload b ≠ NewBlock b') by done.
    assert (DeletePayload b ≠ DeleteBlock b') by done. tauto.
  - intros b' Hb'. rewrite EW. by apply Hc.
  - intros b' Hb'. rewrite EW. by apply Hb.
  - intros b' [[=]|Hin'].
    change (S_ es (emit (DeletePayload b) st) b') with (S_ es st b').
    specialize (Hp b' Hin'). simpl. destruct (decide (b' = b)) as [->|Hne].
    + split; [done|by left].
    + split.
      * intros [[=]|Hi]; [done|]. apply Hp in Hi. split; [tauto|done].
      * intros [H1 _]. right. apply Hp. split; [done|congruence].
  - done.
Qed.

(** *** Handles entering and leaving the tables *)

Lemma take_shared_inv k es ew dy st x h st' :
  InvG k es ew dy st → take_shared x st = Ok h st' →
  InvG k (s_block_ h :: es) ew dy st'.
Proof.
  intros H. unfold take_shared. destruct (shared st !! x) as [h'|] eqn:Hx; [|done].
  intros [= -> <-]. apply (InvG_transfer k es ew dy st); try done.
  - intros a Ha. by apply (inv_next _ _ _ _ _ H).
  - intros b _. unfold S_, strong_refs. simpl_st.
    rewrite (refs_on_delete s_block_ b x h _ Hx). simpl. lia.
Qed.

Lemma put_shared_inv k es ew dy st x h u st' :
  InvG k (s_block_ h :: es) ew dy st → put_shared x h st = Ok u st' →
  InvG k es ew dy st'.
Proof.
  intros H. unfold put_shared. destruct (shared st !! x) as [h'|] eqn:Hx; [done|].
  intros [= <- <-]. apply (InvG_transfer k (s_block_ h :: es) ew dy st); try done.
  - intros a Ha. by apply (inv_next _ _ _ _ _ H).
  - intros b _. unfold S_, strong_refs. simpl_st.
    rewrite (refs_on_insert s_block_ b x h _ Hx). simpl. lia.
Qed.

Lemma take_weak_inv k es ew dy st w h st' :
  InvG k es ew dy st → take_weak w st = Ok h st' →
  InvG k es (w_block_ h :: ew) dy st'.
Proof.
  intros H. unfold take_weak. destruct (weak st !! w) as [h'|] eqn:Hx; [|done].
  intros [= -> <-]. apply (InvG_transfer k es ew dy st); try done.
  - intros a Ha. by apply (inv_next _ _ _ _ _ H).
  - intros b _. unfold W_, weak_refs. simpl_st.
    rewrite (refs_on_delete w_block_ b w h _ Hx). simpl. lia.
Qed.

Lemma put_weak_inv k es ew dy st w h u st' :
  InvG k es (w_block_ h :: ew) dy st → put_weak w h st = Ok u st' →
  InvG k es ew dy st'.
Proof.
  intros H. unfold put_weak. destruct (weak st !! w) as [h'|] eqn:Hx; [done|].
  intros [= <- <-]. apply (InvG_transfer k es (w_block_ h :: ew) dy st); try done.
  - intros a Ha. by apply (inv_next _ _ _ _ _ H).
  - intros b _. unfold W_, weak_refs. simpl_st.
    rewrite (refs_on_insert w_block_ b w h _ Hx). simpl. lia.
Qed.

Lemma take_object_inv k es ew dy st p obj st' :
  InvG k es ew dy st → take_object p st = Ok obj st' →
  InvG k es (emb_block obj :: ew) dy st' ∧ (p < next_ st')%N.
Proof.
  intros H. unfold take_object. destruct (objects st !! p) as [o|] eqn:Hx; [|done].
  intros [= -> <-]. split.
  - apply (InvG_transfer k es ew dy st); try done.
    + intros a Ha. simpl_st. rewrite lookup_delete_None. right.
      by apply (inv_next _ _ _ _ _ H).
    + intros b _. unfold W_, weak_refs. simpl_st.
      rewrite (refs_on_delete emb_block b p obj _ Hx). cbn [occ]. lia.
  - simpl_st. destruct (N.lt_ge_cases p (next_ st)) as [|Hge]; [done|].
    apply (inv_next _ _ _ _ _ H) in Hge as [_ Hge]. congruence.
Qed.

Lemma put_object_inv k es ew dy st p obj u st' :
  InvG k es (emb_block obj :: ew) dy st → (p < next_ st)%N →
  put_object p obj st = Ok u st' →
  InvG k es ew dy st'.
Proof.
  intros H Hp. unfold put_object. destruct (objects st !! p) as [o|] eqn:Hx; [done|].
  intros [= <- <-]. apply (InvG_transfer k es (emb_block obj :: ew) dy st); try done.
  - intros a Ha. simpl_st. rewrite lookup_insert_ne by lia.
    by apply (inv_next _ _ _ _ _ H).
  - intros b _. unfold W_, weak_refs. simpl_st.
    rewrite (refs_on_insert emb_block b p obj _ Hx). cbn [occ]. lia.
Qed.

Lemma get_shared_Ok x st h st' :
  get_shared x st = Ok h st' → st' = st ∧ shared st !! x = Some h.
Proof.
  unfold get_shared. destruct (shared st !! x); [|done]. by intros [= <- <-].
Qed.

Lemma get_weak_Ok w st h st' :
  get_weak w st = Ok h st' → st' = st ∧ weak st !! w = Some h.
Proof.
  unfold get_weak. destruct (weak st !! w); [|done]. by intros [= <- <-].
Qed.

Lemma get_weak_this_Ok p st w st' :
  get_weak_this p st = Ok w st' →
  st' = st ∧ objects st !! p = Some (mkPayload (Some w)).
Proof.
  unfold get_weak_this. destruct (objects st !! p) as [[[w'|]]|]; [|done..].
  by intros [= <- <-].
Qed.

(** *** The counter operations *)

Lemma when_nonnull_Ok b (m : M unit) st u st' :
  when (negb (b =? nullptr)%N) m st = Ok u st' →
  (b ≠ nullptr ∧ m st = Ok u st') ∨ (b = nullptr ∧ st' = st).
Proof.
  intros [[Hc H]|[Hc H]]%when_Ok.
  - left. split; [|done]. apply negb_true_iff, N.eqb_neq in Hc. done.
  - right. split; [|done]. apply negb_false_iff, N.eqb_eq in Hc. done.
Qed.

Lemma InvG_null_strong k es ew dy st :
  InvG k es ew dy st → InvG k (nullptr :: es) ew dy st.
Proof.
  intros H; apply (InvG_ext _ _ _ _ _ _ _ H); try done;
    intros b Hb; simpl; by rewrite decide_False.
Qed.

Lemma InvG_null_strong_drop k es ew dy st :
  InvG k (nullptr :: es) ew dy st → InvG k es ew dy st.
Proof.
  intros H; apply (InvG_ext _ _ _ _ _ _ _ H); try done;
    intros b Hb; simpl; by rewrite decide_False.
Qed.

Lemma InvG_null_weak k es ew dy st :
  InvG k es ew dy st → InvG k es (nullptr :: ew) dy st.
Proof.
  intros H; apply (InvG_ext _ _ _ _ _ _ _ H); try done;
    intros b Hb; simpl; by rewrite decide_False.
Qed.

Lemma InvG_null_weak_drop k es ew dy st :
  InvG k es (nullptr :: ew) dy st → InvG k es ew dy st.
Proof.
  intros H; apply (InvG_ext _ _ _ _ _ _ _ H); try done;
    intros b Hb; simpl; by rewrite decide_False.
Qed.

(** What the invariant says about one live block. *)
Lemma InvG_at k es ew dy st b blk :
  InvG k es ew dy st → blocks st !! b = Some blk →
  b ≠ nullptr ∧
  ref_counter_ blk = Z.of_nat (S_ es st b) ∧
  weak_ref_counter_ blk = Z.of_nat (S_ es st b + W_ ew dy st b) ∧
  (0 < S_ es st b + W_ ew dy st b)%nat ∧
  Z.of_nat (S_ es st b + W_ ew dy st b) + Z.of_nat k < 2 ^ 64 ∧
  (In (DeletePayload b) (log st) ↔ S_ es st b = 0%nat ∧ dy ≠ Some b) ∧
  (dy = Some b → S_ es st b = 0%nat).
Proof.
  intros H Hblk.
  destruct (InvG_live_lt _ _ _ _ _ _ _ H Hblk) as [Hlt Hb0].
  destruct H as [Hn0 Hn Hl Ha Hv Hc Hb Hp Hd].
  specialize (Hc b Hb0). rewrite Hblk in Hc. destruct Hc as (Hr & Hw & Hpos).
  assert (Hin : In (NewBlock b) (log st)) by (apply Hv; by eexists).
  split; [done|]. split; [done|]. split; [done|]. split; [done|].
  split; [by apply Hb|]. split; [by apply Hp|].
  intros Hdy. by apply Hd.
Qed.

Lemma IncrementWeakRefCounter_inv k es ew dy st b u st' :
  InvG (S k) es ew dy st → IncrementWeakRefCounter b st = Ok u st' →
  InvG k es (b :: ew) dy st'.
Proof.
  intros H (blk & Hblk & ->)%modify_block_Ok.
  destruct (InvG_at _ _ _ _ _ _ _ H Hblk) as (Hb0 & Hr & Hw & Hpos & Hbd & Hpay & Hdy).
  eapply (InvG_update _ k _ _ _ es (b :: ew) dy _ _ b blk (incr_weak blk) H Hblk);
    try done; simpl.
  - lia.
  - rewrite Hw, incr_small by lia. tally.
  - tally.
  - tally.
  - intros b' Hne. by rewrite decide_False.
Qed.

Lemma IncrementRefCounter_inv k es ew dy st b u st' :
  InvG (S k) es ew dy st → (0 < S_ es st b)%nat →
  IncrementRefCounter b st = Ok u st' →
  InvG k (b :: es) ew dy st'.
Proof.
  intros H HS (u1 & st1 & H1 & H2)%bind_Ok.
  apply modify_block_Ok in H1 as (blk & Hblk & ->).
  apply modify_block_Ok in H2 as (blk1 & Hblk1 & ->).
  simpl_st. rewrite lookup_insert_eq in Hblk1. injection Hblk1 as <-.
  destruct (InvG_at _ _ _ _ _ _ _ H Hblk) as (Hb0 & Hr & Hw & Hpos & Hbd & Hpay & Hdy).
  eapply (InvG_update _ k _ _ _ (b :: es) ew dy _ _ b blk (incr_weak (incr_ref blk)) H Hblk);
    try done; simpl_st; simpl.
  - by rewrite insert_insert_eq.
  - lia.
  - rewrite Hr, incr_small by lia. tally.
  - rewrite Hw, incr_small by lia. tally.
  - tally.
  - tally.
  - intros b' Hne. by rewrite decide_False.
  - rewrite Hpay. tally.
  - intros Hd. specialize (Hdy Hd). lia.
Qed.

Lemma DecrementWeakRefCounter_inv k es ew dy st b u st' :
  InvG k es (b :: ew) dy st → DecrementWeakRefCounter b st = Ok u st' →
  InvG k es ew dy st'.
Proof.
  intros H (u1 & st1 & H1 & H2)%bind_Ok.
  apply modify_block_Ok in H1 as (blk & Hblk & ->).
  apply bind_Ok in H2 as (blk1 & st2 & H2 & H3).
  apply get_block_Ok in H2 as [-> Hblk1].
  simpl_st. rewrite lookup_insert_eq in Hblk1. injection Hblk1 as <-.
  destruct (InvG_at _ _ _ _ _ _ _ H Hblk) as (Hb0 & Hr & Hw & Hpos & Hbd & Hpay & Hdy).
  assert (Hw' : weak_ref_counter_ (decr_weak blk) = Z.of_nat (S_ es st b + W_ ew dy st b)).
  { simpl. rewrite Hw, decr_small; tally. }
  apply when_Ok in H3 as [[Hz H3]|[Hz ->]].
  - apply delete_this_Ok in H3 as [_ ->]. apply Z.eqb_eq in Hz.
    eapply (InvG_delete _ _ _ _ ew st _ b H); try done; simpl_st.
    + by rewrite delete_insert_eq.
    + lia.
    + lia.
    + intros b' Hne. simpl. by rewrite decide_False.
  - apply Z.eqb_neq in Hz.
    eapply (InvG_update _ k _ _ _ es ew dy _ _ b blk (decr_weak blk) H Hblk);
      try done; simpl_st.
    + lia.
    + tally.
    + intros b' Hne. simpl. by rewrite decide_False.
Qed.

Lemma WeakPtr_dtor_inv k es ew dy st w u st' :
  InvG k es (w_block_ w :: ew) dy st → WeakPtr_dtor w st = Ok u st' →
  InvG k es ew dy st'.
Proof.
  intros H [[Hb H1]|[Hb ->]]%when_nonnull_Ok.
  - by eapply DecrementWeakRefCounter_inv.
  - rewrite Hb in H. by apply InvG_null_weak_drop.
Qed.

Lemma ret_Ok {A} (a : A) st a' st' : ret a st = Ok a' st' → a' = a ∧ st' = st.
Proof. by intros [= <- <-]. Qed.

Lemma modify_Ok f st u st' : modify f st = Ok u st' → st' = f st.
Proof. by intros [= <-]. Qed.

Lemma destroy_payload_inv k es ew dy st p u st' :
  InvG k es ew dy st → destroy_payload p st = Ok u st' → InvG k es ew dy st'.
Proof.
  intros H (obj & st1 & H1 & H2)%bind_Ok.
  destruct (take_object_inv _ _ _ _ _ _ _ _ H H1) as [H' _].
  unfold emb_block in H'. destruct (weak_this_ obj) as [w|].
  - by eapply WeakPtr_dtor_inv.
  - apply ret_Ok in H2 as [_ ->]. by apply InvG_null_weak_drop.
Qed.

Lemma delete_payload_inv k es ew st b u st' :
  InvG k es ew (Some b) st → delete_payload b st = Ok u st' →
  InvG k es (b :: ew) None st'.
Proof.
  intros H (blk & st1 & H1 & H2)%bind_Ok.
  apply get_block_Ok in H1 as [-> Hblk].
  apply bind_Ok in H2 as (u1 & st2 & H2 & H3).
  apply modify_Ok in H3 as ->. apply InvG_emit_payload.
  destruct (storage blk) as [p|buf].
  - apply when_nonnull_Ok in H2 as [[_ H2]|[_ ->]]; [|done].
    by eapply destroy_payload_inv.
  - by eapply destroy_payload_inv.
Qed.

Lemma DecrementRefCounter_inv k es ew st b u st' :
  InvG k (b :: es) ew None st → DecrementRefCounter b st = Ok u st' →
  InvG k es ew None st'.
Proof.
  intros H (u1 & st1 & H1 & H2)%bind_Ok.
  apply modify_block_Ok in H1 as (blk & Hblk & ->).
  apply bind_Ok in H2 as (u2 & st2 & H2 & H3).
  apply modify_block_Ok in H2 as (blk1 & Hblk1 & ->).
  simpl_st. rewrite lookup_insert_eq in Hblk1. injection Hblk1 as <-.
  apply bind_Ok in H3 as (blk2 & st3 & H3 & H4).
  apply get_block_Ok in H3 as [-> Hblk2].
  simpl_st. rewrite lookup_insert_eq in Hblk2. injection Hblk2 as <-.
  destruct (InvG_at _ _ _ _ _ _ _ H Hblk) as (Hb0 & Hr & Hw & Hpos & Hbd & Hpay & Hdy).
  assert (Hr' : ref_counter_ (decr_weak (decr_ref blk)) = Z.of_nat (S_ es st b)).
  { simpl. rewrite Hr, decr_small; tally. }
  assert (Hw' : weak_ref_counter_ (decr_weak (decr_ref blk)) =
                Z.of_nat (S_ es st b + W_ ew None st b)).
  { simpl. rewrite Hw, decr_small; tally. }
  apply bind_Ok in H4 as (u3 & st4 & H4 & H5).
  apply when_Ok in H4 as [[Hz H4]|[Hz ->]].
  - (* the last strong reference: guarded destruction of the payload *)
    apply Z.eqb_eq in Hz. rewrite Hr' in Hz.
    apply bind_Ok in H4 as (u4 & st5 & H4 & H6).
    apply modify_block_Ok in H4 as (blk3 & Hblk3 & ->).
    simpl_st. rewrite lookup_insert_eq in Hblk3. injection Hblk3 as <-.
    apply bind_Ok in H6 as (u5 & st6 & H6 & H7).
    assert (Hg : InvG k es ew (Some b)
              (upd_blocks (insert b (incr_weak (decr_weak (decr_ref blk))))
                 (upd_blocks (insert b (decr_weak (decr_ref blk)))
                    (upd_blocks (insert b (decr_ref blk)) st)))).
    { eapply (InvG_update _ k _ _ _ es ew (Some b) _ _ b blk
               (incr_weak (decr_weak (decr_ref blk))) H Hblk);
        try done; simpl_st.
      - by rewrite !insert_insert_eq.
      - change (weak_ref_counter_ (incr_weak (decr_weak (decr_ref blk))))
          with (incr (weak_ref_counter_ (decr_weak (decr_ref blk)))).
        rewrite Hw', incr_small; tally.
      - tally.
      - tally.
      - intros b' Hne. simpl. rewrite decide_False by done.
        split; [done|]. split; [done|]. split; [|done]. intros [= ->]. done.
      - rewrite Hpay. split; [intros [? _]; tally | intros [_ ?]; done].
      - intros _. lia. }
    pose proof (delete_payload_inv _ _ _ _ _ _ _ Hg H6) as Hg'.
    eapply (DecrementWeakRefCounter_inv _ _ _ _ st6 b); [exact Hg'|].
    unfold DecrementWeakRefCounter, bind. rewrite H7. exact H5.
  - (* other strong references remain *)
    apply Z.eqb_neq in Hz. rewrite Hr' in Hz.
    apply bind_Ok in H5 as (blk3 & st5 & H5 & H6).
    apply get_block_Ok in H5 as [-> Hblk3].
    simpl_st. rewrite lookup_insert_eq in Hblk3. injection Hblk3 as <-.
    apply when_Ok in H6 as [[Hz' _]|[_ ->]].
    { apply Z.eqb_eq in Hz'. rewrite Hw' in Hz'. lia. }
    eapply (InvG_update _ k _ _ _ es ew None _ _ b blk
             (decr_weak (decr_ref blk)) H Hblk);
      try done; simpl_st.
    + by rewrite insert_insert_eq.
    + lia.
    + tally.
    + intros b' Hne. simpl. by rewrite decide_False.
    + rewrite Hpay. tally.
Qed.

Lemma SharedPtr_dtor_inv k es ew st h u st' :
  InvG k (s_block_ h :: es) ew None st → SharedPtr_dtor h st = Ok u st' →
  InvG k es ew None st'.
Proof.
  intros H [[Hb H1]|[Hb ->]]%when_nonnull_Ok.
  - by eapply DecrementRefCounter_inv.
  - rewrite Hb in H. by apply InvG_null_strong_drop.
Qed.

(** *** The member functions of the handles *)

Lemma weak_counter_next b st u st' :
  IncrementWeakRefCounter b st = Ok u st' ∨ DecrementWeakRefCounter b st = Ok u st' →
  next_ st' = next_ st.
Proof.
  intros [H|H].
  - by apply modify_block_Ok in H as (blk & _ & ->).
  - apply bind_Ok in H as (u1 & st1 & H1 & H2).
    apply modify_block_Ok in H1 as (blk & _ & ->).
    apply bind_Ok in H2 as (blk1 & st2 & H2 & H3).
    apply get_block_Ok in H2 as [-> _].
    apply when_Ok in H3 as [[_ H3]|[_ ->]]; [|done].
    by apply delete_this_Ok in H3 as [_ ->].
Qed.

Lemma inc_weak_guarded k es ew dy st b u st' :
  InvG (S k) es ew dy st →
  when (negb (b =? nullptr)%N) (IncrementWeakRefCounter b) st = Ok u st' →
  InvG k es (b :: ew) dy st' ∧ next_ st' = next_ st.
Proof.
  intros H [[Hb H1]|[Hb ->]]%when_nonnull_Ok.
  - split; [by eapply IncrementWeakRefCounter_inv|].
    eapply weak_counter_next; by left.
  - split; [|done]. rewrite Hb. apply InvG_null_weak.
    eapply InvG_weaken; [|exact H]. lia.
Qed.

Lemma inc_strong_guarded k es ew dy st b u st' :
  InvG (S k) es ew dy st →
  (b ≠ nullptr → (0 < S_ es st b)%nat) →
  when (negb (b =? nullptr)%N) (IncrementRefCounter b) st = Ok u st' →
  InvG k (b :: es) ew dy st'.
Proof.
  intros H HS [[Hb H1]|[Hb ->]]%when_nonnull_Ok.
  - eapply IncrementRefCounter_inv; eauto.
  - rewrite Hb. apply InvG_null_strong.
    eapply InvG_weaken; [|exact H]. lia.
Qed.

Lemma dec_weak_guarded k es ew dy st b u st' :
  InvG k es (b :: ew) dy st →
  when (negb (b =? nullptr)%N) (DecrementWeakRefCounter b) st = Ok u st' →
  InvG k es ew dy st' ∧ next_ st' = next_ st.
Proof.
  intros H H1. split.
  - exact (WeakPtr_dtor_inv k es ew dy st (mkWeak b nullptr) u st' H H1).
  - apply when_nonnull_Ok in H1 as [[Hb H1]|[Hb ->]]; [|done].
    eapply weak_counter_next; by right.
Qed.

Lemma WeakPtr_copy_inv k es ew dy st other h st' :
  InvG (S k) es ew dy st → WeakPtr_copy other st = Ok h st' →
  h = other ∧ InvG k es (w_block_ other :: ew) dy st'.
Proof.
  intros H (u & st1 & H1 & H2)%bind_Ok.
  apply ret_Ok in H2 as [-> ->]. split; [by destruct other|].
  by apply (inc_weak_guarded _ _ _ _ _ _ _ _ H) in H1 as [H1 _].
Qed.

Lemma WeakPtr_from_shared_inv k es ew dy st other h st' :
  InvG (S k) es ew dy st → WeakPtr_from_shared other st = Ok h st' →
  h = mkWeak (s_block_ other) (s_observer_ other) ∧
  InvG k es (s_block_ other :: ew) dy st' ∧ next_ st' = next_ st.
Proof.
  intros H (u & st1 & H1 & H2)%bind_Ok.
  apply ret_Ok in H2 as [-> ->]. split; [done|].
  by apply (inc_weak_guarded _ _ _ _ _ _ _ _ H) in H1.
Qed.

Lemma WeakPtr_assign_inv k es ew dy st this other h st' :
  InvG (S k) es (w_block_ this :: ew) dy st →
  WeakPtr_assign this other st = Ok h st' →
  h = other ∧ InvG k es (w_block_ other :: ew) dy st' ∧ next_ st' = next_ st.
Proof.
  intros H (u & st1 & H1 & H2)%bind_Ok.
  apply (dec_weak_guarded _ _ _ _ _ _ _ _ H) in H1 as [H1 E1].
  apply bind_Ok in H2 as (u2 & st2 & H2 & H3).
  apply ret_Ok in H3 as [-> ->]. split; [by destruct other|].
  apply (inc_weak_guarded _ _ _ _ _ _ _ _ H1) in H2 as [H2 E2].
  split; [done|congruence].
Qed.

Lemma WeakPtr_Reset_inv k es ew dy st this h st' :
  InvG (S k) es (w_block_ this :: ew) dy st →
  WeakPtr_Reset this st = Ok h st' →
  h = WeakPtr_default ∧ InvG k es ew dy st'.
Proof.
  intros H (this' & st1 & H1 & H2)%bind_Ok.
  apply (WeakPtr_assign_inv _ _ _ _ _ _ _ _ _ H) in H1 as (-> & H1 & _).
  apply bind_Ok in H2 as (u & st2 & H2 & H3).
  apply ret_Ok in H3 as [-> ->]. split; [done|].
  by apply (WeakPtr_dtor_inv _ _ _ _ _ _ _ _ H1) in H2.
Qed.

Lemma SharedPtr_copy_inv k es ew dy st other h st' :
  InvG (S k) es ew dy st →
  (s_block_ other ≠ nullptr → (0 < S_ es st (s_block_ other))%nat) →
  SharedPtr_copy other st = Ok h st' →
  h = other ∧ InvG k (s_block_ other :: es) ew dy st'.
Proof.
  intros H HS (u & st1 & H1 & H2)%bind_Ok.
  apply ret_Ok in H2 as [-> ->]. split; [by destruct other|].
  by apply (inc_strong_guarded _ _ _ _ _ _ _ _ H HS) in H1.
Qed.

Lemma SharedPtr_alias_inv k es ew dy st other ptr h st' :
  InvG (S k) es ew dy st →
  (s_block_ other ≠ nullptr → (0 < S_ es st (s_block_ other))%nat) →
  SharedPtr_alias other ptr st = Ok h st' →
  h = mkShared (s_block_ other) ptr ∧ InvG k (s_block_ other :: es) ew dy st'.
Proof.
  intros H HS (u & st1 & H1 & H2)%bind_Ok.
  apply ret_Ok in H2 as [-> ->]. split; [done|].
  by apply (inc_strong_guarded _ _ _ _ _ _ _ _ H HS) in H1.
Qed.

Lemma S_pos_occ es st b : (0 < occ b es)%nat → (0 < S_ es st b)%nat.
Proof. unfold S_. lia. Qed.

Lemma S_pos_table es st x h :
  shared st !! x = Some h → (0 < S_ es st (s_block_ h))%nat.
Proof.
  intros Hx. unfold S_, strong_refs.
  pose proof (refs_on_pos s_block_ (s_block_ h) x h _ Hx eq_refl). lia.
Qed.

Lemma SharedPtr_assign_inv k es ew st this other h st' :
  InvG (S k) (s_block_ this :: es) ew None st →
  (0 < occ (s_block_ other) es)%nat →
  SharedPtr_assign this other st = Ok h st' →
  h = other ∧ InvG k (s_block_ other :: es) ew None st'.
Proof.
  intros H Hocc (u & st1 & H1 & H2)%bind_Ok.
  apply (SharedPtr_dtor_inv _ _ _ _ this _ _ H) in H1.
  apply bind_Ok in H2 as (u2 & st2 & H2 & H3).
  apply ret_Ok in H3 as [-> ->]. split; [by destruct other|].
  apply (inc_strong_guarded _ _ _ _ _ _ _ _ H1) in H2; [done|].
  intros _. by apply S_pos_occ.
Qed.

Lemma SharedPtr_Reset_inv k es ew st this h st' :
  InvG (S k) (s_block_ this :: es) ew None st →
  SharedPtr_Reset this st = Ok h st' →
  h = SharedPtr_default ∧ InvG k es ew None st'.
Proof.
  intros H (this' & st1 & H1 & H2)%bind_Ok.
  assert (H' : InvG (S k) (s_block_ this :: nullptr :: es) ew None st).
  { apply (InvG_ext _ _ _ _ _ _ _ H); [|done].
    intros b Hb. cbn [occ]. repeat case_decide; simplify_eq; lia. }
  apply (SharedPtr_assign_inv _ _ _ _ _ SharedPtr_default _ _ H') in H1 as (-> & H1);
    [|simpl; lia].
  apply bind_Ok in H2 as (u & st2 & H2 & H3).
  apply ret_Ok in H3 as [-> ->]. split; [done|].
  apply (SharedPtr_dtor_inv _ _ _ _ _ _ _ H1) in H2.
  by apply InvG_null_strong_drop.
Qed.

Lemma WeakPtr_UseCount_Ok this st c st' :
  WeakPtr_UseCount this st = Ok c st' →
  st' = st ∧
  ((w_block_ this = nullptr ∧ c = 0) ∨
   (w_block_ this ≠ nullptr ∧
    ∃ blk, blocks st !! w_block_ this = Some blk ∧ c = ref_counter_ blk)).
Proof.
  unfold WeakPtr_UseCount. destruct (N.eqb_spec (w_block_ this) nullptr) as [Hb|Hb]; simpl.
  - intros [-> ->]%ret_Ok. split; [done|]. by left.
  - intros (blk & st1 & H1 & H2)%bind_Ok.
    apply get_block_Ok in H1 as [-> H1]. apply ret_Ok in H2 as [-> ->].
    split; [done|]. right. split; [done|]. by exists blk.
Qed.

Lemma WeakPtr_Expired_Ok this st e st' :
  WeakPtr_Expired this st = Ok e st' →
  st' = st ∧ ∃ c, WeakPtr_UseCount this st = Ok c st ∧ e = (c =? 0).
Proof.
  intros (c & st1 & H1 & H2)%bind_Ok.
  pose proof (WeakPtr_UseCount_Ok _ _ _ _ H1) as [-> _].
  apply ret_Ok in H2 as [-> ->]. split; [done|]. by exists c.
Qed.

Lemma SharedPtr_from_weak_inv k es ew dy st other h st' :
  InvG (S k) es ew dy st →
  SharedPtr_from_weak other st = Ok h st' →
  h = mkShared (w_block_ other) (w_observer_ other) ∧
  InvG k (w_block_ other :: es) ew dy st'.
Proof.
  intros H (e & st1 & H1 & H2)%bind_Ok.
  apply WeakPtr_Expired_Ok in H1 as (-> & c & Hc & ->).
  destruct (Z.eqb_spec c 0) as [|Hne]; [done|].
  apply bind_Ok in H2 as (u & st2 & H2 & H3).
  apply ret_Ok in H3 as [-> ->]. split; [done|].
  apply (inc_strong_guarded _ _ _ _ _ _ _ _ H) in H2; [done|].
  intros Hb. simpl in Hb.
  apply WeakPtr_UseCount_Ok in Hc as (_ & [[? _]|(_ & blk & Hblk & ->)]); [done|].
  destruct (InvG_at _ _ _ _ _ _ _ H Hblk) as (_ & Hr & _). simpl. lia.
Qed.

Lemma WeakPtr_Lock_inv k es ew dy st this h st' :
  InvG (S k) es ew dy st →
  WeakPtr_Lock this st = Ok h st' →
  InvG k (s_block_ h :: es) ew dy st'.
Proof.
  intros H (e & st1 & H1 & H2)%bind_Ok.
  apply WeakPtr_Expired_Ok in H1 as (-> & c & Hc & ->).
  destruct (c =? 0).
  - apply ret_Ok in H2 as [-> ->]. apply InvG_null_strong.
    eapply InvG_weaken; [|exact H]. lia.
  - by apply (SharedPtr_from_weak_inv _ _ _ _ _ _ _ _ H) in H2 as [-> H2].
Qed.

Lemma install_weak_this_inv k es ew dy st ptr sp u st' :
  InvG (S (S k)) es ew dy st →
  install_weak_this ptr sp st = Ok u st' →
  InvG k es ew dy st'.
Proof.
  intros H (tmp & st1 & H1 & H2)%bind_Ok.
  apply (WeakPtr_from_shared_inv _ _ _ _ _ _ _ _ H) in H1 as (-> & H1 & _).
  apply bind_Ok in H2 as (obj & st2 & H2 & H3).
  apply (take_object_inv _ _ _ _ _ _ _ _ H1) in H2 as [H2 Hlt].
  unfold emb_block in H2. destruct (weak_this_ obj) as [wt|]; [|done].
  apply bind_Ok in H3 as (wt' & st3 & H3 & H4).
  apply (WeakPtr_assign_inv _ _ _ _ _ _ _ _ _ H2) in H3 as (-> & H3 & En).
  apply bind_Ok in H4 as (u4 & st4 & H4 & H5).
  rewrite <- En in Hlt.
  pose proof (put_object_inv k es (s_block_ sp :: ew) dy st3 ptr
                (mkPayload (Some (mkWeak (s_block_ sp) (s_observer_ sp))))
                u4 st4 H3 Hlt H4) as H6.
  exact (WeakPtr_dtor_inv k es ew dy st4
           (mkWeak (s_block_ sp) (s_observer_ sp)) u st' H6 H5).
Qed.

Lemma InvG_alloc k es ew dy st :
  InvG k es ew dy st → InvG k es ew dy (upd_next N.succ st).
Proof.
  intros [Hn0 Hn Hl Ha Hv Hc Hb Hp Hd]. split; simpl_st; try done.
  - unfold nullptr. lia.
  - intros a Hge. apply Hn. lia.
  - intros b Hin. destruct (Ha b Hin). split; [done|lia].
Qed.

Lemma alloc_Ok st a st' :
  alloc st = Ok a st' → a = next_ st ∧ st' = upd_next N.succ st.
Proof. by intros [= <- <-]. Qed.

(** [IncrementRefCounter] on a block that was just created. *)
Lemma IncrementRefCounter_new b kind st :
  blocks st !! b = Some (mkBlock kind 0 0) →
  IncrementRefCounter b st = Ok tt (upd_blocks (insert b (mkBlock kind 1 1)) st).
Proof.
  intros Hb. unfold IncrementRefCounter, bind, modify_block, bind, get_block.
  rewrite Hb. simpl. rewrite lookup_insert_eq. simpl.
  unfold modify, upd_blocks. simpl. by rewrite insert_insert_eq.
Qed.

Lemma SharedPtr_from_raw_inv k es ew dy st ptr esft h st' :
  InvG (S (S (S k))) es ew dy st →
  SharedPtr_from_raw ptr esft st = Ok h st' →
  h = mkShared (next_ st) ptr ∧ InvG k (next_ st :: es) ew dy st'.
Proof.
  intros H (b & st1 & H1 & H2)%bind_Ok.
  apply bind_Ok in H1 as (b' & st0 & H0 & H1).
  apply alloc_Ok in H0 as [-> ->].
  apply bind_Ok in H1 as (u1 & st2 & H1 & H3).
  apply modify_Ok in H1 as ->. apply ret_Ok in H3 as [-> ->].
  apply bind_Ok in H2 as (u2 & st3 & H2 & H3).
  apply ret_Ok in H3 as [-> ->]. split; [done|].
  apply when_nonnull_Ok in H2 as [[_ H2]|[Hb _]];
    [|by destruct (inv_next_pos _ _ _ _ _ H)].
  apply bind_Ok in H2 as (u3 & st4 & H2 & H3).
  cbn [s_block_] in H2.
  rewrite (IncrementRefCounter_new _ (ControlBlockWithPtr ptr)) in H2
    by (simpl_st; apply lookup_insert_eq).
  injection H2 as H2. subst st4.
  assert (H4 : InvG (S (S k)) (next_ st :: es) ew dy
            (upd_blocks (insert (next_ st) (mkBlock (ControlBlockWithPtr ptr) 1 1))
               (emit (NewBlock (next_ st))
                  (upd_blocks (insert (next_ st) (mkBlock (ControlBlockWithPtr ptr) 0 0))
                     (upd_next N.succ st))))).
  { eapply (InvG_new _ _ _ _ st); [exact H|simpl_st..]; try done.
    - rewrite insert_insert_eq. reflexivity.
    - lia. }
  apply when_Ok in H3 as [[_ H3]|[_ ->]].
  - by eapply install_weak_this_inv.
  - eapply InvG_weaken; [|exact H4]. lia.
Qed.

Lemma MakeShared_inv k es ew dy st esft h st' :
  InvG (S (S (S k))) es ew dy st →
  MakeShared esft st = Ok h st' →
  h = mkShared (next_ st) (N.succ (next_ st)) ∧ InvG k (next_ st :: es) ew dy st'.
Proof.
  intros H (cb & st1 & H1 & H2)%bind_Ok.
  apply bind_Ok in H1 as (b & st0 & H0 & H1).
  apply alloc_Ok in H0 as [-> ->].
  apply bind_Ok in H1 as (buf & st0 & H0 & H1).
  apply alloc_Ok in H0 as [-> ->]. simpl_st.
  apply bind_Ok in H1 as (u1 & st2 & H1 & H3).
  apply modify_Ok in H1 as ->.
  apply bind_Ok in H3 as (u2 & st3 & H3 & H4).
  apply ret_Ok in H4 as [-> ->]. cbn [fst snd s_block_ s_observer_] in H2.
  apply bind_Ok in H2 as (u3 & st4 & H2 & H4).
  apply bind_Ok in H4 as (u4 & st5 & H4 & H5).
  apply ret_Ok in H5 as [-> ->]. split; [done|].
  set (b := next_ st) in *. set (kind := ControlBlockOwning (N.succ b)) in *.
  set (stA := emit (NewBlock b)
                (upd_blocks (insert b (mkBlock kind 1 1))
                   (upd_next N.succ (upd_next N.succ st)))).
  assert (HA : InvG (S (S k)) (b :: es) ew dy stA).
  { eapply (InvG_new _ _ _ _ st); [exact H|subst stA; simpl_st..]; try done. lia. }
  unfold put_object in H3. simpl_st.
  destruct (objects st !! N.succ b) eqn:Hfree; [done|]. injection H3 as H3. subst st3.
  rewrite (IncrementRefCounter_new _ kind) in H2 by (simpl_st; apply lookup_insert_eq).
  injection H2 as H2. subst st4.
  assert (H6 : InvG (S (S k)) (b :: es) ew dy
            (upd_blocks (insert b (mkBlock kind 1 1))
               (upd_objects (insert (N.succ b) (fresh_payload esft))
                  (emit (NewBlock b)
                     (upd_blocks (insert b (mkBlock kind 0 0))
                        (upd_next N.succ (upd_next N.succ st))))))).
  { apply (InvG_transfer _ (b :: es) ew dy stA); try done; subst stA; simpl_st.
    - by rewrite insert_insert_eq.
    - intros a Ha. rewrite lookup_insert_ne by lia.
      apply (inv_next _ _ _ _ _ H). lia.
    - intros b' Hb'. unfold W_, weak_refs. simpl_st.
      rewrite (refs_on_insert emb_block b' _ _ _ Hfree).
      rewrite decide_False; [done|]. by destruct esft. }
  apply when_Ok in H4 as [[_ H4]|[_ ->]].
  - by eapply install_weak_this_inv.
  - eapply InvG_weaken; [|exact H6]. lia.
Qed.

Lemma SharedPtr_Reset_ptr_inv k es ew st this ptr esft h st' :
  InvG (S (S (S (S k)))) (s_block_ this :: es) ew None st →
  SharedPtr_Reset_ptr this ptr esft st = Ok h st' →
  InvG k (s_block_ h :: es) ew None st'.
Proof.
  intros H (other & st1 & H1 & H2)%bind_Ok.
  apply (SharedPtr_from_raw_inv _ _ _ _ _ _ _ _ _ H) in H1 as (-> & H1).
  set (b := next_ st) in *.
  assert (H1' : InvG (S k) (s_block_ this :: b :: es) ew None st1).
  { apply (InvG_ext _ _ _ _ _ _ _ H1); [|done]. intros b' _. simpl. lia. }
  apply bind_Ok in H2 as (this' & st2 & H2 & H3).
  apply (SharedPtr_assign_inv _ _ _ _ _ _ _ _ H1') in H2 as (-> & H2);
    [|simpl; rewrite decide_True by done; lia].
  apply bind_Ok in H3 as (u & st3 & H3 & H4).
  apply ret_Ok in H4 as [-> ->].
  exact (SharedPtr_dtor_inv _ _ _ _ _ _ _ H2 H3).
Qed.

Lemma SharedFromThis_inv k es ew dy st p h st' :
  InvG (S k) es ew dy st → SharedFromThis p st = Ok h st' →
  InvG k (s_block_ h :: es) ew dy st'.
Proof.
  intros H (w & st1 & H1 & H2)%bind_Ok.
  apply get_weak_this_Ok in H1 as [-> _].
  by apply (SharedPtr_from_weak_inv _ _ _ _ _ _ _ _ H) in H2 as [-> H2].
Qed.

Lemma WeakFromThis_inv k es ew dy st p h st' :
  InvG (S k) es ew dy st → WeakFromThis p st = Ok h st' →
  InvG k es (w_block_ h :: ew) dy st'.
Proof.
  intros H (w & st1 & H1 & H2)%bind_Ok.
  apply get_weak_this_Ok in H1 as [-> _].
  by apply (WeakPtr_copy_inv _ _ _ _ _ _ _ _ H) in H2 as [-> H2].
Qed.

(** *** Every operation preserves the invariant *)

Ltac weaken_to H := eapply InvG_weaken; [|exact H]; lia.
Ltac by_put_shared H1 H2 := refine (put_shared_inv _ _ _ _ _ _ _ _ _ _ H2); exact H1.
Ltac by_dtor_shared H1 H2 := refine (SharedPtr_dtor_inv _ _ _ _ _ _ _ _ H2); exact H1.
Ltac by_dtor_weak H1 H2 := refine (WeakPtr_dtor_inv _ _ _ _ _ _ _ _ _ H2); exact H1.
Ltac by_put_weak H1 H2 := refine (put_weak_inv _ _ _ _ _ _ _ _ _ _ H2); exact H1.

Lemma step_inv k st op u st' :
  Inv (S (S (S (S k)))) st → step op st = Ok u st' → Inv k st'.
Proof.
  unfold Inv. intros H Hs. destruct op; simpl in Hs.
  - (* NewPayload *)
    apply bind_Ok in Hs as (p & st1 & H1 & H2).
    apply alloc_Ok in H1 as [-> ->].
    apply InvG_alloc, InvG_null_weak in H.
    assert (Hlt : (next_ st < next_ (upd_next N.succ st))%N) by (simpl_st; lia).
    assert (H' : InvG (S (S (S (S k)))) [] [emb_block (fresh_payload esft)] None
                   (upd_next N.succ st)) by (by destruct esft).
    pose proof (put_object_inv _ _ _ _ _ _ _ _ _ H' Hlt H2) as H3. weaken_to H3.
  - (* SDefault *)
    apply InvG_null_strong in H.
    pose proof (put_shared_inv _ _ _ _ _ _ SharedPtr_default _ _ H Hs) as H3.
    weaken_to H3.
  - (* SFromRaw *)
    apply bind_Ok in Hs as (h & st1 & H1 & H2).
    apply (InvG_weaken _ (S (S (S k)))) in H; [|lia].
    apply (SharedPtr_from_raw_inv _ _ _ _ _ _ _ _ _ H) in H1 as (-> & H1).
    by_put_shared H1 H2.
  - (* SMakeShared *)
    apply bind_Ok in Hs as (h & st1 & H1 & H2).
    apply (InvG_weaken _ (S (S (S k)))) in H; [|lia].
    apply (MakeShared_inv _ _ _ _ _ _ _ _ H) in H1 as (-> & H1).
    by_put_shared H1 H2.
  - (* SCopy *)
    apply bind_Ok in Hs as (other & st1 & H1 & H2).
    apply get_shared_Ok in H1 as [-> Hy].
    apply bind_Ok in H2 as (h & st2 & H2 & H3).
    apply (InvG_weaken _ (S k)) in H; [|lia].
    apply (SharedPtr_copy_inv _ _ _ _ _ _ _ _ H) in H2 as (-> & H2);
      [|intros _; by eapply S_pos_table].
    by_put_shared H2 H3.
  - (* SMove *)
    apply bind_Ok in Hs as (other & st1 & H1 & H2).
    apply (take_shared_inv _ _ _ _ _ _ _ _ H) in H1.
    apply bind_Ok in H2 as (u2 & st2 & H2 & H3).
    apply InvG_null_strong in H1.
    pose proof (put_shared_inv _ _ _ _ _ _ (snd (SharedPtr_move other)) _ _ H1 H2) as H4.
    pose proof (put_shared_inv _ _ _ _ _ _ (fst (SharedPtr_move other)) _ _ H4 H3) as H5.
    weaken_to H5.
  - (* SAlias *)
    apply bind_Ok in Hs as (other & st1 & H1 & H2).
    apply get_shared_Ok in H1 as [-> Hy].
    apply bind_Ok in H2 as (h & st2 & H2 & H3).
    apply (InvG_weaken _ (S k)) in H; [|lia].
    apply (SharedPtr_alias_inv _ _ _ _ _ _ _ _ _ H) in H2 as (-> & H2);
      [|intros _; by eapply S_pos_table].
    exact (put_shared_inv _ _ _ _ _ _ (mkShared (s_block_ other) p) _ _ H2 H3).
  - (* SPromote *)
    apply bind_Ok in Hs as (other & st1 & H1 & H2).
    apply get_weak_Ok in H1 as [-> Hw].
    apply bind_Ok in H2 as (h & st2 & H2 & H3).
    apply (InvG_weaken _ (S k)) in H; [|lia].
    apply (SharedPtr_from_weak_inv _ _ _ _ _ _ _ _ H) in H2 as (-> & H2).
    exact (put_shared_inv _ _ _ _ _ _
             (mkShared (w_block_ other) (w_observer_ other)) _ _ H2 H3).
  - (* SAssign *)
    apply bind_Ok in Hs as (hy & st1 & H1 & H2).
    apply get_shared_Ok in H1 as [-> Hy].
    apply bind_Ok in H2 as (other & st2 & H2 & H3).
    apply (InvG_weaken _ (S (S k))) in H; [|lia].
    apply (SharedPtr_copy_inv _ _ _ _ _ _ _ _ H) in H2 as (-> & H2);
      [|intros _; by eapply S_pos_table].
    apply bind_Ok in H3 as (this & st3 & H3 & H4).
    apply (take_shared_inv _ _ _ _ _ _ _ _ H2) in H3.
    apply bind_Ok in H4 as (this' & st4 & H4 & H5).
    apply (SharedPtr_assign_inv _ _ _ _ _ _ _ _ H3) in H4 as (-> & H4);
      [|simpl; rewrite decide_True by done; lia].
    apply bind_Ok in H5 as (u5 & st5 & H5 & H6).
    eapply put_shared_inv in H5; [|exact H4].
    by_dtor_shared H5 H6.
  - (* SMoveAssign *)
    apply bind_Ok in Hs as (hy & st1 & H1 & H2).
    apply (take_shared_inv _ _ _ _ _ _ _ _ H) in H1.
    apply bind_Ok in H2 as (u2 & st2 & H2 & H3).
    apply InvG_null_strong in H1.
    pose proof (put_shared_inv _ _ _ _ _ _ (snd (SharedPtr_move hy)) _ _ H1 H2) as H4.
    apply bind_Ok in H3 as (this & st3 & H3 & H5).
    apply (take_shared_inv _ _ _ _ _ _ _ _ H4) in H3.
    apply bind_Ok in H5 as (this' & st4 & H5 & H6).
    apply (InvG_weaken _ (S k)) in H3; [|lia].
    apply (SharedPtr_assign_inv _ _ _ _ _ (fst (SharedPtr_move hy)) _ _ H3) in H5
      as (-> & H5); [|simpl; rewrite decide_True by done; lia].
    apply bind_Ok in H6 as (u6 & st6 & H6 & H7).
    assert (H5' : InvG k [s_block_ (fst (SharedPtr_move hy)); s_block_ hy] [] None st4)
      by exact H5.
    eapply put_shared_inv in H6; [|exact H5'].
    exact (SharedPtr_dtor_inv _ _ _ _ (fst (SharedPtr_move hy)) _ _ H6 H7).
  - (* SReset *)
    apply bind_Ok in Hs as (this & st1 & H1 & H2).
    apply (take_shared_inv _ _ _ _ _ _ _ _ H) in H1.
    apply bind_Ok in H2 as (this' & st2 & H2 & H3).
    apply (InvG_weaken _ (S k)) in H1; [|lia].
    apply (SharedPtr_Reset_inv _ _ _ _ _ _ _ H1) in H2 as (-> & H2).
    apply InvG_null_strong in H2.
    exact (put_shared_inv _ _ _ _ _ _ SharedPtr_default _ _ H2 H3).
  - (* SResetPtr *)
    apply bind_Ok in Hs as (this & st1 & H1 & H2).
    apply (take_shared_inv _ _ _ _ _ _ _ _ H) in H1.
    apply bind_Ok in H2 as (this' & st2 & H2 & H3).
    apply (SharedPtr_Reset_ptr_inv _ _ _ _ _ _ _ _ _ H1) in H2.
    by_put_shared H2 H3.
  - (* SSwap *)
    destruct (x =? y)%N.
    + apply bind_Ok in Hs as (h & st1 & H1 & H2).
      apply get_shared_Ok in H1 as [-> _]. apply ret_Ok in H2 as [_ ->].
      weaken_to H.
    + apply bind_Ok in Hs as (this & st1 & H1 & H2).
      apply (take_shared_inv _ _ _ _ _ _ _ _ H) in H1.
      apply bind_Ok in H2 as (other & st2 & H2 & H3).
      apply (take_shared_inv _ _ _ _ _ _ _ _ H1) in H2.
      apply bind_Ok in H3 as (u3 & st3 & H3 & H4).
      pose proof (put_shared_inv _ _ _ _ _ _ (fst (SharedPtr_Swap this other)) _ _ H2 H3)
        as H5.
      pose proof (put_shared_inv _ _ _ _ _ _ (snd (SharedPtr_Swap this other)) _ _ H5 H4)
        as H6.
      weaken_to H6.
  - (* SDestroy *)
    apply bind_Ok in Hs as (this & st1 & H1 & H2).
    apply (take_shared_inv _ _ _ _ _ _ _ _ H) in H1.
    pose proof (SharedPtr_dtor_inv _ _ _ _ _ _ _ H1 H2) as H3. weaken_to H3.
  - (* SSharedFromThis *)
    apply bind_Ok in Hs as (h & st1 & H1 & H2).
    apply (InvG_weaken _ (S k)) in H; [|lia].
    apply (SharedFromThis_inv _ _ _ _ _ _ _ _ H) in H1.
    by_put_shared H1 H2.
  - (* WDefault *)
    apply InvG_null_weak in H.
    pose proof (put_weak_inv _ _ _ _ _ _ WeakPtr_default _ _ H Hs) as H3.
    weaken_to H3.
  - (* WCopy *)
    apply bind_Ok in Hs as (other & st1 & H1 & H2).
    apply get_weak_Ok in H1 as [-> Hv].
    apply bind_Ok in H2 as (h & st2 & H2 & H3).
    apply (InvG_weaken _ (S k)) in H; [|lia].
    apply (WeakPtr_copy_inv _ _ _ _ _ _ _ _ H) in H2 as (-> & H2).
    by_put_weak H2 H3.
  - (* WMove *)
    apply bind_Ok in Hs as (other & st1 & H1 & H2).
    apply (take_weak_inv _ _ _ _ _ _ _ _ H) in H1.
    apply bind_Ok in H2 as (u2 & st2 & H2 & H3).
    apply InvG_null_weak in H1.
    pose proof (put_weak_inv _ _ _ _ _ _ (snd (WeakPtr_move other)) _ _ H1 H2) as H4.
    pose proof (put_weak_inv _ _ _ _ _ _ (fst (WeakPtr_move other)) _ _ H4 H3) as H5.
    weaken_to H5.
  - (* WDemote *)
    apply bind_Ok in Hs as (other & st1 & H1 & H2).
    apply get_shared_Ok in H1 as [-> Hx].
    apply bind_Ok in H2 as (h & st2 & H2 & H3).
    apply (InvG_weaken _ (S k)) in H; [|lia].
    apply (WeakPtr_from_shared_inv _ _ _ _ _ _ _ _ H) in H2 as (-> & H2 & _).
    exact (put_weak_inv _ _ _ _ _ _
             (mkWeak (s_block_ other) (s_observer_ other)) _ _ H2 H3).
  - (* WAssign *)
    apply bind_Ok in Hs as (hv & st1 & H1 & H2).
    apply get_weak_Ok in H1 as [-> Hv].
    apply bind_Ok in H2 as (other & st2 & H2 & H3).
    apply (InvG_weaken _ (S (S k))) in H; [|lia].
    apply (WeakPtr_copy_inv _ _ _ _ _ _ _ _ H) in H2 as (-> & H2).
    apply bind_Ok in H3 as (this & st3 & H3 & H4).
    apply (take_weak_inv _ _ _ _ _ _ _ _ H2) in H3.
    apply bind_Ok in H4 as (this' & st4 & H4 & H5).
    apply (WeakPtr_assign_inv _ _ _ _ _ _ _ _ _ H3) in H4 as (-> & H4 & _).
    apply bind_Ok in H5 as (u5 & st5 & H5 & H6).
    eapply put_weak_inv in H5; [|exact H4].
    by_dtor_weak H5 H6.
  - (* WMoveAssign *)
    apply bind_Ok in Hs as (hv & st1 & H1 & H2).
    apply (take_weak_inv _ _ _ _ _ _ _ _ H) in H1.
    apply bind_Ok in H2 as (u2 & st2 & H2 & H3).
    apply InvG_null_weak in H1.
    pose proof (put_weak_inv _ _ _ _ _ _ (snd (WeakPtr_move hv)) _ _ H1 H2) as H4.
    apply bind_Ok in H3 as (this & st3 & H3 & H5).
    apply (take_weak_inv _ _ _ _ _ _ _ _ H4) in H3.
    apply bind_Ok in H5 as (this' & st4 & H5 & H6).
    apply (InvG_weaken _ (S k)) in H3; [|lia].
    apply (WeakPtr_assign_inv _ _ _ _ _ _ (fst (WeakPtr_move hv)) _ _ H3) in H5
      as (-> & H5 & _).
    apply bind_Ok in H6 as (u6 & st6 & H6 & H7).
    assert (H5' : InvG k [] [w_block_ (fst (WeakPtr_move hv)); w_block_ hv] None st4)
      by exact H5.
    eapply put_weak_inv in H6; [|exact H5'].
    exact (WeakPtr_dtor_inv _ _ _ _ _ (fst (WeakPtr_move hv)) _ _ H6 H7).
  - (* WAssignShared *)
    apply bind_Ok in Hs as (hx & st1 & H1 & H2).
    apply get_shared_Ok in H1 as [-> Hx].
    apply bind_Ok in H2 as (other & st2 & H2 & H3).
    apply (InvG_weaken _ (S (S k))) in H; [|lia].
    apply (WeakPtr_from_shared_inv _ _ _ _ _ _ _ _ H) in H2 as (-> & H2 & _).
    apply bind_Ok in H3 as (this & st3 & H3 & H4).
    apply (take_weak_inv _ _ _ _ _ _ _ _ H2) in H3.
    apply bind_Ok in H4 as (this' & st4 & H4 & H5).
    apply (WeakPtr_assign_inv _ _ _ _ _ _ _ _ _ H3) in H4 as (-> & H4 & _).
    apply bind_Ok in H5 as (u5 & st5 & H5 & H6).
    eapply put_weak_inv in H5; [|exact H4].
    by_dtor_weak H5 H6.
  - (* WReset *)
    apply bind_Ok in Hs as (this & st1 & H1 & H2).
    apply (take_weak_inv _ _ _ _ _ _ _ _ H) in H1.
    apply bind_Ok in H2 as (this' & st2 & H2 & H3).
    apply (InvG_weaken _ (S k)) in H1; [|lia].
    apply (WeakPtr_Reset_inv _ _ _ _ _ _ _ _ H1) in H2 as (-> & H2).
    apply InvG_null_weak in H2.
    exact (put_weak_inv _ _ _ _ _ _ WeakPtr_default _ _ H2 H3).
  - (* WSwap *)
    destruct (w =? v)%N.
    + apply bind_Ok in Hs as (h & st1 & H1 & H2).
      apply get_weak_Ok in H1 as [-> _]. apply ret_Ok in H2 as [_ ->].
      weaken_to H.
    + apply bind_Ok in Hs as (this & st1 & H1 & H2).
      apply (take_weak_inv _ _ _ _ _ _ _ _ H) in H1.
      apply bind_Ok in H2 as (other & st2 & H2 & H3).
      apply (take_weak_inv _ _ _ _ _ _ _ _ H1) in H2.
      apply bind_Ok in H3 as (u3 & st3 & H3 & H4).
      pose proof (put_weak_inv _ _ _ _ _ _ (fst (WeakPtr_Swap this other)) _ _ H2 H3)
        as H5.
      pose proof (put_weak_inv _ _ _ _ _ _ (snd (WeakPtr_Swap this other)) _ _ H5 H4)
        as H6.
      weaken_to H6.
  - (* WDestroy *)
    apply bind_Ok in Hs as (this & st1 & H1 & H2).
    apply (take_weak_inv _ _ _ _ _ _ _ _ H) in H1.
    pose proof (WeakPtr_dtor_inv _ _ _ _ _ _ _ _ H1 H2) as H3. weaken_to H3.
  - (* WLock *)
    apply bind_Ok in Hs as (this & st1 & H1 & H2).
    apply get_weak_Ok in H1 as [-> Hw].
    apply bind_Ok in H2 as (h & st2 & H2 & H3).
    apply (InvG_weaken _ (S k)) in H; [|lia].
    apply (WeakPtr_Lock_inv _ _ _ _ _ _ _ _ H) in H2.
    by_put_shared H2 H3.
  - (* WWeakFromThis *)
    apply bind_Ok in Hs as (h & st1 & H1 & H2).
    apply (InvG_weaken _ (S k)) in H; [|lia].
    apply (WeakFromThis_inv _ _ _ _ _ _ _ _ H) in H1.
    by_put_weak H1 H2.
Qed.

(** ** What a computation leaves alone *)

Lemma frame_refl st : frame st st.
Proof. split; [done|]. split; [done|]. by exists []. Qed.

Lemma frame_trans st1 st2 st3 : frame st1 st2 → frame st2 st3 → frame st1 st3.
Proof.
  intros (E1 & E2 & new1 & E3) (F1 & F2 & new2 & F3).
  split; [congruence|]. split; [congruence|].
  exists (new2 ++ new1). rewrite F3, E3. by rewrite app_assoc.
Qed.

Lemma quiet_ret {A} (a : A) : quiet (ret a).
Proof. intros st. apply frame_refl. Qed.

Lemma quiet_undefined {A} : quiet (@undefined A).
Proof. by intros st. Qed.

Lemma quiet_bind {A B} (m : M A) (k : A → M B) :
  quiet m → (∀ a, quiet (k a)) → quiet (bind m k).
Proof.
  intros Hm Hk st. unfold bind. specialize (Hm st).
  destruct (m st) as [a st1| |]; [|done..].
  specialize (Hk a st1). destruct (k a st1) as [b st2| |]; [|done..].
  by eapply frame_trans.
Qed.

Lemma quiet_when c (m : M unit) : quiet m → quiet (when c m).
Proof. intros Hm. destruct c; [done|apply quiet_ret]. Qed.

Lemma quiet_get_block b : quiet (get_block b).
Proof.
  intros st. unfold get_block. destruct (blocks st !! b); [apply frame_refl|done].
Qed.

Lemma quiet_upd_blocks f : quiet (modify (upd_blocks f)).
Proof. intros st. split; [done|]. split; [done|]. by exists []. Qed.

Lemma quiet_emit e : quiet (modify (emit e)).
Proof. intros st. split; [done|]. split; [done|]. by exists [e]. Qed.

Lemma quiet_alloc : quiet alloc.
Proof. intros st. split; [done|]. split; [done|]. by exists []. Qed.

Lemma quiet_take_object p : quiet (take_object p).
Proof.
  intros st. unfold take_object. destruct (objects st !! p); [|done].
  split; [done|]. split; [done|]. by exists [].
Qed.

Lemma quiet_put_object p obj : quiet (put_object p obj).
Proof.
  intros st. unfold put_object. destruct (objects st !! p); [done|].
  split; [done|]. split; [done|]. by exists [].
Qed.

Lemma quiet_get_weak_this p : quiet (get_weak_this p).
Proof.
  intros st. unfold get_weak_this.
  destruct (objects st !! p) as [[[w|]]|]; [apply frame_refl|done..].
Qed.

Create HintDb quiet.
#[local] Hint Resolve quiet_ret quiet_undefined quiet_when quiet_get_block
  quiet_upd_blocks quiet_emit quiet_alloc quiet_take_object quiet_put_object
  quiet_get_weak_this : quiet.

Ltac quiet_tac :=
  repeat first
    [ solve [auto with quiet]
    | apply quiet_when
    | apply quiet_bind; [|intros ?; cbv beta] ].

Lemma quiet_modify_block f b : quiet (modify_block f b).
Proof. unfold modify_block. quiet_tac. Qed.
#[local] Hint Resolve quiet_modify_block : quiet.

Lemma quiet_delete_this b : quiet (delete_this b).
Proof.
  unfold delete_this. quiet_tac.
  intros st. split; [done|]. split; [done|]. by exists [DeleteBlock b].
Qed.
#[local] Hint Resolve quiet_delete_this : quiet.

Lemma quiet_IncrementRefCounter b : quiet (IncrementRefCounter b).
Proof. unfold IncrementRefCounter. quiet_tac. Qed.

Lemma quiet_IncrementWeakRefCounter b : quiet (IncrementWeakRefCounter b).
Proof. unfold IncrementWeakRefCounter. quiet_tac. Qed.

Lemma quiet_DecrementWeakRefCounter b : quiet (DecrementWeakRefCounter b).
Proof. unfold DecrementWeakRefCounter. quiet_tac. Qed.

Lemma quiet_GetRefCount b : quiet (GetRefCount b).
Proof. unfold GetRefCount. quiet_tac. Qed.
#[local] Hint Resolve quiet_IncrementRefCounter quiet_IncrementWeakRefCounter
  quiet_DecrementWeakRefCounter quiet_GetRefCount : quiet.

Lemma quiet_WeakPtr_dtor w : quiet (WeakPtr_dtor w).
Proof. unfold WeakPtr_dtor. quiet_tac. Qed.
#[local] Hint Resolve quiet_WeakPtr_dtor : quiet.

Lemma quiet_destroy_payload p : quiet (destroy_payload p).
Proof. unfold destroy_payload. quiet_tac. destruct (weak_this_ a); quiet_tac. Qed.
#[local] Hint Resolve quiet_destroy_payload : quiet.

Lemma quiet_delete_payload b : quiet (delete_payload b).
Proof. unfold delete_payload. quiet_tac. destruct (storage a); quiet_tac. Qed.
#[local] Hint Resolve quiet_delete_payload : quiet.

Lemma quiet_DecrementRefCounter b : quiet (DecrementRefCounter b).
Proof. unfold DecrementRefCounter. quiet_tac. Qed.
#[local] Hint Resolve quiet_DecrementRefCounter : quiet.

Lemma quiet_create_block b k : quiet (create_block b k).
Proof.
  intros st. split; [done|]. split; [done|]. by exists [NewBlock b].
Qed.
#[local] Hint Resolve quiet_create_block : quiet.

Lemma quiet_new_ControlBlockWithPtr p : quiet (new_ControlBlockWithPtr p).
Proof. unfold new_ControlBlockWithPtr. quiet_tac. Qed.

Lemma quiet_new_ControlBlockOwning e : quiet (new_ControlBlockOwning e).
Proof. unfold new_ControlBlockOwning. quiet_tac. Qed.
#[local] Hint Resolve quiet_new_ControlBlockWithPtr quiet_new_ControlBlockOwning : quiet.

Lemma quiet_WeakPtr_copy w : quiet (WeakPtr_copy w).
Proof. unfold WeakPtr_copy. quiet_tac. Qed.

Lemma quiet_WeakPtr_from_shared h : quiet (WeakPtr_from_shared h).
Proof. unfold WeakPtr_from_shared. quiet_tac. Qed.

Lemma quiet_WeakPtr_assign this other : quiet (WeakPtr_assign this other).
Proof. unfold WeakPtr_assign. quiet_tac. Qed.
#[local] Hint Resolve quiet_WeakPtr_copy quiet_WeakPtr_from_shared
  quiet_WeakPtr_assign : quiet.

Lemma quiet_WeakPtr_Reset this : quiet (WeakPtr_Reset this).
Proof. unfold WeakPtr_Reset. quiet_tac. Qed.

Lemma quiet_WeakPtr_UseCount this : quiet (WeakPtr_UseCount this).
Proof. unfold WeakPtr_UseCount. destruct (negb _); quiet_tac. Qed.
#[local] Hint Resolve quiet_WeakPtr_Reset quiet_WeakPtr_UseCount : quiet.

Lemma quiet_WeakPtr_Expired this : quiet (WeakPtr_Expired this).
Proof. unfold WeakPtr_Expired. quiet_tac. Qed.
#[local] Hint Resolve quiet_WeakPtr_Expired : quiet.

Lemma quiet_install_weak_this p h : quiet (install_weak_this p h).
Proof. unfold install_weak_this. quiet_tac. destruct (weak_this_ a0); quiet_tac. Qed.
#[local] Hint Resolve quiet_install_weak_this : quiet.

Lemma quiet_SharedPtr_from_raw p e : quiet (SharedPtr_from_raw p e).
Proof. unfold SharedPtr_from_raw. quiet_tac. Qed.

Lemma quiet_SharedPtr_copy h : quiet (SharedPtr_copy h).
Proof. unfold SharedPtr_copy. quiet_tac. Qed.

Lemma quiet_SharedPtr_alias h p : quiet (SharedPtr_alias h p).
Proof. unfold SharedPtr_alias. quiet_tac. Qed.

Lemma quiet_SharedPtr_assign this other : quiet (SharedPtr_assign this other).
Proof. unfold SharedPtr_assign. quiet_tac. Qed.

Lemma quiet_SharedPtr_dtor this : quiet (SharedPtr_dtor this).
Proof. unfold SharedPtr_dtor. quiet_tac. Qed.
#[local] Hint Resolve quiet_SharedPtr_from_raw quiet_SharedPtr_copy
  quiet_SharedPtr_alias quiet_SharedPtr_assign quiet_SharedPtr_dtor : quiet.

Lemma quiet_SharedPtr_Reset this : quiet (SharedPtr_Reset this).
Proof. unfold SharedPtr_Reset. quiet_tac. Qed.

Lemma quiet_SharedPtr_Reset_ptr this p e : quiet (SharedPtr_Reset_ptr this p e).
Proof. unfold SharedPtr_Reset_ptr. quiet_tac. Qed.

Lemma quiet_SharedPtr_UseCount this : quiet (SharedPtr_UseCount this).
Proof. unfold SharedPtr_UseCount. destruct (negb _); quiet_tac. Qed.

Lemma quiet_MakeShared e : quiet (MakeShared e).
Proof. unfold MakeShared. quiet_tac. Qed.

Lemma quiet_WeakFromThis p : quiet (WeakFromThis p).
Proof. unfold WeakFromThis. quiet_tac. Qed.
#[local] Hint Resolve quiet_SharedPtr_Reset quiet_SharedPtr_Reset_ptr
  quiet_SharedPtr_UseCount quiet_MakeShared quiet_WeakFromThis : quiet.

(** Promotion is the one computation that throws; it does so before it
    changes anything. *)
Lemma SharedPtr_from_weak_outcome other st :
  match SharedPtr_from_weak other st with
  | Ok _ st' => frame st st' ∧ WeakPtr_Expired other st = Ok false st
  | Throw st' => st' = st ∧ WeakPtr_Expired other st = Ok true st
  | Undefined => True
  end.
Proof.
  unfold SharedPtr_from_weak, bind.
  pose proof (quiet_WeakPtr_Expired other st) as Hq.
  destruct (WeakPtr_Expired other st) as [e st1| |] eqn:He; [|done..].
  apply WeakPtr_Expired_Ok in He as He'. destruct He' as (-> & _).
  destruct e; [done|].
  pose proof (quiet_when (negb (w_block_ other =? nullptr)%N)
                (IncrementRefCounter (w_block_ other))
                (quiet_IncrementRefCounter _) st) as Hq2.
  cbn [s_block_].
  destruct (when _ _ st) as [u st2| |]; [|done..]. done.
Qed.

(** [Lock] never throws. *)
Lemma quiet_WeakPtr_Lock this : quiet (WeakPtr_Lock this).
Proof.
  intros st. unfold WeakPtr_Lock, bind.
  pose proof (quiet_WeakPtr_Expired this st) as Hq.
  destruct (WeakPtr_Expired this st) as [e st1| |] eqn:He; [|done..].
  apply WeakPtr_Expired_Ok in He as He'. destruct He' as (-> & _).
  destruct e; [apply frame_refl|].
  pose proof (SharedPtr_from_weak_outcome this st) as Ho.
  destruct (SharedPtr_from_weak this st) as [h st2| |]; [tauto| |done].
  destruct Ho as [_ Ho]. congruence.
Qed.
#[local] Hint Resolve quiet_WeakPtr_Lock : quiet.

Lemma log_ext_refl st : log_ext st st.
Proof. by exists []. Qed.

Lemma log_ext_trans st1 st2 st3 : log_ext st1 st2 → log_ext st2 st3 → log_ext st1 st3.
Proof.
  intros (new1 & E1) (new2 & E2). exists (new2 ++ new1).
  rewrite E2, E1. by rewrite app_assoc.
Qed.

Lemma quiet_calm {A} (m : M A) : quiet m → calm m.
Proof.
  intros Hq st. specialize (Hq st). destruct (m st); [|done..].
  by destruct Hq as (_ & _ & Hl).
Qed.

Lemma calm_bind {A B} (m : M A) (k : A → M B) :
  calm m → (∀ a, calm (k a)) → calm (bind m k).
Proof.
  intros Hm Hk st. unfold bind. specialize (Hm st).
  destruct (m st) as [a st1| |]; [|done..].
  specialize (Hk a st1). destruct (k a st1) as [b st2| |]; [|done..].
  by eapply log_ext_trans.
Qed.

Lemma calm_get_shared x : calm (get_shared x).
Proof. intros st. unfold get_shared. destruct (shared st !! x); [by exists []|done]. Qed.
Lemma calm_take_shared x : calm (take_shared x).
Proof. intros st. unfold take_shared. destruct (shared st !! x); [by exists []|done]. Qed.
Lemma calm_put_shared x h : calm (put_shared x h).
Proof. intros st. unfold put_shared. destruct (shared st !! x); [done|by exists []]. Qed.
Lemma calm_get_weak x : calm (get_weak x).
Proof. intros st. unfold get_weak. destruct (weak st !! x); [by exists []|done]. Qed.
Lemma calm_take_weak x : calm (take_weak x).
Proof. intros st. unfold take_weak. destruct (weak st !! x); [by exists []|done]. Qed.
Lemma calm_put_weak x h : calm (put_weak x h).
Proof. intros st. unfold put_weak. destruct (weak st !! x); [done|by exists []]. Qed.

#[local] Hint Resolve calm_get_shared calm_take_shared calm_put_shared
  calm_get_weak calm_take_weak calm_put_weak : quiet.
#[local] Hint Extern 1 (calm _) => apply quiet_calm; solve [auto with quiet] : quiet.

Ltac calm_tac :=
  repeat first
    [ solve [auto with quiet]
    | apply calm_bind; [|intros ?; cbv beta zeta] ].

Lemma calm_step op : promotes op = false → calm (step op).
Proof.
  destruct op; try discriminate; intros _; unfold step; calm_tac.
  - destruct (x =? y)%N; calm_tac.
  - destruct (w =? v)%N; calm_tac.
Qed.

Lemma step_log op st u st' : step op st = Ok u st' → log_ext st st'.
Proof.
  intros Hs. destruct (promotes op) eqn:Hp.
  - destruct op; try discriminate; simpl in Hs.
    + apply bind_Ok in Hs as (other & st1 & H1 & H2).
      apply get_weak_Ok in H1 as [-> _].
      apply bind_Ok in H2 as (h & st2 & H2 & H3).
      pose proof (SharedPtr_from_weak_outcome other st) as Ho.
      rewrite H2 in Ho. destruct Ho as [(_ & _ & Ho) _].
      pose proof (calm_put_shared x h st2) as Hc. rewrite H3 in Hc.
      by eapply log_ext_trans.
    + apply bind_Ok in Hs as (h & st1 & H1 & H2).
      apply bind_Ok in H1 as (w & st0 & H0 & H1).
      apply get_weak_this_Ok in H0 as [-> _].
      pose proof (SharedPtr_from_weak_outcome w st) as Ho.
      rewrite H1 in Ho. destruct Ho as [(_ & _ & Ho) _].
      pose proof (calm_put_shared x h st1) as Hc. rewrite H2 in Hc.
      by eapply log_ext_trans.
  - pose proof (calm_step op Hp st) as Hc. by rewrite Hs in Hc.
Qed.

Lemma bind_Throw {A B} (m : M A) (k : A → M B) st st' :
  bind m k st = Throw st' →
  m st = Throw st' ∨ ∃ a st1, m st = Ok a st1 ∧ k a st1 = Throw st'.
Proof.
  unfold bind. destruct (m st) as [a st1|st1|]; [|intros [= ->]; by left|done].
  intros H. right. by exists a, st1.
Qed.

(** An operation that throws is a promotion of an expired weak handle, and
    it leaves the state as it was. *)
Lemma step_Throw op st st' :
  step op st = Throw st' →
  st' = st ∧
  ((∃ x w other, op = SPromote x w ∧ weak st !! w = Some other ∧
                 WeakPtr_Expired other st = Ok true st) ∨
   (∃ x p other, op = SSharedFromThis x p ∧
                 objects st !! p = Some (mkPayload (Some other)) ∧
                 WeakPtr_Expired other st = Ok true st)).
Proof.
  intros Hs. destruct (promotes op) eqn:Hp.
  - destruct op; try discriminate; simpl in Hs.
    + apply bind_Throw in Hs as [Hs|(other & st1 & H1 & H2)].
      { pose proof (calm_get_weak w st) as Hc. by rewrite Hs in Hc. }
      apply get_weak_Ok in H1 as [-> Hw].
      apply bind_Throw in H2 as [H2|(h & st2 & H2 & H3)].
      * pose proof (SharedPtr_from_weak_outcome other st) as Ho.
        rewrite H2 in Ho. destruct Ho as [-> Ho]. split; [done|].
        left. by exists x, w, other.
      * pose proof (calm_put_shared x h st2) as Hc. by rewrite H3 in Hc.
    + apply bind_Throw in Hs as [Hs|(h & st1 & H1 & H2)].
      * apply bind_Throw in Hs as [Hs|(other & st1 & H1 & H2)].
        { pose proof (quiet_get_weak_this p st) as Hc. by rewrite Hs in Hc. }
        apply get_weak_this_Ok in H1 as [-> Hw].
        pose proof (SharedPtr_from_weak_outcome other st) as Ho.
        rewrite H2 in Ho. destruct Ho as [-> Ho]. split; [done|].
        right. by exists x, p, other.
      * pose proof (calm_put_shared x h st1) as Hc. by rewrite H2 in Hc.
  - pose proof (calm_step op Hp st) as Hc. by rewrite Hs in Hc.
Qed.

(** ** Reachable states *)

Lemma Inv_init k : Z.of_nat k < 2 ^ 64 → Inv k init_state.
Proof.
  intros Hk. split; simpl; try done.
  intros b. rewrite lookup_empty. split; [by intros [? ?]|by intros [[] _]].
Qed.

Lemma run_inv ops : ∀ k st u st',
  Inv (4 * length ops + k) st → run ops st = Ok u st' → Inv k st'.
Proof.
  induction ops as [|op ops IH]; intros k st u st' H Hr; simpl in Hr.
  - injection Hr as _ <-. exact H.
  - cbn [length] in H.
    destruct (step op st) as [u1 st1|st1|] eqn:Hs; [| |done].
    + apply (IH k st1 u st'); [|done].
      apply (step_inv _ st op u1); [|done].
      eapply InvG_weaken; [|exact H]. lia.
    + apply step_Throw in Hs as [-> _].
      apply (IH k st u st'); [|done].
      eapply InvG_weaken; [|exact H]. lia.
Qed.

Lemma run_log ops : ∀ st u st', run ops st = Ok u st' → log_ext st st'.
Proof.
  induction ops as [|op ops IH]; intros st u st' Hr; simpl in *.
  - injection Hr as _ <-. apply log_ext_refl.
  - destruct (step op st) as [u1 st1|st1|] eqn:Hs; [| |done].
    + eapply log_ext_trans; [by eapply step_log|by eapply IH].
    + apply step_Throw in Hs as [-> _]. by eapply IH.
Qed.

(** Every state a program reaches satisfies the invariant, with room for
    one more operation. *)
Lemma reachable_inv ops st :
  run ops init_state = Ok tt st →
  4 * Z.of_nat (length ops) + 8 < 2 ^ 64 →
  Inv 8 st.
Proof.
  intros Hr Hlen. apply (run_inv ops 8 init_state tt st); [|done].
  apply Inv_init. lia.
Qed.

(** ** The counter operations, computed *)

Ltac compute_blocks H :=
  repeat (progress (simpl; rewrite ?H, ?lookup_insert_eq, ?insert_insert_eq)).

Lemma IncrementRefCounter_eq b blk st :
  blocks st !! b = Some blk →
  IncrementRefCounter b st =
  Ok tt (upd_blocks (insert b (mkBlock (storage blk) (incr (ref_counter_ blk))
                                 (incr (weak_ref_counter_ blk)))) st).
Proof.
  intros Hb. unfold IncrementRefCounter, bind, modify_block, bind, get_block.
  compute_blocks Hb. unfold modify, upd_blocks. by compute_blocks Hb.
Qed.

Lemma IncrementWeakRefCounter_eq b blk st :
  blocks st !! b = Some blk →
  IncrementWeakRefCounter b st =
  Ok tt (upd_blocks (insert b (mkBlock (storage blk) (ref_counter_ blk)
                                 (incr (weak_ref_counter_ blk)))) st).
Proof.
  intros Hb. unfold IncrementWeakRefCounter, modify_block, bind, get_block.
  by rewrite Hb.
Qed.

(** A weak decrement that leaves the block referenced. *)
Lemma DecrementWeakRefCounter_eq b blk st :
  blocks st !! b = Some blk →
  decr (weak_ref_counter_ blk) ≠ 0 →
  DecrementWeakRefCounter b st =
  Ok tt (upd_blocks (insert b (mkBlock (storage blk) (ref_counter_ blk)
                                 (decr (weak_ref_counter_ blk)))) st).
Proof.
  intros Hb Hw. unfold DecrementWeakRefCounter, bind, modify_block, bind, get_block.
  apply Z.eqb_neq in Hw. compute_blocks Hb. by rewrite Hw.
Qed.

(** A weak decrement that releases the block. *)
Lemma DecrementWeakRefCounter_last b blk st :
  blocks st !! b = Some blk →
  decr (weak_ref_counter_ blk) = 0 →
  DecrementWeakRefCounter b st =
  Ok tt (emit (DeleteBlock b) (upd_blocks (delete b) st)).
Proof.
  intros Hb Hw. unfold DecrementWeakRefCounter, bind, modify_block, bind, get_block.
  compute_blocks Hb. rewrite Hw. simpl.
  unfold delete_this, bind, get_block. compute_blocks Hb.
  unfold modify, emit, upd_blocks. simpl. by rewrite delete_insert_eq.
Qed.

(** A strong decrement that leaves other strong references: both counters
    go down by one and nothing is destroyed. *)
Lemma DecrementRefCounter_eq b blk st :
  blocks st !! b = Some blk →
  decr (ref_counter_ blk) ≠ 0 →
  decr (weak_ref_counter_ blk) ≠ 0 →
  DecrementRefCounter b st =
  Ok tt (upd_blocks (insert b (mkBlock (storage blk) (decr (ref_counter_ blk))
                                 (decr (weak_ref_counter_ blk)))) st).
Proof.
  intros Hb Hr Hw. unfold DecrementRefCounter, bind, modify_block, bind, get_block.
  apply Z.eqb_neq in Hr, Hw.
  compute_blocks Hb. rewrite Hr. compute_blocks Hb. rewrite Hw. simpl.
  unfold ret, upd_blocks. by compute_blocks Hb.
Qed.

(** The last strong decrement: the payload is deleted in a state where the
    weak counter holds one extra count (it was decremented with the strong
    counter and incremented again), and that count is given back, by a weak
    decrement, after the deletion has returned. *)
Lemma DecrementRefCounter_last b blk st :
  blocks st !! b = Some blk →
  decr (ref_counter_ blk) = 0 →
  DecrementRefCounter b st =
  (do _ <- delete_payload b; DecrementWeakRefCounter b)
    (upd_blocks (insert b (mkBlock (storage blk) 0
                             (incr (decr (weak_ref_counter_ blk))))) st).
Proof.
  intros Hb Hr.
  unfold DecrementRefCounter, DecrementWeakRefCounter, bind, modify_block, bind, get_block.
  compute_blocks Hb. rewrite Hr. compute_blocks Hb.
  replace (upd_blocks <[b:=incr_weak (decr_weak (decr_ref blk))]>
             (upd_blocks <[b:=decr_weak (decr_ref blk)]>
                (upd_blocks <[b:=decr_ref blk]> st)))
    with (upd_blocks
            <[b:=mkBlock (storage blk) 0 (incr (decr (weak_ref_counter_ blk)))]> st).
  2:{ unfold upd_blocks, incr_weak, decr_weak, decr_ref. simpl.
      by rewrite !insert_insert_eq, Hr. }
  destruct (delete_payload b _) as [u st1| |]; [|done..].
  by destruct (blocks st1 !! b).
Qed.

(** ** Properties of the reachable states *)

(** What the invariant says between operations, without the bookkeeping of
    temporaries. *)
Lemma Inv_at k st b blk :
  Inv k st → blocks st !! b = Some blk →
  b ≠ nullptr ∧
  ref_counter_ blk = Z.of_nat (strong_refs st b) ∧
  weak_ref_counter_ blk = Z.of_nat (weak_refs st b + strong_refs st b) ∧
  (0 < weak_refs st b + strong_refs st b)%nat ∧
  Z.of_nat (weak_refs st b + strong_refs st b) + Z.of_nat k < 2 ^ 64 ∧
  (In (DeletePayload b) (log st) ↔ strong_refs st b = 0%nat).
Proof.
  intros H Hb.
  destruct (InvG_at _ _ _ _ _ _ _ H Hb) as (Hb0 & Hr & Hw & Hpos & Hbd & Hpay & _).
  unfold S_, W_, guard in *. simpl in *.
  rewrite Hr, Hw. split; [done|]. split; [f_equal; lia|]. split; [f_equal; lia|].
  split; [lia|]. split; [lia|]. rewrite Hpay. split; [intros [? _]; lia|].
  intros ?. split; [lia|done].
Qed.

(** C5: in every state a program reaches, each live control block has
    [ref_counter_] equal to the number of live strong handles on it and
    [weak_ref_counter_] equal to the number of live weak handles on it plus
    one for every live strong handle, hence [weak >= strong] whenever
    [strong > 0]; [IncrementRefCounter] raises both counters by one, and
    [DecrementRefCounter] lowers both by one (the last one then holds the
    weak counter one higher while the payload is deleted). *)
Theorem counter_invariant ops st b blk :
  run ops init_state = Ok tt st →
  4 * Z.of_nat (length ops) + 8 < 2 ^ 64 →
  blocks st !! b = Some blk →
  ref_counter_ blk = Z.of_nat (strong_refs st b) ∧
  weak_ref_counter_ blk = Z.of_nat (weak_refs st b + strong_refs st b) ∧
  (0 < ref_counter_ blk → ref_counter_ blk ≤ weak_ref_counter_ blk) ∧
  IncrementRefCounter b st =
    Ok tt (upd_blocks (insert b (mkBlock (storage blk) (ref_counter_ blk + 1)
                                   (weak_ref_counter_ blk + 1))) st) ∧
  (2 ≤ ref_counter_ blk →
   DecrementRefCounter b st =
     Ok tt (upd_blocks (insert b (mkBlock (storage blk) (ref_counter_ blk - 1)
                                    (weak_ref_counter_ blk - 1))) st)) ∧
  (ref_counter_ blk = 1 →
   DecrementRefCounter b st =
     (do _ <- delete_payload b; DecrementWeakRefCounter b)
       (upd_blocks (insert b (mkBlock (storage blk) (ref_counter_ blk - 1)
                                (weak_ref_counter_ blk - 1 + 1))) st)).
Proof.
  intros Hr Hlen Hb.
  pose proof (reachable_inv _ _ Hr Hlen) as HI.
  destruct (Inv_at _ _ _ _ HI Hb) as (Hb0 & Hrc & Hwc & Hpos & Hbd & _).
  split; [done|]. split; [done|]. split; [lia|]. split; [|split].
  - rewrite (IncrementRefCounter_eq _ _ _ Hb), !incr_small by lia. done.
  - intros H2.
    rewrite (DecrementRefCounter_eq _ _ _ Hb); rewrite ?decr_small; try lia. done.
  - intros H1.
    rewrite (DecrementRefCounter_last _ _ _ Hb) by (by rewrite H1).
    rewrite (decr_small (weak_ref_counter_ blk)), incr_small by lia.
    by rewrite H1.
Qed.

Lemma counter_invariant_witness :
  let st := final prog_shared in
  let blk := mkBlock (ControlBlockWithPtr 1) 2 4 in
  ref_counter_ blk = Z.of_nat (strong_refs st 2) ∧
  weak_ref_counter_ blk = Z.of_nat (weak_refs st 2 + strong_refs st 2) ∧
  (0 < ref_counter_ blk → ref_counter_ blk ≤ weak_ref_counter_ blk) ∧
  IncrementRefCounter 2 st =
    Ok tt (upd_blocks (insert 2%N (mkBlock (storage blk) (ref_counter_ blk + 1)
                                     (weak_ref_counter_ blk + 1))) st) ∧
  (2 ≤ ref_counter_ blk →
   DecrementRefCounter 2 st =
     Ok tt (upd_blocks (insert 2%N (mkBlock (storage blk) (ref_counter_ blk - 1)
                                      (weak_ref_counter_ blk - 1))) st)) ∧
  (ref_counter_ blk = 1 →
   DecrementRefCounter 2 st =
     (do _ <- delete_payload 2; DecrementWeakRefCounter 2)
       (upd_blocks (insert 2%N (mkBlock (storage blk) (ref_counter_ blk - 1)
                                  (weak_ref_counter_ blk - 1 + 1))) st)).
Proof.
  apply (counter_invariant prog_shared (final prog_shared) 2%N
           (mkBlock (ControlBlockWithPtr 1) 2 4)).
  - vm_compute. reflexivity.
  - vm_compute. reflexivity.
  - vm_compute. reflexivity.
Defined.

(** In a well-formed history no event occurs twice. *)
Lemma wf_log_count l e : wf_log l → (count_occ Event_eq_dec l e ≤ 1)%nat.
Proof.
  induction l as [|e0 l IH]; intros Hw; [simpl; lia|].
  assert (Hnin : ¬ In e0 l ∧ wf_log l) by (destruct e0; simpl in Hw; tauto).
  destruct Hnin as [Hnin Hw']. specialize (IH Hw'). simpl.
  destruct (Event_eq_dec e0 e) as [->|Hne]; [|done].
  apply (count_occ_not_In Event_eq_dec) in Hnin. lia.
Qed.

Lemma wf_log_count_In l e :
  wf_log l →
  (In e l → count_occ Event_eq_dec l e = 1%nat) ∧
  (¬ In e l → count_occ Event_eq_dec l e = 0%nat).
Proof.
  intros Hw. pose proof (wf_log_count l e Hw) as Hle. split; intros Hin.
  - apply (count_occ_In Event_eq_dec) in Hin. lia.
  - by apply (count_occ_not_In Event_eq_dec).
Qed.

Lemma wf_log_app_new new old e :
  wf_log (new ++ old) → (In e new ↔ In e (new ++ old) ∧ ¬ In e old).
Proof.
  intros Hw. pose proof (wf_log_count _ e Hw) as Hle.
  rewrite count_occ_app in Hle. rewrite in_app_iff. split.
  - intros Hin. split; [by left|]. intros Hin'.
    apply (count_occ_In Event_eq_dec) in Hin, Hin'. lia.
  - intros [[Hin|Hin] Hnin]; [done|tauto].
Qed.

Lemma wf_log_before l1 l2 b :
  wf_log (l1 ++ DeleteBlock b :: l2) → In (DeletePayload b) l2.
Proof.
  induction l1 as [|e l1 IH]; simpl.
  - tauto.
  - destruct e; intros Hw; apply IH; tauto.
Qed.

(** The history facts of the invariant, for a block that was created. *)
Lemma Inv_log k st b :
  Inv k st → In (NewBlock b) (log st) →
  wf_log (log st) ∧
  (In (DeletePayload b) (log st) ↔ strong_refs st b = 0%nat) ∧
  (In (DeleteBlock b) (log st) ↔ (weak_refs st b + strong_refs st b = 0)%nat) ∧
  (is_Some (blocks st !! b) ↔ ¬ In (DeleteBlock b) (log st)).
Proof.
  intros H Hin.
  destruct H as [Hn0 Hn Hl Ha Hv Hc Hb Hp Hd].
  destruct (Ha b Hin) as [Hb0 _].
  specialize (Hc b Hb0). specialize (Hv b). specialize (Hp b Hin).
  unfold S_, W_, guard in *. simpl in *.
  split; [done|]. split; [|split].
  - rewrite Hp. split; [intros [? _]; lia|]. intros ?. split; [lia|done].
  - destruct (blocks st !! b) as [blk|].
    + split; [|lia]. intros Hd'. destruct Hv as [Hv _].
      destruct Hv as [_ Hv]; [by eexists|]. done.
    + split; [lia|]. intros _.
      destruct (in_dec Event_eq_dec (DeleteBlock b) (log st)) as [|Hnd]; [done|].
      destruct Hv as [_ Hv]. destruct Hv as [? [=]]. done.
  - rewrite Hv. tauto.
Qed.



(** ** The teardown of a self-referencing payload *)

Lemma bind_eq {A B} (m : M A) (k : A → M B) st a st1 :
  m st = Ok a st1 → bind m k st = k a st1.
Proof. intros H. unfold bind. by rewrite H. Qed.

Lemma get_block_eq b blk st :
  blocks st !! b = Some blk → get_block b st = Ok blk st.
Proof. intros H. unfold get_block. by rewrite H. Qed.

Lemma when_nonnull_eq b (m : M unit) st :
  b ≠ nullptr → when (negb (b =? nullptr)%N) m st = m st.
Proof. intros Hb. apply N.eqb_neq in Hb. by rewrite Hb. Qed.

Lemma delete_payload_eq b blk st :
  blocks st !! b = Some blk →
  payload_of (storage blk) ≠ nullptr →
  delete_payload b st =
  (do _ <- destroy_payload (payload_of (storage blk)); modify (emit (DeletePayload b))) st.
Proof.
  intros Hb Hp. unfold delete_payload.
  rewrite (bind_eq _ _ _ _ _ (get_block_eq _ _ _ Hb)).
  destruct (storage blk) as [p|buf]; simpl in *; [|done].
  unfold bind. by rewrite when_nonnull_eq.
Qed.

(** The last strong handle on a block whose payload holds a weak handle on
    that same block (its [weak_this_]) is destroyed: the operation is
    defined, the payload is deleted first and the block, if no other weak
    handle is left, after it. *)
Lemma self_reference_teardown k st x h blk obj w :
  Inv k st →
  shared st !! x = Some h →
  blocks st !! s_block_ h = Some blk →
  strong_refs st (s_block_ h) = 1%nat →
  payload_of (storage blk) ≠ nullptr →
  objects st !! payload_of (storage blk) = Some obj →
  weak_this_ obj = Some w →
  w_block_ w = s_block_ h →
  ∃ st', step (SDestroy x) st = Ok tt st' ∧
         log st' = (if decide (weak_refs st (s_block_ h) = 1%nat)
                    then [DeleteBlock (s_block_ h)] else [])
                   ++ DeletePayload (s_block_ h) :: log st ∧
         objects st' = delete (payload_of (storage blk)) (objects st).
Proof.
  intros HI Hx Hb HS Hp0 Ho Hwt Hwb.
  set (b := s_block_ h) in *. set (p := payload_of (storage blk)) in *.
  destruct (Inv_at _ _ _ _ HI Hb) as (Hb0 & Hrc & Hwc & Hpos & Hbd & _).
  assert (Hemb : (0 < refs_on emb_block b (objects st))%nat).
  { apply (refs_on_pos emb_block b p obj _ Ho). unfold emb_block. by rewrite Hwt. }
  assert (Hwr : (1 ≤ weak_refs st b)%nat) by (unfold weak_refs; lia).
  set (wc := weak_ref_counter_ blk) in *.
  assert (Hwc2 : 2 ≤ wc < 2 ^ 64) by lia.
  unfold step.
  erewrite bind_eq; [|unfold take_shared; by rewrite Hx].
  unfold SharedPtr_dtor. fold b. rewrite when_nonnull_eq by done.
  rewrite (DecrementRefCounter_last b blk) by done || (rewrite Hrc, HS; done).
  fold wc. rewrite (decr_small wc), (incr_small (wc - 1)) by lia.
  replace (wc - 1 + 1) with wc by lia.
  set (st2 := upd_blocks _ _).
  assert (Hb2 : blocks st2 !! b = Some (mkBlock (storage blk) 0 wc))
    by (subst st2; simpl; apply lookup_insert_eq).
  rewrite (bind_eq _ _ st2 tt
             (emit (DeletePayload b)
                (upd_blocks (insert b (mkBlock (storage blk) 0 (wc - 1)))
                   (upd_objects (delete p) st2)))).
  2:{ rewrite (delete_payload_eq b _ st2 Hb2) by done. simpl. fold p.
      erewrite bind_eq; [reflexivity|].
      unfold destroy_payload.
      erewrite bind_eq; [|unfold take_object; subst st2; simpl; by rewrite Ho].
      rewrite Hwt. unfold WeakPtr_dtor. rewrite Hwb, when_nonnull_eq by done.
      rewrite (DecrementWeakRefCounter_eq b (mkBlock (storage blk) 0 wc));
        simpl; rewrite ?decr_small; try done; lia. }
  set (st5 := emit _ _).
  assert (Hb5 : blocks st5 !! b = Some (mkBlock (storage blk) 0 (wc - 1)))
    by (subst st5; simpl; apply lookup_insert_eq).
  case_decide as Hlast.
  - rewrite (DecrementWeakRefCounter_last b _ st5 Hb5)
      by (simpl; rewrite decr_small; lia).
    eexists. split; [reflexivity|]. by subst st5 st2.
  - rewrite (DecrementWeakRefCounter_eq b _ st5 Hb5)
      by (simpl; rewrite decr_small; lia).
    eexists. split; [reflexivity|]. by subst st5 st2.
Qed.

(** C2: for every control block that a program has created, the block
    deletion is in the history exactly once when the weak count (weak
    handles plus strong handles) is zero and not at all before; it comes
    after the deletion of the payload; an operation deletes the block
    exactly when it takes that count from a positive value to zero.  The
    strong decrement that destroys the payload deletes it in a state whose
    weak counter holds one count more than the decremented value and gives
    that count back afterwards by a weak decrement; so destroying the last
    strong handle of a payload whose [weak_this_] targets the same block is
    defined, and the block goes after the payload. *)
Theorem block_destroyed_once ops st op st' b :
  run ops init_state = Ok tt st →
  4 * Z.of_nat (length ops) + 8 < 2 ^ 64 →
  In (NewBlock b) (log st) →
  step op st = Ok tt st' →
  count_occ Event_eq_dec (log st) (DeleteBlock b) =
    (if decide (weak_refs st b + strong_refs st b = 0)%nat then 1%nat else 0%nat) ∧
  count_occ Event_eq_dec (log st') (DeleteBlock b) =
    (if decide (weak_refs st' b + strong_refs st' b = 0)%nat then 1%nat else 0%nat) ∧
  (∀ l1 l2, log st' = l1 ++ DeleteBlock b :: l2 → In (DeletePayload b) l2) ∧
  (∃ new, log st' = new ++ log st ∧
          (In (DeleteBlock b) new ↔
           (0 < weak_refs st b + strong_refs st b)%nat ∧
           (weak_refs st' b + strong_refs st' b = 0)%nat)) ∧
  (∀ blk, blocks st !! b = Some blk → ref_counter_ blk = 1 →
     DecrementRefCounter b st =
     (do _ <- delete_payload b; DecrementWeakRefCounter b)
       (upd_blocks (insert b (mkBlock (storage blk) 0
                                (weak_ref_counter_ blk - 1 + 1))) st)) ∧
  (∀ x h blk obj w,
     shared st !! x = Some h → s_block_ h = b →
     blocks st !! b = Some blk → strong_refs st b = 1%nat →
     payload_of (storage blk) ≠ nullptr →
     objects st !! payload_of (storage blk) = Some obj →
     weak_this_ obj = Some w → w_block_ w = b →
     ∃ st2, step (SDestroy x) st = Ok tt st2 ∧
            log st2 = (if decide (weak_refs st b = 1%nat) then [DeleteBlock b] else [])
                      ++ DeletePayload b :: log st).
Proof.
  intros Hr Hlen Hin Hs.
  pose proof (reachable_inv _ _ Hr Hlen) as HI.
  assert (HI' : Inv 4 st') by (by eapply step_inv).
  destruct (step_log _ _ _ _ Hs) as [new Hnew].
  assert (Hin' : In (NewBlock b) (log st')).
  { rewrite Hnew. apply in_or_app. by right. }
  destruct (Inv_log _ _ _ HI Hin) as (Hw & _ & Hd & _).
  destruct (Inv_log _ _ _ HI' Hin') as (Hw' & _ & Hd' & _).
  split; [|split; [|split; [|split; [|split]]]].
  - destruct (wf_log_count_In _ (DeleteBlock b) Hw) as [H1 H0].
    case_decide; [apply H1|apply H0]; tauto.
  - destruct (wf_log_count_In _ (DeleteBlock b) Hw') as [H1 H0].
    case_decide; [apply H1|apply H0]; tauto.
  - intros l1 l2 El. rewrite El in Hw'. by eapply wf_log_before.
  - exists new. split; [done|]. rewrite Hnew in Hw', Hd'.
    rewrite (wf_log_app_new _ _ _ Hw'), Hd', Hd. lia.
  - intros blk Hb Hr1.
    destruct (Inv_at _ _ _ _ HI Hb) as (Hb0 & Hrc & Hwc & Hpos & Hbd & _).
    rewrite (DecrementRefCounter_last b blk st Hb) by (by rewrite Hr1).
    rewrite (decr_small (weak_ref_counter_ blk)), incr_small by lia. done.
  - intros x h blk obj w Hx <- Hb HS Hp0 Ho Hwt Hwb.
    destruct (self_reference_teardown _ _ _ _ _ _ _ HI Hx Hb HS Hp0 Ho Hwt Hwb)
      as (st2 & H1 & H2 & _).
    by exists st2.
Qed.

Lemma block_destroyed_once_witness :
  ∃ new, log (final (prog_self ++ [SDestroy 1%N])) = new ++ log (final prog_self) ∧
         (In (DeleteBlock 2) new ↔
          (0 < weak_refs (final prog_self) 2 + strong_refs (final prog_self) 2)%nat ∧
          (weak_refs (final (prog_self ++ [SDestroy 1%N])) 2 +
           strong_refs (final (prog_self ++ [SDestroy 1%N])) 2 = 0)%nat).
Proof.
  refine (proj1 (proj2 (proj2 (proj2
    (block_destroyed_once prog_self (final prog_self) (SDestroy 1%N)
       (final (prog_self ++ [SDestroy 1%N])) 2%N _ _ _ _))))).
  - vm_compute. reflexivity.
  - vm_compute. reflexivity.
  - vm_compute. auto.
  - vm_compute. reflexivity.
Defined.

(** ** Promotion and locking *)

Lemma WeakPtr_UseCount_state this st c st' :
  WeakPtr_UseCount this st = Ok c st' → st' = st.
Proof. intros H. by apply WeakPtr_UseCount_Ok in H as [-> _]. Qed.

Lemma WeakPtr_Expired_eq this st c :
  WeakPtr_UseCount this st = Ok c st →
  WeakPtr_Expired this st = Ok (c =? 0) st.
Proof. intros H. unfold WeakPtr_Expired, bind. by rewrite H. Qed.

(** C3: the promoting constructor throws exactly when the weak handle
    reports a use count of zero; when it returns, the new handle has the
    weak handle's block and pointer and the block's strong counter (with the
    weak counter) has been incremented, by exactly one in a reachable state;
    no other operation throws, and an operation that throws leaves the state
    unchanged. *)
Theorem promotion_spec other st :
  ((∃ st', SharedPtr_from_weak other st = Throw st') ↔
   WeakPtr_UseCount other st = Ok 0 st) ∧
  (∀ h st', SharedPtr_from_weak other st = Ok h st' →
     h = mkShared (w_block_ other) (w_observer_ other) ∧
     ∃ blk, blocks st !! w_block_ other = Some blk ∧
            ref_counter_ blk ≠ 0 ∧
            st' = upd_blocks (insert (w_block_ other)
                                (mkBlock (storage blk) (incr (ref_counter_ blk))
                                   (incr (weak_ref_counter_ blk)))) st ∧
            (∀ k, Inv (S k) st →
                  incr (ref_counter_ blk) = ref_counter_ blk + 1)) ∧
  (∀ op st', step op st = Throw st' → promotes op = true ∧ st' = st).
Proof.
  split; [|split].
  - split.
    + intros [st' Ht].
      pose proof (SharedPtr_from_weak_outcome other st) as Ho. rewrite Ht in Ho.
      destruct Ho as [_ He]. apply WeakPtr_Expired_Ok in He as (_ & c & Hc & Hz).
      symmetry in Hz. apply Z.eqb_eq in Hz. by subst c.
    + intros Hc. exists st. unfold SharedPtr_from_weak.
      by rewrite (bind_eq _ _ _ _ _ (WeakPtr_Expired_eq _ _ _ Hc)).
  - intros h st' Hok.
    pose proof (SharedPtr_from_weak_outcome other st) as Ho. rewrite Hok in Ho.
    destruct Ho as [_ He].
    unfold SharedPtr_from_weak in Hok. rewrite (bind_eq _ _ _ _ _ He) in Hok.
    apply bind_Ok in Hok as (u & st1 & H1 & H2).
    apply ret_Ok in H2 as [-> ->]. split; [done|].
    apply WeakPtr_Expired_Ok in He as (_ & c & Hc & Hz).
    symmetry in Hz. apply Z.eqb_neq in Hz.
    apply WeakPtr_UseCount_Ok in Hc as (_ & [[_ ->]|(Hb & blk & Hblk & ->)]); [done|].
    exists blk. split; [done|]. split; [done|]. cbn [s_block_] in H1.
    rewrite when_nonnull_eq, (IncrementRefCounter_eq _ _ _ Hblk) in H1 by done.
    injection H1 as <-. split; [done|].
    intros k HI. destruct (Inv_at _ _ _ _ HI Hblk) as (_ & Hrc & _ & _ & Hbd & _).
    apply incr_small; lia.
  - intros op st' Ht. apply step_Throw in Ht as [-> Hop]. split; [|done].
    by destruct Hop as [(x & w & o & -> & _)|(x & p & o & -> & _)].
Qed.

Lemma promotion_spec_witness :
  (∃ st', SharedPtr_from_weak (mkWeak 2 1) (final prog_expired) = Throw st') ∧
  promotes (SPromote 3 1) = true ∧ final prog_expired = final prog_expired.
Proof.
  split.
  - refine (proj2 (proj1 (promotion_spec (mkWeak 2 1) (final prog_expired))) _).
    vm_compute. reflexivity.
  - refine (proj2 (proj2 (promotion_spec (mkWeak 2 1) (final prog_expired)))
              (SPromote 3%N 1%N) (final prog_expired) _).
    vm_compute. reflexivity.
Defined.

(** C4: a weak handle whose block has a strong counter of zero (whatever the
    weak counter, so also while other weak handles are left) and an empty
    weak handle are expired and lock to the empty strong handle, and so does
    every weak handle variable of a reachable state on whose block no strong
    handle is left; [Lock] never throws; on a handle that is not expired it
    is the promoting constructor. *)
Theorem lock_spec this st :
  (∀ blk, w_block_ this ≠ nullptr →
          blocks st !! w_block_ this = Some blk → ref_counter_ blk = 0 →
          WeakPtr_Expired this st = Ok true st ∧
          WeakPtr_Lock this st = Ok SharedPtr_default st) ∧
  (w_block_ this = nullptr →
   WeakPtr_Expired this st = Ok true st ∧
   WeakPtr_Lock this st = Ok SharedPtr_default st) ∧
  (∀ ops w, run ops init_state = Ok tt st →
            4 * Z.of_nat (length ops) + 8 < 2 ^ 64 →
            weak st !! w = Some this →
            strong_refs st (w_block_ this) = 0%nat →
            WeakPtr_Expired this st = Ok true st ∧
            WeakPtr_Lock this st = Ok SharedPtr_default st) ∧
  (∀ st', WeakPtr_Lock this st ≠ Throw st') ∧
  (WeakPtr_Expired this st = Ok false st →
   WeakPtr_Lock this st = SharedPtr_from_weak this st).
Proof.
  assert (Hexp : WeakPtr_UseCount this st = Ok 0 st →
                 WeakPtr_Expired this st = Ok true st ∧
                 WeakPtr_Lock this st = Ok SharedPtr_default st).
  { intros Hc. pose proof (WeakPtr_Expired_eq _ _ _ Hc) as He. split; [done|].
    unfold WeakPtr_Lock. by rewrite (bind_eq _ _ _ _ _ He). }
  assert (Hlive : ∀ blk, w_block_ this ≠ nullptr →
            blocks st !! w_block_ this = Some blk → ref_counter_ blk = 0 →
            WeakPtr_UseCount this st = Ok 0 st).
  { intros blk Hb Hblk Hr. unfold WeakPtr_UseCount.
    apply N.eqb_neq in Hb. rewrite Hb. simpl. unfold GetRefCount.
    rewrite (bind_eq _ _ _ _ _ (get_block_eq _ _ _ Hblk)). by rewrite Hr. }
  assert (Hnull : w_block_ this = nullptr → WeakPtr_UseCount this st = Ok 0 st).
  { intros Hb. unfold WeakPtr_UseCount. by rewrite Hb. }
  split; [|split; [|split; [|split]]].
  - intros blk Hb Hblk Hr. eauto.
  - intros Hb. eauto.
  - intros ops w Hr Hlen Hw HS.
    destruct (decide (w_block_ this = nullptr)) as [Hb|Hb]; [by eauto|].
    pose proof (reachable_inv _ _ Hr Hlen) as HI.
    pose proof (inv_counts _ _ _ _ _ HI _ Hb) as Hc.
    pose proof (refs_on_pos w_block_ (w_block_ this) w this _ Hw eq_refl) as Hpos.
    destruct (blocks st !! w_block_ this) as [blk|] eqn:Hblk.
    + apply Hexp, (Hlive blk); [done..|].
      destruct Hc as (Hrc & _). rewrite Hrc. unfold S_. simpl. lia.
    + destruct Hc as [_ HW]. unfold W_, weak_refs in HW. lia.
  - intros st' Ht. pose proof (quiet_WeakPtr_Lock this st) as Hq. by rewrite Ht in Hq.
  - intros He. unfold WeakPtr_Lock. by rewrite (bind_eq _ _ _ _ _ He).
Qed.

Lemma lock_spec_witness :
  WeakPtr_Expired (mkWeak 2 1) (final prog_expired) = Ok true (final prog_expired) ∧
  WeakPtr_Lock (mkWeak 2 1) (final prog_expired) =
    Ok SharedPtr_default (final prog_expired).
Proof.
  refine (proj1 (proj2 (proj2 (lock_spec (mkWeak 2 1) (final prog_expired))))
            prog_expired 1%N _ _ _ _).
  - vm_compute. reflexivity.
  - vm_compute. reflexivity.
  - vm_compute. reflexivity.
  - vm_compute. reflexivity.
Defined.

(** ** Operations that are defined

    In a state that satisfies the invariant the weak counter operations on a
    referenced block do not run into undefined behaviour, and they leave the
    tables alone. *)

Lemma InvG_live k es ew dy st b :
  InvG k es ew dy st → b ≠ nullptr →
  (0 < S_ es st b + W_ ew dy st b)%nat →
  ∃ blk, blocks st !! b = Some blk ∧
         weak_ref_counter_ blk = Z.of_nat (S_ es st b + W_ ew dy st b) ∧
         Z.of_nat (S_ es st b + W_ ew dy st b) + Z.of_nat k < 2 ^ 64.
Proof.
  intros H Hb Hpos. pose proof (inv_counts _ _ _ _ _ H b Hb) as Hc.
  destruct (blocks st !! b) as [blk|]; [|lia].
  exists blk. split; [done|]. split; [tauto|]. by apply (inv_bound _ _ _ _ _ H).
Qed.

Lemma DecrementWeakRefCounter_total k es ew dy st b :
  InvG k es (b :: ew) dy st → b ≠ nullptr →
  ∃ st', DecrementWeakRefCounter b st = Ok tt st' ∧ same_tables st st'.
Proof.
  intros H Hb.
  destruct (InvG_live _ _ _ _ _ b H Hb) as (blk & Hblk & Hw & Hbd).
  { unfold W_. simpl. rewrite decide_True by done. lia. }
  assert (Hpos : 1 ≤ weak_ref_counter_ blk).
  { rewrite Hw. unfold W_. simpl. rewrite decide_True by done. lia. }
  destruct (decide (decr (weak_ref_counter_ blk) = 0)) as [Hz|Hz].
  - rewrite (DecrementWeakRefCounter_last _ _ _ Hblk Hz). by eexists.
  - rewrite (DecrementWeakRefCounter_eq _ _ _ Hblk Hz). by eexists.
Qed.

Lemma WeakPtr_dtor_total k es ew dy st w :
  InvG k es (w_block_ w :: ew) dy st →
  ∃ st', WeakPtr_dtor w st = Ok tt st' ∧ same_tables st st'.
Proof.
  intros H. unfold WeakPtr_dtor.
  destruct (N.eqb_spec (w_block_ w) nullptr) as [Hb|Hb]; simpl.
  - by exists st.
  - by eapply DecrementWeakRefCounter_total.
Qed.

Lemma IncrementWeakRefCounter_total k es ew dy st b :
  InvG k es ew dy st → b ≠ nullptr →
  (0 < S_ es st b + W_ ew dy st b)%nat →
  ∃ st', IncrementWeakRefCounter b st = Ok tt st' ∧ same_tables st st'.
Proof.
  intros H Hb Hpos.
  destruct (InvG_live _ _ _ _ _ b H Hb Hpos) as (blk & Hblk & _).
  rewrite (IncrementWeakRefCounter_eq _ _ _ Hblk). by eexists.
Qed.

Lemma same_tables_trans st1 st2 st3 :
  same_tables st1 st2 → same_tables st2 st3 → same_tables st1 st3.
Proof. intros (?&?&?&?) (?&?&?&?). repeat split; congruence. Qed.

(** [ptr->weak_this_ = WeakPtr(sp)] on a live payload that has the member,
    for a handle [sp] whose block is referenced. *)
Lemma install_weak_this_total k es ew dy st ptr sp obj w0 :
  InvG (S (S k)) es ew dy st →
  s_block_ sp ≠ nullptr →
  (0 < S_ es st (s_block_ sp) + W_ ew dy st (s_block_ sp))%nat →
  objects st !! ptr = Some obj → weak_this_ obj = Some w0 →
  ∃ st', install_weak_this ptr sp st = Ok tt st' ∧
         objects st' =
           <[ptr := mkPayload (Some (mkWeak (s_block_ sp) (s_observer_ sp)))]> (objects st) ∧
         shared st' = shared st ∧ weak st' = weak st.
Proof.
  intros H Hb Hpos Ho Hwt. set (b := s_block_ sp) in *.
  set (tmp := mkWeak b (s_observer_ sp)).
  unfold install_weak_this.
  (* the temporary *)
  destruct (IncrementWeakRefCounter_total _ _ _ _ _ b H Hb Hpos)
    as (st1 & E1 & T1).
  assert (F1 : WeakPtr_from_shared sp st = Ok tmp st1).
  { unfold WeakPtr_from_shared. cbn [w_block_]. fold b.
    rewrite (bind_eq _ _ _ _ _ (eq_trans (when_nonnull_eq _ _ _ Hb) E1)). done. }
  rewrite (bind_eq _ _ _ _ _ F1).
  apply (WeakPtr_from_shared_inv _ _ _ _ _ _ _ _ H) in F1 as (_ & H1 & _).
  (* the member is taken *)
  assert (F2 : take_object ptr st1 =
               Ok obj (upd_objects (delete ptr) st1)).
  { unfold take_object. destruct T1 as (-> & _). by rewrite Ho. }
  rewrite (bind_eq _ _ _ _ _ F2), Hwt.
  destruct (take_object_inv _ _ _ _ _ _ _ _ H1 F2) as [H2 Hlt].
  unfold emb_block in H2. rewrite Hwt in H2.
  set (st2 := upd_objects (delete ptr) st1) in *.
  (* the assignment *)
  destruct (WeakPtr_dtor_total _ _ _ _ _ w0 H2) as (st3 & E3 & T3).
  pose proof (WeakPtr_dtor_inv _ _ _ _ _ _ _ _ H2 E3) as H3.
  destruct (IncrementWeakRefCounter_total _ _ _ _ _ b H3 Hb) as (st4 & E4 & T4).
  { unfold W_. simpl. rewrite decide_True by done. lia. }
  assert (F4 : WeakPtr_assign w0 tmp st2 = Ok tmp st4).
  { unfold WeakPtr_assign. unfold WeakPtr_dtor in E3.
    rewrite (bind_eq _ _ _ _ _ E3). cbn [w_block_ tmp].
    rewrite (bind_eq _ _ _ _ _ (eq_trans (when_nonnull_eq _ _ _ Hb) E4)). done. }
  rewrite (bind_eq _ _ _ _ _ F4).
  apply (WeakPtr_assign_inv _ _ _ _ _ _ _ _ _ H2) in F4 as (_ & H4 & _).
  (* the member is put back, the temporary destroyed *)
  pose proof (same_tables_trans _ _ _ T3 T4) as T24.
  assert (F5 : put_object ptr (mkPayload (Some tmp)) st4 =
               Ok tt (upd_objects (insert ptr (mkPayload (Some tmp))) st4)).
  { unfold put_object. destruct T24 as (-> & _). subst st2. simpl.
    by rewrite lookup_delete_eq. }
  rewrite (bind_eq _ _ _ _ _ F5).
  assert (Hlt4 : (ptr < next_ st4)%N).
  { destruct T24 as (_ & _ & _ & ->). done. }
  pose proof (put_object_inv k es (b :: ew) dy st4 ptr (mkPayload (Some tmp))
                tt _ H4 Hlt4 F5) as H5.
  destruct (WeakPtr_dtor_total _ _ _ _ _ tmp H5) as (st6 & E6 & T6).
  exists st6. split; [done|].
  destruct T6 as (-> & -> & -> & _). destruct T24 as (T24o & T24s & T24w & _).
  destruct T1 as (T1o & T1s & T1w & _). simpl.
  rewrite T24o, T24s, T24w. subst st2. simpl.
  rewrite T1o, T1s, T1w, insert_delete_eq. done.
Qed.

Lemma after_new_WithPtr_inv k es ew dy st ptr :
  InvG (S k) es ew dy st →
  InvG k (next_ st :: es) ew dy (after_new_WithPtr ptr st).
Proof.
  intros H. eapply (InvG_new _ _ _ _ st); [exact H|unfold after_new_WithPtr; simpl_st..];
    try done.
  - rewrite insert_insert_eq. reflexivity.
  - lia.
Qed.

Lemma after_new_Owning_inv k es ew dy st esft :
  InvG (S k) es ew dy st →
  InvG k (next_ st :: es) ew dy (after_new_Owning esft st).
Proof.
  intros H. set (b := next_ st).
  set (kind := ControlBlockOwning (N.succ b)).
  set (stA := emit (NewBlock b)
                (upd_blocks (insert b (mkBlock kind 1 1))
                   (upd_next N.succ (upd_next N.succ st)))).
  assert (HA : InvG k (b :: es) ew dy stA).
  { eapply (InvG_new _ _ _ _ st); [exact H|subst stA; simpl_st..]; try done. lia. }
  assert (Hfree : objects st !! N.succ b = None).
  { apply (inv_next _ _ _ _ _ H). lia. }
  apply (InvG_transfer _ (b :: es) ew dy stA); try done;
    unfold after_new_Owning; subst stA; simpl_st.
  - by rewrite insert_insert_eq.
  - intros a Ha. rewrite lookup_insert_ne by lia.
    apply (inv_next _ _ _ _ _ H). lia.
  - intros b' Hb'. unfold W_, weak_refs. simpl_st.
    rewrite (refs_on_insert emb_block b' _ _ _ Hfree).
    rewrite decide_False; [done|]. by destruct esft.
Qed.

Lemma SharedPtr_from_raw_start ptr esft st :
  next_ st ≠ nullptr →
  SharedPtr_from_raw ptr esft st =
  (do _ <- when esft (install_weak_this ptr (mkShared (next_ st) ptr));
   ret (mkShared (next_ st) ptr)) (after_new_WithPtr ptr st).
Proof.
  intros Hn. unfold SharedPtr_from_raw, new_ControlBlockWithPtr.
  unfold bind at 1 2 3. unfold alloc, create_block, modify, ret at 1.
  cbn [s_block_]. unfold bind at 1. rewrite when_nonnull_eq by done.
  unfold bind at 1. rewrite (IncrementRefCounter_new _ (ControlBlockWithPtr ptr))
    by (simpl_st; apply lookup_insert_eq).
  reflexivity.
Qed.

Lemma MakeShared_start esft st :
  objects st !! N.succ (next_ st) = None →
  MakeShared esft st =
  (do _ <- when esft (install_weak_this (N.succ (next_ st))
                        (mkShared (next_ st) (N.succ (next_ st))));
   ret (mkShared (next_ st) (N.succ (next_ st)))) (after_new_Owning esft st).
Proof.
  intros Hfree. unfold MakeShared, new_ControlBlockOwning.
  unfold bind at 1 2 3 4 5. unfold alloc, create_block, modify, ret at 1, put_object.
  simpl_st. rewrite Hfree. cbn [fst snd s_block_ s_observer_].
  unfold bind at 1.
  rewrite (IncrementRefCounter_new _ (ControlBlockOwning (N.succ (next_ st))))
    by (simpl_st; apply lookup_insert_eq).
  reflexivity.
Qed.

(** Construction from a raw pointer to a live payload of a type that derives
    from [EnableSharedFromThis]. *)
Lemma SharedPtr_from_raw_esft k es ew dy st ptr obj w0 :
  InvG (S (S (S k))) es ew dy st →
  objects st !! ptr = Some obj → weak_this_ obj = Some w0 →
  ∃ st', SharedPtr_from_raw ptr true st = Ok (mkShared (next_ st) ptr) st' ∧
         objects st' =
           <[ptr := mkPayload (Some (mkWeak (next_ st) ptr))]> (objects st) ∧
         shared st' = shared st ∧ weak st' = weak st.
Proof.
  intros H Ho Hwt.
  pose proof (inv_next_pos _ _ _ _ _ H) as Hn.
  rewrite (SharedPtr_from_raw_start _ _ _ Hn).
  pose proof (after_new_WithPtr_inv _ _ _ _ _ ptr H) as HA.
  destruct (install_weak_this_total k (next_ st :: es) ew dy
              (after_new_WithPtr ptr st) ptr (mkShared (next_ st) ptr) obj w0)
    as (st' & E & Eo & Es & Ew); try done.
  { unfold S_. simpl. rewrite decide_True by done. lia. }
  exists st'. unfold when. rewrite (bind_eq _ _ _ _ _ E). done.
Qed.

(** [MakeShared] for a type that derives from [EnableSharedFromThis]. *)
Lemma MakeShared_esft k es ew dy st :
  InvG (S (S (S k))) es ew dy st →
  ∃ st', MakeShared true st = Ok (mkShared (next_ st) (N.succ (next_ st))) st' ∧
         objects st' =
           <[N.succ (next_ st) :=
               mkPayload (Some (mkWeak (next_ st) (N.succ (next_ st))))]> (objects st) ∧
         shared st' = shared st ∧ weak st' = weak st.
Proof.
  intros H.
  assert (Hfree : objects st !! N.succ (next_ st) = None).
  { apply (inv_next _ _ _ _ _ H). lia. }
  pose proof (inv_next_pos _ _ _ _ _ H) as Hn.
  rewrite (MakeShared_start _ _ Hfree).
  pose proof (after_new_Owning_inv _ _ _ _ _ true H) as HA.
  destruct (install_weak_this_total k (next_ st :: es) ew dy
              (after_new_Owning true st) (N.succ (next_ st))
              (mkShared (next_ st) (N.succ (next_ st)))
              (fresh_payload true) WeakPtr_default)
    as (st' & E & Eo & Es & Ew); try done.
  { unfold S_. simpl. rewrite decide_True by done. lia. }
  { unfold after_new_Owning. simpl_st. apply lookup_insert_eq. }
  exists st'. unfold when. rewrite (bind_eq _ _ _ _ _ E). split; [done|].
  split; [|done]. rewrite Eo. unfold after_new_Owning. simpl_st.
  by rewrite insert_insert_eq.
Qed.

(** ** The self-reference capability *)

Lemma get_weak_this_eq p w st :
  objects st !! p = Some (mkPayload (Some w)) → get_weak_this p st = Ok w st.
Proof. intros H. unfold get_weak_this. by rewrite H. Qed.

(** The two accessors on a payload whose [weak_this_] shares the block of a
    live strong handle. *)
Lemma accessors_after_install k st x b p :
  Inv (S k) st →
  b ≠ nullptr →
  shared st !! x = Some (mkShared b p) →
  objects st !! p = Some (mkPayload (Some (mkWeak b p))) →
  (∃ st2, SharedFromThis p st = Ok (mkShared b p) st2) ∧
  (∃ st2, WeakFromThis p st = Ok (mkWeak b p) st2).
Proof.
  intros HI Hb Hx Ho.
  pose proof (S_pos_table [] st x _ Hx) as HS. cbn [s_block_] in HS.
  destruct (InvG_live _ _ _ _ _ b HI Hb) as (blk & Hblk & _); [lia|].
  destruct (InvG_at _ _ _ _ _ _ _ HI Hblk) as (_ & Hrc & _).
  split.
  - unfold SharedFromThis. rewrite (bind_eq _ _ _ _ _ (get_weak_this_eq _ _ _ Ho)).
    assert (Hc : WeakPtr_UseCount (mkWeak b p) st = Ok (ref_counter_ blk) st).
    { unfold WeakPtr_UseCount. cbn [w_block_].
      apply N.eqb_neq in Hb. rewrite Hb. simpl. unfold GetRefCount.
      by rewrite (bind_eq _ _ _ _ _ (get_block_eq _ _ _ Hblk)). }
    unfold SharedPtr_from_weak.
    rewrite (bind_eq _ _ _ _ _ (WeakPtr_Expired_eq _ _ _ Hc)).
    replace (ref_counter_ blk =? 0) with false by (symmetry; apply Z.eqb_neq; lia).
    cbn [s_block_ w_block_ w_observer_].
    erewrite bind_eq;
      [|rewrite when_nonnull_eq by done; by apply IncrementRefCounter_eq].
    by eexists.
  - unfold WeakFromThis. rewrite (bind_eq _ _ _ _ _ (get_weak_this_eq _ _ _ Ho)).
    unfold WeakPtr_copy. cbn [w_block_ w_observer_].
    erewrite bind_eq;
      [|rewrite when_nonnull_eq by done; by apply IncrementWeakRefCounter_eq].
    by eexists.
Qed.

(** C6: in a reachable state, constructing a strong handle from a raw
    pointer to a live payload whose type derives from
    [EnableSharedFromThis], and [MakeShared] for such a type, are defined
    and leave in the payload's [weak_this_] a weak handle with the new block
    and the payload's address; afterwards [SharedFromThis] returns a strong
    handle with that block and address and [WeakFromThis] a copy of
    [weak_this_]. *)
Theorem self_reference_installed ops st x :
  run ops init_state = Ok tt st →
  4 * Z.of_nat (length ops) + 8 < 2 ^ 64 →
  shared st !! x = None →
  (∀ p obj w0,
     objects st !! p = Some obj → weak_this_ obj = Some w0 →
     ∃ st', step (SFromRaw x p true) st = Ok tt st' ∧
            shared st' !! x = Some (mkShared (next_ st) p) ∧
            objects st' !! p = Some (mkPayload (Some (mkWeak (next_ st) p))) ∧
            (∃ st2, SharedFromThis p st' = Ok (mkShared (next_ st) p) st2) ∧
            (∃ st2, WeakFromThis p st' = Ok (mkWeak (next_ st) p) st2)) ∧
  (∃ st', step (SMakeShared x true) st = Ok tt st' ∧
          shared st' !! x = Some (mkShared (next_ st) (N.succ (next_ st))) ∧
          objects st' !! N.succ (next_ st) =
            Some (mkPayload (Some (mkWeak (next_ st) (N.succ (next_ st))))) ∧
          (∃ st2, SharedFromThis (N.succ (next_ st)) st' =
                  Ok (mkShared (next_ st) (N.succ (next_ st))) st2) ∧
          (∃ st2, WeakFromThis (N.succ (next_ st)) st' =
                  Ok (mkWeak (next_ st) (N.succ (next_ st))) st2)).
Proof.
  intros Hr Hlen Hx.
  pose proof (reachable_inv _ _ Hr Hlen) as HI.
  pose proof (inv_next_pos _ _ _ _ _ HI) as Hn.
  split.
  - intros p obj w0 Ho Hwt.
    destruct (SharedPtr_from_raw_esft 5 [] [] None st p obj w0 HI Ho Hwt)
      as (st1 & E & Eo & Es & Ew).
    assert (Hs : step (SFromRaw x p true) st =
                 Ok tt (upd_shared (insert x (mkShared (next_ st) p)) st1)).
    { unfold step. rewrite (bind_eq _ _ _ _ _ E). unfold put_shared.
      by rewrite Es, Hx. }
    eexists. split; [exact Hs|].
    assert (Hsx : shared (upd_shared (insert x (mkShared (next_ st) p)) st1) !! x =
                  Some (mkShared (next_ st) p)) by (simpl; apply lookup_insert_eq).
    assert (Hop : objects (upd_shared (insert x (mkShared (next_ st) p)) st1) !! p =
                  Some (mkPayload (Some (mkWeak (next_ st) p))))
      by (simpl; rewrite Eo; apply lookup_insert_eq).
    split; [done|]. split; [done|].
    apply (accessors_after_install 3 _ x); try done.
    by eapply step_inv.
  - destruct (MakeShared_esft 5 [] [] None st HI) as (st1 & E & Eo & Es & Ew).
    set (b := next_ st) in *. set (p := N.succ b) in *.
    assert (Hs : step (SMakeShared x true) st =
                 Ok tt (upd_shared (insert x (mkShared b p)) st1)).
    { unfold step. rewrite (bind_eq _ _ _ _ _ E). unfold put_shared.
      by rewrite Es, Hx. }
    eexists. split; [exact Hs|].
    assert (Hsx : shared (upd_shared (insert x (mkShared b p)) st1) !! x =
                  Some (mkShared b p)) by (simpl; apply lookup_insert_eq).
    assert (Hop : objects (upd_shared (insert x (mkShared b p)) st1) !! p =
                  Some (mkPayload (Some (mkWeak b p))))
      by (simpl; rewrite Eo; apply lookup_insert_eq).
    split; [done|]. split; [done|].
    apply (accessors_after_install 3 _ x); try done.
    by eapply step_inv.
Qed.

Lemma self_reference_installed_witness :
  ∃ st', step (SMakeShared 1 true) (final prog_payload) = Ok tt st' ∧
         shared st' !! 1%N = Some (mkShared 2 3) ∧
         objects st' !! 3%N = Some (mkPayload (Some (mkWeak 2 3))) ∧
         (∃ st2, SharedFromThis 3 st' = Ok (mkShared 2 3) st2) ∧
         (∃ st2, WeakFromThis 3 st' = Ok (mkWeak 2 3) st2).
Proof.
  refine (proj2 (self_reference_installed prog_payload (final prog_payload) 1%N _ _ _)).
  - vm_compute. reflexivity.
  - vm_compute. reflexivity.
  - vm_compute. reflexivity.
Defined.

(** ** The round trip through a weak handle *)

Lemma WeakPtr_UseCount_eq w blk st :
  w_block_ w ≠ nullptr → blocks st !! w_block_ w = Some blk →
  WeakPtr_UseCount w st = Ok (ref_counter_ blk) st.
Proof.
  intros Hb Hblk. unfold WeakPtr_UseCount.
  apply N.eqb_neq in Hb. rewrite Hb. simpl. unfold GetRefCount.
  by rewrite (bind_eq _ _ _ _ _ (get_block_eq _ _ _ Hblk)).
Qed.

Lemma SharedPtr_UseCount_eq h blk st :
  s_block_ h ≠ nullptr → blocks st !! s_block_ h = Some blk →
  SharedPtr_UseCount h st = Ok (ref_counter_ blk) st.
Proof.
  intros Hb Hblk. unfold SharedPtr_UseCount.
  apply N.eqb_neq in Hb. rewrite Hb. simpl. unfold GetRefCount.
  by rewrite (bind_eq _ _ _ _ _ (get_block_eq _ _ _ Hblk)).
Qed.

Lemma SharedPtr_from_weak_eq w blk st :
  w_block_ w ≠ nullptr → blocks st !! w_block_ w = Some blk →
  ref_counter_ blk ≠ 0 →
  SharedPtr_from_weak w st =
  Ok (mkShared (w_block_ w) (w_observer_ w))
     (upd_blocks (insert (w_block_ w)
                    (mkBlock (storage blk) (incr (ref_counter_ blk))
                       (incr (weak_ref_counter_ blk)))) st).
Proof.
  intros Hb Hblk Hr. unfold SharedPtr_from_weak.
  rewrite (bind_eq _ _ _ _ _ (WeakPtr_Expired_eq _ _ _ (WeakPtr_UseCount_eq _ _ _ Hb Hblk))).
  apply Z.eqb_neq in Hr. rewrite Hr. cbn [s_block_].
  erewrite bind_eq;
    [|rewrite when_nonnull_eq by done; by apply IncrementRefCounter_eq].
  done.
Qed.

Lemma WeakPtr_Lock_eq w blk st :
  w_block_ w ≠ nullptr → blocks st !! w_block_ w = Some blk →
  ref_counter_ blk ≠ 0 →
  WeakPtr_Lock w st =
  Ok (mkShared (w_block_ w) (w_observer_ w))
     (upd_blocks (insert (w_block_ w)
                    (mkBlock (storage blk) (incr (ref_counter_ blk))
                       (incr (weak_ref_counter_ blk)))) st).
Proof.
  intros Hb Hblk Hr. unfold WeakPtr_Lock.
  rewrite (bind_eq _ _ _ _ _ (WeakPtr_Expired_eq _ _ _ (WeakPtr_UseCount_eq _ _ _ Hb Hblk))).
  pose proof Hr as Hr'. apply Z.eqb_neq in Hr'. rewrite Hr'.
  by apply SharedPtr_from_weak_eq.
Qed.

Lemma WeakPtr_from_shared_eq h blk st :
  s_block_ h ≠ nullptr → blocks st !! s_block_ h = Some blk →
  WeakPtr_from_shared h st =
  Ok (mkWeak (s_block_ h) (s_observer_ h))
     (upd_blocks (insert (s_block_ h)
                    (mkBlock (storage blk) (ref_counter_ blk)
                       (incr (weak_ref_counter_ blk)))) st).
Proof.
  intros Hb Hblk. unfold WeakPtr_from_shared. cbn [w_block_].
  erewrite bind_eq;
    [|rewrite when_nonnull_eq by done; by apply IncrementWeakRefCounter_eq].
  done.
Qed.

(** C7, as stated, fails: with one strong handle the use count is 1 before
    the round trip and 2 after it, while the handle that [Lock] returned is
    alive. *)
Lemma round_trip_use_count_changes :
  let st := final prog_one in
  let h := mkShared 2 1 in
  shared st !! 1%N = Some h ∧
  SharedPtr_UseCount h st = Ok 1 st ∧
  ∃ w st1 l st2,
    WeakPtr_from_shared h st = Ok w st1 ∧
    WeakPtr_Lock w st1 = Ok l st2 ∧
    SharedPtr_eq l h = true ∧
    SharedPtr_UseCount h st2 = Ok 2 st2 ∧
    SharedPtr_UseCount h st2 ≠ Ok 1 st2.
Proof.
  split; [vm_compute; reflexivity|]. split; [vm_compute; reflexivity|].
  eexists _, _, _, _.
  split; [vm_compute; reflexivity|]. split; [vm_compute; reflexivity|].
  split; [vm_compute; reflexivity|]. split; [vm_compute; reflexivity|].
  vm_compute. discriminate.
Qed.

(** C7, amended: for a strong handle variable of a reachable state that has
    a block, demoting it and locking the weak handle are defined and return
    a strong handle equal to the original (same cached pointer, same block);
    while that handle is alive the use count is one more than before; when
    it and the weak handle have been destroyed the use count, and every
    counter, is what it was before the round trip. *)
Theorem round_trip ops st x h :
  run ops init_state = Ok tt st →
  4 * Z.of_nat (length ops) + 8 < 2 ^ 64 →
  shared st !! x = Some h →
  s_block_ h ≠ nullptr →
  ∃ c w st1 l st2 st3 st4,
    SharedPtr_UseCount h st = Ok c st ∧
    WeakPtr_from_shared h st = Ok w st1 ∧
    WeakPtr_Lock w st1 = Ok l st2 ∧
    SharedPtr_eq l h = true ∧ s_block_ l = s_block_ h ∧
    SharedPtr_UseCount h st2 = Ok (c + 1) st2 ∧
    SharedPtr_dtor l st2 = Ok tt st3 ∧
    WeakPtr_dtor w st3 = Ok tt st4 ∧
    SharedPtr_UseCount h st4 = Ok c st4 ∧
    st4 = st.
Proof.
  intros Hr Hlen Hx Hb.
  pose proof (reachable_inv _ _ Hr Hlen) as HI.
  pose proof (S_pos_table [] st x _ Hx) as HS.
  set (b := s_block_ h) in *.
  destruct (InvG_live _ _ _ _ _ b HI Hb) as (blk & Hblk & _); [lia|].
  destruct (Inv_at _ _ _ _ HI Hblk) as (_ & Hrc & Hwc & Hpos & Hbd & _).
  unfold S_ in HS. simpl in HS.
  set (r := ref_counter_ blk) in *. set (wc := weak_ref_counter_ blk) in *.
  assert (Hr1 : 1 ≤ r) by lia. assert (Hw1 : r ≤ wc) by lia.
  set (st1 := upd_blocks (insert b (mkBlock (storage blk) r (wc + 1))) st).
  set (st2 := upd_blocks (insert b (mkBlock (storage blk) (r + 1) (wc + 2))) st1).
  set (st3 := upd_blocks (insert b (mkBlock (storage blk) r (wc + 1))) st2).
  set (st4 := upd_blocks (insert b (mkBlock (storage blk) r wc)) st3).
  assert (E1 : WeakPtr_from_shared h st = Ok (mkWeak b (s_observer_ h)) st1).
  { rewrite (WeakPtr_from_shared_eq h blk st Hb Hblk). fold wc r b.
    by rewrite incr_small by lia. }
  assert (B1 : blocks st1 !! b = Some (mkBlock (storage blk) r (wc + 1)))
    by (subst st1; simpl; apply lookup_insert_eq).
  assert (E2 : WeakPtr_Lock (mkWeak b (s_observer_ h)) st1 =
               Ok (mkShared b (s_observer_ h)) st2).
  { rewrite (WeakPtr_Lock_eq (mkWeak b (s_observer_ h)) _ st1 Hb B1) by (simpl; lia).
    simpl.
    rewrite !incr_small by lia. by replace (wc + 1 + 1) with (wc + 2) by lia. }
  assert (B2 : blocks st2 !! b = Some (mkBlock (storage blk) (r + 1) (wc + 2)))
    by (subst st2; simpl; apply lookup_insert_eq).
  assert (E3 : SharedPtr_dtor (mkShared b (s_observer_ h)) st2 = Ok tt st3).
  { unfold SharedPtr_dtor. cbn [s_block_]. rewrite when_nonnull_eq by done.
    rewrite (DecrementRefCounter_eq b _ st2 B2); simpl; rewrite ?decr_small; try lia.
    replace (r + 1 - 1) with r by lia. by replace (wc + 2 - 1) with (wc + 1) by lia. }
  assert (B3 : blocks st3 !! b = Some (mkBlock (storage blk) r (wc + 1)))
    by (subst st3; simpl; apply lookup_insert_eq).
  assert (E4 : WeakPtr_dtor (mkWeak b (s_observer_ h)) st3 = Ok tt st4).
  { unfold WeakPtr_dtor. cbn [w_block_]. rewrite when_nonnull_eq by done.
    rewrite (DecrementWeakRefCounter_eq b _ st3 B3); simpl; rewrite ?decr_small; try lia.
    by replace (wc + 1 - 1) with wc by lia. }
  assert (E : st4 = st).
  { subst st4 st3 st2 st1. destruct st as [bl ob sh wk nx lg]. unfold upd_blocks.
    simpl in *. f_equal. rewrite !insert_insert_eq. apply insert_id.
    rewrite Hblk. by destruct blk. }
  exists r, (mkWeak b (s_observer_ h)), st1, (mkShared b (s_observer_ h)), st2, st3, st4.
  split; [by apply SharedPtr_UseCount_eq|]. split; [done|]. split; [done|].
  split; [unfold SharedPtr_eq, SharedPtr_Get; simpl; apply N.eqb_refl|].
  split; [done|].
  split; [by rewrite (SharedPtr_UseCount_eq h _ st2 Hb B2)|].
  split; [done|]. split; [done|]. split; [|done].
  rewrite E. by apply SharedPtr_UseCount_eq.
Qed.

Lemma round_trip_witness :
  ∃ c w st1 l st2 st3 st4,
    SharedPtr_UseCount (mkShared 2 1) (final prog_one) = Ok c (final prog_one) ∧
    WeakPtr_from_shared (mkShared 2 1) (final prog_one) = Ok w st1 ∧
    WeakPtr_Lock w st1 = Ok l st2 ∧
    SharedPtr_eq l (mkShared 2 1) = true ∧ s_block_ l = s_block_ (mkShared 2 1) ∧
    SharedPtr_UseCount (mkShared 2 1) st2 = Ok (c + 1) st2 ∧
    SharedPtr_dtor l st2 = Ok tt st3 ∧
    WeakPtr_dtor w st3 = Ok tt st4 ∧
    SharedPtr_UseCount (mkShared 2 1) st4 = Ok c st4 ∧
    st4 = final prog_one.
Proof.
  apply (round_trip prog_one (final prog_one) 1%N (mkShared 2 1)).
  - vm_compute. reflexivity.
  - vm_compute. reflexivity.
  - vm_compute. reflexivity.
  - vm_compute. discriminate.
Defined.

(** ** Empty handles *)

Lemma quiet_keeps_shared {A} (m : M A) : quiet m → keeps_shared m.
Proof.
  intros Hq st a st' Hm. specialize (Hq st). rewrite Hm in Hq. by destruct Hq.
Qed.

Lemma keeps_shared_bind {A B} (m : M A) (k : A → M B) :
  keeps_shared m → (∀ a, keeps_shared (k a)) → keeps_shared (bind m k).
Proof.
  intros Hm Hk st b st' (a & st1 & H1 & H2)%bind_Ok.
  rewrite (Hk _ _ _ _ H2). by eapply Hm.
Qed.

Lemma keeps_shared_get_weak w : keeps_shared (get_weak w).
Proof. by intros st a st' [-> _]%get_weak_Ok. Qed.
Lemma keeps_shared_take_weak w : keeps_shared (take_weak w).
Proof.
  intros st a st'. unfold take_weak. destruct (weak st !! w); [|done].
  by intros [= _ <-].
Qed.
Lemma keeps_shared_put_weak w h : keeps_shared (put_weak w h).
Proof.
  intros st a st'. unfold put_weak. destruct (weak st !! w); [done|].
  by intros [= _ <-].
Qed.
Lemma keeps_shared_get_shared x : keeps_shared (get_shared x).
Proof. by intros st a st' [-> _]%get_shared_Ok. Qed.

#[local] Hint Resolve keeps_shared_get_weak keeps_shared_take_weak
  keeps_shared_put_weak keeps_shared_get_shared : quiet.
#[local] Hint Extern 1 (keeps_shared _) =>
  apply quiet_keeps_shared; solve [auto with quiet] : quiet.

Ltac keeps_tac :=
  repeat first
    [ solve [auto with quiet]
    | apply keeps_shared_bind; [|intros ?; cbv beta zeta] ].

Lemma handles_ok_put m x h :
  handles_ok m → handle_ok h → handles_ok (<[x:=h]> m).
Proof.
  intros Hm Hh y h'. destruct (decide (y = x)) as [->|Hne].
  - rewrite lookup_insert_eq. by intros [= <-].
  - rewrite lookup_insert_ne by done. apply Hm.
Qed.

Lemma handles_ok_delete m x : handles_ok m → handles_ok (delete x m).
Proof.
  intros Hm y h'. rewrite lookup_delete_Some. intros [_ Hy]. by eapply Hm.
Qed.

Lemma put_shared_Ok x h st u st' :
  put_shared x h st = Ok u st' → shared st' = <[x:=h]> (shared st).
Proof.
  unfold put_shared. destruct (shared st !! x); [done|]. by intros [= _ <-].
Qed.

Lemma take_shared_Ok x st h st' :
  take_shared x st = Ok h st' →
  shared st !! x = Some h ∧ shared st' = delete x (shared st).
Proof.
  unfold take_shared. destruct (shared st !! x); [|done]. by intros [= <- <-].
Qed.

(** The values the constructors return. *)
Lemma SharedPtr_copy_val other st h st' :
  SharedPtr_copy other st = Ok h st' → h = other.
Proof.
  intros (u & st1 & _ & [-> _]%ret_Ok)%bind_Ok. by destruct other.
Qed.

Lemma SharedPtr_alias_val other ptr st h st' :
  SharedPtr_alias other ptr st = Ok h st' → h = mkShared (s_block_ other) ptr.
Proof. by intros (u & st1 & _ & [-> _]%ret_Ok)%bind_Ok. Qed.

Lemma SharedPtr_assign_val this other st h st' :
  SharedPtr_assign this other st = Ok h st' → h = other.
Proof.
  intros (u & st1 & _ & (u2 & st2 & _ & [-> _]%ret_Ok)%bind_Ok)%bind_Ok.
  by destruct other.
Qed.

Lemma SharedPtr_from_raw_val ptr esft st h st' :
  SharedPtr_from_raw ptr esft st = Ok h st' → h = mkShared (next_ st) ptr.
Proof.
  intros (b & st1 & H1 & (u2 & st2 & _ & [-> _]%ret_Ok)%bind_Ok)%bind_Ok.
  apply bind_Ok in H1 as (b' & st0 & [-> ->]%alloc_Ok & H1).
  by apply bind_Ok in H1 as (u1 & st3 & _ & [-> _]%ret_Ok).
Qed.

Lemma MakeShared_val esft st h st' :
  MakeShared esft st = Ok h st' → s_block_ h = next_ st.
Proof.
  intros (cb & st1 & H1 & H2)%bind_Ok.
  apply bind_Ok in H2 as (u2 & st2 & _ & (u3 & st3 & _ & [-> _]%ret_Ok)%bind_Ok).
  apply bind_Ok in H1 as (b & st0 & [-> ->]%alloc_Ok & H1).
  apply bind_Ok in H1 as (buf & st4 & _ & H1).
  apply bind_Ok in H1 as (u1 & st5 & _ & H1).
  by apply bind_Ok in H1 as (u4 & st6 & _ & [-> _]%ret_Ok).
Qed.

Lemma SharedPtr_from_weak_val other st h st' :
  SharedPtr_from_weak other st = Ok h st' →
  h = mkShared (w_block_ other) (w_observer_ other) ∧ w_block_ other ≠ nullptr.
Proof.
  intros (e & st1 & H1 & H2)%bind_Ok.
  apply WeakPtr_Expired_Ok in H1 as (-> & c & Hc & ->).
  destruct (Z.eqb_spec c 0) as [|Hne]; [done|].
  apply bind_Ok in H2 as (u & st2 & _ & [-> _]%ret_Ok). split; [done|].
  by apply WeakPtr_UseCount_Ok in Hc as (_ & [[_ ->]|(Hb & _)]).
Qed.

Lemma WeakPtr_Lock_val this st h st' :
  WeakPtr_Lock this st = Ok h st' → handle_ok h.
Proof.
  intros (e & st1 & H1 & H2)%bind_Ok. destruct e.
  - by apply ret_Ok in H2 as [-> _].
  - apply SharedPtr_from_weak_val in H2 as [-> Hb]. by intros ?.
Qed.

Lemma keeps_shared_from_weak other : keeps_shared (SharedPtr_from_weak other).
Proof.
  intros st h st' Hok.
  pose proof (SharedPtr_from_weak_outcome other st) as Ho. rewrite Hok in Ho.
  by destruct Ho as [(Hs & _) _].
Qed.
#[local] Hint Resolve keeps_shared_from_weak : quiet.

Lemma keeps_shared_step_weak op :
  match op with
  | NewPayload _ | WDefault _ | WCopy _ _ | WMove _ _ | WDemote _ _
  | WAssign _ _ | WMoveAssign _ _ | WAssignShared _ _ | WReset _
  | WSwap _ _ | WDestroy _ | WWeakFromThis _ _ => keeps_shared (step op)
  | _ => True
  end.
Proof.
  destruct op; try exact I; unfold step; keeps_tac.
  destruct (w =? v)%N; keeps_tac.
Qed.

Lemma SharedPtr_Reset_val this st h st' :
  SharedPtr_Reset this st = Ok h st' → h = SharedPtr_default.
Proof.
  intros (this' & st1 & H1 & (u & st2 & _ & [-> _]%ret_Ok)%bind_Ok)%bind_Ok.
  by apply SharedPtr_assign_val in H1.
Qed.

Lemma SharedPtr_Reset_ptr_val this ptr esft st h st' :
  SharedPtr_Reset_ptr this ptr esft st = Ok h st' → h = mkShared (next_ st) ptr.
Proof.
  intros (other & st1 & H1 & H2)%bind_Ok.
  apply bind_Ok in H2 as (this' & st2 & H2 & (u & st3 & _ & [-> _]%ret_Ok)%bind_Ok).
  apply SharedPtr_assign_val in H2 as ->. by apply SharedPtr_from_raw_val in H1.
Qed.

(** Every operation other than the aliasing of a handle without a block to a
    non-null pointer keeps the handle invariant. *)
Lemma step_handles_ok st op u st' :
  next_ st ≠ nullptr →
  handles_ok (shared st) →
  alias_guarded st op = true →
  step op st = Ok u st' →
  handles_ok (shared st').
Proof.
  intros Hn Hok Hg Hs.
  pose proof (keeps_shared_step_weak op) as Hweak.
  destruct op; try (by rewrite (Hweak _ _ _ Hs)); clear Hweak; simpl in Hs.
  - (* SDefault *)
    rewrite (put_shared_Ok _ _ _ _ _ Hs). by apply handles_ok_put.
  - (* SFromRaw *)
    apply bind_Ok in Hs as (h & st1 & H1 & H2).
    rewrite (put_shared_Ok _ _ _ _ _ H2),
      (quiet_keeps_shared _ (quiet_SharedPtr_from_raw _ _) _ _ _ H1).
    apply handles_ok_put; [done|].
    apply SharedPtr_from_raw_val in H1 as ->. by intros ?.
  - (* SMakeShared *)
    apply bind_Ok in Hs as (h & st1 & H1 & H2).
    rewrite (put_shared_Ok _ _ _ _ _ H2),
      (quiet_keeps_shared _ (quiet_MakeShared _) _ _ _ H1).
    apply handles_ok_put; [done|].
    apply MakeShared_val in H1. intros ?; congruence.
  - (* SCopy *)
    apply bind_Ok in Hs as (other & st1 & [-> Hy]%get_shared_Ok & H2).
    apply bind_Ok in H2 as (h & st2 & H2 & H3).
    rewrite (put_shared_Ok _ _ _ _ _ H3),
      (quiet_keeps_shared _ (quiet_SharedPtr_copy _) _ _ _ H2).
    apply handles_ok_put; [done|].
    apply SharedPtr_copy_val in H2 as ->. by eapply Hok.
  - (* SMove *)
    apply bind_Ok in Hs as (other & st1 & [Hy E1]%take_shared_Ok & H2).
    apply bind_Ok in H2 as (u2 & st2 & H2 & H3).
    rewrite (put_shared_Ok _ _ _ _ _ H3), (put_shared_Ok _ _ _ _ _ H2), E1.
    apply handles_ok_put; [apply handles_ok_put|].
    + by apply handles_ok_delete.
    + done.
    + apply (Hok _ _ Hy).
  - (* SAlias *)
    apply bind_Ok in Hs as (other & st1 & [-> Hy]%get_shared_Ok & H2).
    apply bind_Ok in H2 as (h & st2 & H2 & H3).
    rewrite (put_shared_Ok _ _ _ _ _ H3),
      (quiet_keeps_shared _ (quiet_SharedPtr_alias _ _) _ _ _ H2).
    apply handles_ok_put; [done|].
    apply SharedPtr_alias_val in H2 as ->. intros Hb.
    simpl in Hg, Hb. rewrite Hy in Hg. apply N.eqb_eq in Hb. rewrite Hb in Hg.
    by apply N.eqb_eq in Hg.
  - (* SPromote *)
    apply bind_Ok in Hs as (other & st1 & [-> Hw]%get_weak_Ok & H2).
    apply bind_Ok in H2 as (h & st2 & H2 & H3).
    rewrite (put_shared_Ok _ _ _ _ _ H3), (keeps_shared_from_weak _ _ _ _ H2).
    apply handles_ok_put; [done|].
    apply SharedPtr_from_weak_val in H2 as [-> Hb]. by intros ?.
  - (* SAssign *)
    apply bind_Ok in Hs as (hy & st1 & [-> Hy]%get_shared_Ok & H2).
    apply bind_Ok in H2 as (other & st2 & H2 & H3).
    apply bind_Ok in H3 as (this & st3 & [Hx E3]%take_shared_Ok & H4).
    apply bind_Ok in H4 as (this' & st4 & H4 & H5).
    apply bind_Ok in H5 as (u5 & st5 & H5 & H6).
    rewrite (quiet_keeps_shared _ (quiet_SharedPtr_dtor _) _ _ _ H6),
      (put_shared_Ok _ _ _ _ _ H5),
      (quiet_keeps_shared _ (quiet_SharedPtr_assign _ _) _ _ _ H4), E3,
      (quiet_keeps_shared _ (quiet_SharedPtr_copy _) _ _ _ H2).
    apply handles_ok_put; [by apply handles_ok_delete|].
    apply SharedPtr_assign_val in H4 as ->.
    apply SharedPtr_copy_val in H2 as ->. by eapply Hok.
  - (* SMoveAssign *)
    apply bind_Ok in Hs as (hy & st1 & [Hy E1]%take_shared_Ok & H2).
    apply bind_Ok in H2 as (u2 & st2 & H2 & H3).
    apply bind_Ok in H3 as (this & st3 & [Hx E3]%take_shared_Ok & H4).
    apply bind_Ok in H4 as (this' & st4 & H4 & H5).
    apply bind_Ok in H5 as (u5 & st5 & H5 & H6).
    rewrite (quiet_keeps_shared _ (quiet_SharedPtr_dtor _) _ _ _ H6),
      (put_shared_Ok _ _ _ _ _ H5),
      (quiet_keeps_shared _ (quiet_SharedPtr_assign _ _) _ _ _ H4), E3,
      (put_shared_Ok _ _ _ _ _ H2), E1.
    apply handles_ok_put;
      [apply handles_ok_delete, handles_ok_put;
       [by apply handles_ok_delete|done]|].
    apply SharedPtr_assign_val in H4 as ->. apply (Hok _ _ Hy).
  - (* SReset *)
    apply bind_Ok in Hs as (this & st1 & [Hx E1]%take_shared_Ok & H2).
    apply bind_Ok in H2 as (this' & st2 & H2 & H3).
    rewrite (put_shared_Ok _ _ _ _ _ H3),
      (quiet_keeps_shared _ (quiet_SharedPtr_Reset _) _ _ _ H2), E1.
    apply handles_ok_put; [by apply handles_ok_delete|].
    by apply SharedPtr_Reset_val in H2 as ->.
  - (* SResetPtr *)
    apply bind_Ok in Hs as (this & st1 & H1 & H2).
    assert (En : next_ st1 = next_ st).
    { unfold take_shared in H1. destruct (shared st !! x); [|done].
      by injection H1 as _ <-. }
    apply take_shared_Ok in H1 as [Hx E1].
    apply bind_Ok in H2 as (this' & st2 & H2 & H3).
    rewrite (put_shared_Ok _ _ _ _ _ H3),
      (quiet_keeps_shared _ (quiet_SharedPtr_Reset_ptr _ _ _) _ _ _ H2), E1.
    apply handles_ok_put; [by apply handles_ok_delete|].
    apply SharedPtr_Reset_ptr_val in H2 as ->. rewrite En. by intros ?.
  - (* SSwap *)
    destruct (x =? y)%N.
    + apply bind_Ok in Hs as (h & st1 & [-> _]%get_shared_Ok & [_ ->]%ret_Ok). done.
    + apply bind_Ok in Hs as (this & st1 & [Hx E1]%take_shared_Ok & H2).
      apply bind_Ok in H2 as (other & st2 & [Hy E2]%take_shared_Ok & H3).
      apply bind_Ok in H3 as (u3 & st3 & H3 & H4).
      rewrite (put_shared_Ok _ _ _ _ _ H4), (put_shared_Ok _ _ _ _ _ H3), E2, E1.
      rewrite E1 in Hy. apply lookup_delete_Some in Hy as [_ Hy].
      apply handles_ok_put; [apply handles_ok_put|].
      * by apply handles_ok_delete, handles_ok_delete.
      * apply (Hok _ _ Hy).
      * apply (Hok _ _ Hx).
  - (* SDestroy *)
    apply bind_Ok in Hs as (this & st1 & [Hx E1]%take_shared_Ok & H2).
    rewrite (quiet_keeps_shared _ (quiet_SharedPtr_dtor _) _ _ _ H2), E1.
    by apply handles_ok_delete.
  - (* SSharedFromThis *)
    apply bind_Ok in Hs as (h & st1 & H1 & H2).
    apply bind_Ok in H1 as (w & st0 & [-> _]%get_weak_this_Ok & H1).
    rewrite (put_shared_Ok _ _ _ _ _ H2), (keeps_shared_from_weak _ _ _ _ H1).
    apply handles_ok_put; [done|].
    apply SharedPtr_from_weak_val in H1 as [-> Hb]. by intros ?.
  - (* WLock *)
    apply bind_Ok in Hs as (this & st1 & [-> Hw]%get_weak_Ok & H2).
    apply bind_Ok in H2 as (h & st2 & H2 & H3).
    rewrite (put_shared_Ok _ _ _ _ _ H3),
      (quiet_keeps_shared _ (quiet_WeakPtr_Lock _) _ _ _ H2).
    apply handles_ok_put; [done|]. by eapply WeakPtr_Lock_val.
Qed.

Lemma run_handles_ok ops : ∀ k st u st',
  Inv (4 * length ops + k) st →
  handles_ok (shared st) →
  aliases_guarded ops st = true →
  run ops st = Ok u st' →
  handles_ok (shared st').
Proof.
  induction ops as [|op ops IH]; intros k st u st' HI Hok Hg Hr; simpl in Hr, Hg.
  - by injection Hr as _ <-.
  - cbn [length] in HI. apply andb_true_iff in Hg as [Hg1 Hg2].
    destruct (step op st) as [u1 st1|st1|] eqn:Hs; [| |done].
    + apply (IH k st1 u st'); try done.
      * apply (step_inv _ st op u1); [|done]. eapply InvG_weaken; [|exact HI]. lia.
      * apply (step_handles_ok st op u1); try done.
        apply (inv_next_pos _ _ _ _ _ HI).
    + apply step_Throw in Hs as [-> _].
      apply (IH k st u st'); try done. eapply InvG_weaken; [|exact HI]. lia.
Qed.

(** C8, as stated, fails: the aliasing constructor applied to an empty
    handle and a non-null pointer returns a handle without a block whose
    cached pointer is not null. *)
Lemma alias_of_empty_keeps_pointer :
  run prog_alias_empty init_state = Ok tt (final prog_alias_empty) ∧
  shared (final prog_alias_empty) !! 2%N = Some (mkShared nullptr 5) ∧
  ¬ handle_ok (mkShared nullptr 5).
Proof.
  split; [vm_compute; reflexivity|]. split; [vm_compute; reflexivity|].
  intros H. specialize (H eq_refl). discriminate.
Qed.

(** C8, amended: in every state reached by a program that never applies the
    aliasing constructor to a handle without a block together with a
    non-null pointer, every strong handle without a block has a null cached
    pointer. *)
Theorem strong_handle_invariant ops st x h :
  run ops init_state = Ok tt st →
  4 * Z.of_nat (length ops) + 8 < 2 ^ 64 →
  aliases_guarded ops init_state = true →
  shared st !! x = Some h →
  s_block_ h = nullptr → s_observer_ h = nullptr.
Proof.
  intros Hr Hlen Hg Hx.
  apply (run_handles_ok ops 8 init_state tt st) with (x := x); try done.
  apply Inv_init. lia.
Qed.

Lemma strong_handle_invariant_witness :
  s_observer_ (mkShared nullptr nullptr) = nullptr.
Proof.
  apply (strong_handle_invariant prog_alias (final prog_alias) 1%N
           (mkShared nullptr nullptr)).
  - vm_compute. reflexivity.
  - vm_compute. reflexivity.
  - vm_compute. reflexivity.
  - vm_compute. reflexivity.
  - reflexivity.
Defined.

(** ** Equality and the null pointer *)

(** C9: two strong handles are equal exactly when their cached pointers are
    the same address, whatever their blocks: two handles on one block with
    different pointers are unequal; the handle the aliasing constructor
    returns shares the block of its source and is equal to it only if the
    given pointer is the source's; two empty handles are equal. *)
Theorem equality_by_pointer l r :
  (SharedPtr_eq l r = true ↔ SharedPtr_Get l = SharedPtr_Get r) ∧
  (SharedPtr_eq l r = true ↔ s_observer_ l = s_observer_ r) ∧
  (s_block_ l = s_block_ r → s_observer_ l ≠ s_observer_ r →
   SharedPtr_eq l r = false) ∧
  (∀ st p,
     match SharedPtr_alias l p st with
     | Ok h _ => s_block_ h = s_block_ l ∧
                 (SharedPtr_eq h l = true ↔ p = s_observer_ l)
     | _ => True
     end) ∧
  SharedPtr_eq SharedPtr_default SharedPtr_default = true.
Proof.
  assert (Heq : ∀ l r, SharedPtr_eq l r = true ↔ s_observer_ l = s_observer_ r).
  { intros l' r'. unfold SharedPtr_eq, SharedPtr_Get. apply N.eqb_eq. }
  split; [apply Heq|]. split; [apply Heq|]. split; [|split; [|done]].
  - intros _ Hne. destruct (SharedPtr_eq l r) eqn:E; [|done].
    by apply Heq in E.
  - intros st p.
    destruct (SharedPtr_alias l p st) as [h st1| |] eqn:E; [|done..].
    apply SharedPtr_alias_val in E as ->. split; [done|]. apply Heq.
Qed.

Lemma equality_by_pointer_witness :
  shared (final prog_two_views) !! 1%N = Some (mkShared 2 1) ∧
  shared (final prog_two_views) !! 2%N = Some (mkShared 2 7) ∧
  SharedPtr_eq (mkShared 2 1) (mkShared 2 7) = false.
Proof.
  split; [vm_compute; reflexivity|]. split; [vm_compute; reflexivity|].
  refine (proj1 (proj2 (proj2 (equality_by_pointer (mkShared 2 1) (mkShared 2 7)))) _ _).
  - reflexivity.
  - discriminate.
Defined.

(** X22: with [T] not derived from [EnableSharedFromThis], [SharedPtr<T>
    x(static_cast<T*>(nullptr))] allocates a [ControlBlockWithPtr] and
    increments it: the handle has a block, its use count is 1 and its
    boolean check is false; the default-constructed handle has no block and
    a use count of 0. *)
Theorem raw_null_is_not_empty st x :
  next_ st ≠ nullptr →
  shared st !! x = None →
  (∃ st' h, step (SFromRaw x nullptr false) st = Ok tt st' ∧
            shared st' !! x = Some h ∧
            s_block_ h ≠ nullptr ∧
            blocks st' !! s_block_ h =
              Some (mkBlock (ControlBlockWithPtr nullptr) 1 1) ∧
            SharedPtr_UseCount h st' = Ok 1 st' ∧
            SharedPtr_bool h = false) ∧
  (∃ st' h, step (SDefault x) st = Ok tt st' ∧
            shared st' !! x = Some h ∧
            s_block_ h = nullptr ∧
            SharedPtr_UseCount h st' = Ok 0 st' ∧
            SharedPtr_bool h = false).
Proof.
  intros Hn Hx. split.
  - set (h := mkShared (next_ st) nullptr).
    set (st1 := after_new_WithPtr nullptr st).
    assert (E : SharedPtr_from_raw nullptr false st = Ok h st1).
    { by rewrite (SharedPtr_from_raw_start _ _ _ Hn). }
    assert (Hs : step (SFromRaw x nullptr false) st =
                 Ok tt (upd_shared (insert x h) st1)).
    { unfold step. rewrite (bind_eq _ _ _ _ _ E). unfold put_shared.
      subst st1. simpl. by rewrite Hx. }
    assert (Hb : blocks (upd_shared (insert x h) st1) !! next_ st =
                 Some (mkBlock (ControlBlockWithPtr nullptr) 1 1)).
    { subst st1. simpl. apply lookup_insert_eq. }
    exists (upd_shared (insert x h) st1), h.
    split; [done|]. split; [simpl; apply lookup_insert_eq|].
    split; [done|]. split; [done|]. split; [|done].
    by rewrite (SharedPtr_UseCount_eq h _ _ Hn Hb).
  - exists (upd_shared (insert x SharedPtr_default) st), SharedPtr_default.
    split; [unfold step, put_shared; by rewrite Hx|].
    split; [simpl; apply lookup_insert_eq|]. done.
Qed.

Lemma raw_null_is_not_empty_witness :
  ∃ st' h, step (SFromRaw 1 nullptr false) init_state = Ok tt st' ∧
           shared st' !! 1%N = Some h ∧
           s_block_ h ≠ nullptr ∧
           blocks st' !! s_block_ h =
             Some (mkBlock (ControlBlockWithPtr nullptr) 1 1) ∧
           SharedPtr_UseCount h st' = Ok 1 st' ∧
           SharedPtr_bool h = false.
Proof.
  refine (proj1 (raw_null_is_not_empty init_state 1%N _ _)).
  - vm_compute. discriminate.
  - vm_compute. reflexivity.
Defined.

(** C10: the construction from a null raw pointer does not give a handle
    for every type.  When [T] derives from [EnableSharedFromThis] the
    constructor, after it has allocated and incremented the block, executes
    [ptr->weak_this_ = WeakPtr( *this )] on the null pointer: the guard
    around it tests [block_], which was just allocated, and not [ptr].  The
    call is undefined, so no handle with a use count of 1 results.  The
    same constructor on a type without the capability does return a handle
    with a block, a use count of 1 and a false boolean check. *)
Theorem raw_null_esft_dereferences st x :
  next_ st ≠ nullptr → objects st !! nullptr = None →
  SharedPtr_from_raw nullptr true st = Undefined ∧
  step (SFromRaw x nullptr true) st = Undefined ∧
  ∃ st', SharedPtr_from_raw nullptr false st = Ok (mkShared (next_ st) nullptr) st' ∧
         SharedPtr_UseCount (mkShared (next_ st) nullptr) st' = Ok 1 st' ∧
         SharedPtr_bool (mkShared (next_ st) nullptr) = false.
Proof.
  intros Hn Ho.
  set (sp := mkShared (next_ st) nullptr).
  set (st1 := after_new_WithPtr nullptr st).
  assert (Hblk : blocks st1 !! next_ st =
                 Some (mkBlock (ControlBlockWithPtr nullptr) 1 1)).
  { subst st1. unfold after_new_WithPtr. simpl_st. apply lookup_insert_eq. }
  assert (E : SharedPtr_from_raw nullptr true st = Undefined).
  { rewrite (SharedPtr_from_raw_start _ _ _ Hn). fold sp st1.
    cbn [when]. unfold bind at 1. unfold install_weak_this.
    rewrite (bind_eq _ _ _ _ _ (WeakPtr_from_shared_eq sp _ st1 Hn Hblk)).
    unfold bind at 1, take_object. simpl_st.
    subst st1. unfold after_new_WithPtr. simpl_st. by rewrite Ho. }
  split; [exact E|]. split.
  - unfold step, bind. by rewrite E.
  - exists st1. split.
    + by rewrite (SharedPtr_from_raw_start _ _ _ Hn).
    + split; [|done]. by rewrite (SharedPtr_UseCount_eq sp _ st1 Hn Hblk).
Qed.

Lemma raw_null_esft_dereferences_witness :
  SharedPtr_from_raw nullptr true init_state = Undefined ∧
  step (SFromRaw 1 nullptr true) init_state = Undefined.
Proof.
  split.
  - refine (proj1 (raw_null_esft_dereferences init_state 1%N _ _)).
    + vm_compute. discriminate.
    + vm_compute. reflexivity.
  - refine (proj1 (proj2 (raw_null_esft_dereferences init_state 1%N _ _))).
    + vm_compute. discriminate.
    + vm_compute. reflexivity.
Defined.

(** ** The model at work *)

(** [size_t] wraps: an unmatched decrement of a zero counter. *)
Example decr_wraps : decr 0 = 18446744073709551615.
Proof. reflexivity. Qed.

(** A handle from [MakeShared] is copied three times; the original and one
    copy are destroyed: the use count of a remaining copy is 2.  When the
    other two are destroyed the payload and then the block are deleted,
    once each. *)
Example scenario_copies :
  let prog := [SMakeShared 1 false; SCopy 2 1; SCopy 3 1; SCopy 4 1;
               SDestroy 1; SDestroy 2]%N in
  SharedPtr_UseCount (mkShared 1 2) (final prog) = Ok 2 (final prog) ∧
  log (final prog) = [NewBlock 1] ∧
  log (final (prog ++ [SDestroy 3; SDestroy 4]%N)) =
    [DeleteBlock 1; DeletePayload 1; NewBlock 1].
Proof. vm_compute. repeat split. Qed.

(** A weak handle outlives the strong one: it is expired, locks to the empty
    handle, and destroying it releases the block. *)
Example scenario_weak_outlives :
  let prog := [SMakeShared 1 false; WDemote 1 1; SDestroy 1]%N in
  WeakPtr_Expired (mkWeak 1 2) (final prog) = Ok true (final prog) ∧
  WeakPtr_Lock (mkWeak 1 2) (final prog) = Ok SharedPtr_default (final prog) ∧
  log (final prog) = [DeletePayload 1; NewBlock 1] ∧
  run (prog ++ [WDestroy 1%N]) init_state =
    Ok tt (final (prog ++ [WDestroy 1%N])) ∧
  log (final (prog ++ [WDestroy 1%N])) =
    [DeleteBlock 1; DeletePayload 1; NewBlock 1].
Proof. vm_compute. repeat split. Qed.

(** The only strong handle of a payload with [weak_this_] is destroyed: the
    teardown destroys [weak_this_], the block is released afterwards. *)
Example scenario_self_reference :
  let prog := [SMakeShared 1 true; SDestroy 1]%N in
  run prog init_state = Ok tt (final prog) ∧
  log (final prog) = [DeleteBlock 1; DeletePayload 1; NewBlock 1] ∧
  blocks (final prog) = ∅ ∧ objects (final prog) = ∅.
Proof. vm_compute. repeat split. Qed.

(** Promotion of an expired weak handle throws and changes nothing. *)
Example scenario_promote_expired :
  step (SPromote 3 1) (final prog_expired) = Throw (final prog_expired).
Proof. vm_compute. reflexivity. Qed.

(** With a type derived from [EnableSharedFromThis] the construction from a
    null raw pointer dereferences it. *)
Example raw_null_esft_undefined :
  step (SFromRaw 1 nullptr true) init_state = Undefined.
Proof. vm_compute. reflexivity. Qed.

(** Two handles built from one raw pointer delete the payload twice. *)
Example double_ownership_undefined :
  run [NewPayload false; SFromRaw 1 1 false; SFromRaw 2 1 false;
       SDestroy 1; SDestroy 2]%N init_state = Undefined.
Proof. vm_compute. reflexivity. Qed.

(** The round trip of a handle that has a pointer but no block ends in the
    empty handle, which is not equal to it. *)
Example round_trip_without_block :
  let st := final prog_alias_empty in
  let h := mkShared nullptr 5 in
  shared st !! 2%N = Some h ∧
  ∃ w l, WeakPtr_from_shared h st = Ok w st ∧
         WeakPtr_Lock w st = Ok l st ∧
         SharedPtr_eq l h = false.
Proof.
  split; [vm_compute; reflexivity|].
  exists (mkWeak nullptr 5), SharedPtr_default. vm_compute. repeat split.
Qed.

(** * More on the strong and weak handles *)

(** ** Handles and the blocks they reference *)

Lemma weak_pos_table st w h :
  weak st !! w = Some h → (0 < weak_refs st (w_block_ h))%nat.
Proof.
  intros Hw. unfold weak_refs.
  pose proof (refs_on_pos w_block_ (w_block_ h) w h _ Hw eq_refl). lia.
Qed.

(** X1: in every state a program reaches, a strong or weak handle variable
    that has a block references an allocated control block.  [UseCount] of
    either kind of handle is the number of strong handle variables on that
    block; for a strong handle it is at least 1 and that block has not yet
    destroyed its payload (the history holds no [DeletePayload] of the
    block; a payload adopted by a second block may have been deleted through
    that one); for a weak handle the block has not been deleted.  A handle
    without a block reports 0. *)
Theorem handles_reference_live_blocks ops st :
  run ops init_state = Ok tt st →
  4 * Z.of_nat (length ops) + 8 < 2 ^ 64 →
  (∀ x h, shared st !! x = Some h → s_block_ h ≠ nullptr →
     is_Some (blocks st !! s_block_ h) ∧
     SharedPtr_UseCount h st = Ok (Z.of_nat (strong_refs st (s_block_ h))) st ∧
     (1 ≤ strong_refs st (s_block_ h))%nat ∧
     ¬ In (DeletePayload (s_block_ h)) (log st)) ∧
  (∀ w h, weak st !! w = Some h → w_block_ h ≠ nullptr →
     is_Some (blocks st !! w_block_ h) ∧
     WeakPtr_UseCount h st = Ok (Z.of_nat (strong_refs st (w_block_ h))) st ∧
     ¬ In (DeleteBlock (w_block_ h)) (log st)) ∧
  (∀ h, s_block_ h = nullptr → SharedPtr_UseCount h st = Ok 0 st) ∧
  (∀ h, w_block_ h = nullptr → WeakPtr_UseCount h st = Ok 0 st).
Proof.
  intros Hr Hlen. pose proof (reachable_inv _ _ Hr Hlen) as HI.
  split; [|split; [|split]].
  - intros x h Hx Hb.
    pose proof (S_pos_table [] st x _ Hx) as HS. unfold S_ in HS. simpl in HS.
    destruct (InvG_live _ _ _ _ _ (s_block_ h) HI Hb) as (blk & Hblk & _); [unfold S_; simpl; lia|].
    destruct (Inv_at _ _ _ _ HI Hblk) as (_ & Hrc & _ & _ & _ & Hp).
    split; [by eexists|]. split; [|split; [lia|]].
    + rewrite (SharedPtr_UseCount_eq h blk st Hb Hblk). by rewrite Hrc.
    + rewrite Hp. lia.
  - intros w h Hw Hb.
    pose proof (weak_pos_table st w _ Hw) as HW.
    destruct (InvG_live _ _ _ _ _ (w_block_ h) HI Hb) as (blk & Hblk & _);
      [unfold W_; simpl; lia|].
    destruct (Inv_at _ _ _ _ HI Hblk) as (_ & Hrc & _ & _ & _ & Hp).
    split; [by eexists|]. split.
    + rewrite (WeakPtr_UseCount_eq h blk st Hb Hblk). by rewrite Hrc.
    + apply (inv_live _ _ _ _ _ HI). by eexists.
  - intros h Hb. unfold SharedPtr_UseCount. by rewrite Hb.
  - intros h Hb. unfold WeakPtr_UseCount. by rewrite Hb.
Qed.

(** ** Copies *)

Lemma SharedPtr_eta h : mkShared (s_block_ h) (s_observer_ h) = h.
Proof. by destruct h. Qed.

Lemma State_blocks_id st b blk :
  blocks st !! b = Some blk →
  upd_blocks (insert b (mkBlock (storage blk) (ref_counter_ blk) (weak_ref_counter_ blk))) st = st.
Proof.
  intros Hb. destruct st as [bl ob sh wk nx lg]. unfold upd_blocks. simpl in *.
  f_equal. apply insert_id. rewrite Hb. by destruct blk.
Qed.

Lemma take_shared_eq x h st :
  shared st !! x = Some h → take_shared x st = Ok h (upd_shared (delete x) st).
Proof. intros H. unfold take_shared. by rewrite H. Qed.
Lemma get_shared_eq x h st :
  shared st !! x = Some h → get_shared x st = Ok h st.
Proof. intros H. unfold get_shared. by rewrite H. Qed.
Lemma put_shared_eq x h st :
  shared st !! x = None → put_shared x h st = Ok tt (upd_shared (insert x h) st).
Proof. intros H. unfold put_shared. by rewrite H. Qed.

(** A strong handle on a block: the block is allocated, its counters are at
    least one and below the limit. *)
Lemma strong_handle_block k st x h :
  Inv k st → shared st !! x = Some h → s_block_ h ≠ nullptr →
  ∃ blk, blocks st !! s_block_ h = Some blk ∧
         1 ≤ ref_counter_ blk ∧ ref_counter_ blk ≤ weak_ref_counter_ blk ∧
         weak_ref_counter_ blk + Z.of_nat k < 2 ^ 64 ∧
         ref_counter_ blk = Z.of_nat (strong_refs st (s_block_ h)).
Proof.
  intros HI Hx Hb.
  pose proof (S_pos_table [] st x _ Hx) as HS. unfold S_ in HS. simpl in HS.
  destruct (InvG_live _ _ _ _ _ (s_block_ h) HI Hb) as (blk & Hblk & _);
    [unfold S_; simpl; lia|].
  destruct (Inv_at _ _ _ _ HI Hblk) as (_ & Hrc & Hwc & Hpos & Hbd & _).
  exists blk. repeat split; try done; lia.
Qed.

Lemma SharedPtr_copy_eq h blk st :
  s_block_ h ≠ nullptr → blocks st !! s_block_ h = Some blk →
  SharedPtr_copy h st =
  Ok h (upd_blocks (insert (s_block_ h)
                      (mkBlock (storage blk) (incr (ref_counter_ blk))
                         (incr (weak_ref_counter_ blk)))) st).
Proof.
  intros Hb Hblk. unfold SharedPtr_copy. cbn [s_block_].
  erewrite bind_eq;
    [|rewrite when_nonnull_eq by done; by apply IncrementRefCounter_eq].
  unfold ret. by rewrite SharedPtr_eta.
Qed.

Lemma SharedPtr_copy_null h st :
  s_block_ h = nullptr → SharedPtr_copy h st = Ok h st.
Proof.
  intros Hb. unfold SharedPtr_copy, bind. cbn [s_block_]. rewrite Hb. simpl.
  unfold ret. rewrite <- Hb. by rewrite SharedPtr_eta.
Qed.

Lemma SharedPtr_dtor_eq h blk st :
  s_block_ h ≠ nullptr → blocks st !! s_block_ h = Some blk →
  2 ≤ ref_counter_ blk → ref_counter_ blk ≤ weak_ref_counter_ blk →
  weak_ref_counter_ blk < 2 ^ 64 →
  SharedPtr_dtor h st =
  Ok tt (upd_blocks (insert (s_block_ h)
                       (mkBlock (storage blk) (ref_counter_ blk - 1)
                          (weak_ref_counter_ blk - 1))) st).
Proof.
  intros Hb Hblk H2 Hle Hlt. unfold SharedPtr_dtor. rewrite when_nonnull_eq by done.
  rewrite (DecrementRefCounter_eq _ _ _ Hblk); rewrite ?decr_small; try lia. done.
Qed.

(** X2: copy construction from a live strong handle is defined, gives the
    new variable the same handle, deletes nothing and leaves the objects and
    the weak handles alone; the use count grows by one (and stays 0 for a
    handle without a block); destroying the copy gives back the state before
    the copy. *)
Theorem copy_shares_ownership ops st x y h :
  run ops init_state = Ok tt st →
  4 * Z.of_nat (length ops) + 8 < 2 ^ 64 →
  shared st !! y = Some h → shared st !! x = None →
  ∃ st', step (SCopy x y) st = Ok tt st' ∧
         shared st' = <[x := h]> (shared st) ∧
         log st' = log st ∧ objects st' = objects st ∧ weak st' = weak st ∧
         (∀ c, SharedPtr_UseCount h st = Ok c st →
               SharedPtr_UseCount h st' =
                 Ok (if (s_block_ h =? nullptr)%N then 0 else c + 1) st') ∧
         step (SDestroy x) st' = Ok tt st.
Proof.
  intros Hr Hlen Hy Hx. pose proof (reachable_inv _ _ Hr Hlen) as HI.
  unfold step at 1. rewrite (bind_eq _ _ _ _ _ (get_shared_eq _ _ _ Hy)).
  destruct (N.eqb_spec (s_block_ h) nullptr) as [Hb|Hb].
  - rewrite (bind_eq _ _ _ _ _ (SharedPtr_copy_null _ _ Hb)).
    rewrite (put_shared_eq _ _ _ Hx). eexists. split; [done|]. simpl.
    repeat split; try done.
    + intros c _. unfold SharedPtr_UseCount. by rewrite Hb.
    + unfold step. erewrite bind_eq; [|apply take_shared_eq; simpl; apply lookup_insert_eq].
      unfold SharedPtr_dtor. rewrite Hb. simpl. unfold ret. f_equal.
      destruct st as [bl ob sh wk nx lg]. unfold upd_shared. simpl in *. f_equal.
      rewrite delete_insert_eq. by apply delete_id.
  - destruct (strong_handle_block _ _ _ _ HI Hy Hb) as (blk & Hblk & H1 & Hle & Hbd & _).
    rewrite (bind_eq _ _ _ _ _ (SharedPtr_copy_eq _ _ _ Hb Hblk)).
    rewrite !incr_small by lia.
    rewrite put_shared_eq by done. eexists. split; [done|]. simpl.
    repeat split; try done.
    + intros c Hc. rewrite (SharedPtr_UseCount_eq _ _ _ Hb Hblk) in Hc.
      injection Hc as <-.
      rewrite (SharedPtr_UseCount_eq h (mkBlock (storage blk) (ref_counter_ blk + 1)
                                          (weak_ref_counter_ blk + 1)));
        [done|done|simpl; apply lookup_insert_eq].
    + unfold step. erewrite bind_eq; [|apply take_shared_eq; simpl; apply lookup_insert_eq].
      erewrite SharedPtr_dtor_eq; [|done|simpl; apply lookup_insert_eq|simpl; lia..].
      f_equal. simpl.
      destruct st as [bl ob sh wk nx lg]. unfold upd_shared, upd_blocks. simpl in *.
      f_equal.
      * rewrite insert_insert_eq.
        replace (ref_counter_ blk + 1 - 1) with (ref_counter_ blk) by lia.
        replace (weak_ref_counter_ blk + 1 - 1) with (weak_ref_counter_ blk) by lia.
        apply insert_id. rewrite Hblk. by destruct blk.
      * rewrite delete_insert_eq. by apply delete_id.
Qed.

(** ** Assignment *)

Lemma quiet_Ok {A} (m : M A) st a st' : quiet m → m st = Ok a st' → frame st st'.
Proof. intros Hq Hm. specialize (Hq st). by rewrite Hm in Hq. Qed.

Lemma SharedPtr_dtor_null h st :
  s_block_ h = nullptr → SharedPtr_dtor h st = Ok tt st.
Proof. intros Hb. unfold SharedPtr_dtor. by rewrite Hb. Qed.

Lemma SharedPtr_assign_null this other st :
  s_block_ this = nullptr → s_block_ other = nullptr →
  SharedPtr_assign this other st = Ok other st.
Proof.
  intros H1 H2. unfold SharedPtr_assign, bind. cbn [s_block_]. rewrite H1, H2. simpl.
  unfold ret. rewrite <- H2. by rewrite SharedPtr_eta.
Qed.

(** The body of [operator=] when [*this] is empty: the block of [other]
    gains a reference. *)
Lemma SharedPtr_assign_from_null this other blk st :
  s_block_ this = nullptr → s_block_ other ≠ nullptr →
  blocks st !! s_block_ other = Some blk →
  SharedPtr_assign this other st =
  Ok other (upd_blocks (insert (s_block_ other)
                          (mkBlock (storage blk) (incr (ref_counter_ blk))
                             (incr (weak_ref_counter_ blk)))) st).
Proof.
  intros H1 H2 Hblk. unfold SharedPtr_assign. rewrite H1. simpl when at 1.
  unfold bind at 1. unfold ret at 1. cbn [s_block_].
  erewrite bind_eq;
    [|rewrite when_nonnull_eq by done; by apply IncrementRefCounter_eq].
  unfold ret. by rewrite SharedPtr_eta.
Qed.

(** The body of [operator=] when both handles are on the same block, which
    has another reference (the by-value parameter). *)
Lemma SharedPtr_assign_same this other blk st :
  s_block_ this = s_block_ other → s_block_ other ≠ nullptr →
  blocks st !! s_block_ other = Some blk →
  2 ≤ ref_counter_ blk → ref_counter_ blk ≤ weak_ref_counter_ blk →
  weak_ref_counter_ blk < 2 ^ 64 →
  SharedPtr_assign this other st = Ok other st.
Proof.
  intros H1 H2 Hblk Hr Hle Hlt. unfold SharedPtr_assign. rewrite H1.
  erewrite bind_eq;
    [|rewrite when_nonnull_eq by done;
      apply (DecrementRefCounter_eq _ _ _ Hblk); rewrite decr_small; lia].
  cbn [s_block_].
  erewrite bind_eq;
    [|rewrite when_nonnull_eq by done;
      apply IncrementRefCounter_eq; simpl; apply lookup_insert_eq].
  unfold ret. rewrite SharedPtr_eta. f_equal. simpl.
  rewrite !decr_small, !incr_small by lia.
  replace (ref_counter_ blk - 1 + 1) with (ref_counter_ blk) by lia.
  replace (weak_ref_counter_ blk - 1 + 1) with (weak_ref_counter_ blk) by lia.
  destruct st as [bl ob sh wk nx lg]. unfold upd_blocks. simpl in *. f_equal.
  rewrite insert_insert_eq. apply insert_id. rewrite Hblk. by destruct blk.
Qed.

Lemma upd_shared_insert_delete x h st :
  upd_shared (insert x h) (upd_shared (delete x) st) = upd_shared (insert x h) st.
Proof.
  destruct st as [bl ob sh wk nx lg]. unfold upd_shared. simpl. f_equal.
  apply insert_delete_eq.
Qed.

Lemma upd_shared_insert_id x h st :
  shared st !! x = Some h → upd_shared (insert x h) st = st.
Proof.
  intros Hx. destruct st as [bl ob sh wk nx lg]. unfold upd_shared. simpl in *.
  f_equal. by apply insert_id.
Qed.

Lemma assign_same_block k st x y hx hy :
  Inv (S k) st →
  shared st !! x = Some hx → shared st !! y = Some hy →
  s_block_ hx = s_block_ hy →
  step (SAssign x y) st = Ok tt (upd_shared (insert x hy) st).
Proof.
  intros HI Hx Hy Hb. unfold step.
  rewrite (bind_eq _ _ _ _ _ (get_shared_eq _ _ _ Hy)).
  destruct (N.eqb_spec (s_block_ hy) nullptr) as [Hn|Hn].
  - rewrite (bind_eq _ _ _ _ _ (SharedPtr_copy_null _ _ Hn)).
    rewrite (bind_eq _ _ _ _ _ (take_shared_eq _ _ _ Hx)).
    rewrite (bind_eq _ _ _ _ _ (SharedPtr_assign_null _ _ _ (eq_trans Hb Hn) Hn)).
    erewrite bind_eq; [|apply put_shared_eq; simpl; apply lookup_delete_eq].
    rewrite SharedPtr_dtor_null by done. by rewrite upd_shared_insert_delete.
  - destruct (strong_handle_block _ _ _ _ HI Hy Hn) as (blk & Hblk & H1 & Hle & Hbd & _).
    rewrite (bind_eq _ _ _ _ _ (SharedPtr_copy_eq _ _ _ Hn Hblk)).
    rewrite !incr_small by lia.
    erewrite bind_eq; [|apply take_shared_eq; simpl; exact Hx].
    erewrite bind_eq;
      [|apply (SharedPtr_assign_same hx hy
                 (mkBlock (storage blk) (ref_counter_ blk + 1) (weak_ref_counter_ blk + 1)));
        [done|done|simpl; apply lookup_insert_eq|simpl; lia..]].
    erewrite bind_eq; [|apply put_shared_eq; simpl; apply lookup_delete_eq].
    erewrite SharedPtr_dtor_eq; [|done|simpl; apply lookup_insert_eq|simpl; lia..].
    f_equal. simpl.
    replace (ref_counter_ blk + 1 - 1) with (ref_counter_ blk) by lia.
    replace (weak_ref_counter_ blk + 1 - 1) with (weak_ref_counter_ blk) by lia.
    destruct st as [bl ob sh wk nx lg]. unfold upd_shared, upd_blocks. simpl in *.
    f_equal.
    + rewrite insert_insert_eq. apply insert_id. rewrite Hblk. by destruct blk.
    + apply insert_delete_eq.
Qed.

Lemma self_move_assign k st x hx :
  Inv (S k) st →
  shared st !! x = Some hx →
  step (SMoveAssign x x) st = Ok tt st.
Proof.
  intros HI Hx. unfold step.
  rewrite (bind_eq _ _ _ _ _ (take_shared_eq _ _ _ Hx)).
  erewrite bind_eq; [|apply put_shared_eq; simpl; apply lookup_delete_eq].
  erewrite bind_eq; [|apply take_shared_eq; simpl; apply lookup_insert_eq].
  cbn [SharedPtr_move fst snd]. rewrite SharedPtr_eta.
  destruct (N.eqb_spec (s_block_ hx) nullptr) as [Hn|Hn].
  - rewrite (bind_eq _ _ _ _ _ (SharedPtr_assign_null (mkShared nullptr nullptr) hx _ eq_refl Hn)).
    erewrite bind_eq; [|apply put_shared_eq; simpl; apply lookup_delete_eq].
    rewrite SharedPtr_dtor_null by done. f_equal.
    destruct st as [bl ob sh wk nx lg]. unfold upd_shared. simpl in *. f_equal.
    rewrite delete_insert_eq, delete_delete_eq, insert_delete_eq. by apply insert_id.
  - destruct (strong_handle_block _ _ _ _ HI Hx Hn) as (blk & Hblk & H1 & Hle & Hbd & _).
    erewrite bind_eq;
      [|apply (SharedPtr_assign_from_null (mkShared nullptr nullptr) hx blk); [done|done|simpl; exact Hblk]].
    rewrite !incr_small by lia.
    erewrite bind_eq; [|apply put_shared_eq; simpl; apply lookup_delete_eq].
    erewrite SharedPtr_dtor_eq; [|done|simpl; apply lookup_insert_eq|simpl; lia..].
    f_equal. simpl.
    replace (ref_counter_ blk + 1 - 1) with (ref_counter_ blk) by lia.
    replace (weak_ref_counter_ blk + 1 - 1) with (weak_ref_counter_ blk) by lia.
    destruct st as [bl ob sh wk nx lg]. unfold upd_shared, upd_blocks. simpl in *.
    f_equal.
    + rewrite insert_insert_eq. apply insert_id. rewrite Hblk. by destruct blk.
    + rewrite delete_insert_eq, delete_delete_eq, insert_delete_eq. by apply insert_id.
Qed.

Lemma assign_tables st x y hx hy st' :
  shared st !! x = Some hx → shared st !! y = Some hy →
  step (SAssign x y) st = Ok tt st' →
  shared st' = <[x := hy]> (shared st) ∧ weak st' = weak st.
Proof.
  intros Hx Hy Hs. unfold step in Hs.
  apply bind_Ok in Hs as (hy' & st1 & H1 & Hs).
  apply get_shared_Ok in H1 as [-> Hy']. rewrite Hy in Hy'. injection Hy' as <-.
  apply bind_Ok in Hs as (other & st2 & H2 & Hs).
  pose proof (SharedPtr_copy_val _ _ _ _ H2) as ->.
  apply (quiet_Ok _ _ _ _ (quiet_SharedPtr_copy hy)) in H2 as (S2 & W2 & _).
  apply bind_Ok in Hs as (this & st3 & H3 & Hs).
  pose proof H3 as H3'. apply take_shared_Ok in H3' as [_ S3].
  assert (W3 : weak st3 = weak st2).
  { revert H3. unfold take_shared. destruct (shared st2 !! x); [|done]. intros [= _ <-]. reflexivity. }
  apply bind_Ok in Hs as (this' & st4 & H4 & Hs).
  pose proof (SharedPtr_assign_val _ _ _ _ _ H4) as ->.
  apply (quiet_Ok _ _ _ _ (quiet_SharedPtr_assign this hy)) in H4 as (S4 & W4 & _).
  apply bind_Ok in Hs as (u & st5 & H5 & Hs).
  pose proof (put_shared_Ok _ _ _ _ _ H5) as S5.
  assert (W5 : weak st5 = weak st4).
  { revert H5. unfold put_shared. destruct (shared st4 !! x); [done|]. intros [= _ <-]. reflexivity. }
  apply (quiet_Ok _ _ _ _ (quiet_SharedPtr_dtor hy)) in Hs as (S6 & W6 & _).
  split.
  - rewrite S6, S5, S4, S3, S2. apply insert_delete_eq.
  - congruence.
Qed.

(** X4: copy assignment between two live strong handle variables never
    throws; when it returns, the target holds the source's handle and the
    weak handles are untouched.  If both reference the same block the
    counters are left alone and only the target's handle changes.  Copy and
    move self-assignment change nothing. *)
Theorem assignment_spec ops st x y hx hy :
  run ops init_state = Ok tt st →
  4 * Z.of_nat (length ops) + 8 < 2 ^ 64 →
  shared st !! x = Some hx → shared st !! y = Some hy →
  (∀ st', step (SAssign x y) st ≠ Throw st') ∧
  (∀ st', step (SAssign x y) st = Ok tt st' →
     shared st' = <[x := hy]> (shared st) ∧ weak st' = weak st) ∧
  (s_block_ hx = s_block_ hy →
     step (SAssign x y) st = Ok tt (upd_shared (insert x hy) st)) ∧
  step (SAssign x x) st = Ok tt st ∧
  step (SMoveAssign x x) st = Ok tt st.
Proof.
  intros Hr Hlen Hx Hy. pose proof (reachable_inv _ _ Hr Hlen) as HI.
  split; [|split; [|split; [|split]]].
  - intros st' Hs. by apply step_Throw in Hs as [_ [(?&?&?&?&_)|(?&?&?&?&_)]].
  - intros st' Hs. by eapply assign_tables.
  - intros Hb. by eapply assign_same_block.
  - rewrite (assign_same_block 7 st x x hx hx HI Hx Hx eq_refl).
    by rewrite upd_shared_insert_id.
  - by eapply self_move_assign.
Qed.

(** ** Weak handles never touch a payload *)

Lemma spares_ret {A} (a : A) : spares_payloads (ret a).
Proof. intros st a' st' [= _ <-]. repeat split. by exists []. Qed.

Lemma spares_bind {A B} (m : M A) (k : A → M B) :
  spares_payloads m → (∀ a, spares_payloads (k a)) → spares_payloads (bind m k).
Proof.
  intros Hm Hk st b st' (a & st1 & H1 & H2)%bind_Ok.
  destruct (Hm _ _ _ H1) as (S1 & O1 & n1 & L1 & E1).
  destruct (Hk _ _ _ _ H2) as (S2 & O2 & n2 & L2 & E2).
  split; [congruence|]. split; [congruence|].
  exists (n2 ++ n1). split; [by rewrite L2, L1, app_assoc|].
  intros e [?|?]%in_app_or; auto.
Qed.

Lemma spares_when c (m : M unit) : spares_payloads m → spares_payloads (when c m).
Proof. destruct c; [done|]. intros _. apply spares_ret. Qed.

Lemma spares_get_block b : spares_payloads (get_block b).
Proof.
  intros st a st'. unfold get_block. destruct (blocks st !! b); [|done].
  intros [= _ <-]. repeat split. by exists [].
Qed.

Lemma spares_upd_blocks f : spares_payloads (modify (upd_blocks f)).
Proof. intros st a st' [= _ <-]. repeat split. by exists []. Qed.

Lemma spares_modify_block f b : spares_payloads (modify_block f b).
Proof.
  apply spares_bind; [apply spares_get_block|]. intros ?. apply spares_upd_blocks.
Qed.

Lemma spares_delete_this b : spares_payloads (delete_this b).
Proof.
  apply spares_bind; [apply spares_get_block|]. intros _ st a st' [= _ <-].
  repeat split. exists [DeleteBlock b]. split; [done|].
  intros e [<-|[]]. by exists b.
Qed.

Lemma spares_get_weak w : spares_payloads (get_weak w).
Proof. intros st a st' [-> _]%get_weak_Ok. repeat split. by exists []. Qed.
Lemma spares_get_shared x : spares_payloads (get_shared x).
Proof. intros st a st' [-> _]%get_shared_Ok. repeat split. by exists []. Qed.
Lemma spares_get_weak_this p : spares_payloads (get_weak_this p).
Proof. intros st a st' [-> _]%get_weak_this_Ok. repeat split. by exists []. Qed.
Lemma spares_take_weak w : spares_payloads (take_weak w).
Proof.
  intros st a st'. unfold take_weak. destruct (weak st !! w); [|done].
  intros [= _ <-]. repeat split. by exists [].
Qed.
Lemma spares_put_weak w h : spares_payloads (put_weak w h).
Proof.
  intros st a st'. unfold put_weak. destruct (weak st !! w); [done|].
  intros [= _ <-]. repeat split. by exists [].
Qed.

Create HintDb spares.
#[local] Hint Resolve spares_ret spares_when spares_get_block spares_upd_blocks
  spares_modify_block spares_delete_this spares_get_weak spares_get_shared
  spares_get_weak_this spares_take_weak spares_put_weak : spares.

Ltac spares_tac :=
  repeat first
    [ solve [auto with spares]
    | apply spares_bind; [|intros ?; cbv beta zeta]
    | apply spares_when ].

Lemma spares_IncrementWeakRefCounter b : spares_payloads (IncrementWeakRefCounter b).
Proof. unfold IncrementWeakRefCounter. spares_tac. Qed.
Lemma spares_DecrementWeakRefCounter b : spares_payloads (DecrementWeakRefCounter b).
Proof. unfold DecrementWeakRefCounter. spares_tac. Qed.
#[local] Hint Resolve spares_IncrementWeakRefCounter spares_DecrementWeakRefCounter : spares.

Lemma spares_WeakPtr_dtor w : spares_payloads (WeakPtr_dtor w).
Proof. unfold WeakPtr_dtor. spares_tac. Qed.
Lemma spares_WeakPtr_copy w : spares_payloads (WeakPtr_copy w).
Proof. unfold WeakPtr_copy. spares_tac. Qed.
Lemma spares_WeakPtr_from_shared h : spares_payloads (WeakPtr_from_shared h).
Proof. unfold WeakPtr_from_shared. spares_tac. Qed.
Lemma spares_WeakPtr_assign this other : spares_payloads (WeakPtr_assign this other).
Proof. unfold WeakPtr_assign. spares_tac. Qed.
#[local] Hint Resolve spares_WeakPtr_dtor spares_WeakPtr_copy
  spares_WeakPtr_from_shared spares_WeakPtr_assign : spares.
Lemma spares_WeakPtr_Reset this : spares_payloads (WeakPtr_Reset this).
Proof. unfold WeakPtr_Reset. spares_tac. Qed.
Lemma spares_WeakFromThis p : spares_payloads (WeakFromThis p).
Proof. unfold WeakFromThis. spares_tac. Qed.
#[local] Hint Resolve spares_WeakPtr_Reset spares_WeakFromThis : spares.

Lemma spares_step op : weak_only op = true → spares_payloads (step op).
Proof.
  destruct op; try discriminate; intros _; unfold step; spares_tac.
  destruct (w =? v)%N; spares_tac.
Qed.

Lemma take_weak_eq w h st :
  weak st !! w = Some h → take_weak w st = Ok h (upd_weak (delete w) st).
Proof. intros H. unfold take_weak. by rewrite H. Qed.

(** X7: an operation on weak handle variables alone never throws; when
    it returns, the strong handles and the payload objects are unchanged, no
    payload has been deleted and every strong handle reports the use count
    it had.  Destroying a live weak handle variable is always defined. *)
Theorem weak_operations_spare_payloads ops st op :
  run ops init_state = Ok tt st →
  4 * Z.of_nat (length ops) + 8 < 2 ^ 64 →
  weak_only op = true →
  (∀ st', step op st ≠ Throw st') ∧
  (∀ st', step op st = Ok tt st' →
     shared st' = shared st ∧ objects st' = objects st ∧
     (∀ b, In (DeletePayload b) (log st') → In (DeletePayload b) (log st)) ∧
     (∀ x h c, shared st !! x = Some h →
               SharedPtr_UseCount h st = Ok c st →
               SharedPtr_UseCount h st' = Ok c st')) ∧
  (∀ w h, weak st !! w = Some h → ∃ st', step (WDestroy w) st = Ok tt st').
Proof.
  intros Hr Hlen Hop. pose proof (reachable_inv _ _ Hr Hlen) as HI.
  split; [|split].
  - intros st' Hs. apply step_Throw in Hs as [_ [(?&?&?&Heq&_)|(?&?&?&Heq&_)]];
      subst op; discriminate.
  - intros st' Hs.
    destruct (spares_step op Hop _ _ _ Hs) as (Hsh & Hob & new & Hlog & Hnew).
    assert (HI' : Inv 4 st') by (by eapply step_inv).
    split; [done|]. split; [done|]. split.
    + intros b. rewrite Hlog. intros [Hin|Hin]%in_app_or; [|done].
      by destruct (Hnew _ Hin).
    + intros x h c Hx Hc.
      destruct (N.eqb_spec (s_block_ h) nullptr) as [Hn|Hn].
      { revert Hc. unfold SharedPtr_UseCount. rewrite Hn. simpl. by intros [= <-]. }
      destruct (strong_handle_block _ _ _ _ HI Hx Hn) as (blk & Hblk & _ & _ & _ & Hrc).
      rewrite (SharedPtr_UseCount_eq _ _ _ Hn Hblk) in Hc. injection Hc as <-.
      assert (Hx' : shared st' !! x = Some h) by (by rewrite Hsh).
      destruct (strong_handle_block _ _ _ _ HI' Hx' Hn) as (blk' & Hblk' & _ & _ & _ & Hrc').
      rewrite (SharedPtr_UseCount_eq _ _ _ Hn Hblk'). f_equal.
      rewrite Hrc, Hrc'. unfold strong_refs. by rewrite Hsh.
  - intros w h Hw. unfold step.
    rewrite (bind_eq _ _ _ _ _ (take_weak_eq _ _ _ Hw)).
    pose proof (take_weak_inv _ _ _ _ _ _ _ _ HI (take_weak_eq _ _ _ Hw)) as H1.
    destruct (WeakPtr_dtor_total _ _ _ _ _ h H1) as (st' & E & _). by exists st'.
Qed.

(** ** Reset *)

(** X5: [Reset()] on a strong or on a weak handle is the destructor
    followed by default construction, undefined exactly when the destructor
    is; afterwards the variable holds the empty handle. *)
Theorem reset_is_destroy_then_default st x w :
  step (SReset x) st = (do _ <- step (SDestroy x); step (SDefault x)) st ∧
  step (WReset w) st = (do _ <- step (WDestroy w); step (WDefault w)) st ∧
  (∀ st', step (SReset x) st = Ok tt st' → shared st' !! x = Some SharedPtr_default) ∧
  (∀ st', step (WReset w) st = Ok tt st' → weak st' !! w = Some WeakPtr_default).
Proof.
  assert (E1 : step (SReset x) st = (do _ <- step (SDestroy x); step (SDefault x)) st).
  { unfold step, SharedPtr_Reset, SharedPtr_assign, SharedPtr_dtor, bind, take_shared.
    destruct (shared st !! x); [|done]. simpl.
    by destruct (when _ _ _). }
  assert (E2 : step (WReset w) st = (do _ <- step (WDestroy w); step (WDefault w)) st).
  { unfold step, WeakPtr_Reset, WeakPtr_assign, WeakPtr_dtor, bind, take_weak.
    destruct (weak st !! w); [|done]. simpl.
    by destruct (when _ _ _). }
  split; [done|]. split; [done|]. split.
  - intros st'. rewrite E1. intros (u & st1 & _ & H)%bind_Ok.
    apply put_shared_Ok in H as ->. apply lookup_insert_eq.
  - intros st'. rewrite E2. intros (u & st1 & _ & H)%bind_Ok.
    revert H. unfold step, put_weak. destruct (weak st1 !! w); [done|].
    intros [= <-]. apply lookup_insert_eq.
Qed.

Lemma destroy_payload_plain p st :
  objects st !! p = Some (mkPayload None) →
  destroy_payload p st = Ok tt (upd_objects (delete p) st).
Proof.
  intros Ho. unfold destroy_payload, bind, take_object. by rewrite Ho.
Qed.

(** The last strong decrement on a block whose payload is a live object
    without members of the library. *)
Lemma last_decrement_plain st b blk p :
  blocks st !! b = Some blk → ref_counter_ blk = 1 →
  1 ≤ weak_ref_counter_ blk < 2 ^ 64 →
  payload_of (storage blk) = p → p ≠ nullptr →
  objects st !! p = Some (mkPayload None) →
  ∃ st', DecrementRefCounter b st = Ok tt st' ∧
         objects st' = delete p (objects st) ∧
         shared st' = shared st ∧ weak st' = weak st ∧ next_ st' = next_ st ∧
         (∀ b', b' ≠ b → blocks st' !! b' = blocks st !! b') ∧
         blocks st' !! b =
           (if decide (weak_ref_counter_ blk = 1) then None
            else Some (mkBlock (storage blk) 0 (weak_ref_counter_ blk - 1))) ∧
         log st' = (if decide (weak_ref_counter_ blk = 1) then [DeleteBlock b] else [])
                   ++ DeletePayload b :: log st.
Proof.
  intros Hb Hr Hw Hp Hp0 Ho.
  rewrite (DecrementRefCounter_last b blk) by (done || by rewrite Hr).
  rewrite (decr_small (weak_ref_counter_ blk)), incr_small by lia.
  replace (weak_ref_counter_ blk - 1 + 1) with (weak_ref_counter_ blk) by lia.
  set (st2 := upd_blocks _ _).
  assert (Hb2 : blocks st2 !! b = Some (mkBlock (storage blk) 0 (weak_ref_counter_ blk)))
    by (subst st2; simpl; apply lookup_insert_eq).
  rewrite (bind_eq _ _ st2 tt (emit (DeletePayload b) (upd_objects (delete p) st2))).
  2:{ rewrite (delete_payload_eq b _ st2 Hb2) by (simpl; by rewrite Hp). simpl.
      rewrite Hp. erewrite bind_eq; [reflexivity|].
      apply destroy_payload_plain. by subst st2. }
  set (st3 := emit _ _).
  assert (Hb3 : blocks st3 !! b = Some (mkBlock (storage blk) 0 (weak_ref_counter_ blk)))
    by (subst st3; simpl; exact Hb2).
  case_decide as Hlast.
  - rewrite (DecrementWeakRefCounter_last b _ st3 Hb3)
      by (simpl; rewrite decr_small; lia).
    eexists. split; [reflexivity|]. subst st3 st2. simpl.
    repeat split; try done.
    + intros b' Hne. by rewrite lookup_delete_ne, lookup_insert_ne.
    + apply lookup_delete_eq.
  - rewrite (DecrementWeakRefCounter_eq b _ st3 Hb3)
      by (simpl; rewrite decr_small; lia).
    eexists. split; [reflexivity|]. subst st3 st2. simpl.
    repeat split; try done.
    + intros b' Hne. by rewrite !lookup_insert_ne.
    + rewrite lookup_insert_eq, decr_small by lia. done.
Qed.

(** The last strong decrement on a block whose payload is no longer a live
    object: a second [delete] of the same pointer. *)
Lemma last_decrement_missing st b blk p :
  blocks st !! b = Some blk → ref_counter_ blk = 1 →
  payload_of (storage blk) = p → p ≠ nullptr →
  objects st !! p = None →
  DecrementRefCounter b st = Undefined.
Proof.
  intros Hb Hr Hp Hp0 Ho.
  rewrite (DecrementRefCounter_last b blk) by (done || by rewrite Hr).
  set (st2 := upd_blocks _ _).
  assert (Hb2 : blocks st2 !! b =
                Some (mkBlock (storage blk) 0 (incr (decr (weak_ref_counter_ blk)))))
    by (subst st2; simpl; apply lookup_insert_eq).
  unfold bind at 1.
  rewrite (delete_payload_eq b _ st2 Hb2) by (simpl; by rewrite Hp). simpl.
  rewrite Hp. unfold bind, destroy_payload, bind, take_object.
  subst st2. simpl. by rewrite Ho.
Qed.

(** X6: [x.Reset(p)], with [p] the payload that [x] alone owns through a
    raw-pointer block, builds a new block on [p] and then releases the old
    one, which deletes [p]: [x] is left with use count 1 on a deleted
    payload, and destroying [x] is undefined (a second delete). *)
Theorem reset_to_own_pointer_dangles ops st x b p blk :
  run ops init_state = Ok tt st →
  4 * Z.of_nat (length ops) + 8 < 2 ^ 64 →
  shared st !! x = Some (mkShared b p) →
  blocks st !! b = Some blk → storage blk = ControlBlockWithPtr p →
  strong_refs st b = 1%nat →
  p ≠ nullptr → objects st !! p = Some (mkPayload None) →
  ∃ st', step (SResetPtr x p false) st = Ok tt st' ∧
         shared st' !! x = Some (mkShared (next_ st) p) ∧
         SharedPtr_UseCount (mkShared (next_ st) p) st' = Ok 1 st' ∧
         objects st' !! p = None ∧
         step (SDestroy x) st' = Undefined.
Proof.
  intros Hr Hlen Hx Hb Hst HS Hp0 Ho.
  pose proof (reachable_inv _ _ Hr Hlen) as HI.
  destruct (Inv_at _ _ _ _ HI Hb) as (Hb0 & Hrc & Hwc & Hpos & Hbd & _).
  destruct (InvG_live_lt _ _ _ _ _ _ _ HI Hb) as [Hlt _].
  pose proof (inv_next_pos _ _ _ _ _ HI) as Hn0.
  set (n := next_ st) in *.
  assert (Hnb : n ≠ b) by lia.
  unfold step at 1.
  rewrite (bind_eq _ _ _ _ _ (take_shared_eq _ _ _ Hx)).
  set (st1 := upd_shared (delete x) st).
  set (stA := after_new_WithPtr p st1).
  assert (F1 : SharedPtr_from_raw p false st1 = Ok (mkShared n p) stA).
  { by rewrite (SharedPtr_from_raw_start p false st1). }
  assert (HbA : blocks stA !! b = Some blk).
  { subst stA st1. unfold after_new_WithPtr. simpl. fold n.
    by rewrite !lookup_insert_ne. }
  assert (HnA : blocks stA !! n = Some (mkBlock (ControlBlockWithPtr p) 1 1)).
  { subst stA st1. unfold after_new_WithPtr. simpl. fold n. apply lookup_insert_eq. }
  destruct (last_decrement_plain stA b blk p HbA) as
    (stB & EB & OB & SB & WB & NB & BB & _ & _); try done.
  { lia. } { lia. } { by rewrite Hst. }
  assert (HnB : blocks stB !! n = Some (mkBlock (ControlBlockWithPtr p) 1 1))
    by (by rewrite BB).
  set (stC := upd_blocks (insert n (mkBlock (ControlBlockWithPtr p) 2 2)) stB).
  assert (F2 : SharedPtr_assign (mkShared b p) (mkShared n p) stA =
               Ok (mkShared n p) stC).
  { unfold SharedPtr_assign. cbn [s_block_ s_observer_].
    erewrite bind_eq; [|rewrite when_nonnull_eq by done; exact EB].
    erewrite bind_eq;
      [|rewrite when_nonnull_eq by done;
        apply (IncrementRefCounter_eq n (mkBlock (ControlBlockWithPtr p) 1 1) stB HnB)].
    reflexivity. }
  assert (HnC : blocks stC !! n = Some (mkBlock (ControlBlockWithPtr p) 2 2))
    by (subst stC; simpl; apply lookup_insert_eq).
  set (stD := upd_blocks (insert n (mkBlock (ControlBlockWithPtr p) 1 1)) stC).
  assert (F3 : SharedPtr_dtor (mkShared n p) stC = Ok tt stD).
  { rewrite (SharedPtr_dtor_eq (mkShared n p) (mkBlock (ControlBlockWithPtr p) 2 2) stC);
      [|done|exact HnC|simpl; lia..].
    reflexivity. }
  assert (F : SharedPtr_Reset_ptr (mkShared b p) p false st1 = Ok (mkShared n p) stD).
  { unfold SharedPtr_Reset_ptr.
    rewrite (bind_eq _ _ _ _ _ F1), (bind_eq _ _ _ _ _ F2), (bind_eq _ _ _ _ _ F3).
    reflexivity. }
  rewrite (bind_eq _ _ _ _ _ F).
  rewrite put_shared_eq.
  2:{ subst stD stC. simpl. rewrite SB. subst stA st1. simpl. apply lookup_delete_eq. }
  eexists. split; [reflexivity|].
  assert (HnD : blocks stD !! n = Some (mkBlock (ControlBlockWithPtr p) 1 1)).
  { subst stD. simpl. apply lookup_insert_eq. }
  assert (HoD : objects stD !! p = None).
  { subst stD stC. simpl. rewrite OB. apply lookup_delete_eq. }
  split; [simpl; apply lookup_insert_eq|]. split; [|split; [exact HoD|]].
  - rewrite (SharedPtr_UseCount_eq (mkShared n p) (mkBlock (ControlBlockWithPtr p) 1 1));
      done.
  - unfold step.
    erewrite bind_eq; [|apply take_shared_eq; simpl; apply lookup_insert_eq].
    unfold SharedPtr_dtor. cbn [s_block_]. rewrite when_nonnull_eq by done.
    by apply (last_decrement_missing _ n (mkBlock (ControlBlockWithPtr p) 1 1) p).
Qed.

(** ** SharedFromThis and WeakFromThis *)

Lemma WeakPtr_eta w : mkWeak (w_block_ w) (w_observer_ w) = w.
Proof. by destruct w. Qed.

Lemma SharedPtr_from_weak_expired w st :
  WeakPtr_UseCount w st = Ok 0 st → SharedPtr_from_weak w st = Throw st.
Proof.
  intros Hc. unfold SharedPtr_from_weak.
  by rewrite (bind_eq _ _ _ _ _ (WeakPtr_Expired_eq _ _ _ Hc)).
Qed.

Lemma embedded_block_live k st p w :
  Inv k st → objects st !! p = Some (mkPayload (Some w)) →
  w_block_ w ≠ nullptr →
  ∃ blk, blocks st !! w_block_ w = Some blk ∧
         weak_ref_counter_ blk + Z.of_nat k < 2 ^ 64 ∧
         ref_counter_ blk = Z.of_nat (strong_refs st (w_block_ w)).
Proof.
  intros HI Ho Hb.
  assert (Hemb : (0 < refs_on emb_block (w_block_ w) (objects st))%nat).
  { by apply (refs_on_pos emb_block (w_block_ w) p _ _ Ho). }
  destruct (InvG_live _ _ _ _ _ (w_block_ w) HI Hb) as (blk & Hblk & _);
    [unfold W_, weak_refs; simpl; lia|].
  destruct (Inv_at _ _ _ _ HI Hblk) as (_ & Hrc & Hwc & Hpos & Hbd & _).
  exists blk. repeat split; try done. lia.
Qed.

(** X8: for a live object derived from [EnableSharedFromThis]:
    while its [weak_this_] is empty [SharedFromThis] throws and
    [WeakFromThis] returns the empty weak handle; once [weak_this_] has a
    block, that block is allocated, [SharedFromThis] throws exactly when the
    strong counter is 0 and otherwise returns a strong handle after
    incrementing both counters, and [WeakFromThis] returns a copy after
    incrementing the weak counter.  An object that no [SharedPtr] has
    adopted yet throws. *)
Theorem shared_from_this_spec ops st p w :
  run ops init_state = Ok tt st →
  4 * Z.of_nat (length ops) + 8 < 2 ^ 64 →
  objects st !! p = Some (mkPayload (Some w)) →
  (w_block_ w = nullptr →
     SharedFromThis p st = Throw st ∧ WeakFromThis p st = Ok w st) ∧
  (w_block_ w ≠ nullptr →
     ∃ blk, blocks st !! w_block_ w = Some blk ∧
       SharedFromThis p st =
         (if ref_counter_ blk =? 0 then Throw st
          else Ok (mkShared (w_block_ w) (w_observer_ w))
                  (upd_blocks (insert (w_block_ w)
                                 (mkBlock (storage blk) (ref_counter_ blk + 1)
                                    (weak_ref_counter_ blk + 1))) st)) ∧
       WeakFromThis p st =
         Ok w (upd_blocks (insert (w_block_ w)
                             (mkBlock (storage blk) (ref_counter_ blk)
                                (weak_ref_counter_ blk + 1))) st)) ∧
  (∃ st1, step (NewPayload true) st = Ok tt st1 ∧
          SharedFromThis (next_ st) st1 = Throw st1).
Proof.
  intros Hr Hlen Ho. pose proof (reachable_inv _ _ Hr Hlen) as HI.
  split; [|split].
  - intros Hb. split.
    + unfold SharedFromThis. rewrite (bind_eq _ _ _ _ _ (get_weak_this_eq _ _ _ Ho)).
      apply SharedPtr_from_weak_expired. unfold WeakPtr_UseCount. by rewrite Hb.
    + unfold WeakFromThis. rewrite (bind_eq _ _ _ _ _ (get_weak_this_eq _ _ _ Ho)).
      unfold WeakPtr_copy, bind. cbn [w_block_]. rewrite Hb. simpl.
      unfold ret. rewrite <- Hb. by rewrite WeakPtr_eta.
  - intros Hb.
    destruct (embedded_block_live _ _ _ _ HI Ho Hb) as (blk & Hblk & Hbd & Hrc).
    destruct (Inv_at _ _ _ _ HI Hblk) as (_ & _ & Hwc & _).
    exists blk. split; [done|]. split.
    + unfold SharedFromThis. rewrite (bind_eq _ _ _ _ _ (get_weak_this_eq _ _ _ Ho)).
      destruct (Z.eqb_spec (ref_counter_ blk) 0) as [Hz|Hz].
      * apply SharedPtr_from_weak_expired.
        rewrite (WeakPtr_UseCount_eq _ _ _ Hb Hblk). by rewrite Hz.
      * rewrite (SharedPtr_from_weak_eq _ _ _ Hb Hblk Hz).
        by rewrite !incr_small by lia.
    + unfold WeakFromThis. rewrite (bind_eq _ _ _ _ _ (get_weak_this_eq _ _ _ Ho)).
      unfold WeakPtr_copy. cbn [w_block_ w_observer_].
      erewrite bind_eq;
        [|rewrite when_nonnull_eq by done; by apply IncrementWeakRefCounter_eq].
      unfold ret. by rewrite WeakPtr_eta, incr_small by lia.
  - assert (Hfree : objects st !! next_ st = None).
    { apply (inv_next _ _ _ _ _ HI). lia. }
    unfold step, bind, alloc, put_object. simpl. rewrite Hfree.
    eexists. split; [reflexivity|].
    unfold SharedFromThis.
    erewrite bind_eq; [|apply get_weak_this_eq; simpl; apply lookup_insert_eq].
    by apply SharedPtr_from_weak_expired.
Qed.

(** ** MakeShared *)

(** [MakeShared], computed. *)
Lemma MakeShared_eq esft st :
  next_ st ≠ nullptr →
  objects st !! N.succ (next_ st) = None →
  let b := next_ st in
  let p := N.succ (next_ st) in
  ∃ st1, MakeShared esft st = Ok (mkShared b p) st1 ∧
         blocks st1 =
           <[b := mkBlock (ControlBlockOwning p) 1 (if esft then 2 else 1)]> (blocks st) ∧
         objects st1 =
           <[p := mkPayload (if esft then Some (mkWeak b p) else None)]> (objects st) ∧
         shared st1 = shared st ∧ weak st1 = weak st ∧
         log st1 = NewBlock b :: log st.
Proof.
  intros Hn Hfree b p. rewrite (MakeShared_start _ _ Hfree). fold b p.
  set (stA := after_new_Owning esft st).
  assert (HbA : blocks stA !! b = Some (mkBlock (ControlBlockOwning p) 1 1)).
  { subst stA. unfold after_new_Owning. simpl. apply lookup_insert_eq. }
  destruct esft; simpl when.
  - unfold install_weak_this.
    set (tmp := mkWeak b p).
    erewrite bind_eq.
    2:{ erewrite bind_eq; [|by apply (WeakPtr_from_shared_eq (mkShared b p) (mkBlock (ControlBlockOwning p) 1 1) stA)].
        cbn [s_block_ s_observer_ storage ref_counter_ weak_ref_counter_].
        change (incr 1) with 2.
        erewrite bind_eq;
          [|unfold take_object; subst stA; unfold after_new_Owning; simpl;
            rewrite lookup_insert_eq; reflexivity].
        cbn [fresh_payload weak_this_].
        erewrite bind_eq.
        2:{ unfold WeakPtr_assign. simpl when at 1. unfold bind at 1, ret at 1.
            cbn [w_block_ w_observer_].
            erewrite bind_eq;
              [|rewrite when_nonnull_eq by done;
                apply (IncrementWeakRefCounter_eq b (mkBlock (ControlBlockOwning p) 1 2));
                simpl; apply lookup_insert_eq].
            reflexivity. }
        cbn [storage ref_counter_ weak_ref_counter_]. change (incr 2) with 3.
        erewrite bind_eq;
          [|unfold put_object; simpl; rewrite lookup_delete_eq; reflexivity].
        unfold WeakPtr_dtor. cbn [w_block_]. rewrite when_nonnull_eq by done.
        apply (DecrementWeakRefCounter_eq b (mkBlock (ControlBlockOwning p) 1 3));
          [simpl; apply lookup_insert_eq|done]. }
    eexists. split; [reflexivity|].
    cbn [storage ref_counter_ weak_ref_counter_]. change (decr 3) with 2.
    subst stA. unfold after_new_Owning. simpl. fold b p.
    repeat split.
    + by rewrite !insert_insert_eq.
    + by rewrite insert_delete_eq, insert_insert_eq.
  - unfold bind, ret. eexists. split; [reflexivity|].
    subst stA. unfold after_new_Owning. simpl. fold b p.
    repeat split. by rewrite !insert_insert_eq.
Qed.

Lemma State_eq st st' :
  blocks st' = blocks st → objects st' = objects st → shared st' = shared st →
  weak st' = weak st → next_ st' = next_ st → log st' = log st → st' = st.
Proof. destruct st, st'. simpl. by intros -> -> -> -> -> ->. Qed.

(** The sole strong handle on a freshly made block is destroyed. *)
Lemma sole_owner_destroy st x b p blk (esft : bool) :
  Inv 4 st →
  shared st !! x = Some (mkShared b p) →
  blocks st !! b = Some blk →
  payload_of (storage blk) = p → p ≠ nullptr →
  ref_counter_ blk = 1 → weak_ref_counter_ blk = (if esft then 2 else 1) →
  objects st !! p = Some (mkPayload (if esft then Some (mkWeak b p) else None)) →
  ∃ st', step (SDestroy x) st = Ok tt st' ∧
         log st' = DeleteBlock b :: DeletePayload b :: log st ∧
         objects st' = delete p (objects st) ∧
         blocks st' !! b = None.
Proof.
  intros HI Hx Hb Hp Hp0 Hrc Hwc Ho.
  destruct (Inv_at _ _ _ _ HI Hb) as (Hb0 & Hrc' & Hwc' & _).
  assert (HS : strong_refs st b = 1%nat) by lia.
  assert (E : ∃ st', step (SDestroy x) st = Ok tt st' ∧
         log st' = DeleteBlock b :: DeletePayload b :: log st ∧
         objects st' = delete p (objects st)).
  { destruct esft.
    - destruct (self_reference_teardown 4 st x (mkShared b p) blk
                  (mkPayload (Some (mkWeak b p))) (mkWeak b p) HI Hx)
        as (st' & E & L & O); try done.
      { by rewrite Hp. } { by rewrite Hp. }
      exists st'. split; [done|]. cbn [s_block_] in L.
      rewrite decide_True in L by lia. by rewrite <- Hp.
    - unfold step. rewrite (bind_eq _ _ _ _ _ (take_shared_eq _ _ _ Hx)).
      unfold SharedPtr_dtor. cbn [s_block_]. rewrite when_nonnull_eq by done.
      destruct (last_decrement_plain (upd_shared (delete x) st) b blk p)
        as (st' & E & O & _ & _ & _ & _ & _ & L); try done.
      { lia. }
      exists st'. split; [done|]. rewrite decide_True in L by lia. done. }
  destruct E as (st' & E & L & O). exists st'. split; [done|]. split; [done|].
  split; [done|].
  assert (HI' : Inv 0 st') by (by eapply step_inv).
  destruct (blocks st' !! b) as [blk'|] eqn:Hb'; [|done].
  assert (Hlive : is_Some (blocks st' !! b)) by (by eexists).
  apply (inv_live _ _ _ _ _ HI') in Hlive as [_ Hnd]. destruct Hnd.
  rewrite L. by left.
Qed.

(** X9: [MakeShared] allocates one block that holds the payload: the
    handle it returns has use count 1 and is non-null, the strong counter is
    1 and the weak counter is 1 (2 when the type derives from
    [EnableSharedFromThis], whose [weak_this_] is a weak handle on the
    block).  Destroying that handle deletes the payload, then the block, and
    leaves the objects as they were. *)
Theorem make_shared_lifecycle ops st x esft :
  run ops init_state = Ok tt st →
  4 * Z.of_nat (length ops) + 8 < 2 ^ 64 →
  shared st !! x = None →
  let b := next_ st in
  let p := N.succ (next_ st) in
  ∃ st1 st2,
    step (SMakeShared x esft) st = Ok tt st1 ∧
    shared st1 !! x = Some (mkShared b p) ∧
    blocks st1 !! b =
      Some (mkBlock (ControlBlockOwning p) 1 (if esft then 2 else 1)) ∧
    SharedPtr_UseCount (mkShared b p) st1 = Ok 1 st1 ∧
    SharedPtr_bool (mkShared b p) = true ∧
    is_Some (objects st1 !! p) ∧
    log st1 = NewBlock b :: log st ∧
    step (SDestroy x) st1 = Ok tt st2 ∧
    log st2 = DeleteBlock b :: DeletePayload b :: NewBlock b :: log st ∧
    objects st2 = objects st ∧ blocks st2 !! b = None.
Proof.
  intros Hr Hlen Hx b p. pose proof (reachable_inv _ _ Hr Hlen) as HI.
  pose proof (inv_next_pos _ _ _ _ _ HI) as Hn.
  assert (Hfree : objects st !! p = None).
  { apply (inv_next _ _ _ _ _ HI). subst p. lia. }
  assert (Hp0 : p ≠ nullptr) by (subst p; unfold nullptr; lia).
  destruct (MakeShared_eq esft st Hn Hfree) as (stM & EM & BM & OM & SM & WM & LM).
  fold b p in EM, BM, OM, LM.
  assert (E1 : step (SMakeShared x esft) st = Ok tt (upd_shared (insert x (mkShared b p)) stM)).
  { unfold step. rewrite (bind_eq _ _ _ _ _ EM). apply put_shared_eq. by rewrite SM. }
  set (st1 := upd_shared (insert x (mkShared b p)) stM) in *.
  assert (HI1 : Inv 4 st1) by (by eapply step_inv).
  assert (Hb1 : blocks st1 !! b =
                Some (mkBlock (ControlBlockOwning p) 1 (if esft then 2 else 1))).
  { subst st1. simpl. rewrite BM. apply lookup_insert_eq. }
  assert (Ho1 : objects st1 !! p =
                Some (mkPayload (if esft then Some (mkWeak b p) else None))).
  { subst st1. simpl. rewrite OM. apply lookup_insert_eq. }
  assert (Hx1 : shared st1 !! x = Some (mkShared b p)).
  { subst st1. simpl. apply lookup_insert_eq. }
  destruct (sole_owner_destroy st1 x b p _ esft HI1 Hx1 Hb1) as (st2 & E2 & L2 & O2 & B2);
    try done.
  exists st1, st2. split; [done|]. split; [done|]. split; [done|]. split.
  { by rewrite (SharedPtr_UseCount_eq (mkShared b p) _ st1 Hn Hb1). }
  split.
  { unfold SharedPtr_bool. cbn [s_observer_]. apply negb_true_iff, N.eqb_neq. done. }
  split; [by eexists|]. split; [by subst st1|]. split; [done|].
  split; [rewrite L2; by subst st1; simpl; rewrite LM|]. split; [|done].
  rewrite O2. subst st1. simpl. rewrite OM, delete_insert_eq. by apply delete_id.
Qed.

(** ** Moves and swaps *)

(** X3: move construction and [Swap] touch no control block: the handle
    moves to the new variable, the source is left empty, every use count is
    what it was, nothing is deleted; destroying the moved-from variable
    afterwards does nothing; swapping twice gives back the state. *)
Theorem move_and_swap_keep_counts st x y h :
  shared st !! y = Some h → shared st !! x = None →
  ∃ st', step (SMove x y) st = Ok tt st' ∧
         shared st' = <[x := h]> (<[y := SharedPtr_default]> (shared st)) ∧
         blocks st' = blocks st ∧ objects st' = objects st ∧ log st' = log st ∧
         (∀ b, b ≠ nullptr → strong_refs st' b = strong_refs st b) ∧
         step (SDestroy y) st' = Ok tt (upd_shared (delete y) st') ∧
         (do _ <- step (SSwap x y); step (SSwap x y)) st' = Ok tt st'.
Proof.
  intros Hy Hx.
  assert (Hne : x ≠ y) by (intros ->; congruence).
  unfold step at 1. rewrite (bind_eq _ _ _ _ _ (take_shared_eq _ _ _ Hy)).
  erewrite bind_eq; [|apply put_shared_eq; simpl_st; apply lookup_delete_eq].
  erewrite put_shared_eq; [|simpl_st; by rewrite lookup_insert_ne, lookup_delete_ne].
  cbn [SharedPtr_move fst snd]. rewrite SharedPtr_eta.
  eexists. split; [reflexivity|]. simpl_st. rewrite insert_delete_eq.
  split; [done|]. split; [done|]. split; [done|]. split; [done|]. split; [|split].
  - intros b Hb. unfold strong_refs. simpl_st.
    rewrite (refs_on_insert s_block_ b x h)
      by (rewrite lookup_insert_ne, lookup_delete_ne by done; exact Hx).
    rewrite (refs_on_insert s_block_ b y _ _ (lookup_delete_eq _ _)).
    rewrite (refs_on_delete s_block_ b y h _ Hy). cbn [s_block_ SharedPtr_default].
    rewrite (decide_False (P := nullptr = b)) by done. lia.
  - unfold step. erewrite bind_eq;
      [|apply take_shared_eq; simpl_st; rewrite lookup_insert_ne by done; apply lookup_insert_eq].
    by rewrite SharedPtr_dtor_null.
  - assert (Hxy : (x =? y)%N = false) by (by apply N.eqb_neq).
    unfold step. rewrite Hxy.
    erewrite bind_eq.
    2:{ erewrite bind_eq; [|apply take_shared_eq; simpl_st; apply lookup_insert_eq].
        erewrite bind_eq;
          [|apply take_shared_eq; simpl_st;
            rewrite lookup_delete_ne, lookup_insert_ne by done; apply lookup_insert_eq].
        erewrite bind_eq; [|apply put_shared_eq; simpl_st;
                            rewrite lookup_delete_ne by done; apply lookup_delete_eq].
        apply put_shared_eq. simpl_st.
        rewrite lookup_insert_ne by done. apply lookup_delete_eq. }
    erewrite bind_eq;
      [|apply take_shared_eq; simpl_st; rewrite lookup_insert_ne by done; apply lookup_insert_eq].
    erewrite bind_eq; [|apply take_shared_eq; simpl_st; rewrite lookup_delete_ne by done; apply lookup_insert_eq].
    erewrite bind_eq; [|apply put_shared_eq; simpl_st;
                        rewrite lookup_delete_ne by done; apply lookup_delete_eq].
    erewrite put_shared_eq;
      [|simpl_st; rewrite lookup_insert_ne by done; apply lookup_delete_eq].
    apply (f_equal (Ok tt)). apply State_eq; try reflexivity.
    cbn [SharedPtr_Swap fst snd s_block_ s_observer_]. rewrite !SharedPtr_eta.
    simpl_st. apply map_eq. intros z.
    destruct (decide (z = x)) as [Hzx|Hzx]; destruct (decide (z = y)) as [Hzy|Hzy];
      [congruence|subst z|subst z|];
      repeat first [rewrite lookup_insert_eq | rewrite lookup_insert_ne by done
                   | rewrite lookup_delete_eq | rewrite lookup_delete_ne by done];
      reflexivity.
Qed.

Lemma move_and_swap_keep_counts_witness :
  ∃ st', step (SMove 2 1) (final prog_one) = Ok tt st' ∧
         shared st' = <[2%N := mkShared 2 1]>
                        (<[1%N := SharedPtr_default]> (shared (final prog_one))) ∧
         blocks st' = blocks (final prog_one) ∧ objects st' = objects (final prog_one) ∧
         log st' = log (final prog_one) ∧
         (∀ b, b ≠ nullptr → strong_refs st' b = strong_refs (final prog_one) b) ∧
         step (SDestroy 1) st' = Ok tt (upd_shared (delete 1%N) st') ∧
         (do _ <- step (SSwap 2 1); step (SSwap 2 1)) st' = Ok tt st'.
Proof.
  apply (move_and_swap_keep_counts (final prog_one) 2%N 1%N (mkShared 2 1)).
  - vm_compute. reflexivity.
  - vm_compute. reflexivity.
Defined.

(** ** Instances *)

Lemma handles_reference_live_blocks_witness :
  let st := final prog_shared in
  (∀ x h, shared st !! x = Some h → s_block_ h ≠ nullptr →
     is_Some (blocks st !! s_block_ h) ∧
     SharedPtr_UseCount h st = Ok (Z.of_nat (strong_refs st (s_block_ h))) st ∧
     (1 ≤ strong_refs st (s_block_ h))%nat ∧
     ¬ In (DeletePayload (s_block_ h)) (log st)) ∧
  (∀ w h, weak st !! w = Some h → w_block_ h ≠ nullptr →
     is_Some (blocks st !! w_block_ h) ∧
     WeakPtr_UseCount h st = Ok (Z.of_nat (strong_refs st (w_block_ h))) st ∧
     ¬ In (DeleteBlock (w_block_ h)) (log st)) ∧
  (∀ h, s_block_ h = nullptr → SharedPtr_UseCount h st = Ok 0 st) ∧
  (∀ h, w_block_ h = nullptr → WeakPtr_UseCount h st = Ok 0 st).
Proof.
  apply (handles_reference_live_blocks prog_shared (final prog_shared)).
  - vm_compute. reflexivity.
  - vm_compute. reflexivity.
Defined.

Lemma copy_shares_ownership_witness :
  ∃ st', step (SCopy 2 1) (final prog_one) = Ok tt st' ∧
         shared st' = <[2%N := mkShared 2 1]> (shared (final prog_one)) ∧
         log st' = log (final prog_one) ∧ objects st' = objects (final prog_one) ∧
         weak st' = weak (final prog_one) ∧
         (∀ c, SharedPtr_UseCount (mkShared 2 1) (final prog_one) = Ok c (final prog_one) →
               SharedPtr_UseCount (mkShared 2 1) st' =
                 Ok (if (s_block_ (mkShared 2 1) =? nullptr)%N then 0 else c + 1) st') ∧
         step (SDestroy 2) st' = Ok tt (final prog_one).
Proof.
  apply (copy_shares_ownership prog_one (final prog_one) 2%N 1%N (mkShared 2 1)).
  - vm_compute. reflexivity.
  - vm_compute. reflexivity.
  - vm_compute. reflexivity.
  - vm_compute. reflexivity.
Defined.

Lemma assignment_spec_witness :
  let st := final prog_two_views in
  (∀ st', step (SAssign 1 2) st ≠ Throw st') ∧
  (∀ st', step (SAssign 1 2) st = Ok tt st' →
     shared st' = <[1%N := mkShared 2 7]> (shared st) ∧ weak st' = weak st) ∧
  (s_block_ (mkShared 2 1) = s_block_ (mkShared 2 7) →
     step (SAssign 1 2) st = Ok tt (upd_shared (insert 1%N (mkShared 2 7)) st)) ∧
  step (SAssign 1 1) st = Ok tt st ∧
  step (SMoveAssign 1 1) st = Ok tt st.
Proof.
  apply (assignment_spec prog_two_views (final prog_two_views) 1%N 2%N
           (mkShared 2 1) (mkShared 2 7)).
  - vm_compute. reflexivity.
  - vm_compute. reflexivity.
  - vm_compute. reflexivity.
  - vm_compute. reflexivity.
Defined.

Lemma weak_operations_spare_payloads_witness :
  let st := final prog_shared in
  (∀ st', step (WDestroy 1) st ≠ Throw st') ∧
  (∀ st', step (WDestroy 1) st = Ok tt st' →
     shared st' = shared st ∧ objects st' = objects st ∧
     (∀ b, In (DeletePayload b) (log st') → In (DeletePayload b) (log st)) ∧
     (∀ x h c, shared st !! x = Some h →
               SharedPtr_UseCount h st = Ok c st →
               SharedPtr_UseCount h st' = Ok c st')) ∧
  (∀ w h, weak st !! w = Some h → ∃ st', step (WDestroy w) st = Ok tt st').
Proof.
  apply (weak_operations_spare_payloads prog_shared (final prog_shared) (WDestroy 1)).
  - vm_compute. reflexivity.
  - vm_compute. reflexivity.
  - reflexivity.
Defined.

Lemma reset_to_own_pointer_dangles_witness :
  let st := final prog_one in
  ∃ st', step (SResetPtr 1 1 false) st = Ok tt st' ∧
         shared st' !! 1%N = Some (mkShared (next_ st) 1) ∧
         SharedPtr_UseCount (mkShared (next_ st) 1) st' = Ok 1 st' ∧
         objects st' !! 1%N = None ∧
         step (SDestroy 1) st' = Undefined.
Proof.
  apply (reset_to_own_pointer_dangles prog_one (final prog_one) 1%N 2%N 1%N
           (mkBlock (ControlBlockWithPtr 1) 1 1)).
  - vm_compute. reflexivity.
  - vm_compute. reflexivity.
  - vm_compute. reflexivity.
  - vm_compute. reflexivity.
  - reflexivity.
  - vm_compute. reflexivity.
  - vm_compute. discriminate.
  - vm_compute. reflexivity.
Defined.

Lemma shared_from_this_spec_witness :
  let st := final prog_payload in
  let w := WeakPtr_default in
  (w_block_ w = nullptr →
     SharedFromThis 1 st = Throw st ∧ WeakFromThis 1 st = Ok w st) ∧
  (w_block_ w ≠ nullptr →
     ∃ blk, blocks st !! w_block_ w = Some blk ∧
       SharedFromThis 1 st =
         (if ref_counter_ blk =? 0 then Throw st
          else Ok (mkShared (w_block_ w) (w_observer_ w))
                  (upd_blocks (insert (w_block_ w)
                                 (mkBlock (storage blk) (ref_counter_ blk + 1)
                                    (weak_ref_counter_ blk + 1))) st)) ∧
       WeakFromThis 1 st =
         Ok w (upd_blocks (insert (w_block_ w)
                             (mkBlock (storage blk) (ref_counter_ blk)
                                (weak_ref_counter_ blk + 1))) st)) ∧
  (∃ st1, step (NewPayload true) st = Ok tt st1 ∧
          SharedFromThis (next_ st) st1 = Throw st1).
Proof.
  apply (shared_from_this_spec prog_payload (final prog_payload) 1%N WeakPtr_default).
  - vm_compute. reflexivity.
  - vm_compute. reflexivity.
  - vm_compute. reflexivity.
Defined.

Lemma make_shared_lifecycle_witness :
  let st := final prog_one in
  let b := next_ st in
  let p := N.succ (next_ st) in
  ∃ st1 st2,
    step (SMakeShared 5 true) st = Ok tt st1 ∧
    shared st1 !! 5%N = Some (mkShared b p) ∧
    blocks st1 !! b = Some (mkBlock (ControlBlockOwning p) 1 2) ∧
    SharedPtr_UseCount (mkShared b p) st1 = Ok 1 st1 ∧
    SharedPtr_bool (mkShared b p) = true ∧
    is_Some (objects st1 !! p) ∧
    log st1 = NewBlock b :: log st ∧
    step (SDestroy 5) st1 = Ok tt st2 ∧
    log st2 = DeleteBlock b :: DeletePayload b :: NewBlock b :: log st ∧
    objects st2 = objects st ∧ blocks st2 !! b = None.
Proof.
  apply (make_shared_lifecycle prog_one (final prog_one) 5%N true).
  - vm_compute. reflexivity.
  - vm_compute. reflexivity.
  - vm_compute. reflexivity.
Defined.

(** * Intrusive reference counting: proofs *)

Module IntrusiveFacts.
Import Intrusive.

#[local, warnings="-notation-overridden"] Notation "'do' x <- m ; k" := (bind m (λ x, k))
  (at level 10, x name, m at level 100, k at level 200, only parsing).

Ltac isimpl :=
  cbn [heap vars next_ log upd_heap upd_vars upd_next emit] in *.

Lemma ibind_Ok {A B} (m : M A) (k : A → M B) st b st' :
  bind m k st = Ok b st' → ∃ a st1, m st = Ok a st1 ∧ k a st1 = Ok b st'.
Proof.
  unfold bind. destruct (m st) as [a st1|]; [|done]. intros H. by exists a, st1.
Qed.

Lemma ibind_eq {A B} (m : M A) (k : A → M B) st a st1 :
  m st = Ok a st1 → bind m k st = k a st1.
Proof. intros H. unfold bind. by rewrite H. Qed.

Lemma iwhen_nonnull_Ok p (m : M unit) st u st' :
  when (negb (p =? nullptr)%N) m st = Ok u st' →
  (p ≠ nullptr ∧ m st = Ok u st') ∨ (p = nullptr ∧ st' = st).
Proof.
  destruct (N.eqb_spec p nullptr) as [Hp|Hp]; simpl.
  - intros [= _ <-]. by right.
  - intros H. by left.
Qed.

Lemma iwhen_nonnull_eq p (m : M unit) st :
  p ≠ nullptr → when (negb (p =? nullptr)%N) m st = m st.
Proof. intros Hp. apply N.eqb_neq in Hp. by rewrite Hp. Qed.

Lemma get_object_Ok p st o st' :
  get_object p st = Ok o st' → st' = st ∧ heap st !! p = Some o.
Proof. unfold get_object. destruct (heap st !! p); [|done]. by intros [= <- <-]. Qed.

Lemma get_object_eq p o st :
  heap st !! p = Some o → get_object p st = Ok o st.
Proof. intros H. unfold get_object. by rewrite H. Qed.

Lemma get_var_Ok x st h st' :
  get_var x st = Ok h st' → st' = st ∧ vars st !! x = Some h.
Proof. unfold get_var. destruct (vars st !! x); [|done]. by intros [= <- <-]. Qed.

Lemma take_var_Ok x st h st' :
  take_var x st = Ok h st' → vars st !! x = Some h ∧ st' = upd_vars (delete x) st.
Proof. unfold take_var. destruct (vars st !! x); [|done]. by intros [= <- <-]. Qed.

Lemma put_var_Ok x h st u st' :
  put_var x h st = Ok u st' → vars st !! x = None ∧ st' = upd_vars (insert x h) st.
Proof. unfold put_var. destruct (vars st !! x); [done|]. by intros [= _ <-]. Qed.

Lemma get_var_eq x h st : vars st !! x = Some h → get_var x st = Ok h st.
Proof. intros H. unfold get_var. by rewrite H. Qed.
Lemma take_var_eq x h st :
  vars st !! x = Some h → take_var x st = Ok h (upd_vars (delete x) st).
Proof. intros H. unfold take_var. by rewrite H. Qed.
Lemma put_var_eq x h st :
  vars st !! x = None → put_var x h st = Ok tt (upd_vars (insert x h) st).
Proof. intros H. unfold put_var. by rewrite H. Qed.

(** ** The counter operations, computed *)

Lemma IncRef_eq p o st :
  heap st !! p = Some o →
  RefCounted_IncRef p st =
  Ok tt (upd_heap (insert p (mkRefCounted (mkCounter (incr (count_ (counter_ o)))))) st).
Proof. intros H. unfold RefCounted_IncRef, bind, get_object. by rewrite H. Qed.

(** A decrement that leaves the object referenced. *)
Lemma DecRef_eq p o st :
  heap st !! p = Some o → decr (count_ (counter_ o)) ≠ 0 →
  RefCounted_DecRef p st =
  Ok tt (upd_heap (insert p (mkRefCounted (mkCounter (decr (count_ (counter_ o)))))) st).
Proof.
  intros H Hz. unfold RefCounted_DecRef, bind, get_object. rewrite H. simpl.
  apply Z.eqb_neq in Hz. by rewrite Hz.
Qed.

(** The decrement that takes the counter to zero destroys the object. *)
Lemma DecRef_last p o st :
  heap st !! p = Some o → decr (count_ (counter_ o)) = 0 → p ≠ nullptr →
  RefCounted_DecRef p st = Ok tt (emit p (upd_heap (delete p) st)).
Proof.
  intros H Hz Hp. unfold RefCounted_DecRef, bind, get_object. rewrite H. simpl.
  rewrite Hz. simpl. unfold DefaultDelete_Destroy.
  apply N.eqb_neq in Hp. rewrite Hp. unfold bind, get_object. simpl.
  rewrite lookup_insert_eq. unfold modify, emit, upd_heap. simpl.
  by rewrite delete_insert_eq.
Qed.

Lemma RefCount_eq p o st :
  heap st !! p = Some o → RefCounted_RefCount p st = Ok (count_ (counter_ o)) st.
Proof. intros H. unfold RefCounted_RefCount, bind, get_object. by rewrite H. Qed.

(** ** The invariant is preserved *)

Ltac inv_names H :=
  pose proof H as [Hn0 Hnx Hnull Hc Hb Hl Hd Rn Rf Rl Rz Rd].

Lemma RC_weaken st0 k k' es st :
  InvG st0 k es st → (k' ≤ k)%nat → InvG st0 k' es st.
Proof.
  intros H Hk. inv_names H. split; try done.
  intros p Hp. specialize (Hb p Hp). lia.
Qed.

Lemma RC_ext st0 k es es' st :
  InvG st0 k es st → (∀ p, p ≠ nullptr → occ p es' = occ p es) → InvG st0 k es' st.
Proof.
  intros H Hocc. inv_names H. split; try done.
  - intros p Hp. rewrite (Hocc p Hp). by apply Hc.
  - intros p Hp. rewrite (Hocc p Hp). by apply Hb.
  - intros p Hlive. destruct (decide (p = nullptr)) as [->|Hp].
    { rewrite Hnull in Hlive. by destruct Hlive. }
    rewrite (Hocc p Hp). by apply Rz.
Qed.

Lemma RC_live_lt st0 k es st p o :
  InvG st0 k es st → heap st !! p = Some o → (p < next_ st)%N ∧ p ≠ nullptr.
Proof.
  intros H Hp. split.
  - destruct (N.lt_ge_cases p (next_ st)) as [|Hge]; [done|].
    rewrite (inv_next _ _ _ _ H p Hge) in Hp. done.
  - intros ->. rewrite (inv_null _ _ _ _ H) in Hp. done.
Qed.

Lemma RC_rebase st0 k st : InvG st0 k [] st → Inv k st.
Proof.
  intros H. inv_names H. split; try done.
  - intros a Ha. pose proof (Hc a) as Hc'.
    rewrite (Hnx a Ha) in Hc'. simpl in Hc'.
    destruct (decide (a = nullptr)) as [->|Hn]; [|specialize (Hc' Hn); lia].
    unfold nullptr in *. lia.
  - by exists [].
  - intros p _ Hz. simpl in Hz. lia.
  - intros p Hp. by left.
Qed.

Lemma take_var_inv st0 k es st x h st' :
  InvG st0 k es st → take_var x st = Ok h st' →
  InvG st0 k (observer_ h :: es) st'.
Proof.
  intros H [Hx ->]%take_var_Ok. inv_names H.
  assert (E : ∀ p, (handles (upd_vars (delete x) st) p + occ p (observer_ h :: es) =
                    handles st p + occ p es)%nat).
  { intros p. unfold handles. isimpl.
    rewrite (refs_on_delete observer_ p x h _ Hx), occ_cons. lia. }
  split; isimpl; try done.
  - intros p Hp. rewrite E. by apply Hc.
  - intros p Hp. rewrite E. by apply Hb.
  - intros p Hlive. rewrite E. by apply Rz.
Qed.

Lemma put_var_inv st0 k es st x h u st' :
  InvG st0 k (observer_ h :: es) st → put_var x h st = Ok u st' →
  InvG st0 k es st'.
Proof.
  intros H [Hx ->]%put_var_Ok. inv_names H.
  assert (E : ∀ p, (handles (upd_vars (insert x h) st) p + occ p es =
                    handles st p + occ p (observer_ h :: es))%nat).
  { intros p. unfold handles. isimpl.
    rewrite (refs_on_insert observer_ p x h _ Hx), occ_cons. lia. }
  split; isimpl; try done.
  - intros p Hp. rewrite E. by apply Hc.
  - intros p Hp. rewrite E. by apply Hb.
  - intros p Hlive. rewrite E. by apply Rz.
Qed.

Lemma RC_null st0 k es st :
  InvG st0 k (nullptr :: es) st ↔ InvG st0 k es st.
Proof.
  split; intros H; eapply RC_ext; try exact H; intros p Hp;
    rewrite occ_cons; by rewrite decide_False.
Qed.

(** The invariant after a change of the counter of the live object [p],
    from the count of [es] to that of [es']. *)
Lemma RC_update st0 k k' es es' st p o c :
  InvG st0 k es st → heap st !! p = Some o → p ≠ nullptr →
  (∀ q, q ≠ p → occ q es' = occ q es) →
  c = Z.of_nat (handles st p + occ p es') →
  (0 < handles st p + occ p es')%nat →
  c + Z.of_nat k' < 2 ^ 64 → (k' ≤ k)%nat →
  InvG st0 k' es' (upd_heap (insert p (mkRefCounted (mkCounter c))) st).
Proof.
  intros H Ho Hp Hocc Hcp Hpos Hbd Hk. inv_names H.
  split; isimpl.
  - done.
  - intros a Ha. rewrite lookup_insert_ne; [by apply Hnx|].
    intros <-. rewrite (Hnx p Ha) in Ho. done.
  - by rewrite lookup_insert_ne.
  - intros q Hq. unfold handles in *. isimpl.
    destruct (decide (p = q)) as [<-|Hne].
    + by rewrite lookup_insert_eq.
    + rewrite lookup_insert_ne, Hocc by done. by apply Hc.
  - intros q Hq. unfold handles in *. isimpl.
    destruct (decide (p = q)) as [<-|Hne]; [lia|].
    rewrite Hocc by done. specialize (Hb q Hq). lia.
  - done.
  - intros q. rewrite Hd. destruct (decide (q = p)) as [->|Hne].
    + rewrite lookup_insert_eq, Ho. split; intros (? & ? & ?); done.
    + by rewrite lookup_insert_ne.
  - done.
  - done.
  - done.
  - intros q Hlive Hz. unfold handles in *. isimpl.
    destruct (decide (p = q)) as [<-|Hne]; [lia|].
    rewrite lookup_insert_ne in Hlive by done. apply (Rz q Hlive).
    rewrite <- Hocc by done. done.
  - done.
Qed.

Lemma IncRef_inv st0 k es st p u st' :
  InvG st0 (S k) es st → p ≠ nullptr →
  RefCounted_IncRef p st = Ok u st' →
  InvG st0 k (p :: es) st'.
Proof.
  intros H Hp Hs.
  apply ibind_Ok in Hs as (o & st1 & [-> Ho]%get_object_Ok & [= _ <-]).
  pose proof (inv_counts _ _ _ _ H p Hp) as Hc. rewrite Ho in Hc.
  pose proof (inv_bound _ _ _ _ H p Hp) as Hb.
  simpl. rewrite incr_small by lia.
  eapply RC_update; try exact H; try done.
  - intros q Hq. rewrite occ_cons. by rewrite decide_False.
  - rewrite Hc, occ_cons, decide_True by done. lia.
  - rewrite occ_cons, decide_True by done. lia.
  - rewrite Hc. lia.
  - lia.
Qed.

Lemma DecRef_inv st0 k es st p u st' :
  InvG st0 k (p :: es) st → p ≠ nullptr →
  p ∈ log st0 ∨ (0 < handles st0 p)%nat →
  RefCounted_DecRef p st = Ok u st' →
  InvG st0 k es st'.
Proof.
  intros H Hp HD Hs. inv_names H.
  destruct (heap st !! p) as [o|] eqn:Ho;
    [|by unfold RefCounted_DecRef, bind, get_object in Hs; rewrite Ho in Hs].
  destruct (RC_live_lt _ _ _ _ _ _ H Ho) as [Hlt _].
  pose proof (Hc p Hp) as Hcp. rewrite Ho in Hcp.
  pose proof (Hb p Hp) as Hbp.
  rewrite occ_cons, decide_True in Hcp, Hbp by done.
  assert (Hdec : decr (count_ (counter_ o)) = count_ (counter_ o) - 1)
    by (apply decr_small; lia).
  destruct (decide (decr (count_ (counter_ o)) = 0)) as [Hz|Hz].
  - rewrite (DecRef_last _ _ _ Ho Hz Hp) in Hs. injection Hs as _ <-.
    assert (Hnl : p ∉ log st).
    { rewrite Hd, Ho. by intros (_ & _ & ?). }
    split; isimpl.
    + done.
    + intros a Ha. rewrite lookup_delete_ne; [by apply Hnx|]. lia.
    + by rewrite lookup_delete_ne.
    + intros q Hq. unfold handles in *. isimpl.
      destruct (decide (p = q)) as [<-|Hne].
      * rewrite lookup_delete_eq. lia.
      * rewrite lookup_delete_ne by done. specialize (Hc q Hq).
        rewrite occ_cons, decide_False in Hc by done. done.
    + intros q Hq. specialize (Hb q Hq). rewrite occ_cons in Hb.
      unfold handles in *. isimpl. lia.
    + by constructor.
    + intros q. rewrite elem_of_cons, Hd. destruct (decide (q = p)) as [->|Hne].
      * rewrite lookup_delete_eq. split; [done|]. by left.
      * rewrite lookup_delete_ne by done. split; [intros [?|?]; [congruence|done]|].
        by right.
    + done.
    + done.
    + destruct Rl as [new ->]. by exists (p :: new).
    + intros q Hlive Hz'. unfold handles in *. isimpl.
      destruct (decide (p = q)) as [<-|Hne].
      * rewrite lookup_delete_eq in Hlive. by destruct Hlive.
      * rewrite lookup_delete_ne in Hlive by done. apply (Rz q Hlive).
        rewrite occ_cons, decide_False by done. unfold handles. lia.
    + intros q [->|Hq]%elem_of_cons; [done|by apply Rd].
  - rewrite (DecRef_eq _ _ _ Ho Hz) in Hs. injection Hs as _ <-.
    rewrite Hdec.
    eapply RC_update; try exact H; try done.
    + intros q Hq. rewrite occ_cons. by rewrite decide_False.
    + rewrite Hcp. lia.
    + lia.
    + lia.
Qed.

Lemma new_object_inv st0 k es st o p st' :
  InvG st0 k es st → count_ (counter_ o) = 0 →
  new_object o st = Ok p st' →
  p = next_ st ∧ p ≠ nullptr ∧ InvG st0 k es st' ∧ vars st' = vars st.
Proof.
  intros H Ho Hs. inv_names H.
  unfold new_object in Hs. destruct (heap st !! next_ st) eqn:Hn; [done|].
  injection Hs as <- <-. split; [done|]. split; [done|]. split; [|done].
  pose proof (Hc (next_ st) Hn0) as Hcn. rewrite Hn in Hcn.
  split; isimpl.
  - unfold nullptr in *. lia.
  - intros a Ha. rewrite lookup_insert_ne by lia. apply Hnx. lia.
  - by rewrite lookup_insert_ne.
  - intros q Hq. unfold handles in *. isimpl.
    destruct (decide (next_ st = q)) as [<-|Hne].
    + rewrite lookup_insert_eq, Ho. lia.
    + rewrite lookup_insert_ne by done. by apply Hc.
  - done.
  - done.
  - intros q. rewrite Hd. destruct (decide (q = next_ st)) as [->|Hne].
    + rewrite lookup_insert_eq, Hn. split; [lia|by intros (_ & _ & ?)].
    + rewrite lookup_insert_ne by done.
      split; intros (? & ? & Hq); repeat split; try done; try lia.
  - lia.
  - done.
  - done.
  - intros q Hlive Hz. unfold handles in *. isimpl.
    destruct (decide (next_ st = q)) as [<-|Hne].
    + by apply Rf.
    + rewrite lookup_insert_ne in Hlive by done. by apply Rz.
  - done.
Qed.

Lemma IncRef_vars p st u st' :
  RefCounted_IncRef p st = Ok u st' → vars st' = vars st.
Proof. by intros (o & st2 & [-> _]%get_object_Ok & [= _ <-])%ibind_Ok. Qed.

Lemma DecRef_vars p st u st' :
  RefCounted_DecRef p st = Ok u st' → vars st' = vars st.
Proof.
  intros (o & st1 & [-> _]%get_object_Ok & Hs)%ibind_Ok. simpl in Hs.
  apply ibind_Ok in Hs as (u1 & st2 & [= _ <-] & Hs).
  destruct (decr (count_ (counter_ o)) =? 0); simpl in Hs.
  - unfold DefaultDelete_Destroy in Hs.
    destruct (p =? nullptr)%N; [by injection Hs as _ <-|].
    by apply ibind_Ok in Hs as (o' & st3 & [-> _]%get_object_Ok & [= _ <-]).
  - by injection Hs as _ <-.
Qed.

Lemma from_raw_inv st0 k es st ptr h st' :
  InvG st0 (S k) es st → IntrusivePtr_from_raw ptr st = Ok h st' →
  h = mkIntrusive ptr ∧ InvG st0 k (ptr :: es) st' ∧ vars st' = vars st.
Proof.
  intros H (u & st1 & H1 & [= <- <-])%ibind_Ok. split; [done|].
  cbn [observer_] in H1.
  apply iwhen_nonnull_Ok in H1 as [[Hp H1]|[-> ->]].
  - split; [by eapply IncRef_inv|by eapply IncRef_vars].
  - split; [|done]. apply RC_null. eapply RC_weaken; [exact H|lia].
Qed.

Lemma copy_inv st0 k es st other h st' :
  InvG st0 (S k) es st → IntrusivePtr_copy other st = Ok h st' →
  h = other ∧ InvG st0 k (observer_ other :: es) st' ∧ vars st' = vars st.
Proof.
  intros H Hs.
  destruct (from_raw_inv st0 k es st (observer_ other) h st' H Hs) as (-> & ? & ?).
  by destruct other.
Qed.

Lemma dtor_inv st0 k es st h u st' :
  InvG st0 k (observer_ h :: es) st →
  (observer_ h ≠ nullptr → (0 < handles st0 (observer_ h))%nat) →
  IntrusivePtr_dtor h st = Ok u st' →
  InvG st0 k es st' ∧ vars st' = vars st.
Proof.
  intros H HD Hs. unfold IntrusivePtr_dtor in Hs.
  apply iwhen_nonnull_Ok in Hs as [[Hp Hs]|[Hp ->]].
  - split; [eapply DecRef_inv; eauto|by eapply DecRef_vars].
  - split; [|done]. rewrite Hp in H. by apply RC_null.
Qed.

Lemma Reset_inv st0 k es st this h st' :
  InvG st0 k (observer_ this :: es) st →
  (observer_ this ≠ nullptr → (0 < handles st0 (observer_ this))%nat) →
  IntrusivePtr_Reset this st = Ok h st' →
  h = mkIntrusive nullptr ∧ InvG st0 k (observer_ h :: es) st' ∧ vars st' = vars st.
Proof.
  intros H HD (u & st1 & H1 & [= <- <-])%ibind_Ok. split; [done|].
  destruct (dtor_inv _ _ _ _ _ _ _ H HD H1) as [H' Hv].
  split; [|done]. by apply RC_null.
Qed.

Lemma Reset_ptr_inv st0 k es st this ptr h st' :
  InvG st0 (S k) (observer_ this :: es) st →
  (observer_ this ≠ nullptr → (0 < handles st0 (observer_ this))%nat) →
  IntrusivePtr_Reset_ptr this ptr st = Ok h st' →
  h = mkIntrusive ptr ∧ InvG st0 k (observer_ h :: es) st' ∧ vars st' = vars st.
Proof.
  intros H HD (u & st1 & H1 & H2)%ibind_Ok.
  destruct (dtor_inv _ _ _ _ _ _ _ H HD H1) as [H' Hv].
  change (IntrusivePtr_from_raw ptr st1 = Ok h st') in H2.
  destruct (from_raw_inv _ _ _ _ _ _ _ H' H2) as (-> & H'' & Hv').
  split; [done|]. split; [done|]. congruence.
Qed.

Lemma MakeIntrusive_inv st0 k es st h st' :
  InvG st0 (S k) es st → MakeIntrusive st = Ok h st' →
  h = mkIntrusive (next_ st) ∧ InvG st0 k (observer_ h :: es) st' ∧
  vars st' = vars st.
Proof.
  intros H (p & st1 & H1 & H2)%ibind_Ok.
  destruct (new_object_inv _ _ _ _ RefCounted_ctor _ _ H eq_refl H1) as (-> & Hp & H' & Hv).
  destruct (from_raw_inv _ _ _ _ _ _ _ H' H2) as (-> & H'' & Hv').
  split; [done|]. split; [done|]. congruence.
Qed.

Lemma RC_start k st : Inv k st → InvG st k [] st.
Proof. done. Qed.

Lemma handles_pos st x h :
  vars st !! x = Some h → (0 < handles st (observer_ h))%nat.
Proof. intros Hx. by apply (refs_on_pos observer_ _ x h). Qed.

Ltac by_put_var H1 H2 := refine (put_var_inv _ _ _ _ _ _ _ _ _ H2); exact H1.

(** Every operation preserves the invariant. *)
Lemma RC_step_invG k st op u st' :
  Inv (S k) st → step op st = Ok u st' → InvG st k [] st'.
Proof.
  unfold Inv. intros H Hs. destruct op; simpl in Hs.
  - (* NewObject *)
    apply ibind_Ok in Hs as (p & st1 & H1 & [= _ <-]).
    destruct (new_object_inv _ _ _ _ RefCounted_ctor _ _ H eq_refl H1) as (_ & _ & H' & _).
    eapply RC_weaken; [exact H'|lia].
  - (* CopyObject *)
    apply ibind_Ok in Hs as (o & st1 & [-> _]%get_object_Ok & Hs).
    apply ibind_Ok in Hs as (p & st2 & H1 & [= _ <-]).
    destruct (new_object_inv _ _ _ _ (RefCounted_copy o) _ _ H eq_refl H1) as (_ & _ & H' & _).
    eapply RC_weaken; [exact H'|lia].
  - (* AssignObject *)
    apply ibind_Ok in Hs as (this & st1 & [-> Hp]%get_object_Ok & Hs).
    apply ibind_Ok in Hs as (other & st2 & [-> _]%get_object_Ok & [= _ <-]).
    unfold RefCounted_assign.
    replace (upd_heap (insert p this) st) with st.
    { eapply RC_weaken; [exact H|lia]. }
    destruct st as [hp vs nx lg]. unfold upd_heap. simpl in *.
    by rewrite insert_id.
  - (* IDefault *)
    eapply RC_weaken; [|apply Nat.le_succ_diag_r].
    refine (put_var_inv _ _ _ _ _ _ _ _ _ Hs). by apply RC_null.
  - (* IFromRaw *)
    apply ibind_Ok in Hs as (h & st1 & H1 & H2).
    destruct (from_raw_inv _ _ _ _ _ _ _ H H1) as (-> & H' & _).
    by_put_var H' H2.
  - (* IMake *)
    apply ibind_Ok in Hs as (h & st1 & H1 & H2).
    destruct (MakeIntrusive_inv _ _ _ _ _ _ H H1) as (-> & H' & _).
    by_put_var H' H2.
  - (* ICopy *)
    apply ibind_Ok in Hs as (other & st1 & [-> _]%get_var_Ok & Hs).
    apply ibind_Ok in Hs as (h & st2 & H1 & H2).
    destruct (copy_inv _ _ _ _ _ _ _ H H1) as (-> & H' & _).
    by_put_var H' H2.
  - (* IMove *)
    apply ibind_Ok in Hs as (other & st1 & H1 & Hs).
    pose proof (take_var_inv _ _ _ _ _ _ _ H H1) as H'.
    apply ibind_Ok in Hs as (u1 & st2 & H2 & H3).
    eapply RC_weaken; [|apply Nat.le_succ_diag_r].
    refine (put_var_inv _ _ _ _ _ _ _ _ _ H3).
    refine (put_var_inv _ _ _ _ _ _ _ _ _ H2).
    eapply RC_ext; [exact H'|]. intros p Hp. cbn [IntrusivePtr_move fst snd observer_].
    rewrite !occ_cons. rewrite (decide_False (P := nullptr = p)) by done. lia.
  - (* IAssign *)
    apply ibind_Ok in Hs as (hy & st1 & [-> Hy]%get_var_Ok & Hs).
    apply ibind_Ok in Hs as (other & st2 & H1 & Hs).
    destruct (copy_inv _ _ _ _ _ _ _ H H1) as (-> & H' & Hv).
    apply ibind_Ok in Hs as (this & st3 & H2 & Hs).
    pose proof (take_var_inv _ _ _ _ _ _ _ H' H2) as H''.
    apply take_var_Ok in H2 as [Hx _]. rewrite Hv in Hx.
    apply ibind_Ok in Hs as (u1 & st4 & H3 & H4).
    cbn [IntrusivePtr_assign IntrusivePtr_Swap fst snd] in *.
    refine (proj1 (dtor_inv _ _ _ _ _ _ _ _ (λ _, handles_pos st x this Hx) H4)).
    refine (put_var_inv _ _ _ _ _ _ _ _ _ H3).
    eapply RC_ext; [exact H''|]. intros p Hp. cbn [observer_].
    rewrite !occ_cons. lia.
  - (* IMoveAssign *)
    apply ibind_Ok in Hs as (hy & st1 & H1 & Hs).
    pose proof (take_var_inv _ _ _ _ _ _ _ H H1) as H'.
    pose proof H1 as [Hy ->]%take_var_Ok.
    apply ibind_Ok in Hs as (u1 & st2 & H2 & Hs).
    pose proof H2 as [_ ->]%put_var_Ok.
    apply ibind_Ok in Hs as (this & st3 & H3 & Hs).
    assert (H2' : InvG st (S k) [observer_ hy] (upd_vars (insert y (mkIntrusive nullptr))
                                               (upd_vars (delete y) st))).
    { eapply put_var_inv; [|exact H2]. cbn [IntrusivePtr_move snd observer_].
      by apply RC_null. }
    pose proof (take_var_inv _ _ _ _ _ _ _ H2' H3) as H''.
    apply take_var_Ok in H3 as [Hx _]. isimpl.
    apply ibind_Ok in Hs as (u2 & st4 & H4 & H5).
    cbn [IntrusivePtr_assign IntrusivePtr_Swap IntrusivePtr_move fst snd observer_] in *.
    eapply RC_weaken; [|apply Nat.le_succ_diag_r].
    refine (proj1 (dtor_inv _ _ _ _ _ _ _ _ _ H5)).
    + refine (put_var_inv _ _ _ _ _ _ _ _ _ H4).
      eapply RC_ext; [exact H''|]. intros p Hp. cbn [observer_].
      rewrite !occ_cons. lia.
    + cbn [observer_]. intros Hn.
      destruct (decide (x = y)) as [->|Hne].
      * rewrite lookup_insert_eq in Hx. by injection Hx as <-.
      * rewrite lookup_insert_ne, lookup_delete_ne in Hx by done.
        by apply (handles_pos st x this).
  - (* IAssignRaw *)
    apply ibind_Ok in Hs as (other & st2 & H1 & Hs).
    destruct (from_raw_inv _ _ _ _ _ _ _ H H1) as (-> & H' & Hv).
    apply ibind_Ok in Hs as (this & st3 & H2 & Hs).
    pose proof (take_var_inv _ _ _ _ _ _ _ H' H2) as H''.
    apply take_var_Ok in H2 as [Hx _]. rewrite Hv in Hx.
    apply ibind_Ok in Hs as (u1 & st4 & H3 & H4).
    cbn [IntrusivePtr_assign IntrusivePtr_Swap fst snd] in *.
    refine (proj1 (dtor_inv _ _ _ _ _ _ _ _ (λ _, handles_pos st x this Hx) H4)).
    refine (put_var_inv _ _ _ _ _ _ _ _ _ H3).
    eapply RC_ext; [exact H''|]. intros q Hq. cbn [observer_].
    rewrite !occ_cons. lia.
  - (* IReset *)
    apply ibind_Ok in Hs as (this & st1 & H1 & Hs).
    pose proof (take_var_inv _ _ _ _ _ _ _ H H1) as H'.
    apply take_var_Ok in H1 as [Hx _].
    apply ibind_Ok in Hs as (this' & st2 & H2 & H3).
    destruct (Reset_inv _ _ _ _ _ _ _ H' (λ _, handles_pos st x this Hx) H2)
      as (_ & H'' & _).
    eapply RC_weaken; [|apply Nat.le_succ_diag_r]. by_put_var H'' H3.
  - (* IResetPtr *)
    apply ibind_Ok in Hs as (this & st1 & H1 & Hs).
    pose proof (take_var_inv _ _ _ _ _ _ _ H H1) as H'.
    apply take_var_Ok in H1 as [Hx _].
    apply ibind_Ok in Hs as (this' & st2 & H2 & H3).
    destruct (Reset_ptr_inv _ _ _ _ _ _ _ _ H' (λ _, handles_pos st x this Hx) H2)
      as (_ & H'' & _).
    by_put_var H'' H3.
  - (* ISwap *)
    eapply RC_weaken; [|apply Nat.le_succ_diag_r].
    destruct (x =? y)%N.
    + by apply ibind_Ok in Hs as (h & st1 & [-> _]%get_var_Ok & [= _ <-]).
    + apply ibind_Ok in Hs as (this & st1 & H1 & Hs).
      pose proof (take_var_inv _ _ _ _ _ _ _ H H1) as H'.
      apply ibind_Ok in Hs as (other & st2 & H2 & Hs).
      pose proof (take_var_inv _ _ _ _ _ _ _ H' H2) as H''.
      apply ibind_Ok in Hs as (u1 & st3 & H3 & H4).
      cbn [IntrusivePtr_Swap fst snd] in *.
      refine (put_var_inv _ _ _ _ _ _ _ _ _ H4).
      refine (put_var_inv _ _ _ _ _ _ _ _ _ H3).
      eapply RC_ext; [exact H''|]. intros p Hp. cbn [observer_].
      rewrite !occ_cons. lia.
  - (* IDestroy *)
    apply ibind_Ok in Hs as (this & st1 & H1 & Hs).
    pose proof (take_var_inv _ _ _ _ _ _ _ H H1) as H'.
    apply take_var_Ok in H1 as [Hx _].
    eapply RC_weaken; [|apply Nat.le_succ_diag_r].
    exact (proj1 (dtor_inv _ _ _ _ _ _ _ H' (λ _, handles_pos st x this Hx) Hs)).
Qed.

Lemma RC_step_inv k st op u st' :
  Inv (S k) st → step op st = Ok u st' → Inv k st'.
Proof. intros H Hs. eapply RC_rebase, RC_step_invG; eauto. Qed.

Lemma RC_Inv_init k : Z.of_nat k < 2 ^ 64 → Inv k init_state.
Proof.
  intros Hk. split; simpl; try done.
  - constructor.
  - intros p. split; [by intros ?%elem_of_nil|]. intros (Hp & Hlt & _).
    unfold nullptr in Hp. lia.
  - by exists [].
  - intros p Hp. by left.
Qed.

Lemma RC_run_inv ops : ∀ k st u st',
  Inv (length ops + k) st → run ops st = Ok u st' → Inv k st'.
Proof.
  induction ops as [|op ops IH]; intros k st u st' H Hr; simpl in Hr.
  - injection Hr as _ <-. exact H.
  - cbn [length] in H.
    destruct (step op st) as [u1 st1|] eqn:Hs; [|done].
    apply (IH k st1 u st'); [|done].
    by apply (RC_step_inv _ st op u1).
Qed.

Lemma RC_reachable ops st :
  run ops init_state = Ok tt st →
  Z.of_nat (length ops) + 2 < 2 ^ 64 →
  Inv 2 st.
Proof.
  intros Hr Hlen. apply (RC_run_inv ops 2 init_state tt st); [|done].
  apply RC_Inv_init. lia.
Qed.

(** ** Properties of the reachable states *)

Lemma RC_Inv_at k st p o :
  Inv k st → heap st !! p = Some o →
  p ≠ nullptr ∧ count_ (counter_ o) = Z.of_nat (handles st p) ∧
  Z.of_nat (handles st p) + Z.of_nat k < 2 ^ 64.
Proof.
  intros H Ho. destruct (RC_live_lt _ _ _ _ _ _ H Ho) as [_ Hp].
  pose proof (inv_counts _ _ _ _ H p Hp) as Hc. rewrite Ho in Hc.
  pose proof (inv_bound _ _ _ _ H p Hp) as Hb. simpl in *.
  split; [done|]. split; [rewrite Hc; f_equal; lia|lia].
Qed.

Lemma handle_live k st x h :
  Inv k st → vars st !! x = Some h → observer_ h ≠ nullptr →
  ∃ o, heap st !! observer_ h = Some o ∧
       count_ (counter_ o) = Z.of_nat (handles st (observer_ h)) ∧
       (1 ≤ handles st (observer_ h))%nat ∧
       Z.of_nat (handles st (observer_ h)) + Z.of_nat k < 2 ^ 64.
Proof.
  intros H Hx Hp. pose proof (handles_pos _ _ _ Hx) as Hpos.
  pose proof (inv_counts _ _ _ _ H _ Hp) as Hc.
  destruct (heap st !! observer_ h) as [o|] eqn:Ho; [|simpl in Hc; lia].
  destruct (RC_Inv_at _ _ _ _ H Ho) as (_ & ? & ?). exists o. repeat split; try done.
Qed.

Lemma UseCount_eq h o st :
  observer_ h ≠ nullptr → heap st !! observer_ h = Some o →
  IntrusivePtr_UseCount h st = Ok (count_ (counter_ o)) st.
Proof.
  intros Hp Ho. unfold IntrusivePtr_UseCount. apply N.eqb_neq in Hp. rewrite Hp.
  simpl. by apply RefCount_eq.
Qed.

(** X10: in every state a program reaches, the counter of a live object is
    the number of [IntrusivePtr] variables that point to it; a variable
    that is not null points to a live object and reports that number, which
    is at least one; no object is destroyed twice, and a destroyed object
    has no handle left. *)
Theorem intrusive_count_is_handles ops st :
  run ops init_state = Ok tt st →
  Z.of_nat (length ops) + 2 < 2 ^ 64 →
  (∀ p o, heap st !! p = Some o → count_ (counter_ o) = Z.of_nat (handles st p)) ∧
  (∀ x h, vars st !! x = Some h → observer_ h ≠ nullptr →
     is_Some (heap st !! observer_ h) ∧
     IntrusivePtr_UseCount h st = Ok (Z.of_nat (handles st (observer_ h))) st ∧
     (1 ≤ handles st (observer_ h))%nat) ∧
  (∀ h, observer_ h = nullptr → IntrusivePtr_UseCount h st = Ok 0 st) ∧
  NoDup (log st) ∧
  (∀ p, p ∈ log st → heap st !! p = None ∧ handles st p = 0%nat).
Proof.
  intros Hr Hlen. pose proof (RC_reachable _ _ Hr Hlen) as HI.
  split; [|split; [|split; [|split]]].
  - intros p o Ho. by destruct (RC_Inv_at _ _ _ _ HI Ho) as (_ & ? & _).
  - intros x h Hx Hp.
    destruct (handle_live _ _ _ _ HI Hx Hp) as (o & Ho & Hc & Hpos & _).
    split; [by eexists|]. split; [|done].
    by rewrite (UseCount_eq _ _ _ Hp Ho), Hc.
  - intros h Hp. unfold IntrusivePtr_UseCount. by rewrite Hp.
  - apply (inv_log _ _ _ _ HI).
  - intros p (Hp & _ & Hn)%(inv_dead _ _ _ _ HI). split; [done|].
    pose proof (inv_counts _ _ _ _ HI p Hp) as Hc. rewrite Hn in Hc. simpl in Hc. lia.
Qed.

Lemma intrusive_count_is_handles_witness :
  let st := final prog_two in
  (∀ p o, heap st !! p = Some o → count_ (counter_ o) = Z.of_nat (handles st p)) ∧
  (∀ x h, vars st !! x = Some h → observer_ h ≠ nullptr →
     is_Some (heap st !! observer_ h) ∧
     IntrusivePtr_UseCount h st = Ok (Z.of_nat (handles st (observer_ h))) st ∧
     (1 ≤ handles st (observer_ h))%nat) ∧
  (∀ h, observer_ h = nullptr → IntrusivePtr_UseCount h st = Ok 0 st) ∧
  NoDup (log st) ∧
  (∀ p, p ∈ log st → heap st !! p = None ∧ handles st p = 0%nat).
Proof.
  apply (intrusive_count_is_handles prog_two (final prog_two)).
  - vm_compute. reflexivity.
  - vm_compute. reflexivity.
Defined.

(** X11: an operation destroys an object exactly when it takes the number of
    [IntrusivePtr] variables that point to it from a positive value to zero;
    no object is destroyed twice. *)
Theorem intrusive_destroyed_at_last_release ops st op st' p :
  run ops init_state = Ok tt st →
  Z.of_nat (length ops) + 2 < 2 ^ 64 →
  step op st = Ok tt st' →
  p ≠ nullptr →
  ∃ new, log st' = new ++ log st ∧ NoDup (log st') ∧
         (p ∈ new ↔ (0 < handles st p)%nat ∧ handles st' p = 0%nat).
Proof.
  intros Hr Hlen Hs Hp. pose proof (RC_reachable _ _ Hr Hlen) as HI.
  pose proof (RC_step_invG 1 st op tt st' HI Hs) as HG.
  destruct (rel_log _ _ _ _ HG) as [new Hnew].
  pose proof (inv_log _ _ _ _ HG) as Hnd.
  exists new. split; [done|]. split; [done|].
  rewrite Hnew in Hnd. apply NoDup_app in Hnd as (_ & Hdisj & _).
  pose proof (inv_counts _ _ _ _ HG p Hp) as Hc'. simpl in Hc'.
  split.
  - intros Hin.
    assert (Hin' : p ∈ log st') by (rewrite Hnew; apply elem_of_app; by left).
    split.
    + destruct (rel_destroyed _ _ _ _ HG p Hin') as [Hold|?]; [|done].
      by destruct (Hdisj p Hin).
    + apply (inv_dead _ _ _ _ HG) in Hin' as (_ & _ & Hn). rewrite Hn in Hc'. lia.
  - intros [Hpos Hz].
    pose proof (inv_counts _ _ _ _ HI p Hp) as Hc. simpl in Hc.
    destruct (heap st !! p) as [o|] eqn:Ho; [|lia].
    destruct (RC_live_lt _ _ _ _ _ _ HI Ho) as [Hlt _].
    assert (Hnold : p ∉ log st).
    { intros (_ & _ & Hn)%(inv_dead _ _ _ _ HI). congruence. }
    destruct (heap st' !! p) as [o'|] eqn:Ho'.
    + assert (handles st p = 0%nat); [|lia].
      apply (rel_zero _ _ _ _ HG p); [by eexists|]. simpl. lia.
    + assert (Hin' : p ∈ log st').
      { apply (inv_dead _ _ _ _ HG). split; [done|]. split; [|done].
        pose proof (rel_next _ _ _ _ HG). lia. }
      rewrite Hnew in Hin'. apply elem_of_app in Hin' as [?|?]; done.
Qed.

Lemma intrusive_destroyed_at_last_release_witness :
  ∃ new, log (final (prog_one ++ [IDestroy 1%N])) = new ++ log (final prog_one) ∧
         NoDup (log (final (prog_one ++ [IDestroy 1%N]))) ∧
         (1%N ∈ new ↔ (0 < handles (final prog_one) 1)%nat ∧
                      handles (final (prog_one ++ [IDestroy 1%N])) 1 = 0%nat).
Proof.
  apply (intrusive_destroyed_at_last_release prog_one (final prog_one) (IDestroy 1%N)
           (final (prog_one ++ [IDestroy 1%N])) 1%N).
  - vm_compute. reflexivity.
  - vm_compute. reflexivity.
  - vm_compute. reflexivity.
  - vm_compute. discriminate.
Defined.

(** ** The member functions, computed *)

Lemma IntrusivePtr_eta h : mkIntrusive (observer_ h) = h.
Proof. by destruct h. Qed.

Lemma from_raw_eq p o st :
  p ≠ nullptr → heap st !! p = Some o →
  IntrusivePtr_from_raw p st =
  Ok (mkIntrusive p)
     (upd_heap (insert p (mkRefCounted (mkCounter (incr (count_ (counter_ o)))))) st).
Proof.
  intros Hp Ho. unfold IntrusivePtr_from_raw. cbn [observer_].
  erewrite ibind_eq; [|rewrite iwhen_nonnull_eq by done; by apply IncRef_eq].
  done.
Qed.

Lemma copy_eq h o st :
  observer_ h ≠ nullptr → heap st !! observer_ h = Some o →
  IntrusivePtr_copy h st =
  Ok h (upd_heap (insert (observer_ h)
                    (mkRefCounted (mkCounter (incr (count_ (counter_ o)))))) st).
Proof.
  intros Hp Ho. unfold IntrusivePtr_copy. cbn [observer_].
  erewrite ibind_eq; [|rewrite iwhen_nonnull_eq by done; by apply IncRef_eq].
  unfold ret. by rewrite IntrusivePtr_eta.
Qed.

Lemma copy_null h st : observer_ h = nullptr → IntrusivePtr_copy h st = Ok h st.
Proof.
  intros Hp. unfold IntrusivePtr_copy, bind. cbn [observer_]. rewrite Hp. simpl.
  unfold ret. rewrite <- Hp. by rewrite IntrusivePtr_eta.
Qed.

Lemma dtor_null h st : observer_ h = nullptr → IntrusivePtr_dtor h st = Ok tt st.
Proof. intros Hp. unfold IntrusivePtr_dtor. by rewrite Hp. Qed.

Lemma dtor_eq h o st :
  observer_ h ≠ nullptr → heap st !! observer_ h = Some o →
  2 ≤ count_ (counter_ o) < 2 ^ 64 →
  IntrusivePtr_dtor h st =
  Ok tt (upd_heap (insert (observer_ h)
                     (mkRefCounted (mkCounter (count_ (counter_ o) - 1)))) st).
Proof.
  intros Hp Ho Hc. unfold IntrusivePtr_dtor. rewrite iwhen_nonnull_eq by done.
  rewrite (DecRef_eq _ _ _ Ho); rewrite decr_small; try lia. done.
Qed.

Lemma dtor_last h o st :
  observer_ h ≠ nullptr → heap st !! observer_ h = Some o →
  count_ (counter_ o) = 1 →
  IntrusivePtr_dtor h st =
  Ok tt (emit (observer_ h) (upd_heap (delete (observer_ h)) st)).
Proof.
  intros Hp Ho Hc. unfold IntrusivePtr_dtor. rewrite iwhen_nonnull_eq by done.
  apply (DecRef_last _ _ _ Ho); [by rewrite Hc|done].
Qed.

Lemma dtor_total st0 k es st h :
  InvG st0 k (observer_ h :: es) st →
  ∃ st', IntrusivePtr_dtor h st = Ok tt st'.
Proof.
  intros H. destruct (decide (observer_ h = nullptr)) as [Hp|Hp].
  { exists st. by apply dtor_null. }
  pose proof (inv_counts _ _ _ _ H _ Hp) as Hc.
  pose proof (inv_bound _ _ _ _ H _ Hp) as Hb.
  rewrite occ_cons, decide_True in Hc, Hb by done.
  destruct (heap st !! observer_ h) as [o|] eqn:Ho; [|lia].
  destruct (decide (count_ (counter_ o) = 1)) as [H1|H1].
  - rewrite (dtor_last _ _ _ Hp Ho H1). by eexists.
  - rewrite (dtor_eq _ _ _ Hp Ho) by lia. by eexists.
Qed.

Lemma State_heap_id st p o :
  heap st !! p = Some o →
  upd_heap (insert p (mkRefCounted (mkCounter (count_ (counter_ o))))) st = st.
Proof.
  intros Ho. destruct st as [hp vs nx lg]. unfold upd_heap. simpl in *. f_equal.
  apply insert_id. rewrite Ho. by destruct o as [[c]].
Qed.

Lemma upd_heap_twice p o1 o2 st :
  upd_heap (insert p o2) (upd_heap (insert p o1) st) = upd_heap (insert p o2) st.
Proof. unfold upd_heap. simpl. by rewrite insert_insert_eq. Qed.

Lemma upd_vars_heap f g st :
  upd_vars f (upd_heap g st) = upd_heap g (upd_vars f st).
Proof. done. Qed.

Lemma upd_vars_insert_delete x h st :
  upd_vars (insert x h) (upd_vars (delete x) st) = upd_vars (insert x h) st.
Proof. unfold upd_vars. simpl. by rewrite insert_delete_eq. Qed.

Lemma upd_vars_delete_insert x h st :
  vars st !! x = None → upd_vars (delete x) (upd_vars (insert x h) st) = st.
Proof.
  intros Hx. destruct st as [hp vs nx lg]. unfold upd_vars. simpl in *. f_equal.
  rewrite delete_insert_eq. by apply delete_id.
Qed.

Lemma upd_vars_insert_id x h st :
  vars st !! x = Some h → upd_vars (insert x h) st = st.
Proof.
  intros Hx. destruct st as [hp vs nx lg]. unfold upd_vars. simpl in *. f_equal.
  by apply insert_id.
Qed.

(** X12: a raw pointer to an object that [IntrusivePtr]s already own can be
    given to a new [IntrusivePtr]: the handle joins the count the object
    keeps, and destroying it again gives back the state before. *)
Theorem intrusive_adopts_owned_pointer ops st x y p :
  run ops init_state = Ok tt st →
  Z.of_nat (length ops) + 2 < 2 ^ 64 →
  vars st !! y = Some (mkIntrusive p) → p ≠ nullptr →
  vars st !! x = None →
  ∃ st', step (IFromRaw x p) st = Ok tt st' ∧
         vars st' = <[x := mkIntrusive p]> (vars st) ∧
         log st' = log st ∧
         IntrusivePtr_UseCount (mkIntrusive p) st' =
           Ok (Z.of_nat (handles st p) + 1) st' ∧
         step (IDestroy x) st' = Ok tt st.
Proof.
  intros Hr Hlen Hy Hp Hx. pose proof (RC_reachable _ _ Hr Hlen) as HI.
  destruct (handle_live _ _ _ _ HI Hy Hp) as (o & Ho & Hc & Hpos & Hb).
  cbn [observer_] in *.
  unfold step at 1. rewrite (ibind_eq _ _ _ _ _ (from_raw_eq _ _ _ Hp Ho)).
  rewrite incr_small by lia. rewrite put_var_eq by done.
  eexists. split; [reflexivity|]. split; [done|]. split; [done|]. split.
  - erewrite UseCount_eq; [|done|simpl; apply lookup_insert_eq]. simpl. by rewrite Hc.
  - unfold step. erewrite ibind_eq; [|apply take_var_eq; simpl; apply lookup_insert_eq].
    erewrite dtor_eq; [|done|simpl; apply lookup_insert_eq|simpl; lia].
    f_equal. simpl.
    replace (count_ (counter_ o) + 1 - 1) with (count_ (counter_ o)) by lia.
    rewrite upd_vars_delete_insert by done.
    rewrite upd_heap_twice. by apply State_heap_id.
Qed.

Lemma intrusive_adopts_owned_pointer_witness :
  ∃ st', step (IFromRaw 2 1) (final prog_one) = Ok tt st' ∧
         vars st' = <[2%N := mkIntrusive 1]> (vars (final prog_one)) ∧
         log st' = log (final prog_one) ∧
         IntrusivePtr_UseCount (mkIntrusive 1) st' =
           Ok (Z.of_nat (handles (final prog_one) 1) + 1) st' ∧
         step (IDestroy 2) st' = Ok tt (final prog_one).
Proof.
  apply (intrusive_adopts_owned_pointer prog_one (final prog_one) 2%N 1%N 1%N).
  - vm_compute. reflexivity.
  - vm_compute. reflexivity.
  - vm_compute. reflexivity.
  - vm_compute. discriminate.
  - vm_compute. reflexivity.
Defined.

(** X13: [x.Reset(p)] with [p] the pointer [x] holds releases the object
    before it takes it again: when [x] is the only handle the object is
    destroyed by the release and the call is undefined; when another handle
    is left the call changes nothing. *)
Theorem intrusive_reset_to_own_pointer ops st x p :
  run ops init_state = Ok tt st →
  Z.of_nat (length ops) + 2 < 2 ^ 64 →
  vars st !! x = Some (mkIntrusive p) → p ≠ nullptr →
  (handles st p = 1%nat → step (IResetPtr x p) st = Undefined) ∧
  ((2 ≤ handles st p)%nat → step (IResetPtr x p) st = Ok tt st).
Proof.
  intros Hr Hlen Hx Hp. pose proof (RC_reachable _ _ Hr Hlen) as HI.
  destruct (handle_live _ _ _ _ HI Hx Hp) as (o & Ho & Hc & Hpos & Hb).
  cbn [observer_] in *.
  set (st1 := upd_vars (delete x) st).
  assert (Ho1 : heap st1 !! p = Some o) by done.
  split; intros Hn; unfold step;
    rewrite (ibind_eq _ _ _ _ _ (take_var_eq _ _ _ Hx)); fold st1.
  - assert (F : IntrusivePtr_Reset_ptr (mkIntrusive p) p st1 = Undefined).
    { unfold IntrusivePtr_Reset_ptr.
      change (when (negb (observer_ (mkIntrusive p) =? nullptr)%N)
                (RefCounted_DecRef (observer_ (mkIntrusive p))))
        with (IntrusivePtr_dtor (mkIntrusive p)).
      erewrite ibind_eq; [|apply (dtor_last (mkIntrusive p) o); [done|exact Ho1|lia]].
      cbn [observer_]. unfold bind. rewrite iwhen_nonnull_eq by done.
      unfold RefCounted_IncRef, bind, get_object. simpl. by rewrite lookup_delete_eq. }
    unfold bind. by rewrite F.
  - assert (F : IntrusivePtr_Reset_ptr (mkIntrusive p) p st1 = Ok (mkIntrusive p) st1).
    { unfold IntrusivePtr_Reset_ptr.
      change (when (negb (observer_ (mkIntrusive p) =? nullptr)%N)
                (RefCounted_DecRef (observer_ (mkIntrusive p))))
        with (IntrusivePtr_dtor (mkIntrusive p)).
      erewrite ibind_eq; [|apply (dtor_eq (mkIntrusive p) o); [done|exact Ho1|lia]].
      cbn [observer_].
      change (bind (when (negb (p =? nullptr)%N) (RefCounted_IncRef p))
                (λ _, ret (mkIntrusive p)))
        with (IntrusivePtr_from_raw p).
      erewrite from_raw_eq; [|done|simpl; apply lookup_insert_eq].
      f_equal. cbn [count_ counter_]. rewrite incr_small by lia.
      replace (count_ (counter_ o) - 1 + 1) with (count_ (counter_ o)) by lia.
      rewrite upd_heap_twice. by apply State_heap_id. }
    rewrite (ibind_eq _ _ _ _ _ F).
    erewrite put_var_eq; [|subst st1; simpl; apply lookup_delete_eq].
    f_equal. subst st1. rewrite upd_vars_insert_delete.
    by apply upd_vars_insert_id.
Qed.

Lemma intrusive_reset_to_own_pointer_witness :
  (handles (final prog_one) 1 = 1%nat →
   step (IResetPtr 1 1) (final prog_one) = Undefined) ∧
  ((2 ≤ handles (final prog_one) 1)%nat →
   step (IResetPtr 1 1) (final prog_one) = Ok tt (final prog_one)).
Proof.
  apply (intrusive_reset_to_own_pointer prog_one (final prog_one) 1%N 1%N).
  - vm_compute. reflexivity.
  - vm_compute. reflexivity.
  - vm_compute. reflexivity.
  - vm_compute. discriminate.
Defined.

Lemma copy_total k st y hy :
  Inv (S k) st → vars st !! y = Some hy →
  ∃ st1, IntrusivePtr_copy hy st = Ok hy st1 ∧ vars st1 = vars st ∧
         InvG st k [observer_ hy] st1.
Proof.
  intros HI Hy. destruct (decide (observer_ hy = nullptr)) as [Hp|Hp].
  - exists st. rewrite (copy_null _ _ Hp). split; [done|]. split; [done|].
    rewrite Hp. apply RC_null. eapply RC_weaken; [exact HI|lia].
  - destruct (handle_live _ _ _ _ HI Hy Hp) as (o & Ho & _).
    rewrite (copy_eq _ _ _ Hp Ho). eexists. split; [reflexivity|].
    split; [done|].
    apply (copy_inv st k [] st hy hy); [exact HI|by apply copy_eq].
Qed.

(** X14: the assignment [x = y] is defined whatever the two handles are;
    afterwards [x] holds the pointer of [y]; when both held the same pointer
    no counter has changed, so self-assignment and self-move-assignment
    leave the state as it was. *)
Theorem intrusive_assignment ops st x y hx hy :
  run ops init_state = Ok tt st →
  Z.of_nat (length ops) + 2 < 2 ^ 64 →
  vars st !! x = Some hx → vars st !! y = Some hy →
  (∃ st', step (IAssign x y) st = Ok tt st' ∧
          vars st' = <[x := hy]> (vars st) ∧
          (observer_ hx = observer_ hy → st' = upd_vars (insert x hy) st)) ∧
  step (IAssign x x) st = Ok tt st ∧
  step (IMoveAssign x x) st = Ok tt st.
Proof.
  intros Hr Hlen Hx Hy. pose proof (RC_reachable _ _ Hr Hlen) as HI.
  assert (Hgen : ∀ y hy, vars st !! y = Some hy →
    ∃ st', step (IAssign x y) st = Ok tt st' ∧
           vars st' = <[x := hy]> (vars st) ∧
           (observer_ hx = observer_ hy → st' = upd_vars (insert x hy) st)).
  { clear y hy Hy. intros y hy Hy. unfold step.
    rewrite (ibind_eq _ _ _ _ _ (get_var_eq _ _ _ Hy)).
    destruct (copy_total 1 st y hy HI Hy) as (st1 & E1 & V1 & H1).
    rewrite (ibind_eq _ _ _ _ _ E1).
    assert (Hx1 : vars st1 !! x = Some hx) by (by rewrite V1).
    rewrite (ibind_eq _ _ _ _ _ (take_var_eq _ _ _ Hx1)).
    pose proof (take_var_inv _ _ _ _ _ _ _ H1 (take_var_eq _ _ _ Hx1)) as H2.
    cbn [IntrusivePtr_assign IntrusivePtr_Swap fst snd].
    rewrite !IntrusivePtr_eta.
    erewrite ibind_eq; [|apply put_var_eq; simpl; apply lookup_delete_eq].
    set (st3 := upd_vars (insert x hy) (upd_vars (delete x) st1)).
    assert (H3 : InvG st 1 [observer_ hx] st3).
    { refine (put_var_inv _ _ _ _ x hy tt _ _ (put_var_eq _ _ _ _));
        [|simpl; apply lookup_delete_eq].
      eapply RC_ext; [exact H2|]. intros p Hp. rewrite !occ_cons. lia. }
    destruct (dtor_total _ _ _ _ _ H3) as (st' & E').
    exists st'. split; [done|].
    pose proof (dtor_inv _ _ _ _ _ _ _ H3 (λ _, handles_pos st x hx Hx) E') as [_ V'].
    split.
    { rewrite V'. subst st3. simpl. by rewrite V1, insert_delete_eq. }
    intros Heq. destruct (decide (observer_ hy = nullptr)) as [Hp|Hp].
    - rewrite (copy_null _ _ Hp) in E1. injection E1 as <-.
      rewrite dtor_null in E' by congruence. injection E' as <-.
      subst st3. by rewrite upd_vars_insert_delete.
    - destruct (handle_live _ _ _ _ HI Hy Hp) as (o & Ho & Hc & Hpos & Hb).
      rewrite (copy_eq _ _ _ Hp Ho), incr_small in E1 by lia. injection E1 as <-.
      erewrite dtor_eq in E'; [|congruence|rewrite Heq; simpl; apply lookup_insert_eq|simpl; lia].
      injection E' as <-. subst st3. rewrite Heq. cbn [count_ counter_].
      replace (count_ (counter_ o) + 1 - 1) with (count_ (counter_ o)) by lia.
      rewrite upd_vars_insert_delete, upd_vars_heap, upd_heap_twice.
      rewrite State_heap_id; [done|]. done. }
  split; [by apply Hgen|]. split.
  - destruct (Hgen x hx Hx) as (st' & E & _ & Hsame).
    rewrite E, (Hsame eq_refl). by rewrite upd_vars_insert_id.
  - unfold step.
    rewrite (ibind_eq _ _ _ _ _ (take_var_eq _ _ _ Hx)).
    erewrite ibind_eq; [|apply put_var_eq; simpl; apply lookup_delete_eq].
    erewrite ibind_eq; [|apply take_var_eq; simpl; apply lookup_insert_eq].
    cbn [IntrusivePtr_assign IntrusivePtr_Swap IntrusivePtr_move fst snd observer_].
    rewrite IntrusivePtr_eta.
    erewrite ibind_eq; [|apply put_var_eq; simpl; apply lookup_delete_eq].
    rewrite dtor_null by done. f_equal.
    destruct st as [hp vs nx lg]. unfold upd_vars. simpl in *. f_equal.
    rewrite delete_insert_eq, delete_delete_eq, insert_delete_eq. by apply insert_id.
Qed.

Lemma intrusive_assignment_witness :
  (∃ st', step (IAssign 1 2) (final prog_pair) = Ok tt st' ∧
          vars st' = <[1%N := mkIntrusive 2]> (vars (final prog_pair)) ∧
          (observer_ (mkIntrusive 1) = observer_ (mkIntrusive 2) →
           st' = upd_vars (insert 1%N (mkIntrusive 2)) (final prog_pair))) ∧
  step (IAssign 1 1) (final prog_pair) = Ok tt (final prog_pair) ∧
  step (IMoveAssign 1 1) (final prog_pair) = Ok tt (final prog_pair).
Proof.
  apply (intrusive_assignment prog_pair (final prog_pair) 1%N 2%N
           (mkIntrusive 1) (mkIntrusive 2)).
  - vm_compute. reflexivity.
  - vm_compute. reflexivity.
  - vm_compute. reflexivity.
  - vm_compute. reflexivity.
Defined.

(** X15: [MakeIntrusive] returns the only handle on a new object: its use
    count is 1; destroying the handle destroys the object and leaves the
    heap and the variables as they were before. *)
Theorem make_intrusive_lifecycle ops st x :
  run ops init_state = Ok tt st →
  Z.of_nat (length ops) + 2 < 2 ^ 64 →
  vars st !! x = None →
  ∃ st1 st2,
    step (IMake x) st = Ok tt st1 ∧
    vars st1 !! x = Some (mkIntrusive (next_ st)) ∧
    IntrusivePtr_UseCount (mkIntrusive (next_ st)) st1 = Ok 1 st1 ∧
    IntrusivePtr_bool (mkIntrusive (next_ st)) = true ∧
    step (IDestroy x) st1 = Ok tt st2 ∧
    log st2 = next_ st :: log st ∧ heap st2 = heap st ∧ vars st2 = vars st.
Proof.
  intros Hr Hlen Hx. pose proof (RC_reachable _ _ Hr Hlen) as HI.
  pose proof (inv_next_pos _ _ _ _ HI) as Hn.
  assert (Hfree : heap st !! next_ st = None) by (apply (inv_next _ _ _ _ HI); lia).
  set (p := next_ st) in *.
  set (stA := upd_next N.succ (upd_heap (insert p RefCounted_ctor) st)).
  assert (E0 : new_object RefCounted_ctor st = Ok p stA).
  { unfold new_object. fold p. by rewrite Hfree. }
  set (stB := upd_heap (insert p (mkRefCounted (mkCounter 1))) stA).
  assert (E1 : MakeIntrusive st = Ok (mkIntrusive p) stB).
  { unfold MakeIntrusive. rewrite (ibind_eq _ _ _ _ _ E0).
    erewrite from_raw_eq; [|done|subst stA; simpl; apply lookup_insert_eq]. done. }
  set (st1 := upd_vars (insert x (mkIntrusive p)) stB).
  assert (E2 : step (IMake x) st = Ok tt st1).
  { unfold step. rewrite (ibind_eq _ _ _ _ _ E1). by apply put_var_eq. }
  assert (Ho1 : heap st1 !! p = Some (mkRefCounted (mkCounter 1))).
  { subst st1 stB. simpl. apply lookup_insert_eq. }
  eexists st1, _. split; [done|]. split; [subst st1; simpl; apply lookup_insert_eq|].
  split; [by rewrite (UseCount_eq (mkIntrusive p) _ _ Hn Ho1)|].
  split; [unfold IntrusivePtr_bool; cbn [observer_]; by apply negb_true_iff, N.eqb_neq|].
  split.
  { unfold step. erewrite ibind_eq; [|apply take_var_eq; subst st1; simpl; apply lookup_insert_eq].
    apply (dtor_last (mkIntrusive p) (mkRefCounted (mkCounter 1))); done. }
  simpl. split; [done|]. split.
  - rewrite insert_insert_eq, delete_insert_eq. by apply delete_id.
  - rewrite delete_insert_eq. by apply delete_id.
Qed.

Lemma make_intrusive_lifecycle_witness :
  ∃ st1 st2,
    step (IMake 2) (final prog_one) = Ok tt st1 ∧
    vars st1 !! 2%N = Some (mkIntrusive (next_ (final prog_one))) ∧
    IntrusivePtr_UseCount (mkIntrusive (next_ (final prog_one))) st1 = Ok 1 st1 ∧
    IntrusivePtr_bool (mkIntrusive (next_ (final prog_one))) = true ∧
    step (IDestroy 2) st1 = Ok tt st2 ∧
    log st2 = next_ (final prog_one) :: log (final prog_one) ∧
    heap st2 = heap (final prog_one) ∧ vars st2 = vars (final prog_one).
Proof.
  apply (make_intrusive_lifecycle prog_one (final prog_one) 2%N).
  - vm_compute. reflexivity.
  - vm_compute. reflexivity.
  - vm_compute. reflexivity.
Defined.

(** ** Counting by hand: the member functions of [RefCounted] *)

Lemma times_IncRef p n : ∀ st c,
  heap st !! p = Some (mkRefCounted (mkCounter c)) →
  0 ≤ c → c + Z.of_nat n < 2 ^ 64 →
  times n (RefCounted_IncRef p) st =
  Ok tt (upd_heap (insert p (mkRefCounted (mkCounter (c + Z.of_nat n)))) st).
Proof.
  induction n as [|n IH]; intros st c Ho Hc Hb.
  - simpl. unfold ret. f_equal. replace (c + Z.of_nat 0) with c by lia.
    symmetry. by apply (State_heap_id st p (mkRefCounted (mkCounter c))).
  - cbn [times]. rewrite (ibind_eq _ _ _ _ _ (IncRef_eq _ _ _ Ho)).
    cbn [count_ counter_]. rewrite incr_small by lia.
    rewrite (IH _ (c + 1)); [|simpl; apply lookup_insert_eq|lia|lia].
    rewrite upd_heap_twice.
    by replace (c + 1 + Z.of_nat n) with (c + Z.of_nat (S n)) by lia.
Qed.

Lemma times_DecRef p n : ∀ st c,
  heap st !! p = Some (mkRefCounted (mkCounter c)) →
  Z.of_nat n < c → c < 2 ^ 64 →
  times n (RefCounted_DecRef p) st =
  Ok tt (upd_heap (insert p (mkRefCounted (mkCounter (c - Z.of_nat n)))) st).
Proof.
  induction n as [|n IH]; intros st c Ho Hc Hb.
  - simpl. unfold ret. f_equal. replace (c - Z.of_nat 0) with c by lia.
    symmetry. by apply (State_heap_id st p (mkRefCounted (mkCounter c))).
  - cbn [times].
    rewrite (ibind_eq _ _ _ _ _ (DecRef_eq _ _ _ Ho ltac:(simpl; rewrite decr_small; lia))).
    cbn [count_ counter_]. rewrite decr_small by lia.
    rewrite (IH _ (c - 1)); [|simpl; apply lookup_insert_eq|lia|lia].
    rewrite upd_heap_twice.
    by replace (c - 1 - Z.of_nat n) with (c - Z.of_nat (S n)) by lia.
Qed.

Lemma times_add a b m st :
  times (a + b) m st = (do _ <- times a m; times b m) st.
Proof.
  revert st. induction a as [|a IH]; intros st; [done|].
  cbn [Nat.add times]. unfold bind.
  destruct (m st) as [u st1|]; [|done]. rewrite IH. done.
Qed.

(** X16: [IncRef] and [DecRef] called by hand on an object whose counter is
    zero: after [n] increments the counter is [n]; [j < n] decrements leave
    the object alive with counter [n - j]; the [n]-th decrement destroys it.
    A decrement at counter zero wraps to [2^64 - 1] and destroys nothing. *)
Theorem manual_counting st p n j :
  heap st !! p = Some RefCounted_ctor → p ≠ nullptr →
  (0 < n)%nat → Z.of_nat n < 2 ^ 64 → (j < n)%nat →
  (do _ <- times n (RefCounted_IncRef p);
   do _ <- times j (RefCounted_DecRef p);
   RefCounted_RefCount p) st =
    Ok (Z.of_nat n - Z.of_nat j)
       (upd_heap (insert p (mkRefCounted (mkCounter (Z.of_nat n - Z.of_nat j)))) st) ∧
  (do _ <- times n (RefCounted_IncRef p); times n (RefCounted_DecRef p)) st =
    Ok tt (emit p (upd_heap (delete p) st)) ∧
  RefCounted_DecRef p st =
    Ok tt (upd_heap (insert p (mkRefCounted (mkCounter (2 ^ 64 - 1)))) st).
Proof.
  intros Ho Hp Hn Hb Hj.
  assert (EI : times n (RefCounted_IncRef p) st =
               Ok tt (upd_heap (insert p (mkRefCounted (mkCounter (Z.of_nat n)))) st)).
  { by rewrite (times_IncRef p n st 0 Ho) by lia. }
  split; [|split].
  - rewrite (ibind_eq _ _ _ _ _ EI).
    erewrite ibind_eq;
      [|apply (times_DecRef p j _ (Z.of_nat n)); [simpl; apply lookup_insert_eq|lia|lia]].
    rewrite upd_heap_twice.
    erewrite RefCount_eq; [|simpl; apply lookup_insert_eq]. done.
  - rewrite (ibind_eq _ _ _ _ _ EI).
    destruct n as [|n]; [lia|].
    replace (times (S n) (RefCounted_DecRef p))
      with (times (n + 1) (RefCounted_DecRef p)) by (f_equal; lia).
    rewrite times_add.
    erewrite ibind_eq;
      [|apply (times_DecRef p n _ (Z.of_nat (S n))); [simpl; apply lookup_insert_eq|lia|lia]].
    rewrite upd_heap_twice. cbn [times].
    erewrite ibind_eq;
      [|apply (DecRef_last p (mkRefCounted (mkCounter (Z.of_nat (S n) - Z.of_nat n))));
        [simpl; apply lookup_insert_eq| |done]].
    2:{ simpl count_. replace (Z.of_nat (S n) - Z.of_nat n) with 1 by lia. done. }
    unfold ret. f_equal. unfold emit, upd_heap. simpl. by rewrite delete_insert_eq.
  - rewrite (DecRef_eq _ _ _ Ho); [done|]. done.
Qed.

Lemma manual_counting_witness :
  (do _ <- times 3 (RefCounted_IncRef 1);
   do _ <- times 2 (RefCounted_DecRef 1);
   RefCounted_RefCount 1) (final [NewObject]) =
    Ok (Z.of_nat 3 - Z.of_nat 2)
       (upd_heap (insert 1%N (mkRefCounted (mkCounter (Z.of_nat 3 - Z.of_nat 2))))
          (final [NewObject])) ∧
  (do _ <- times 3 (RefCounted_IncRef 1); times 3 (RefCounted_DecRef 1))
    (final [NewObject]) =
    Ok tt (emit 1%N (upd_heap (delete 1%N) (final [NewObject]))) ∧
  RefCounted_DecRef 1 (final [NewObject]) =
    Ok tt (upd_heap (insert 1%N (mkRefCounted (mkCounter (2 ^ 64 - 1))))
             (final [NewObject])).
Proof.
  apply (manual_counting (final [NewObject]) 1%N 3 2).
  - vm_compute. reflexivity.
  - vm_compute. discriminate.
  - lia.
  - vm_compute. reflexivity.
  - lia.
Defined.

End IntrusiveFacts.

(** * Exclusive ownership: proofs *)

Module UniqueFacts.
Import Unique.

Section facts.
Context {Deleter : Type}.
Context (call : Deleter → addr → gset N → option (gset N)).
Context (moved_from : Deleter → Deleter).
Context (array : bool).

#[local, warnings="-notation-overridden"] Notation "'do' x <- m ; k" := (bind m (λ x, k))
  (at level 10, x name, m at level 100, k at level 200, only parsing).

#[local] Abbreviation step' := (step call moved_from array).
#[local] Abbreviation run' := (run call moved_from array).

Ltac pair_simpl :=
  unfold Get, GetDeleter, GetFirst, GetSecond, GetValue in *;
  cbn [Get GetDeleter GetFirst GetSecond GetValue FirstBase SecondBase value_
       ptr_cp_ SetFirst SetSecond CompressedPair_ctor UniquePtr_ctor
       UniquePtr_move UniquePtr_Swap UniquePtr_Release fst snd] in *.

Ltac usimpl :=
  cbn [heap vars next_ log upd_heap upd_vars upd_next emit] in *.

Lemma ubind_Ok {A B} (m : M (Deleter := Deleter) A) (k : A → M B) st b st' :
  bind m k st = Ok b st' → ∃ a st1, m st = Ok a st1 ∧ k a st1 = Ok b st'.
Proof.
  unfold bind. destruct (m st) as [a st1|]; [|done]. intros H. by exists a, st1.
Qed.

Lemma ubind_eq {A B} (m : M (Deleter := Deleter) A) (k : A → M B) st a st1 :
  m st = Ok a st1 → bind m k st = k a st1.
Proof. intros H. unfold bind. by rewrite H. Qed.

Lemma uget_var_Ok x (st : State (Deleter := Deleter)) h st' :
  get_var x st = Ok h st' → st' = st ∧ vars st !! x = Some h.
Proof. unfold get_var. destruct (vars st !! x); [|done]. by intros [= <- <-]. Qed.

Lemma utake_var_Ok x (st : State (Deleter := Deleter)) h st' :
  take_var x st = Ok h st' → vars st !! x = Some h ∧ st' = upd_vars (delete x) st.
Proof. unfold take_var. destruct (vars st !! x); [|done]. by intros [= <- <-]. Qed.

Lemma uput_var_Ok x h (st : State (Deleter := Deleter)) u st' :
  put_var x h st = Ok u st' → vars st !! x = None ∧ st' = upd_vars (insert x h) st.
Proof. unfold put_var. destruct (vars st !! x); [done|]. by intros [= _ <-]. Qed.

Lemma uget_var_eq x h (st : State (Deleter := Deleter)) :
  vars st !! x = Some h → get_var x st = Ok h st.
Proof. intros H. unfold get_var. by rewrite H. Qed.
Lemma utake_var_eq x h (st : State (Deleter := Deleter)) :
  vars st !! x = Some h → take_var x st = Ok h (upd_vars (delete x) st).
Proof. intros H. unfold take_var. by rewrite H. Qed.
Lemma uput_var_eq x h (st : State (Deleter := Deleter)) :
  vars st !! x = None → put_var x h st = Ok tt (upd_vars (insert x h) st).
Proof. intros H. unfold put_var. by rewrite H. Qed.

Lemma invoke_Ok d p st u st' :
  invoke call d p st = Ok u st' →
  ∃ hp, call d p (heap st) = Some hp ∧
        st' = emit (Invoked d p) (upd_heap (λ _, hp) st).
Proof.
  unfold invoke. destruct (call d p (heap st)) as [hp|]; [|done].
  intros [= _ <-]. by exists hp.
Qed.

Lemma invoke_eq d p st hp :
  call d p (heap st) = Some hp →
  invoke call d p st = Ok tt (emit (Invoked d p) (upd_heap (λ _, hp) st)).
Proof. intros H. unfold invoke. by rewrite H. Qed.

(** ** The ownership invariant *)

Lemma OwnedG_ext es es' (st : State (Deleter := Deleter)) :
  OwnedG es st → (∀ p, p ≠ nullptr → occ p es' = occ p es) → OwnedG es' st.
Proof.
  intros [Hn H] Hocc. split; [done|]. intros p Hp. rewrite (Hocc p Hp). by apply H.
Qed.

Lemma OwnedG_null es (st : State (Deleter := Deleter)) :
  OwnedG (nullptr :: es) st ↔ OwnedG es st.
Proof.
  split; intros H; eapply OwnedG_ext; try exact H; intros p Hp;
    rewrite occ_cons; by rewrite decide_False.
Qed.

Lemma take_var_owned es (st : State (Deleter := Deleter)) x h st' :
  OwnedG es st → take_var x st = Ok h st' → OwnedG (Get h :: es) st'.
Proof.
  intros [Hn H] [Hx ->]%utake_var_Ok. split; [done|]. intros p Hp.
  specialize (H p Hp). unfold holders in *. usimpl.
  rewrite (refs_on_delete Get p x h _ Hx) in H. rewrite occ_cons. lia.
Qed.

Lemma put_var_owned es (st : State (Deleter := Deleter)) x h u st' :
  OwnedG (Get h :: es) st → put_var x h st = Ok u st' → OwnedG es st'.
Proof.
  intros [Hn H] [Hx ->]%uput_var_Ok. split; [done|]. intros p Hp.
  specialize (H p Hp). unfold holders in *. usimpl.
  rewrite (refs_on_insert Get p x h _ Hx). rewrite occ_cons in H. lia.
Qed.

Lemma invoke_owned es d p st u st' :
  OwnedG (p :: es) st → invoke call d p st = Ok u st' → OwnedG es st'.
Proof.
  intros [Hn H] (hp & _ & ->)%invoke_Ok. split; [done|]. intros q Hq.
  specialize (H q Hq). unfold holders in *. usimpl. cbn [disposed event_ptr].
  rewrite occ_cons in H. lia.
Qed.

Lemma released_owned es p (st : State (Deleter := Deleter)) :
  OwnedG (p :: es) st → OwnedG es (emit (Released p) st).
Proof.
  intros [Hn H]. split; [done|]. intros q Hq.
  specialize (H q Hq). unfold holders in *. usimpl. cbn [disposed event_ptr].
  rewrite occ_cons in H. lia.
Qed.

Lemma new_object_owned es (st : State (Deleter := Deleter)) p st' :
  OwnedG es st → new_object st = Ok p st' →
  p = next_ st ∧ p ≠ nullptr ∧ OwnedG (p :: es) st'.
Proof.
  intros [Hn H] [= <- <-]. split; [done|]. split; [done|]. split.
  - usimpl. unfold nullptr in *. lia.
  - intros q Hq. specialize (H q Hq). unfold holders in *. usimpl.
    rewrite occ_cons. repeat case_decide; lia.
Qed.

(** Every operation of an owning program preserves the invariant. *)
Lemma step_owned st op u st' :
  Owned st → owning op = true → step' op st = Ok u st' → Owned st'.
Proof.
  unfold Owned. intros H Hop Hs. destruct op; simpl in Hs, Hop.
  - (* UNew *)
    apply ubind_Ok in Hs as (p & st1 & H1 & H2).
    destruct (new_object_owned _ _ _ _ H H1) as (_ & _ & H').
    refine (put_var_owned _ _ _ _ _ _ _ H2). exact H'.
  - (* UFromRaw *)
    apply N.eqb_eq in Hop as ->.
    refine (put_var_owned _ _ _ _ _ _ _ Hs). by apply OwnedG_null.
  - (* UMove *)
    apply ubind_Ok in Hs as (other & st1 & H1 & Hs).
    pose proof (take_var_owned _ _ _ _ _ H H1) as H'.
    apply ubind_Ok in Hs as (u1 & st2 & H2 & H3).
    refine (put_var_owned _ _ _ _ _ _ _ H3).
    refine (put_var_owned _ _ _ _ _ _ _ H2).
    eapply OwnedG_ext; [exact H'|]. intros p Hp.
    pair_simpl. rewrite !occ_cons. rewrite (decide_False (P := nullptr = p)) by done. lia.
  - (* UMoveAssign *)
    destruct (x =? y)%N.
    { by apply ubind_Ok in Hs as (h & st1 & [-> _]%uget_var_Ok & [= _ <-]). }
    apply ubind_Ok in Hs as (other & st1 & H1 & Hs).
    pose proof (take_var_owned _ _ _ _ _ H H1) as H'.
    apply ubind_Ok in Hs as (this & st2 & H2 & Hs).
    pose proof (take_var_owned _ _ _ _ _ H' H2) as H''.
    apply ubind_Ok in Hs as (r & st3 & H3 & Hs).
    apply ubind_Ok in Hs as (u1 & st4 & H4 & H5).
    refine (put_var_owned _ _ _ _ _ _ _ H5).
    refine (put_var_owned _ _ _ _ _ _ _ H4).
    unfold UniquePtr_move_assign in H3.
    destruct (negb array && (GetFirst (ptr_cp_ other) =? GetFirst (ptr_cp_ this))%N).
    + injection H3 as <- <-. cbn [fst snd].
      eapply OwnedG_ext; [exact H''|]. intros p Hp. rewrite !occ_cons. lia.
    + apply ubind_Ok in H3 as (u2 & st5 & H3 & [= <- <-]). cbn [fst snd].
      pose proof (invoke_owned _ _ _ _ _ _ H'' H3) as H5'.
      eapply OwnedG_ext; [exact H5'|]. intros p Hp. pair_simpl. rewrite !occ_cons.
      rewrite (decide_False (P := nullptr = p)) by done. lia.
  - (* UAssignNull *)
    apply ubind_Ok in Hs as (this & st1 & H1 & Hs).
    pose proof (take_var_owned _ _ _ _ _ H H1) as H'.
    apply ubind_Ok in Hs as (this' & st2 & H2 & H3).
    apply ubind_Ok in H2 as (u1 & st3 & H2 & [= <- <-]).
    refine (put_var_owned _ _ _ _ _ _ _ H3). apply OwnedG_null.
    exact (invoke_owned _ _ _ _ _ _ H' H2).
  - (* URelease *)
    apply ubind_Ok in Hs as (this & st1 & H1 & Hs).
    pose proof (take_var_owned _ _ _ _ _ H H1) as H'.
    apply ubind_Ok in Hs as (u1 & st2 & H2 & [= _ <-]).
    apply released_owned.
    refine (put_var_owned _ _ _ _ _ _ _ H2).
    eapply OwnedG_ext; [exact H'|]. intros p Hp. pair_simpl. rewrite !occ_cons.
    rewrite (decide_False (P := nullptr = p)) by done. lia.
  - (* UReset *)
    apply ubind_Ok in Hs as (this & st1 & H1 & Hs).
    pose proof (take_var_owned _ _ _ _ _ H H1) as H'.
    apply ubind_Ok in Hs as (this' & st2 & H2 & H3).
    apply ubind_Ok in H2 as (u1 & st3 & H2 & [= <- <-]).
    refine (put_var_owned _ _ _ _ _ _ _ H3). apply OwnedG_null.
    exact (invoke_owned _ _ _ _ _ _ H' H2).
  - (* UResetPtr *)
    apply N.eqb_eq in Hop as ->.
    apply ubind_Ok in Hs as (this & st1 & H1 & Hs).
    pose proof (take_var_owned _ _ _ _ _ H H1) as H'.
    apply ubind_Ok in Hs as (this' & st2 & H2 & H3).
    apply ubind_Ok in H2 as (u1 & st3 & H2 & [= <- <-]).
    refine (put_var_owned _ _ _ _ _ _ _ H3). apply OwnedG_null.
    exact (invoke_owned _ _ _ _ _ _ H' H2).
  - (* UResetNew *)
    apply ubind_Ok in Hs as (p & st1 & H1 & Hs).
    destruct (new_object_owned _ _ _ _ H H1) as (_ & _ & H').
    apply ubind_Ok in Hs as (this & st2 & H2 & Hs).
    pose proof (take_var_owned _ _ _ _ _ H' H2) as H''.
    apply ubind_Ok in Hs as (this' & st3 & H3 & H4).
    apply ubind_Ok in H3 as (u1 & st4 & H3 & [= <- <-]).
    refine (put_var_owned _ _ _ _ _ _ _ H4).
    exact (invoke_owned _ _ _ _ _ _ H'' H3).
  - (* USwap *)
    destruct (x =? y)%N.
    { by apply ubind_Ok in Hs as (h & st1 & [-> _]%uget_var_Ok & [= _ <-]). }
    apply ubind_Ok in Hs as (this & st1 & H1 & Hs).
    pose proof (take_var_owned _ _ _ _ _ H H1) as H'.
    apply ubind_Ok in Hs as (other & st2 & H2 & Hs).
    pose proof (take_var_owned _ _ _ _ _ H' H2) as H''.
    apply ubind_Ok in Hs as (u1 & st3 & H3 & H4).
    refine (put_var_owned _ _ _ _ _ _ _ H4).
    refine (put_var_owned _ _ _ _ _ _ _ H3).
    eapply OwnedG_ext; [exact H''|]. intros p Hp. pair_simpl. rewrite !occ_cons. lia.
  - (* UDestroy *)
    apply ubind_Ok in Hs as (this & st1 & H1 & Hs).
    pose proof (take_var_owned _ _ _ _ _ H H1) as H'.
    exact (invoke_owned _ _ _ _ _ _ H' Hs).
Qed.

Lemma Owned_init : Owned (init_state (Deleter := Deleter)).
Proof.
  split; [done|]. intros p Hp. unfold holders. simpl.
  rewrite refs_on_empty. rewrite decide_False; [done|]. unfold nullptr in *. lia.
Qed.

Lemma run_owned ops : ∀ st u st',
  Owned st → forallb owning ops = true → run' ops st = Ok u st' → Owned st'.
Proof.
  induction ops as [|op ops IH]; intros st u st' H Hops Hr; simpl in *.
  - by injection Hr as _ <-.
  - apply andb_true_iff in Hops as [Hop Hops].
    destruct (step' op st) as [u1 st1|] eqn:Hs; [|done].
    apply (IH st1 u st'); [|done|done]. by eapply step_owned.
Qed.

Lemma reachable_owned ops st :
  run' ops init_state = Ok tt st → forallb owning ops = true → Owned st.
Proof. intros Hr Hops. eapply run_owned; [apply Owned_init|done|done]. Qed.

Lemma two_holders (m : gmap N (@UniquePtr Deleter)) x y hx hy p :
  x ≠ y → m !! x = Some hx → m !! y = Some hy → Get hx = p → Get hy = p →
  (2 ≤ refs_on Get p m)%nat.
Proof.
  intros Hne Hx Hy Hpx Hpy.
  rewrite (refs_on_delete Get p x hx m Hx), decide_True by done.
  assert (Hy' : delete x m !! y = Some hy) by (by rewrite lookup_delete_ne).
  rewrite (refs_on_delete Get p y hy _ Hy'), decide_True by done. lia.
Qed.

(** X17: in every state an owning program reaches, no two [UniquePtr]
    variables hold the same non-null pointer; every address handed out by
    [new] is either held by exactly one variable or has left the handles
    exactly once (passed to a deleter, or released to the client), never
    both; and no handle or event mentions an address not yet handed out.
    This holds for every deleter. *)
Theorem unique_ownership ops st :
  run' ops init_state = Ok tt st → forallb owning ops = true →
  (∀ x y hx hy, vars st !! x = Some hx → vars st !! y = Some hy →
     Get hx = Get hy → Get hx ≠ nullptr → x = y) ∧
  (∀ p, p ≠ nullptr → (p < next_ st)%N →
     (holders st p + disposed p (log st) = 1)%nat) ∧
  (∀ p, (next_ st ≤ p)%N → holders st p = 0%nat ∧ disposed p (log st) = 0%nat).
Proof.
  intros Hr Hops. destruct (reachable_owned _ _ Hr Hops) as [Hn H].
  split; [|split].
  - intros x y hx hy Hx Hy Heq Hp.
    destruct (decide (x = y)) as [|Hne]; [done|].
    pose proof (two_holders _ _ _ _ _ _ Hne Hx Hy eq_refl (eq_sym Heq)) as H2.
    specialize (H _ Hp). unfold holders in H. simpl in H. case_decide; lia.
  - intros p Hp Hlt. specialize (H p Hp). simpl in H.
    rewrite decide_True in H by done. lia.
  - intros p Hge. assert (Hp : p ≠ nullptr) by (unfold nullptr in *; lia).
    specialize (H p Hp). simpl in H. rewrite decide_False in H by lia. lia.
Qed.

(** ** What the member functions do with the deleter *)

Lemma UState_eq (st st' : State (Deleter := Deleter)) :
  heap st' = heap st → vars st' = vars st → next_ st' = next_ st →
  log st' = log st → st' = st.
Proof. destruct st, st'. simpl. by intros -> -> -> ->. Qed.

Lemma step_UDestroy_eq st x h :
  vars st !! x = Some h →
  step' (UDestroy x) st =
    (match call (GetDeleter h) (Get h) (heap st) with
     | Some hp => Ok tt (emit (Invoked (GetDeleter h) (Get h))
                          (upd_heap (λ _, hp) (upd_vars (delete x) st)))
     | None => Undefined
     end).
Proof.
  intros Hx. unfold step. rewrite (ubind_eq _ _ _ _ _ (utake_var_eq _ _ _ Hx)).
  unfold UniquePtr_dtor, invoke. pair_simpl. usimpl. done.
Qed.

(** X19: the destructor, [Reset()] and the assignment of [nullptr] call the
    deleter once with the pointer held, whatever it is, so also with
    [nullptr]; they are defined exactly when that call is; after a
    [Release()] the destructor calls the deleter with [nullptr]. *)
Theorem deleter_called_on_null_too st x h :
  vars st !! x = Some h →
  step' (UDestroy x) st =
    (match call (GetDeleter h) (Get h) (heap st) with
     | Some hp => Ok tt (emit (Invoked (GetDeleter h) (Get h))
                          (upd_heap (λ _, hp) (upd_vars (delete x) st)))
     | None => Undefined
     end) ∧
  step' (UReset x) st =
    (match call (GetDeleter h) (Get h) (heap st) with
     | Some hp => Ok tt (upd_vars (insert x (UniquePtr_ctor nullptr (GetDeleter h)))
                          (emit (Invoked (GetDeleter h) (Get h))
                             (upd_heap (λ _, hp) (upd_vars (delete x) st))))
     | None => Undefined
     end) ∧
  step' (UAssignNull x) st = step' (UReset x) st ∧
  (do _ <- step' (URelease x); step' (UDestroy x)) st =
    (match call (GetDeleter h) nullptr (heap st) with
     | Some hp => Ok tt (emit (Invoked (GetDeleter h) nullptr)
                          (upd_heap (λ _, hp)
                             (emit (Released (Get h)) (upd_vars (delete x) st))))
     | None => Undefined
     end).
Proof.
  intros Hx. pose proof (step_UDestroy_eq _ _ _ Hx) as E0.
  destruct h as [[[p] [d]]].
  unfold GetDeleter, Get, GetFirst, GetSecond, GetValue in *.
  cbn [ptr_cp_ FirstBase SecondBase value_] in *.
  assert (E1 : step' (UReset x) st =
    (match call d p (heap st) with
     | Some hp => Ok tt (upd_vars (insert x (UniquePtr_ctor nullptr d))
                          (emit (Invoked d p)
                             (upd_heap (λ _, hp) (upd_vars (delete x) st))))
     | None => Undefined
     end)).
  { unfold step. rewrite (ubind_eq _ _ _ _ _ (utake_var_eq _ _ _ Hx)).
    unfold UniquePtr_Reset, bind, invoke. pair_simpl. usimpl.
    destruct (call _ _ _) as [hp|]; [|done].
    unfold put_var, ret. usimpl. by rewrite lookup_delete_eq. }
  split; [|split; [|split]].
  - exact E0.
  - done.
  - rewrite E1. unfold step.
    rewrite (ubind_eq _ _ _ _ _ (utake_var_eq _ _ _ Hx)).
    unfold UniquePtr_assign_null, bind, invoke. pair_simpl. usimpl.
    destruct (call _ _ _) as [hp|]; [|done].
    unfold put_var, ret. usimpl. by rewrite lookup_delete_eq.
  - unfold step at 1. unfold bind at 1.
    rewrite (ubind_eq _ _ _ _ _ (utake_var_eq _ _ _ Hx)).
    erewrite ubind_eq; [|apply uput_var_eq; simpl; apply lookup_delete_eq].
    unfold modify. unfold step.
    erewrite ubind_eq; [|apply utake_var_eq; simpl; apply lookup_insert_eq].
    unfold UniquePtr_dtor, invoke. pair_simpl. usimpl.
    destruct (call d nullptr (heap st)) as [hp|]; [|done].
    f_equal. unfold emit, upd_heap, upd_vars. simpl. f_equal.
    by rewrite delete_insert_eq, delete_delete_eq.
Qed.

(** X20: move assignment between two distinct variables that hold the same
    pointer (both null, for instance).  The primary template returns at
    once: no deleter is called, the deleter is not moved, the source keeps
    its pointer.  The array specialisation, which compares addresses of the
    handles, calls the deleter of the target, moves the deleter and empties
    the source.  Self-move-assignment does nothing in both. *)
Theorem move_assign_same_pointer st x y hx hy :
  x ≠ y → vars st !! x = Some hx → vars st !! y = Some hy → Get hy = Get hx →
  step call moved_from false (UMoveAssign x y) st = Ok tt st ∧
  step call moved_from true (UMoveAssign x y) st =
    (match call (GetDeleter hx) (Get hx) (heap st) with
     | Some hp =>
         Ok tt (upd_vars (λ m, <[y := UniquePtr_ctor nullptr (moved_from (GetDeleter hy))]>
                                 (<[x := UniquePtr_ctor (Get hy) (GetDeleter hy)]> m))
                  (emit (Invoked (GetDeleter hx) (Get hx)) (upd_heap (λ _, hp) st)))
     | None => Undefined
     end) ∧
  step' (UMoveAssign x x) st = Ok tt st.
Proof.
  intros Hne Hx Hy Heq.
  assert (Hxy : (x =? y)%N = false) by (by apply N.eqb_neq).
  assert (Hx' : vars (upd_vars (delete y) st) !! x = Some hx).
  { simpl. by rewrite lookup_delete_ne. }
  split; [|split].
  - unfold step. rewrite Hxy.
    rewrite (ubind_eq _ _ _ _ _ (utake_var_eq _ _ _ Hy)).
    rewrite (ubind_eq _ _ _ _ _ (utake_var_eq _ _ _ Hx')).
    unfold UniquePtr_move_assign. pair_simpl. cbn [negb andb].
    replace (value_ (FirstBase (ptr_cp_ hy)) =? value_ (FirstBase (ptr_cp_ hx)))%N
      with true by (symmetry; by apply N.eqb_eq).
    unfold bind at 1. unfold ret at 1. cbn [fst snd].
    erewrite ubind_eq; [|apply uput_var_eq; simpl; apply lookup_delete_eq].
    erewrite uput_var_eq;
      [|simpl; rewrite lookup_insert_ne, lookup_delete_ne by done; apply lookup_delete_eq].
    f_equal. apply UState_eq; try done. simpl.
    rewrite insert_delete_eq. rewrite (insert_id _ x hx) by (by rewrite lookup_delete_ne).
    rewrite insert_delete_eq. by apply insert_id.
  - unfold step. rewrite Hxy.
    rewrite (ubind_eq _ _ _ _ _ (utake_var_eq _ _ _ Hy)).
    rewrite (ubind_eq _ _ _ _ _ (utake_var_eq _ _ _ Hx')).
    unfold UniquePtr_move_assign. pair_simpl. cbn [negb andb].
    unfold bind at 1. unfold bind at 1. unfold invoke. usimpl.
    destruct (call _ _ _) as [hp|]; [|done].
    unfold ret at 1. cbn [fst snd]. pair_simpl.
    erewrite ubind_eq; [|apply uput_var_eq; simpl; apply lookup_delete_eq].
    erewrite uput_var_eq;
      [|simpl; rewrite lookup_insert_ne, lookup_delete_ne by done; apply lookup_delete_eq].
    f_equal. apply UState_eq; try done. simpl.
    rewrite insert_delete_eq.
    rewrite (insert_insert_ne (delete y (vars st)) y x) by done.
    rewrite insert_delete_eq.
    by rewrite (insert_insert_ne (vars st) x y) by done.
  - unfold step. rewrite N.eqb_refl.
    by rewrite (ubind_eq _ _ _ _ _ (uget_var_eq _ _ _ Hx)).
Qed.

End facts.

(** ** The default deleter *)

#[local, warnings="-notation-overridden"] Notation "'do' x <- m ; k" := (bind m (λ x, k))
  (at level 10, x name, m at level 100, k at level 200, only parsing).

Lemma invoked_le_disposed (p : addr) (l : list (Event (Deleter := MyDefaultDelete))) :
  (invoked p l ≤ disposed p l)%nat.
Proof.
  induction l as [|e l IH]; [done|]. cbn [invoked disposed].
  destruct (is_invoked e); simpl; [|case_decide; lia].
  case_bool_decide; case_decide; try done; lia.
Qed.

Lemma default_invoke_heap d p (st : State (Deleter := MyDefaultDelete)) u st' :
  Heap_ok st → invoke MyDefaultDelete_call d p st = Ok u st' → Heap_ok st'.
Proof.
  intros H (hp & Hc & ->)%invoke_Ok. unfold MyDefaultDelete_call in Hc.
  intros q. cbn [heap next_ log emit upd_heap invoked is_invoked event_ptr andb].
  destruct (N.eqb_spec p nullptr) as [->|Hp].
  - injection Hc as <-. rewrite (H q). case_bool_decide; [|done].
    split; intros (? & ? & ?); congruence.
  - case_decide as Hin; [|done]. injection Hc as <-.
    rewrite elem_of_difference, elem_of_singleton, (H q).
    case_bool_decide; split; intros; destruct_and?; repeat split; try done;
      try congruence; try lia.
Qed.

Lemma default_new_object_heap es (st : State (Deleter := MyDefaultDelete)) p st' :
  OwnedG es st → Heap_ok st → new_object st = Ok p st' → Heap_ok st'.
Proof.
  intros [Hn HO] H [= <- <-]. intros q.
  cbn [heap next_ log upd_next upd_heap].
  rewrite elem_of_union, elem_of_singleton, (H q).
  specialize (HO (next_ st) Hn). rewrite decide_False in HO by lia.
  pose proof (invoked_le_disposed (next_ st) (log st)).
  split.
  - intros [->|(? & ? & ?)]; repeat split; try done; lia.
  - intros (? & Hlt & ?). destruct (decide (q = next_ st)); [by left|right].
    repeat split; try done. lia.
Qed.

Lemma Heap_ok_frame (st st' : State (Deleter := MyDefaultDelete)) :
  heap st' = heap st → next_ st' = next_ st → log st' = log st →
  Heap_ok st → Heap_ok st'.
Proof. intros Hh Hn Hl H q. rewrite Hh, Hn, Hl. apply H. Qed.

Lemma released_heap p (st : State (Deleter := MyDefaultDelete)) :
  Heap_ok st → Heap_ok (emit (Released p) st).
Proof. intros H q. apply H. Qed.

Lemma take_var_heap x (st : State (Deleter := MyDefaultDelete)) h st' :
  Heap_ok st → take_var x st = Ok h st' → Heap_ok st'.
Proof. intros H [_ ->]%utake_var_Ok. by eapply Heap_ok_frame. Qed.

Lemma put_var_heap x h (st : State (Deleter := MyDefaultDelete)) u st' :
  Heap_ok st → put_var x h st = Ok u st' → Heap_ok st'.
Proof. intros H [_ ->]%uput_var_Ok. by eapply Heap_ok_frame. Qed.

Lemma default_step_heap array (st : State (Deleter := MyDefaultDelete)) op u st' :
  Owned st → Heap_ok st → default_step array op st = Ok u st' → Heap_ok st'.
Proof.
  unfold default_step. intros HO H Hs. destruct op; simpl in Hs.
  - apply ubind_Ok in Hs as (p & st1 & H1 & H2).
    eapply put_var_heap; [|exact H2]. by eapply default_new_object_heap.
  - by eapply put_var_heap.
  - apply ubind_Ok in Hs as (other & st1 & H1 & Hs).
    apply ubind_Ok in Hs as (u1 & st2 & H2 & H3).
    eapply put_var_heap; [|exact H3]. eapply put_var_heap; [|exact H2].
    by eapply take_var_heap.
  - destruct (x =? y)%N.
    { by apply ubind_Ok in Hs as (h & st1 & [-> _]%uget_var_Ok & [= _ <-]). }
    apply ubind_Ok in Hs as (other & st1 & H1 & Hs).
    apply ubind_Ok in Hs as (this & st2 & H2 & Hs).
    apply ubind_Ok in Hs as (r & st3 & H3 & Hs).
    apply ubind_Ok in Hs as (u1 & st4 & H4 & H5).
    eapply put_var_heap; [|exact H5]. eapply put_var_heap; [|exact H4].
    pose proof (take_var_heap _ _ _ _ (take_var_heap _ _ _ _ H H1) H2) as H'.
    unfold UniquePtr_move_assign in H3.
    destruct (negb array && _).
    + by injection H3 as _ <-.
    + apply ubind_Ok in H3 as (u2 & st5 & H3 & [= _ <-]).
      by eapply default_invoke_heap.
  - apply ubind_Ok in Hs as (this & st1 & H1 & Hs).
    apply ubind_Ok in Hs as (this' & st2 & H2 & H3).
    apply ubind_Ok in H2 as (u1 & st3 & H2 & [= _ <-]).
    eapply put_var_heap; [|exact H3]. eapply default_invoke_heap; [|exact H2].
    by eapply take_var_heap.
  - apply ubind_Ok in Hs as (this & st1 & H1 & Hs).
    apply ubind_Ok in Hs as (u1 & st2 & H2 & [= _ <-]).
    apply released_heap.
    eapply put_var_heap; [|exact H2]. by eapply take_var_heap.
  - apply ubind_Ok in Hs as (this & st1 & H1 & Hs).
    apply ubind_Ok in Hs as (this' & st2 & H2 & H3).
    apply ubind_Ok in H2 as (u1 & st3 & H2 & [= _ <-]).
    eapply put_var_heap; [|exact H3]. eapply default_invoke_heap; [|exact H2].
    by eapply take_var_heap.
  - apply ubind_Ok in Hs as (this & st1 & H1 & Hs).
    apply ubind_Ok in Hs as (this' & st2 & H2 & H3).
    apply ubind_Ok in H2 as (u1 & st3 & H2 & [= _ <-]).
    eapply put_var_heap; [|exact H3]. eapply default_invoke_heap; [|exact H2].
    by eapply take_var_heap.
  - apply ubind_Ok in Hs as (p & st1 & H1 & Hs).
    apply ubind_Ok in Hs as (this & st2 & H2 & Hs).
    apply ubind_Ok in Hs as (this' & st3 & H3 & H4).
    apply ubind_Ok in H3 as (u1 & st4 & H3 & [= _ <-]).
    eapply put_var_heap; [|exact H4]. eapply default_invoke_heap; [|exact H3].
    eapply take_var_heap; [|exact H2]. by eapply default_new_object_heap.
  - destruct (x =? y)%N.
    { by apply ubind_Ok in Hs as (h & st1 & [-> _]%uget_var_Ok & [= _ <-]). }
    apply ubind_Ok in Hs as (this & st1 & H1 & Hs).
    apply ubind_Ok in Hs as (other & st2 & H2 & Hs).
    apply ubind_Ok in Hs as (u1 & st3 & H3 & H4).
    eapply put_var_heap; [|exact H4]. eapply put_var_heap; [|exact H3].
    eapply take_var_heap; [|exact H2]. by eapply take_var_heap.
  - apply ubind_Ok in Hs as (this & st1 & H1 & Hs).
    eapply default_invoke_heap; [|exact Hs]. by eapply take_var_heap.
Qed.

Lemma default_run_heap array ops : ∀ (st : State (Deleter := MyDefaultDelete)) u st',
  Owned st → Heap_ok st → forallb owning ops = true →
  default_run array ops st = Ok u st' → Owned st' ∧ Heap_ok st'.
Proof.
  unfold default_run.
  induction ops as [|op ops IH]; intros st u st' HO H Hops Hr; simpl in *.
  - by injection Hr as _ <-.
  - apply andb_true_iff in Hops as [Hop Hops].
    destruct (step _ _ _ op st) as [u1 st1|] eqn:Hs; [|done].
    apply (IH st1 u st'); try done.
    + by eapply step_owned.
    + by eapply default_step_heap.
Qed.

Lemma Heap_ok_init : Heap_ok (init_state (Deleter := MyDefaultDelete)).
Proof.
  intros p. simpl. split; [by intros ?%elem_of_empty|].
  intros (Hp & Hlt & _). unfold nullptr in Hp. lia.
Qed.

(** X18: with [MyDefaultDelete], in every state an owning program reaches the
    live objects are the addresses handed out on which [delete] has not been
    called; a pointer held by a [UniquePtr] is live; destroying any
    [UniquePtr] is defined, deletes the object it holds and nothing else. *)
Theorem default_delete_is_safe array ops st :
  default_run array ops init_state = Ok tt st → forallb owning ops = true →
  (∀ p, p ∈ heap st ↔ p ≠ nullptr ∧ (p < next_ st)%N ∧ invoked p (log st) = 0%nat) ∧
  (∀ x h, vars st !! x = Some h → Get h ≠ nullptr → Get h ∈ heap st) ∧
  (∀ x h, vars st !! x = Some h →
     ∃ st', default_step array (UDestroy x) st = Ok tt st' ∧
            heap st' = (if (Get h =? nullptr)%N then heap st else heap st ∖ {[Get h]}) ∧
            vars st' = delete x (vars st) ∧
            log st' = Invoked (GetDeleter h) (Get h) :: log st).
Proof.
  intros Hr Hops.
  destruct (default_run_heap array ops _ _ _ Owned_init Heap_ok_init Hops Hr) as [HO H].
  assert (Hheld : ∀ x h, vars st !! x = Some h → Get h ≠ nullptr → Get h ∈ heap st).
  { intros x h Hx Hp. apply H. destruct HO as [Hn HO]. specialize (HO _ Hp).
    pose proof (refs_on_pos Get (Get h) x h _ Hx eq_refl) as Hpos.
    pose proof (invoked_le_disposed (Get h) (log st)).
    unfold holders in HO. simpl in HO. case_decide; [|lia].
    repeat split; try done. lia. }
  split; [done|]. split; [done|].
  intros x h Hx. unfold default_step.
  rewrite (step_UDestroy_eq MyDefaultDelete_call MyDefaultDelete_moved array st x h Hx). unfold MyDefaultDelete_call at 1.
  destruct (N.eqb_spec (Get h) nullptr) as [Hp|Hp].
  - by eexists.
  - rewrite decide_True by (by eapply Hheld). by eexists.
Qed.

Lemma default_delete_is_safe_witness :
  let st := default_final false prog_two in
  (∀ p, p ∈ heap st ↔ p ≠ nullptr ∧ (p < next_ st)%N ∧ invoked p (log st) = 0%nat) ∧
  (∀ x h, vars st !! x = Some h → Get h ≠ nullptr → Get h ∈ heap st) ∧
  (∀ x h, vars st !! x = Some h →
     ∃ st', default_step false (UDestroy x) st = Ok tt st' ∧
            heap st' = (if (Get h =? nullptr)%N then heap st else heap st ∖ {[Get h]}) ∧
            vars st' = delete x (vars st) ∧
            log st' = Invoked (GetDeleter h) (Get h) :: log st).
Proof.
  apply (default_delete_is_safe false prog_two (default_final false prog_two)).
  - vm_compute. reflexivity.
  - vm_compute. reflexivity.
Defined.

Lemma unique_ownership_witness :
  let st := default_final false prog_moved in
  (∀ x y hx hy, vars st !! x = Some hx → vars st !! y = Some hy →
     Get hx = Get hy → Get hx ≠ nullptr → x = y) ∧
  (∀ p, p ≠ nullptr → (p < next_ st)%N →
     (holders st p + disposed p (log st) = 1)%nat) ∧
  (∀ p, (next_ st ≤ p)%N → holders st p = 0%nat ∧ disposed p (log st) = 0%nat).
Proof.
  apply (unique_ownership MyDefaultDelete_call MyDefaultDelete_moved false prog_moved
           (default_final false prog_moved)).
  - vm_compute. reflexivity.
  - vm_compute. reflexivity.
Defined.

Lemma deleter_called_on_null_too_witness :
  let st := default_final false prog_moved in
  let h := UniquePtr_ctor nullptr mkDefaultDelete in
  default_step false (UDestroy 3%N) st =
    (match MyDefaultDelete_call (GetDeleter h) (Get h) (heap st) with
     | Some hp => Ok tt (emit (Invoked (GetDeleter h) (Get h))
                          (upd_heap (λ _, hp) (upd_vars (delete 3%N) st)))
     | None => Undefined
     end) ∧
  default_step false (UReset 3%N) st =
    (match MyDefaultDelete_call (GetDeleter h) (Get h) (heap st) with
     | Some hp => Ok tt (upd_vars (insert 3%N (UniquePtr_ctor nullptr (GetDeleter h)))
                          (emit (Invoked (GetDeleter h) (Get h))
                             (upd_heap (λ _, hp) (upd_vars (delete 3%N) st))))
     | None => Undefined
     end) ∧
  default_step false (UAssignNull 3%N) st = default_step false (UReset 3%N) st ∧
  (do _ <- default_step false (URelease 3%N); default_step false (UDestroy 3%N)) st =
    (match MyDefaultDelete_call (GetDeleter h) nullptr (heap st) with
     | Some hp => Ok tt (emit (Invoked (GetDeleter h) nullptr)
                          (upd_heap (λ _, hp)
                             (emit (Released (Get h)) (upd_vars (delete 3%N) st))))
     | None => Undefined
     end).
Proof.
  apply (deleter_called_on_null_too MyDefaultDelete_call MyDefaultDelete_moved false
           (default_final false prog_moved) 3%N
           (UniquePtr_ctor nullptr mkDefaultDelete)).
  vm_compute. reflexivity.
Defined.

Lemma move_assign_same_pointer_witness :
  let st := default_final false prog_empty in
  let hx := UniquePtr_ctor nullptr mkDefaultDelete in
  let hy := UniquePtr_ctor nullptr mkDefaultDelete in
  default_step false (UMoveAssign 1%N 2%N) st = Ok tt st ∧
  default_step true (UMoveAssign 1%N 2%N) st =
    (match MyDefaultDelete_call (GetDeleter hx) (Get hx) (heap st) with
     | Some hp =>
         Ok tt (upd_vars (λ m, <[2%N := UniquePtr_ctor nullptr
                                           (MyDefaultDelete_moved (GetDeleter hy))]>
                                 (<[1%N := UniquePtr_ctor (Get hy) (GetDeleter hy)]> m))
                  (emit (Invoked (GetDeleter hx) (Get hx)) (upd_heap (λ _, hp) st)))
     | None => Undefined
     end) ∧
  default_step false (UMoveAssign 1%N 1%N) st = Ok tt st.
Proof.
  apply (move_assign_same_pointer MyDefaultDelete_call MyDefaultDelete_moved false
           (default_final false prog_empty) 1%N 2%N
           (UniquePtr_ctor nullptr mkDefaultDelete)
           (UniquePtr_ctor nullptr mkDefaultDelete)).
  - vm_compute. discriminate.
  - vm_compute. reflexivity.
  - vm_compute. reflexivity.
  - vm_compute. reflexivity.
Defined.

Lemma default_invoke_live d p (st : State (Deleter := MyDefaultDelete)) :
  p ≠ nullptr → p ∈ heap st →
  invoke MyDefaultDelete_call d p st =
  Ok tt (emit (Invoked d p) (upd_heap (λ _, heap st ∖ {[p]}) st)).
Proof.
  intros Hp Hin. unfold invoke, MyDefaultDelete_call.
  apply N.eqb_neq in Hp. rewrite Hp. by rewrite decide_True.
Qed.

Lemma default_invoke_dead d p (st : State (Deleter := MyDefaultDelete)) :
  p ≠ nullptr → p ∉ heap st →
  invoke MyDefaultDelete_call d p st = Undefined.
Proof.
  intros Hp Hin. unfold invoke, MyDefaultDelete_call.
  apply N.eqb_neq in Hp. rewrite Hp. by rewrite decide_False.
Qed.

(** X21: [x.Reset(p)] with [p] the pointer [x] holds (and [MyDefaultDelete]):
    the new pointer is stored first and the old one deleted after, so the
    call is defined and leaves [x] holding a pointer to the object it has
    just deleted; destroying [x] then deletes it a second time, which is
    undefined. *)
Theorem unique_reset_to_own_pointer array (st : State (Deleter := MyDefaultDelete)) x h :
  vars st !! x = Some h → Get h ≠ nullptr → Get h ∈ heap st →
  ∃ st', default_step array (UResetPtr x (Get h)) st = Ok tt st' ∧
         vars st' = vars st ∧
         heap st' = heap st ∖ {[Get h]} ∧
         log st' = Invoked (GetDeleter h) (Get h) :: log st ∧
         default_step array (UDestroy x) st' = Undefined.
Proof.
  intros Hx Hp Hin. destruct h as [[[p] [d]]].
  unfold GetDeleter, Get, GetFirst, GetSecond, GetValue in *.
  cbn [ptr_cp_ FirstBase SecondBase value_] in *.
  set (h := mkUnique (mkPair (mkElement p) (mkElement d))) in *.
  set (st1 := upd_vars (delete x) st).
  assert (F : UniquePtr_Reset MyDefaultDelete_call h p st1 =
              Ok h (emit (Invoked d p) (upd_heap (λ _, heap st ∖ {[p]}) st1))).
  { unfold UniquePtr_Reset.
    erewrite ubind_eq; [|apply default_invoke_live; [done|exact Hin]]. done. }
  unfold default_step, step.
  rewrite (ubind_eq _ _ _ _ _ (utake_var_eq _ _ _ Hx)). fold st1.
  rewrite (ubind_eq _ _ _ _ _ F).
  erewrite uput_var_eq; [|simpl; apply lookup_delete_eq].
  eexists. split; [reflexivity|]. simpl.
  split; [rewrite insert_delete_eq; by apply insert_id|].
  split; [done|]. split; [done|].
  erewrite ubind_eq; [|apply utake_var_eq; simpl; apply lookup_insert_eq].
  apply default_invoke_dead; [done|]. simpl.
  intros [_ Hn]%elem_of_difference. apply Hn. by apply elem_of_singleton.
Qed.

Lemma unique_reset_to_own_pointer_witness :
  let st := default_final false prog_two in
  ∃ st', default_step false (UResetPtr 1%N (Get (UniquePtr_ctor 1%N mkDefaultDelete))) st
           = Ok tt st' ∧
         vars st' = vars st ∧
         heap st' = heap st ∖ {[Get (UniquePtr_ctor 1%N mkDefaultDelete)]} ∧
         log st' = Invoked (GetDeleter (UniquePtr_ctor 1%N mkDefaultDelete))
                     (Get (UniquePtr_ctor 1%N mkDefaultDelete)) :: log st ∧
         default_step false (UDestroy 1%N) st' = Undefined.
Proof.
  apply (unique_reset_to_own_pointer false (default_final false prog_two) 1%N
           (UniquePtr_ctor 1%N mkDefaultDelete)).
  - vm_compute. reflexivity.
  - vm_compute. discriminate.
  - vm_compute. reflexivity.
Defined.

End UniqueFacts.
